(** * BigDonRAM: pointer-structure scanner, checked against its specification

  A shallow embedding of the JavaScript sources (system catalogue,
  preprocessor, chain walker, list detector, forward scanner) together with
  the properties of section 8 of the specification.

  JavaScript numbers are modelled as [Z]; the places where the program
  coerces to 32-bit integers (bit operators, [Int32Array] stores) are written
  out with [toInt32] / [toUint32].  JavaScript [Map]s whose iteration order
  is immaterial for the modelled behaviour are [gmap]s, [Set]s that are only
  queried are [gset]s, and [Set]s / [Map]s that are iterated are lists in
  insertion order. *)

From Stdlib Require Import ZArith Lia List Bool.
From Stdlib Require HexString.
From stdpp Require Import gmap strings list fin_maps sorting.

Local Open Scope Z_scope.

(* ===================================================================== *)
(** ** JavaScript number coercions *)
(* ===================================================================== *)

Module JS.

(** ToInt32: wrap to the signed 32-bit range. *)
Definition toInt32 (x : Z) : Z := (x + 2^31) mod 2^32 - 2^31.

(** ToUint32, i.e. [x >>> 0]. *)
Definition toUint32 (x : Z) : Z := x mod 2^32.

(** [a & b], [a | b]: both operands are coerced, the result is an int32. *)
Definition and (a b : Z) : Z := Z.land (toInt32 a) (toInt32 b).
Definition or (a b : Z) : Z := Z.lor (toInt32 a) (toInt32 b).

(** [~a]. *)
Definition not (a : Z) : Z := Z.lnot (toInt32 a).

(** [1 << bit] for [0 <= bit < 32]. *)
Definition shl1 (bit : Z) : Z := toInt32 (Z.shiftl 1 bit).

End JS.

(* ===================================================================== *)
(** ** core.js: [Config], the system catalogue *)
(* ===================================================================== *)

Module Config.

Record MinMax := { mm_min : Z; mm_max : Z }.

(** [memoryRange] is either one [{min,max}] object or an array of two. *)
Inductive MemoryRange :=
| Single (r : MinMax)
| Dual (mem1 mem2 : MinMax).

Record SystemConfig := {
  name      : string;
  mask      : option Z;          (* [null] is [None] *)
  memoryRange : MemoryRange;
  use24Bit  : bool;
  dualRange : bool;
  rangeMode : string
}.

Definition mk (n : string) (m : option Z) (r : MemoryRange)
    (u24 dual : bool) (mode : string) : SystemConfig :=
  {| name := n; mask := m; memoryRange := r; use24Bit := u24;
     dualRange := dual; rangeMode := mode |}.

Definition single (lo hi : Z) : MemoryRange :=
  Single {| mm_min := lo; mm_max := hi |}.

(** [Config.systems], in source order. *)
Definition systems : list (string * SystemConfig) :=
  [ ("n64",  mk "Nintendo 64" None (single 0x80000000 0x807FFFFF) true false "half");
    ("ps1",  mk "PlayStation 1" (Some 0x001FFFFF) (single 0x80000000 0x801FFFFF) false false "half");
    ("ps2",  mk "PlayStation 2" None (single 0x00100000 0x01FFFFFF) false false "quarter");
    ("psp",  mk "PlayStation Portable" (Some 0x01FFFFFF) (single 0x08000000 0x09FFFFFF) false false "quarter");
    ("gba",  mk "Game Boy Advance" None (single 0x02000000 0x0203FFFF) true false "full");
    ("ds",   mk "Nintendo DS" None (single 0x02000000 0x023FFFFF) true false "quater");
    ("dsi",  mk "Nintendo DSi" None (single 0x02000000 0x02FFFFFF) true false "quarter");
    ("gamecube", mk "GameCube" (Some 0x17FFFFFF) (single 0x80000000 0x817FFFFF) false false "quarter");
    ("wii",  mk "Wii" (Some 0x13FFFFFF)
                (Dual {| mm_min := 0x80000000; mm_max := 0x817FFFFF |}
                      {| mm_min := 0x90000000; mm_max := 0x93FFFFFF |})
                false true "wii");
    ("dreamcast", mk "Dreamcast" None (single 0x8C000000 0x8CFFFFFF) true false "half") ].

(** [Config.defaults] entries used by the modelled code. *)
Definition maxFiles : nat := 10.
Definition alignmentMask : Z := 3.
Definition warnBasePointerThreshold : Z := 50000.

Fixpoint assoc {A} (k : string) (l : list (string * A)) : option A :=
  match l with
  | [] => None
  | (k', v) :: rest => if String.eqb k k' then Some v else assoc k rest
  end.

(** [this.systems[systemId] || null] *)
Definition getSystemConfig (systemId : string) : option SystemConfig :=
  assoc systemId systems.

(** [(this.systems[systemId] || {}).mask ?? null] *)
Definition getSystemMask (systemId : string) : option Z :=
  match getSystemConfig systemId with
  | Some cfg => mask cfg
  | None => None
  end.

(** [systemId in this.systems] *)
Definition isValidSystem (systemId : string) : bool :=
  match getSystemConfig systemId with Some _ => true | None => false end.

Record Range := { label : string; rmin : Z; rmax : Z }.

(** [addr => addr & ~3]: the bit operator coerces [addr] to int32. *)
Definition floorAlign (addr : Z) : Z := JS.and addr (JS.not 3).

(** The [switch (cfg.rangeMode)] of [getRanges].  The catalogue pairs the
    modes [full]/[half]/[quarter] with a single memory range and [wii] with
    a dual one; the other pairings do not occur and fall to the default. *)
Definition rangesOf (cfg : SystemConfig) : list Range :=
  match memoryRange cfg with
  | Single r =>
      let min := mm_min r in
      let max := mm_max r in
      if String.eqb (rangeMode cfg) "full" then
        [ {| label := "Range 1"; rmin := min; rmax := max |} ]
      else if String.eqb (rangeMode cfg) "half" then
        let size := max - min + 1 in
        let mid  := floorAlign (min + size / 2) in
        [ {| label := "Range 1"; rmin := min; rmax := mid - 4 |};
          {| label := "Range 2"; rmin := mid; rmax := max |} ]
      else if String.eqb (rangeMode cfg) "quarter" then
        let size := max - min + 1 in
        let step := size / 4 in
        let q1 := floorAlign (min + step) in
        let q2 := floorAlign (min + step * 2) in
        let q3 := floorAlign (min + step * 3) in
        [ {| label := "Range 1"; rmin := min; rmax := q1 - 4 |};
          {| label := "Range 2"; rmin := q1;  rmax := q2 - 4 |};
          {| label := "Range 3"; rmin := q2;  rmax := q3 - 4 |};
          {| label := "Range 4"; rmin := q3;  rmax := max |} ]
      else []
  | Dual mem1 mem2 =>
      if String.eqb (rangeMode cfg) "wii" then
        let mem1Size := mm_max mem1 - mm_min mem1 + 1 in
        let mem1Mid  := floorAlign (mm_min mem1 + mem1Size / 2) in
        let mem2Size := mm_max mem2 - mm_min mem2 + 1 in
        let mem2Mid  := floorAlign (mm_min mem2 + mem2Size / 2) in
        [ {| label := "Range 1 (MEM1 Low)";  rmin := mm_min mem1; rmax := mem1Mid - 4 |};
          {| label := "Range 2 (MEM1 High)"; rmin := mem1Mid;     rmax := mm_max mem1 |};
          {| label := "Range 3 (MEM2 Low)";  rmin := mm_min mem2; rmax := mem2Mid - 4 |};
          {| label := "Range 4 (MEM2 High)"; rmin := mem2Mid;     rmax := mm_max mem2 |} ]
      else []
  end.

Definition getRanges (systemId : string) : list Range :=
  match getSystemConfig systemId with
  | None => []
  | Some cfg => rangesOf cfg
  end.

(** [getAddressRangeIndex] / [Preprocessor._getRangeIndex]: first range that
    contains the address, [None] for the source's [-1]. *)
Fixpoint rangeIndexFrom (i : nat) (ranges : list Range) (address : Z) : option nat :=
  match ranges with
  | [] => None
  | r :: rest =>
      if (rmin r <=? address) && (address <=? rmax r) then Some i
      else rangeIndexFrom (S i) rest address
  end.

Definition getAddressRangeIndex (systemId : string) (address : Z) : option nat :=
  rangeIndexFrom 0 (getRanges systemId) address.

(** *** Shape predicates for range lists *)

(** Lowest and highest address of the memory space of a descriptor. *)
Definition memMin (cfg : SystemConfig) : Z :=
  match memoryRange cfg with Single r => mm_min r | Dual m1 _ => mm_min m1 end.
Definition memMax (cfg : SystemConfig) : Z :=
  match memoryRange cfg with Single r => mm_max r | Dual _ m2 => mm_max m2 end.

(** Consecutive ranges abut at word granularity: the next range starts one
    word after the previous one ends. *)
Fixpoint contiguous (rs : list Range) : bool :=
  match rs with
  | r1 :: ((r2 :: _) as rest) => (rmin r2 =? rmax r1 + 4) && contiguous rest
  | _ => true
  end.

Definition nonEmptyRanges (rs : list Range) : bool :=
  forallb (fun r => rmin r <=? rmax r) rs.

Definition firstMin (rs : list Range) : option Z := rmin <$> head rs.
Definition lastMax (rs : list Range) : option Z := rmax <$> last rs.

(** The covering part of the property P7: a non-empty list that starts at
    the memory minimum, ends at the memory maximum, and whose ranges are
    non-empty and abut without gap or overlap. *)
Definition covers (cfg : SystemConfig) (rs : list Range) : bool :=
  match rs with [] => false | _ => true end
  && bool_decide (firstMin rs = Some (memMin cfg))
  && bool_decide (lastMax rs = Some (memMax cfg))
  && nonEmptyRanges rs && contiguous rs.

(** Every boundary, minimum and maximum alike, is a multiple of 4. *)
Definition allBoundariesAligned (rs : list Range) : bool :=
  forallb (fun r => (rmin r mod 4 =? 0) && (rmax r mod 4 =? 0)) rs.

(** What the code aligns: every range start, and every range end except the
    end of the last range, which is the last byte of the memory space. *)
Fixpoint innerBoundariesAligned (rs : list Range) : bool :=
  match rs with
  | [] => true
  | [r] => rmin r mod 4 =? 0
  | r :: rest => (rmin r mod 4 =? 0) && (rmax r mod 4 =? 0)
                 && innerBoundariesAligned rest
  end.

(** The property as the specification states it. *)
Definition rangesAsSpecified (cfg : SystemConfig) (rs : list Range) : bool :=
  covers cfg rs && allBoundariesAligned rs.

(** The mode strings [getRanges] knows. *)
Definition knownMode (cfg : SystemConfig) : bool :=
  String.eqb (rangeMode cfg) "full" || String.eqb (rangeMode cfg) "half"
  || String.eqb (rangeMode cfg) "quarter" || String.eqb (rangeMode cfg) "wii".

(** The memory space lies in the non-negative int32 range, where
    [floorAlign] leaves the magnitude of an address intact. *)
Definition belowInt32 (cfg : SystemConfig) : bool :=
  (0 <=? memMin cfg) && (memMax cfg <? 2^31).

End Config.


(* ===================================================================== *)
(** ** core.js: [CoreUtils.validateCsvRow], the numeric checks *)
(* ===================================================================== *)

Module CoreUtils.
Import Config.

(** The range part of the checks of [validateCsvRow], for a known system.
    Dual-region systems need bit 31 set, and bit 28 selects the region. *)
Definition inMemoryRange (cfg : SystemConfig) (value : Z) : bool :=
  match memoryRange cfg with
  | Dual mem1 mem2 =>
      if dualRange cfg then
        negb (JS.and value 0x80000000 =? 0)
        && (let isInMem1 := JS.and value 0x10000000 =? 0 in
            let rangeSpec := if isInMem1 then mem1 else mem2 in
            negb ((value <? mm_min rangeSpec + 1) || (mm_max rangeSpec <? value)))
      else true
  | Single range =>
      negb ((value <? mm_min range + 1) || (mm_max range <? value))
  end.

(** The checks [validateCsvRow] applies to a parsed value: 4-byte alignment
    and membership of the system's memory range(s).  An unknown system id
    skips the range check. *)
Definition validValue (systemId : string) (value : Z) : bool :=
  (JS.and value alignmentMask =? 0)
  && match getSystemConfig systemId with
     | None => true
     | Some cfg => inMemoryRange cfg value
     end.

(** A parsed batch.  [parseCSV] pushes an address and a value together for
    every accepted row, so the two arrays it returns have the same length;
    the batch is kept as the list of its rows [(address, value)]. *)
Definition ParsedBatch := list (Z * Z).

(** The batch could have been produced by [parseCSV] for this system. *)
Definition validBatch (systemId : string) (b : ParsedBatch) : bool :=
  forallb (fun row => validValue systemId row.2) b.

End CoreUtils.

(* ===================================================================== *)
(** ** list-detector.js (second half): [Preprocessor] *)
(* ===================================================================== *)

Module Preprocessor.
Import Config CoreUtils.

Inductive Class := staticStatic | staticNode | dynamicNode.

Record RangeCount := {
  rc_label : string; rc_min : Z; rc_max : Z;
  rc_staticNodes : nat; rc_staticStatics : nat
}.

(** [warning] carries the Range 1 total that the warning text reports. *)
Record Recommendation := {
  skipSticky : bool; activeRangeIndex : nat; warning : option Z
}.

Record Counts := {
  cnt_batchCount : nat;
  totalNodes     : nat;
  staticStatics  : nat;
  staticNodes    : nat;
  dynamicNodes   : nat;
  ranges         : list RangeCount;
  recommendation : Recommendation
}.

(** [nodeMap] maps an address to its [Int32Array(maxBatches)] of slots. *)
Record State := {
  systemId    : option string;
  batchCount  : nat;
  maxBatches  : nat;
  nodeMap     : gmap Z (list Z);
  _countsCache : option Counts
}.

Definition constructor : State :=
  {| systemId := None; batchCount := 0; maxBatches := maxFiles;
     nodeMap := ∅; _countsCache := None |}.

Definition reset (st : State) : State :=
  {| systemId := None; batchCount := 0; maxBatches := maxBatches st;
     nodeMap := ∅; _countsCache := None |}.

(** [None] stands for the thrown [Error]. *)
Definition setSystem (st : State) (id : string) : option State :=
  if negb (isValidSystem id) then None
  else if bool_decide (systemId st = Some id) then Some st
  else Some {| systemId := Some id; batchCount := 0; maxBatches := maxBatches st;
               nodeMap := ∅; _countsCache := None |}.

(** The loop of [_classify] over [slots[0 .. batchCount-1]], with its early
    [break] on the first zero. *)
Fixpoint classifyLoop (vs : list Z) (firstValue : Z) (allSameValue : bool) : Class :=
  match vs with
  | [] => if allSameValue then staticStatic else staticNode
  | v :: rest =>
      if v =? 0 then dynamicNode
      else if firstValue =? 0 then classifyLoop rest v allSameValue
      else if negb (v =? firstValue) then classifyLoop rest firstValue false
      else classifyLoop rest firstValue allSameValue
  end.

Definition _classify (batchCount : nat) (slots : list Z) : Class :=
  classifyLoop (take batchCount slots) 0 true.

Definition _getRangeIndex (ranges : list Range) (address : Z) : option nat :=
  rangeIndexFrom 0 ranges address.

Definition _buildRecommendation (sysId : option string)
    (rangeCounts : list RangeCount) (totalStaticNodes totalStaticStatics : nat)
    : Recommendation :=
  let cfg := sysId ≫= getSystemConfig in
  let warnMax := warnBasePointerThreshold in
  let rangeMode := match cfg with Some c => rangeMode c | None => "half" end in
  if String.eqb rangeMode "full" then
    {| skipSticky := false; activeRangeIndex := 0; warning := None |}
  else
    let range1Total :=
      match rangeCounts with
      | r :: _ => Z.of_nat (rc_staticNodes r + rc_staticStatics r)
      | [] => 0
      end in
    let warning := if warnMax <? range1Total then Some range1Total else None in
    {| skipSticky := true; activeRangeIndex := 0; warning := warning |}.

(** Accumulator of the single pass of [getCounts]. *)
Record Tally := {
  totalStaticStatics : nat; totalStaticNodes : nat; totalDynamic : nat;
  rangeCounts : list RangeCount
}.

Definition bumpRange (cls : Class) (r : RangeCount) : RangeCount :=
  match cls with
  | staticStatic =>
      {| rc_label := rc_label r; rc_min := rc_min r; rc_max := rc_max r;
         rc_staticNodes := rc_staticNodes r; rc_staticStatics := S (rc_staticStatics r) |}
  | staticNode =>
      {| rc_label := rc_label r; rc_min := rc_min r; rc_max := rc_max r;
         rc_staticNodes := S (rc_staticNodes r); rc_staticStatics := rc_staticStatics r |}
  | dynamicNode => r
  end.

(** Body of [for (const [addr, slots] of this.nodeMap)] in [getCounts]. *)
Definition countEntry (n : nat) (rs : list Range)
    (addr : Z) (slots : list Z) (t : Tally) : Tally :=
  let cls := _classify n slots in
  let rcs := match _getRangeIndex rs addr with
             | Some ri => alter (bumpRange cls) ri (rangeCounts t)
             | None => rangeCounts t
             end in
  match cls with
  | staticStatic =>
      {| totalStaticStatics := S (totalStaticStatics t);
         totalStaticNodes := totalStaticNodes t;
         totalDynamic := totalDynamic t; rangeCounts := rcs |}
  | staticNode =>
      {| totalStaticStatics := totalStaticStatics t;
         totalStaticNodes := S (totalStaticNodes t);
         totalDynamic := totalDynamic t; rangeCounts := rcs |}
  | dynamicNode =>
      {| totalStaticStatics := totalStaticStatics t;
         totalStaticNodes := totalStaticNodes t;
         totalDynamic := S (totalDynamic t); rangeCounts := rcs |}
  end.

Definition computeCounts (st : State) : Counts :=
  let sysId := match systemId st with Some s => s | None => "n64" end in
  let rs := getRanges sysId in
  let rangeCounts0 :=
    map (fun r => {| rc_label := label r; rc_min := rmin r; rc_max := rmax r;
                     rc_staticNodes := 0; rc_staticStatics := 0 |}) rs in
  let t := map_fold (countEntry (batchCount st) rs)
             {| totalStaticStatics := 0; totalStaticNodes := 0;
                totalDynamic := 0; rangeCounts := rangeCounts0 |}
             (nodeMap st) in
  {| cnt_batchCount := batchCount st;
     totalNodes := size (nodeMap st);
     staticStatics := totalStaticStatics t;
     staticNodes := totalStaticNodes t;
     dynamicNodes := totalDynamic t;
     ranges := rangeCounts t;
     recommendation :=
       _buildRecommendation (systemId st) (rangeCounts t)
         (totalStaticNodes t) (totalStaticStatics t) |}.

(** [getCounts]: the cached summary if there is one, else a fresh one that
    is cached. *)
Definition getCounts (st : State) : Counts * State :=
  match _countsCache st with
  | Some c => (c, st)
  | None =>
      let c := computeCounts st in
      (c, {| systemId := systemId st; batchCount := batchCount st;
             maxBatches := maxBatches st; nodeMap := nodeMap st;
             _countsCache := Some c |})
  end.

(** [valueFreq.get(v)]: occurrences of [v] among the batch's values. *)
Definition valueFreq (values : list Z) (v : Z) : nat :=
  length (filter (fun x => x = v) values).

(** [vtableValues.has(v)] *)
Definition isVtableValue (values : list Z) (v : Z) : bool :=
  (10 <? valueFreq values v)%nat.

(** [(mask !== null) ? (val & mask) >>> 0 : val] *)
Definition maskedValue (mask : option Z) (val : Z) : Z :=
  match mask with
  | Some m => JS.toUint32 (JS.and val m)
  | None => val
  end.

(** The row passes both filters of [addBatch]. *)
Definition keepRow (mask : option Z) (values : list Z) (addr val : Z) : bool :=
  if isVtableValue values val then false
  else
    let diff := addr - maskedValue mask val in
    if (-44 <=? diff) && (diff <=? 4) then false else true.

(** Body of the second loop of [addBatch]: store the unmasked value in
    slot [batchIndex] of the address's [Int32Array]. *)
Definition storeRow (maxB batchIndex : nat) (mask : option Z) (values : list Z)
    (m : gmap Z (list Z)) (row : Z * Z) : gmap Z (list Z) :=
  let '(addr, val) := row in
  if keepRow mask values addr val then
    match m !! addr with
    | None => <[addr := <[batchIndex := JS.toInt32 val]> (replicate maxB 0)]> m
    | Some slots => <[addr := <[batchIndex := JS.toInt32 val]> slots]> m
    end
  else m.

Definition addBatch (st : State) (parsedBatch : ParsedBatch) : option (Counts * State) :=
  match systemId st with
  | None => None
  | Some sysId =>
      if (maxBatches st <=? batchCount st)%nat then None
      else
        let batchIndex := batchCount st in
        let mask := getSystemMask sysId in
        let m := foldl (storeRow (maxBatches st) batchIndex mask parsedBatch.*2)
                       (nodeMap st) parsedBatch in
        Some (getCounts {| systemId := systemId st; batchCount := S (batchCount st);
                           maxBatches := maxBatches st; nodeMap := m;
                           _countsCache := None |})
  end.

(** [for (b = batchIndex; b < maxBatches - 1; b++) slots[b] = slots[b+1]]
    followed by [slots[maxBatches - 1] = 0]. *)
Definition shiftSlots (maxB batchIndex : nat) (slots : list Z) : list Z :=
  let shifted :=
    foldl (fun s b => <[b := s !!! S b]> s) slots
          (seq batchIndex (maxB - 1 - batchIndex)) in
  <[(maxB - 1)%nat := 0]> shifted.

(** [anyNonZero] over [slots[0 .. newCount-1]]. *)
Definition anyNonZero (newCount : nat) (slots : list Z) : bool :=
  existsb (fun v => negb (v =? 0)) (take newCount slots).

Definition removeBatch (st : State) (batchIndex : Z) : option (Counts * State) :=
  if (batchIndex <? 0) || (Z.of_nat (batchCount st) <=? batchIndex) then None
  else
    let i := Z.to_nat batchIndex in
    let newCount := (batchCount st - 1)%nat in
    let shifted := shiftSlots (maxBatches st) i <$> nodeMap st in
    let m := filter (fun kv => anyNonZero newCount kv.2 = true) shifted in
    Some (getCounts {| systemId := systemId st; batchCount := newCount;
                       maxBatches := maxBatches st; nodeMap := m;
                       _countsCache := None |}).

(** *** [collapse] *)

Record CollapseOutput := {
  co_systemId   : option string;
  co_batchCount : nat;
  ssAddrs : list Z; ssVals : list Z;            (* Int32Array, Int32Array *)
  snAddrs : list Z; snVals : list (list Z);     (* Int32Array, Int32Array[] *)
  dynAddrs : list Z; dynVals : list (list Z);
  (* the three running indexes, as logged at the end *)
  ssIdx : nat; snIdx : nat; dynIdx : nat
}.

(** [if (slots[b] !== 0) slots[b] = (slots[b] & mask) >>> 0] for [b < n];
    the store into the [Int32Array] wraps to int32 again. *)
Definition maskSlots (mask : option Z) (n : nat) (slots : list Z) : list Z :=
  match mask with
  | None => slots
  | Some m =>
      map (fun v => if v =? 0 then v else JS.toInt32 (JS.toUint32 (JS.and v m)))
          (take n slots) ++ drop n slots
  end.

(** First non-zero slot among the first [n], if any. *)
Definition firstNonZero (n : nat) (slots : list Z) : option Z :=
  List.find (fun v => negb (v =? 0)) (take n slots).

(** Body of the loop of [collapse]. *)
Definition collapseEntry (mask : option Z) (n : nat)
    (addr : Z) (slots0 : list Z) (o : CollapseOutput) : CollapseOutput :=
  let slots := maskSlots mask n slots0 in
  match _classify n slots with
  | staticStatic =>
      {| co_systemId := co_systemId o; co_batchCount := co_batchCount o;
         ssAddrs := <[ssIdx o := JS.toInt32 addr]> (ssAddrs o);
         ssVals := match firstNonZero n slots with
                   | Some v => <[ssIdx o := v]> (ssVals o)
                   | None => ssVals o
                   end;
         snAddrs := snAddrs o; snVals := snVals o;
         dynAddrs := dynAddrs o; dynVals := dynVals o;
         ssIdx := S (ssIdx o); snIdx := snIdx o; dynIdx := dynIdx o |}
  | staticNode =>
      {| co_systemId := co_systemId o; co_batchCount := co_batchCount o;
         ssAddrs := ssAddrs o; ssVals := ssVals o;
         snAddrs := <[snIdx o := JS.toInt32 addr]> (snAddrs o);
         snVals := snVals o ++ [take n slots];
         dynAddrs := dynAddrs o; dynVals := dynVals o;
         ssIdx := ssIdx o; snIdx := S (snIdx o); dynIdx := dynIdx o |}
  | dynamicNode =>
      {| co_systemId := co_systemId o; co_batchCount := co_batchCount o;
         ssAddrs := ssAddrs o; ssVals := ssVals o;
         snAddrs := snAddrs o; snVals := snVals o;
         dynAddrs := <[dynIdx o := JS.toInt32 addr]> (dynAddrs o);
         dynVals := dynVals o ++ [take n slots];
         ssIdx := ssIdx o; snIdx := snIdx o; dynIdx := S (dynIdx o) |}
  end.

Definition collapse (st : State) : CollapseOutput * State :=
  let '(counts, st1) := getCounts st in
  let mask := match systemId st1 with Some s => getSystemMask s | None => None end in
  let n := batchCount st1 in
  let o0 :=
    {| co_systemId := systemId st1; co_batchCount := n;
       ssAddrs := replicate (staticStatics counts) 0;
       ssVals := replicate (staticStatics counts) 0;
       snAddrs := replicate (staticNodes counts) 0; snVals := [];
       dynAddrs := replicate (dynamicNodes counts) 0; dynVals := [];
       ssIdx := 0; snIdx := 0; dynIdx := 0 |} in
  (map_fold (collapseEntry mask n) o0 (nodeMap st1),
   {| systemId := systemId st1; batchCount := batchCount st1;
      maxBatches := maxBatches st1; nodeMap := ∅; _countsCache := None |}).

(** *** Call sequences *)

Inductive Call :=
| CallAddBatch (b : ParsedBatch)
| CallRemoveBatch (i : Z)
| CallGetCounts.

(** One call on the preprocessor; a call that throws leaves the state as it
    was. *)
Definition call (st : State) (c : Call) : State :=
  match c with
  | CallAddBatch b => match addBatch st b with Some (_, st') => st' | None => st end
  | CallRemoveBatch i => match removeBatch st i with Some (_, st') => st' | None => st end
  | CallGetCounts => (getCounts st).2
  end.

(** The batches of a call are parser output for the system. *)
Definition validCall (id : string) (c : Call) : bool :=
  match c with
  | CallAddBatch b => validBatch id b
  | _ => true
  end.

(** States reachable by [setSystem(id)] on a fresh preprocessor followed by
    calls on parser-validated input. *)
Definition reachable (id : string) (st : State) : Prop :=
  ∃ st0 calls, setSystem constructor id = Some st0
               ∧ forallb (validCall id) calls = true
               ∧ st = foldl call st0 calls.

End Preprocessor.

(* ===================================================================== *)
(** ** chain-walker.js *)
(* ===================================================================== *)

Module ChainWalker.

(** A JavaScript [Set] that is iterated: its elements in insertion order. *)
Definition has (pool : list Z) (x : Z) : bool := bool_decide (x ∈ pool).

Record Chain := { nodes : list Z; ghosts : list Z; isHead : bool }.

(** Entries of [entryPoints]: [{ nodes, ghosts }]. *)
Record WalkedEntry := { we_nodes : list Z; we_ghosts : list Z }.

Record Opts := {
  minChainLength : Z;
  maxGhostNodes  : Z;
  targetPool     : option (gset Z)      (* [null] is [None] *)
}.

Record WalkResult := { chains : list Chain; entryPoints : list WalkedEntry }.

(** First pass: the set of pool addresses some pool node points to. *)
Definition pointedToSet (pool : list Z) (offset : Z) (getVal : Z → option Z) : gset Z :=
  foldl (fun acc addr =>
           match getVal addr with
           | None => acc
           | Some val =>
               let child := val + offset in
               if has pool child then acc ∪ {[child]} else acc
           end) ∅ pool.

(** Local variables of one walk. *)
Record Walk := {
  w_nodes : list Z; w_ghosts : list Z; w_visited : gset Z;
  w_current : Z; w_hitTarget : bool; w_totalGhosts : Z
}.

(** [for (let g = 0; g < maxGhostNodes; g++)]: [remaining] counts the
    iterations left.  Returns [(foundBridgeTarget, newGhostCount)]. *)
Fixpoint bridgeLoop (pool : list Z) (offset : Z) (remaining : nat)
    (g bridgeAddr : Z) : option (Z * Z) :=
  match remaining with
  | O => None
  | S r =>
      let afterBridge := bridgeAddr + offset in
      if has pool afterBridge then Some (afterBridge, g + 1)
      else bridgeLoop pool offset r (g + 1) (bridgeAddr + offset)
  end.

Inductive Step := Continue (w : Walk) | Break (w : Walk).

(** One iteration of [chainLoop: while (true)]. *)
Definition chainStep (pool : list Z) (offset : Z) (getVal : Z → option Z)
    (opts : Opts) (w : Walk) : Step :=
  let current := w_current w in
  if bool_decide (current ∈ w_visited w) then Break w
  else if match targetPool opts with
          | Some tp => bool_decide (current ∈ tp)
          | None => false
          end
  then Break {| w_nodes := w_nodes w; w_ghosts := w_ghosts w;
                w_visited := w_visited w; w_current := current;
                w_hitTarget := true; w_totalGhosts := w_totalGhosts w |}
  else if negb (has pool current) then Break w
  else
    match getVal current with
    | None => Break w
    | Some val =>
        let nodes' := w_nodes w ++ [current] in
        let visited' := w_visited w ∪ {[current]} in
        let expected := val + offset in
        let stay := {| w_nodes := nodes'; w_ghosts := w_ghosts w;
                       w_visited := visited'; w_current := current;
                       w_hitTarget := w_hitTarget w;
                       w_totalGhosts := w_totalGhosts w |} in
        if has pool expected then
          Continue {| w_nodes := nodes'; w_ghosts := w_ghosts w;
                      w_visited := visited'; w_current := expected;
                      w_hitTarget := w_hitTarget w;
                      w_totalGhosts := w_totalGhosts w |}
        else if maxGhostNodes opts =? 0 then Break stay
        else
          match bridgeLoop pool offset (Z.to_nat (maxGhostNodes opts)) 0 expected with
          | None => Break stay
          | Some (foundBridgeTarget, newGhostCount) =>
              if maxGhostNodes opts <? w_totalGhosts w + newGhostCount then Break stay
              else
                Continue {| w_nodes := nodes';
                            w_ghosts := w_ghosts w ++
                              map (fun k => expected + k * offset)
                                  (seqZ 0 newGhostCount);
                            w_visited := visited';
                            w_current := foundBridgeTarget;
                            w_hitTarget := w_hitTarget w;
                            w_totalGhosts := w_totalGhosts w + newGhostCount |}
          end
    end.

(** The [while (true)] loop, bounded by [fuel] iterations; [None] when the
    bound is reached before a [break]. *)
Fixpoint chainLoop (pool : list Z) (offset : Z) (getVal : Z → option Z)
    (opts : Opts) (fuel : nat) (w : Walk) : option Walk :=
  match fuel with
  | O => None
  | S f =>
      match chainStep pool offset getVal opts w with
      | Break w' => Some w'
      | Continue w' => chainLoop pool offset getVal opts f w'
      end
  end.

(** State of the outer [for (const startAddr of pool)]. *)
Record Outer := {
  o_chains : list Chain; o_entryPoints : list WalkedEntry; o_processed : gset Z
}.

(** Body of the outer loop for one [startAddr]. *)
Definition walkFrom (pool : list Z) (offset : Z) (getVal : Z → option Z)
    (opts : Opts) (pointedTo : gset Z) (fuel : nat)
    (o : Outer) (startAddr : Z) : option Outer :=
  if bool_decide (startAddr ∈ o_processed o) then Some o
  else if bool_decide (startAddr ∈ pointedTo) then Some o
  else match getVal startAddr with
       | None => Some o
       | Some _ =>
           w ← chainLoop pool offset getVal opts fuel
                 {| w_nodes := []; w_ghosts := []; w_visited := ∅;
                    w_current := startAddr; w_hitTarget := false;
                    w_totalGhosts := 0 |};
           let processed' := o_processed o ∪ list_to_set (w_nodes w) in
           if w_hitTarget w && (1 <=? length (w_nodes w))%nat then
             Some {| o_chains := o_chains o;
                     o_entryPoints := o_entryPoints o ++
                       [{| we_nodes := w_nodes w; we_ghosts := w_ghosts w |}];
                     o_processed := processed' |}
           else if minChainLength opts <=? Z.of_nat (length (w_nodes w)) then
             Some {| o_chains := o_chains o ++
                       [{| nodes := w_nodes w; ghosts := w_ghosts w; isHead := true |}];
                     o_entryPoints := o_entryPoints o;
                     o_processed := processed' |}
           else
             Some {| o_chains := o_chains o; o_entryPoints := o_entryPoints o;
                     o_processed := processed' |}
       end.

Fixpoint walkHeads (pool : list Z) (offset : Z) (getVal : Z → option Z)
    (opts : Opts) (pointedTo : gset Z) (fuel : nat)
    (o : Outer) (heads : list Z) : option Outer :=
  match heads with
  | [] => Some o
  | startAddr :: rest =>
      o' ← walkFrom pool offset getVal opts pointedTo fuel o startAddr;
      walkHeads pool offset getVal opts pointedTo fuel o' rest
  end.

(** [walkChainsAtOffset] with every inner [while (true)] bounded by [fuel]
    iterations. *)
Definition walkChainsAtOffsetFuel (fuel : nat) (pool : list Z) (offset : Z)
    (getVal : Z → option Z) (opts : Opts) : option WalkResult :=
  o ← walkHeads pool offset getVal opts (pointedToSet pool offset getVal) fuel
        {| o_chains := []; o_entryPoints := []; o_processed := ∅ |} pool;
  Some {| chains := o_chains o; entryPoints := o_entryPoints o |}.

(** [walkChainsAtOffset]: the bound is one more iteration than the pool has
    addresses, which is always enough (see the termination section). *)
Definition walkChainsAtOffset (pool : list Z) (offset : Z)
    (getVal : Z → option Z) (opts : Opts) : WalkResult :=
  default {| chains := []; entryPoints := [] |}
    (walkChainsAtOffsetFuel (S (length pool)) pool offset getVal opts).

(** *** [resolveChainConflicts] *)

(** [nodeToChains.get(node) || []]: the indexes pushed under [node] by the
    two nested loops, one per occurrence of [node] in a chain, in index
    order. *)
Definition nodeToChains (chains : list Chain) (node : Z) : list nat :=
  mjoin (imap (fun i c => (fun _ => i) <$> filter (fun x => x = node) (nodes c)) chains).

(** [conflicts.add(ci)] on an insertion-ordered [Set]. *)
Definition setAdd (s : list nat) (ci : nat) : list nat :=
  if bool_decide (ci ∈ s) then s else s ++ [ci].

(** The [conflicts] set of chain [i]. *)
Definition conflictsOf (chains : list Chain) (i : nat) (ci_nodes : list Z) : list nat :=
  foldl (fun s node =>
           foldl (fun s ci => if bool_decide (ci ≠ i) then setAdd s ci else s)
                 s (nodeToChains chains node))
        [] ci_nodes.

(** The comparator given to [group.sort].  A missing [nodes[0]] makes the
    subtraction [NaN], which [sort] treats as [0]. *)
Definition compareChains (a b : Chain) : Z :=
  let lenDiff := Z.of_nat (length (nodes b)) - Z.of_nat (length (nodes a)) in
  if negb (lenDiff =? 0) then lenDiff
  else match head (nodes a), head (nodes b) with
       | Some x, Some y => x - y
       | _, _ => 0
       end.

(** [Array.prototype.sort] is stable: insertion after the elements that do
    not compare greater. *)
Fixpoint insertSorted (x : nat * Chain) (l : list (nat * Chain)) : list (nat * Chain) :=
  match l with
  | [] => [x]
  | y :: rest =>
      if compareChains x.2 y.2 <? 0 then x :: y :: rest
      else y :: insertSorted x rest
  end.

Definition sortGroup (group : list (nat * Chain)) : list (nat * Chain) :=
  foldl (fun acc x => insertSorted x acc) [] group.

Definition withHead (c : Chain) (h : bool) : Chain :=
  {| nodes := nodes c; ghosts := ghosts c; isHead := h |}.

(** State of the main loop: [resolved] (each entry with the index of the
    chain it copies) and [processed]. *)
Record Resolve := { r_resolved : list (nat * Chain); r_processed : gset nat }.

(** [for (let rank = 0; rank < group.length; rank++)] *)
Fixpoint pushRanked (rank : nat) (group : list (nat * Chain)) (r : Resolve) : Resolve :=
  match group with
  | [] => r
  | (idx, chain) :: rest =>
      pushRanked (S rank) rest
        (if bool_decide (idx ∈ r_processed r) then r
         else {| r_resolved := r_resolved r ++ [(idx, withHead chain (Nat.eqb rank 0))];
                 r_processed := r_processed r ∪ {[idx]} |})
  end.

(** Body of [for (let i = 0; i < chains.length; i++)]. *)
Definition resolveStep (chains : list Chain) (r : Resolve) (i : nat) : Resolve :=
  if bool_decide (i ∈ r_processed r) then r
  else
    match chains !! i with
    | None => r
    | Some ci =>
        let conflicts := conflictsOf chains i (nodes ci) in
        let group := omap (fun idx => (fun c => (idx, c)) <$> chains !! idx)
                          (i :: conflicts) in
        pushRanked 0 (sortGroup group) r
    end.

(** [resolveChainConflicts], each result paired with the index of the input
    chain it was copied from. *)
Definition resolveIndexed (chains : list Chain) : list (nat * Chain) :=
  match chains with
  | [] => []
  | [c] => [(0%nat, c)]
  | _ =>
      r_resolved (foldl (resolveStep chains)
                        {| r_resolved := []; r_processed := ∅ |}
                        (seq 0 (length chains)))
  end.

Definition resolveChainConflicts (chains : list Chain) : list Chain :=
  (resolveIndexed chains).*2.

End ChainWalker.


(* ===================================================================== *)
(** ** The coordinator's state ([BDRAMScanner]) *)
(* ===================================================================== *)

Module Scanner.

Inductive StructType := static_list | dynamic_list | entry_point.

(** A detected structure.  The source's [validCount], [ghostCount] and
    [static] repeat [nodeCount], the length of [ghosts] and the type. *)
Record Structure := {
  s_id : Z;
  s_type : StructType;
  s_root : option Z;                 (* [chain.nodes[0]] *)
  s_nodeCount : nat;
  s_stride : Z;
  s_addresses : list Z;
  s_ghosts : option (list Z);        (* absent on dynamic lists *)
  s_buildOffset : Z;
  s_batchIdx : option nat            (* dynamic lists only *)
}.

Record EntryPoint := {
  ep_root : option Z;
  ep_nodeCount : nat;
  ep_addresses : list Z;
  ep_buildOffset : Z;
  ep_path : list Z;
  ep_batchIdx : option nat;
  ep_claimed : bool;
  ep_targetStruct : option Structure
}.

Record Batch := { b_addresses : list Z; b_values : list Z }.

(** A JavaScript [Map] that is iterated: its entries in insertion order. *)
Definition mapGet {V} (m : list (Z * V)) (k : Z) : option V :=
  snd <$> List.find (fun kv => kv.1 =? k) m.

Definition mapHas {V} (m : list (Z * V)) (k : Z) : bool :=
  match mapGet m k with Some _ => true | None => false end.

Definition mapDelete {V} (m : list (Z * V)) (k : Z) : list (Z * V) :=
  List.filter (fun kv => negb (kv.1 =? k)) m.

Fixpoint mapSet {V} (m : list (Z * V)) (k : Z) (v : V) : list (Z * V) :=
  match m with
  | [] => [(k, v)]
  | (k', v') :: rest =>
      if k' =? k then (k', v) :: rest else (k', v') :: mapSet rest k v
  end.

(** [Set.delete] on an iterated set. *)
Definition setDelete (s : list Z) (x : Z) : list Z :=
  List.filter (fun y => negb (y =? x)) s.

(** The fields of [BDRAMScanner] read or written by list detection and by
    the forward scan.  [maxBreadth] is the integer [parseInt] yields for the
    configured hex string; [generator] records whether one is attached. *)
Record State := {
  minChainLength : Z;
  maxGhostNodes : Z;
  maxBreadth : Z;
  maxDepth : Z;
  earlyOutTarget : bool;
  skipStickyPointers : bool;
  batches : list Batch;
  staticStaticNodes : list (Z * Z);
  staticNodes : list (Z * list Z);
  targetNodes : list (gset Z);
  basePointers : list (Z * list Z);
  injectedTargets : gset Z;
  structures : list Structure;
  entryPoints : list EntryPoint;
  generator : bool
}.

Definition setDetection (sc : State) (ss : list (Z * Z)) (sn : list (Z * list Z))
    (tn : list (gset Z)) (sts : list Structure) (eps : list EntryPoint) : State :=
  {| minChainLength := minChainLength sc; maxGhostNodes := maxGhostNodes sc;
     maxBreadth := maxBreadth sc; maxDepth := maxDepth sc;
     earlyOutTarget := earlyOutTarget sc;
     skipStickyPointers := skipStickyPointers sc;
     batches := batches sc;
     staticStaticNodes := ss; staticNodes := sn; targetNodes := tn;
     basePointers := basePointers sc;
     injectedTargets := injectedTargets sc;
     structures := sts; entryPoints := eps; generator := generator sc |}.

End Scanner.

(* ===================================================================== *)
(** ** list-detector.js (first half): static and dynamic list detection *)
(* ===================================================================== *)

Module ListDetector.
Import ChainWalker Scanner.

Definition OFFSET_MIN : Z := 0x00.
Definition OFFSET_MAX : Z := 0x3C.
Definition OFFSET_STEP : Z := 4.

(** [for (offset = OFFSET_MIN; offset <= OFFSET_MAX; offset += OFFSET_STEP)] *)
Definition offsets : list Z :=
  map (fun k => OFFSET_MIN + k * OFFSET_STEP)
      (seqZ 0 ((OFFSET_MAX - OFFSET_MIN) / OFFSET_STEP + 1)).

(** [freq.set(d, (freq.get(d) || 0) + 1)] *)
Definition bumpFreq (freq : list (Z * nat)) (d : Z) : list (Z * nat) :=
  mapSet freq d (S (default 0%nat (mapGet freq d))).

Fixpoint gaps (ns : list Z) : list Z :=
  match ns with
  | a :: ((b :: _) as rest) => (b - a) :: gaps rest
  | _ => []
  end.

Definition _dominantStride (ns : list Z) : Z :=
  if (length ns <? 2)%nat then 4
  else
    let freq := foldl bumpFreq [] (gaps ns) in
    fst (foldl (fun '(best, bestCount) '(d, n) =>
                  if (bestCount <? n)%nat then (d, n) else (best, bestCount))
               (4, 0%nat) freq).

(** [sc.targetNodes[b].add(addr)] for every [b < sc.batches.length] and
    every address of [addrs]; [classifyNodes] creates one pool per batch. *)
Definition addToAllTargets (B : nat) (tn : list (gset Z)) (addrs : list Z) : list (gset Z) :=
  imap (fun b pool => if (b <? B)%nat then pool ∪ list_to_set addrs else pool) tn.

(** State threaded through the offset sweep of [detectStaticLists]. *)
Record StaticSweep := { ss_pool : list Z; ss_sc : State; ss_structId : Z }.

(** Body of [for (const chain of resolved)] in [detectStaticLists]. *)
Definition recordStatic (offset : Z) (st : StaticSweep) (chain : Chain) : StaticSweep :=
  let sc := ss_sc st in
  if negb (isHead chain) then st
  else if Z.of_nat (length (nodes chain)) <? minChainLength sc then st
  else
    let ghosts := ghosts chain in
    let stride := _dominantStride (nodes chain) in
    let structure :=
      {| s_id := ss_structId st; s_type := static_list;
         s_root := head (nodes chain); s_nodeCount := length (nodes chain);
         s_stride := stride; s_addresses := nodes chain;
         s_ghosts := Some ghosts; s_buildOffset := offset;
         s_batchIdx := None |} in
    let allNodes := nodes chain ++ ghosts in
    {| ss_pool := foldl setDelete (ss_pool st) allNodes;
       ss_sc := setDetection sc
                  (foldl mapDelete (staticStaticNodes sc) allNodes)
                  (staticNodes sc)
                  (addToAllTargets (length (batches sc)) (targetNodes sc) allNodes)
                  (structures sc ++ [structure])
                  (entryPoints sc);
       ss_structId := ss_structId st + 1 |}.

(** Body of the offset loop of [detectStaticLists]. *)
Definition staticOffsetStep (st : StaticSweep) (offset : Z) : StaticSweep :=
  let sc := ss_sc st in
  let getVal := mapGet (staticStaticNodes sc) in
  let chains :=
    chains (walkChainsAtOffset (ss_pool st) offset getVal
              {| ChainWalker.minChainLength := minChainLength sc;
                 ChainWalker.maxGhostNodes := maxGhostNodes sc;
                 targetPool := None |}) in
  match chains with
  | [] => st
  | _ => foldl (recordStatic offset) st (resolveChainConflicts chains)
  end.

Definition isStaticList (s : Structure) : bool :=
  match s_type s with static_list => true | _ => false end.

Definition detectStaticLists (sc : State) : State :=
  let pool := merge_sort Z.le (staticStaticNodes sc).*1 in
  let swept := foldl staticOffsetStep
                 {| ss_pool := pool; ss_sc := sc; ss_structId := 1 |} offsets in
  let sc1 := ss_sc swept in
  (* static achievements are generated and the structures dropped *)
  let sc2 :=
    if generator sc1 then
      match List.filter isStaticList (structures sc1) with
      | [] => sc1
      | _ => setDetection sc1 (staticStaticNodes sc1) (staticNodes sc1)
               (targetNodes sc1)
               (List.filter (fun s => negb (isStaticList s)) (structures sc1))
               (entryPoints sc1)
      end
    else sc1 in
  (* remaining StaticStatic nodes *)
  if skipStickyPointers sc2 then
    setDetection sc2 [] (staticNodes sc2) (targetNodes sc2)
      (structures sc2) (entryPoints sc2)
  else
    setDetection sc2 []
      (foldl (fun sn '(addr, value) =>
                mapSet sn addr (replicate (length (batches sc2)) value))
             (staticNodes sc2) (staticStaticNodes sc2))
      (targetNodes sc2) (structures sc2) (entryPoints sc2).

(** State threaded through [detectDynamicLists]. *)
Record DynamicSweep := { ds_batchNodes : list (list Z); ds_sc : State }.

(** Body of [for (const chain of resolved)] in [detectDynamicLists], for
    batch [b] with working set [working]. *)
Definition recordDynamic (offset : Z) (b : nat)
    (st : list Z * State) (chain : Chain) : list Z * State :=
  let '(working, sc) := st in
  if isHead chain && (minChainLength sc <=? Z.of_nat (length (nodes chain))) then
    let structure :=
      {| s_id := Z.of_nat (length (structures sc)); s_type := dynamic_list;
         s_root := head (nodes chain); s_nodeCount := length (nodes chain);
         s_stride := offset; s_addresses := nodes chain;
         s_ghosts := None; s_buildOffset := offset;
         s_batchIdx := Some b |} in
    (foldl setDelete working (nodes chain),
     setDetection sc (staticStaticNodes sc) (staticNodes sc)
       (alter (fun pool => pool ∪ list_to_set (nodes chain)) b (targetNodes sc))
       (structures sc ++ [structure]) (entryPoints sc))
  else if negb (isHead chain) then
    (foldl setDelete working (nodes chain), sc)
  else st.

(** Body of [for (const ep of entryPoints)]. *)
Definition recordEntryPoint (offset : Z) (b : nat)
    (st : list Z * State) (ep : WalkedEntry) : list Z * State :=
  let '(working, sc) := st in
  (foldl setDelete working (we_nodes ep),
   setDetection sc (staticStaticNodes sc) (staticNodes sc) (targetNodes sc)
     (structures sc)
     (entryPoints sc ++
        [{| ep_root := head (we_nodes ep); ep_nodeCount := length (we_nodes ep);
            ep_addresses := we_nodes ep; ep_buildOffset := offset;
            ep_path := [offset]; ep_batchIdx := Some b;
            ep_claimed := false; ep_targetStruct := None |}])).

(** Body of [for (let b = 0; b < B; b++)] for one offset. *)
Definition dynamicBatchStep (offset : Z) (st : DynamicSweep) (b : nat) : DynamicSweep :=
  let sc := ds_sc st in
  match ds_batchNodes st !! b with
  | None => st
  | Some [] => st
  | Some working =>
      let getVal := fun addr : Z =>
        match mapGet (staticNodes sc) addr with
        | Some vals => vals !! b
        | None => None
        end in
      let res :=
        walkChainsAtOffset working offset getVal
          {| ChainWalker.minChainLength := minChainLength sc;
             ChainWalker.maxGhostNodes := 0;
             targetPool := Some (default ∅ (targetNodes sc !! b)) |} in
      let resolved := resolveChainConflicts (chains res) in
      let st1 := foldl (recordDynamic offset b) (working, sc) resolved in
      let '(working2, sc2) := foldl (recordEntryPoint offset b) st1 (ChainWalker.entryPoints res) in
      {| ds_batchNodes := <[b := working2]> (ds_batchNodes st); ds_sc := sc2 |}
  end.

Definition detectDynamicLists (sc : State) : State :=
  let B := length (batches sc) in
  let batchNodes :=
    map (fun b =>
           List.filter (fun addr =>
                          negb (bool_decide (addr ∈ default ∅ (targetNodes sc !! b))))
                       (staticNodes sc).*1)
        (seq 0 B) in
  ds_sc (foldl (fun st offset => foldl (dynamicBatchStep offset) st (seq 0 B))
               {| ds_batchNodes := batchNodes; ds_sc := sc |} offsets).

End ListDetector.


(* ===================================================================== *)
(** ** forward-scanner.js *)
(* ===================================================================== *)

Module ForwardScanner.
Import Scanner.

(** [buildBatchIndexes]: per batch, address to row index (the last row
    wins for a repeated address). *)
Definition buildBatchIndexes (sc : State) : list (gmap Z nat) :=
  map (fun batch =>
         foldl (fun idx ia => <[ia.2 := ia.1]> idx) (∅ : gmap Z nat)
               (imap pair (b_addresses batch)))
      (batches sc).

(** [batchIndexes[b].get(addr)] *)
Definition dataIdxOf (batchIndexes : list (gmap Z nat)) (b : nat) (addr : Z) : option nat :=
  match batchIndexes !! b with
  | Some idx => idx !! addr
  | None => None
  end.

(** [batchIndexes[b].has(addr)] *)
Definition indexHas (batchIndexes : list (gmap Z nat)) (b : nat) (addr : Z) : bool :=
  match dataIdxOf batchIndexes b addr with Some _ => true | None => false end.

(** [sc.batches[b].values[dataIdx]]; the two arrays of a batch have the
    same length, so the index is in range. *)
Definition valueAt (sc : State) (b dataIdx : nat) : Z :=
  match batches sc !! b with
  | Some batch => default 0 (b_values batch !! dataIdx)
  | None => 0
  end.

(** The value batch [b] holds for [addr], if [addr] has a row there. *)
Definition batchValue (sc : State) (batchIndexes : list (gmap Z nat))
    (b : nat) (addr : Z) : option Z :=
  valueAt sc b <$> dataIdxOf batchIndexes b addr.

Definition buildBasePointerSet (sc : State) (batchIndexes : list (gmap Z nat))
    : list (Z * list Z) :=
  foldl (fun bps addr =>
           if existsb (fun pool : gset Z => bool_decide (addr ∈ pool)) (targetNodes sc)
           then bps
           else
             match mapM (fun b => batchValue sc batchIndexes b addr)
                        (seq 0 (length (batches sc))) with
             | Some values => mapSet bps addr values
             | None => bps
             end)
        (basePointers sc) (staticNodes sc).*1.

(** [parseInt(sc.maxBreadth, 16) & 0xFFFFFC] *)
Definition maskedBreadth (sc : State) : Z := JS.and (maxBreadth sc) 0xFFFFFC.

(** The inner [for (bit = 0; bit < 32; bit++)] building one bitmap word:
    bit [bit] is set iff [value + base + bit*4] is in the batch's index. *)
Definition bitmapWord (batchIndexes : list (gmap Z nat)) (b : nat)
    (value base : Z) : Z :=
  foldl (fun word bit =>
           if indexHas batchIndexes b (value + base + bit * 4)
           then JS.or word (JS.shl1 bit) else word)
        0 (seqZ 0 32).

Record BitmapCtx := {
  store : option (gmap Z (list Z));     (* [null] is [None] *)
  slots : Z;
  bytes : Z
}.

Definition BUDGET_INT : Z := (80 * 1024 * 1024) / 4.

(** The [Int32Array(B * usedSlots)] of one traversal node. *)
Definition nodeBitmap (sc : State) (batchIndexes : list (gmap Z nat))
    (B : nat) (usedSlots : Z) (addr : Z) : list Z :=
  mjoin (map (fun b =>
                match dataIdxOf batchIndexes b addr with
                | None => replicate (Z.to_nat usedSlots) 0
                | Some dataIdx =>
                    let value := valueAt sc b dataIdx in
                    map (fun s => bitmapWord batchIndexes b value (s * 32 * 4))
                        (seqZ 0 usedSlots)
                end)
             (seq 0 B)).

Definition buildTraversalBitmaps (sc : State) (batchIndexes : list (gmap Z nat))
    : BitmapCtx :=
  let B := length (batches sc) in
  let bpSet : gset Z := list_to_set (basePointers sc).*1 in
  let maxBreadth := maskedBreadth sc in
  let totalSlots := (maxBreadth + 127) / 128 in
  let traversalAddrs : gset Z :=
    ⋃ (map (fun idx : gmap Z nat => dom idx ∖ bpSet) (take B batchIndexes)) in
  let N := size traversalAddrs in
  if (N =? 0)%nat then {| store := None; slots := 0; bytes := 0 |}
  else
    let slotsPerNode := Z.max 1 (BUDGET_INT / (Z.of_nat N * Z.of_nat B)) in
    let usedSlots := Z.min slotsPerNode totalSlots in
    let precompBytes := usedSlots * 128 in
    {| store := Some (set_to_map
                        (fun addr => (addr, nodeBitmap sc batchIndexes B usedSlots addr))
                        traversalAddrs);
       slots := usedSlots; bytes := precompBytes |}.

(** *** The DFS of one chunk *)

Record Base := { address : Z; values : list Z }.
Record Chunk := { chunkStart : Z; chunkEnd : Z }.

(** Entries of [structAddrMap] and [epAddrMap]: [{ type, id, struct | ep }]. *)
Inductive HitEntry :=
| StructureEntry (id : Z) (struct : Structure)
| EntryPointEntry (id : option Z) (ep : EntryPoint).

Record Lookups := {
  structAddrMap : gmap Z HitEntry;
  epAddrMap : gmap Z HitEntry
}.

Definition _buildStructAddrMap (sc : State) : gmap Z HitEntry :=
  foldl (fun m struct =>
           let entry := StructureEntry (s_id struct) struct in
           foldl (fun m addr => <[addr := entry]> m)
                 (foldl (fun m addr => <[addr := entry]> m) m (s_addresses struct))
                 (default [] (s_ghosts struct)))
        ∅ (structures sc).

Definition _buildEpAddrMap (sc : State) : gmap Z HitEntry :=
  foldl (fun m ep =>
           let entry := EntryPointEntry (ep_root ep) ep in
           foldl (fun m addr => <[addr := entry]> m) m (ep_addresses ep))
        ∅ (entryPoints sc).

(** [h.type === first.type && h.id === first.id] *)
Definition sameHit (first h : HitEntry) : bool :=
  match first, h with
  | StructureEntry i _, StructureEntry j _ => i =? j
  | EntryPointEntry i _, EntryPointEntry j _ => bool_decide (i = j)
  | _, _ => false
  end.

(** [{ ...first.struct, depth, path, movingEntryPoint: true }] *)
Record StructureHit := { sh_struct : Structure; sh_depth : Z; sh_path : list Z }.

(** The two shapes pushed on [hitEntryPoints]: a copy of a known entry
    point, or the record made by the majority vote. *)
Inductive EntryPointHit :=
| KnownEntryPoint (ep : EntryPoint) (depth : Z) (path : list Z) (claimed : bool)
| VotedEntryPoint (root : Z) (nodeCount : Z) (addresses : list Z)
                  (buildOffset : Z) (path : list Z) (claimed : bool).

Definition hitPath (h : EntryPointHit) : list Z :=
  match h with
  | KnownEntryPoint _ _ p _ => p
  | VotedEntryPoint _ _ _ _ p _ => p
  end.

Definition claim (h : EntryPointHit) : EntryPointHit :=
  match h with
  | KnownEntryPoint ep d p _ => KnownEntryPoint ep d p true
  | VotedEntryPoint r n a o p _ => VotedEntryPoint r n a o p true
  end.

(** A target path.  The source renders the three fields as text (hex
    numbers, the path with a growing [+] prefix); the numbers are kept. *)
Record TargetPath := { basePointer : Z; tp_path : list Z; targetAddress : Z }.

Record DepthResult := {
  hitStructures : list StructureHit;
  hitEntryPoints : list EntryPointHit;
  targetPaths : list TargetPath
}.

Definition noFindings : DepthResult :=
  {| hitStructures := []; hitEntryPoints := []; targetPaths := [] |}.

(** [state]: the current address of every batch, the depth, the path. *)
Record DfsState := { addresses : list Z; depth : Z; path : list Z }.

(** Fast path: AND of the stored words of the first batch's current node. *)
Definition combinedPrecomp (batchCount : nat) (precomp : list Z)
    (precompSlots slotIdx : Z) : Z :=
  foldl (fun combined b =>
           JS.and combined
             (default 0 (precomp !! Z.to_nat (Z.of_nat b * precompSlots + slotIdx))))
        0xFFFFFFFF (seq 0 batchCount).

(** On-the-fly path: one word per batch from that batch's current node. *)
Definition batchBitmapsOnTheFly (sc : State) (batchIndexes : list (gmap Z nat))
    (batchCount : nat) (addrs : list Z) (chunkStart : Z) : list Z :=
  map (fun b =>
         match dataIdxOf batchIndexes b (default 0 (addrs !! b)) with
         | None => 0
         | Some dataIdx => bitmapWord batchIndexes b (valueAt sc b dataIdx) chunkStart
         end)
      (seq 0 batchCount).

Definition combinedOnTheFly (sc : State) (batchIndexes : list (gmap Z nat))
    (batchCount : nat) (addrs : list Z) (chunkStart : Z) : Z :=
  foldl JS.and 0xFFFFFFFF
        (batchBitmapsOnTheFly sc batchIndexes batchCount addrs chunkStart).

(** The precomputed words that serve this step, if the fast path applies. *)
Definition precompFor (bitmapCtx : BitmapCtx) (firstAddr chunkStart : Z) : option (list Z) :=
  match store bitmapCtx with
  | None => None
  | Some st =>
      match st !! firstAddr with
      | None => None
      | Some precomp =>
          if (chunkStart <? bytes bitmapCtx) && (chunkStart / 128 <? slots bitmapCtx)
          then Some precomp else None
      end
  end.

Definition combinedBitmapOf (sc : State) (batchIndexes : list (gmap Z nat))
    (bitmapCtx : BitmapCtx) (batchCount : nat) (addrs : list Z) (firstAddr chunkStart : Z) : Z :=
  match precompFor bitmapCtx firstAddr chunkStart with
  | Some precomp => combinedPrecomp batchCount precomp (slots bitmapCtx) (chunkStart / 128)
  | None => combinedOnTheFly sc batchIndexes batchCount addrs chunkStart
  end.

(** Smallest offset of the chunk whose bit is set. *)
Definition chooseOffset (combinedBitmap : Z) (chunk : Chunk) : option Z :=
  (fun bit => chunkStart chunk + bit * 4) <$>
  List.find (fun bit =>
               negb (JS.and combinedBitmap (JS.shl1 bit) =? 0)
               && (chunkStart chunk + bit * 4 <=? chunkEnd chunk))
            (seqZ 0 32).

(** [buildOffsetFreq.set(o, (buildOffsetFreq.get(o) || 0) + 1)] *)
Definition bumpOffset (freq : list (Z * nat)) (o : Z) : list (Z * nat) :=
  mapSet freq o (S (default 0%nat (mapGet freq o))).

(** The majority vote loop: [(targetCount, buildOffsetFreq)]. *)
Definition vote (sc : State) (batchIndexes : list (gmap Z nat))
    (batchCount : nat) (addrs : list Z) (chosenOffset : Z) : nat * list (Z * nat) :=
  foldl (fun '(targetCount, freq) b =>
           match batchValue sc batchIndexes b (default 0 (addrs !! b)) with
           | None => (targetCount, freq)
           | Some value =>
               let targetAddr := value + chosenOffset in
               if bool_decide (targetAddr ∈ default ∅ (targetNodes sc !! b))
               then (S targetCount, freq)
               else
                 match List.find
                         (fun ep => bool_decide (ep_batchIdx ep = Some b)
                                    && bool_decide (targetAddr ∈ ep_addresses ep))
                         (entryPoints sc) with
                 | Some ep => (S targetCount, bumpOffset freq (ep_buildOffset ep))
                 | None => (targetCount, freq)
                 end
           end)
        (0%nat, []) (seq 0 batchCount).

(** [targetCount > batchCount * 0.66]; the product is never an integer for
    the at most ten batches the preprocessor accepts, so the comparison is
    the exact one. *)
Definition hasMajority (targetCount batchCount : nat) : bool :=
  (66 * Z.of_nat batchCount <? 100 * Z.of_nat targetCount).

Definition offsetsAgree (freq : list (Z * nat)) : bool :=
  match freq with
  | [] => true
  | _ =>
      let epTotal := foldl (fun a b => (a + b)%nat) 0%nat freq.*2 in
      let epBest := foldl Nat.max 0%nat freq.*2 in
      (epTotal <? 2 * epBest)%nat
  end.

Definition winningOffset (chosenOffset : Z) (freq : list (Z * nat)) : Z :=
  fst (foldl (fun '(winningOffset, winningCount) '(o, c) =>
                if (winningCount <? c)%nat then (o, c) else (winningOffset, winningCount))
             (chosenOffset, 0%nat) freq).

(** [nextAddrs]: every batch follows its own value; [0] when the batch has
    no row for its current address. *)
Definition advance (sc : State) (batchIndexes : list (gmap Z nat))
    (b : nat) (addr chosenOffset : Z) : Z :=
  match batchValue sc batchIndexes b addr with
  | None => 0
  | Some value => value + chosenOffset
  end.

Definition nextAddrs (sc : State) (batchIndexes : list (gmap Z nat))
    (batchCount : nat) (addrs : list Z) (chosenOffset : Z) : list Z :=
  map (fun b => advance sc batchIndexes b (default 0 (addrs !! b)) chosenOffset)
      (seq 0 batchCount).

Inductive DfsStep :=
| Done (r : DepthResult)
| Next (s : DfsState).

(** One iteration of [while (state.depth <= maxDepth)].  [None]: the read of
    [state.addresses[0].addr] throws because there is no batch. *)
Definition dfsStep (sc : State) (base : Base) (batchIndexes : list (gmap Z nat))
    (chunk : Chunk) (lookups : Lookups) (bitmapCtx : BitmapCtx)
    (state : DfsState) : option DfsStep :=
  let batchCount := length (batches sc) in
  match addresses state with
  | [] => None
  | firstAddr :: _ =>
      (* injected target check *)
      if bool_decide (firstAddr ∈ injectedTargets sc)
         && forallb (fun addr => bool_decide (addr ∈ injectedTargets sc)) (addresses state)
      then Some (Done {| hitStructures := []; hitEntryPoints := [];
                         targetPaths := [ {| basePointer := address base;
                                             tp_path := path state;
                                             targetAddress := firstAddr |} ] |})
      else
        (* structure / entry-point hit check *)
        let validHits :=
          omap (fun addr =>
                  match structAddrMap lookups !! addr with
                  | Some h => Some h
                  | None => epAddrMap lookups !! addr
                  end) (addresses state) in
        match (if (length validHits =? batchCount)%nat then
                 match validHits with
                 | first :: _ =>
                     if forallb (sameHit first) validHits then Some first else None
                 | [] => None
                 end
               else None) with
        | Some (StructureEntry _ struct) =>
            Some (Done {| hitStructures := [ {| sh_struct := struct;
                                                sh_depth := depth state;
                                                sh_path := path state |} ];
                          hitEntryPoints := []; targetPaths := [] |})
        | Some (EntryPointEntry _ ep) =>
            Some (Done {| hitStructures := [];
                          hitEntryPoints := [ KnownEntryPoint ep (depth state)
                                                (path state) (ep_claimed ep) ];
                          targetPaths := [] |})
        | None =>
            let combinedBitmap :=
              combinedBitmapOf sc batchIndexes bitmapCtx batchCount
                (addresses state) firstAddr (chunkStart chunk) in
            if combinedBitmap =? 0 then Some (Done noFindings)
            else
              match chooseOffset combinedBitmap chunk with
              | None => Some (Done noFindings)
              | Some chosenOffset =>
                  let '(targetCount, buildOffsetFreq) :=
                    vote sc batchIndexes batchCount (addresses state) chosenOffset in
                  if hasMajority targetCount batchCount && offsetsAgree buildOffsetFreq
                  then
                    Some (Done {| hitStructures := [];
                                  hitEntryPoints :=
                                    [ VotedEntryPoint (address base) (depth state)
                                        [firstAddr]
                                        (winningOffset chosenOffset buildOffsetFreq)
                                        (path state ++ [chosenOffset]) false ];
                                  targetPaths := [] |})
                  else
                    Some (Next {| addresses := nextAddrs sc batchIndexes batchCount
                                                 (addresses state) chosenOffset;
                                  depth := depth state + 1;
                                  path := path state ++ [chosenOffset] |})
              end
        end
  end.

(** The [while (state.depth <= maxDepth)] loop.  [remaining] is
    [maxDepth - state.depth + 1], so reaching [0] is the loop test
    failing. *)
Fixpoint dfsLoop (sc : State) (base : Base) (batchIndexes : list (gmap Z nat))
    (chunk : Chunk) (lookups : Lookups) (bitmapCtx : BitmapCtx)
    (remaining : nat) (state : DfsState) : option DepthResult :=
  match remaining with
  | O => Some noFindings
  | S r =>
      match dfsStep sc base batchIndexes chunk lookups bitmapCtx state with
      | None => None
      | Some (Done res) => Some res
      | Some (Next state') =>
          dfsLoop sc base batchIndexes chunk lookups bitmapCtx r state'
      end
  end.

(** [scanBasePointerDepth].  [base.values] has one value per batch
    ([buildBasePointerSet]); other shapes are outside the model ([None]). *)
Definition scanBasePointerDepth (sc : State) (base : Base)
    (batchIndexes : list (gmap Z nat)) (chunk : Chunk) (lookups : Lookups)
    (bitmapCtx : BitmapCtx) : option DepthResult :=
  if negb (length (values base) =? length (batches sc))%nat then None
  else
    dfsLoop sc base batchIndexes chunk lookups bitmapCtx
      (Z.to_nat (maxDepth sc))
      {| addresses := values base; depth := 1; path := [] |}.

(** *** The chunk dispatcher *)

Definition appendResult (all r : DepthResult) : DepthResult :=
  {| hitStructures := hitStructures all ++ hitStructures r;
     hitEntryPoints := hitEntryPoints all ++ hitEntryPoints r;
     targetPaths := targetPaths all ++ targetPaths r |}.

(** [for (start = 0; start <= maxBreadth; start += 0x80)] with its
    [if (end >= maxBreadth) break]; [fuel] bounds the number of chunks. *)
Fixpoint chunkLoop (sc : State) (base : Base) (batchIndexes : list (gmap Z nat))
    (lookups : Lookups) (bitmapCtx : BitmapCtx) (maxBreadth : Z)
    (fuel : nat) (start : Z) (all : DepthResult) : option DepthResult :=
  match fuel with
  | O => Some all
  | S f =>
      if start <=? maxBreadth then
        let end_ := Z.min (start + 0x7C) maxBreadth in
        match scanBasePointerDepth sc base batchIndexes
                {| chunkStart := start; chunkEnd := end_ |} lookups bitmapCtx with
        | None => None
        | Some result =>
            let all' := appendResult all result in
            if maxBreadth <=? end_ then Some all'
            else chunkLoop sc base batchIndexes lookups bitmapCtx maxBreadth
                   f (start + 0x80) all'
        end
      else Some all
  end.

Record SingleResult := {
  sr_structures : list StructureHit;
  sr_entryPoints : list EntryPointHit;
  sr_targetPaths : list TargetPath;
  stopAllProcessing : bool
}.

Definition scanSingleBasePointer (sc : State) (base : Base)
    (batchIndexes : list (gmap Z nat)) (lookups : Lookups)
    (bitmapCtx : BitmapCtx) : option SingleResult :=
  let maxBreadth := maskedBreadth sc in
  match chunkLoop sc base batchIndexes lookups bitmapCtx maxBreadth
          (Z.to_nat (maxBreadth / 0x80 + 1)) 0 noFindings with
  | None => None
  | Some all =>
      match hitStructures all, hitEntryPoints all with
      | [], [] =>
          Some {| sr_structures := []; sr_entryPoints := [];
                  sr_targetPaths := []; stopAllProcessing := false |}
      | _, _ =>
          let stopAll := earlyOutTarget sc
                         && (0 <? length (targetPaths all))%nat in
          Some {| sr_structures := hitStructures all;
                  sr_entryPoints := claim <$> hitEntryPoints all;
                  sr_targetPaths := targetPaths all;
                  stopAllProcessing := stopAll |}
      end
  end.

(** *** Path following, as the advance step does it *)

(** The address batch [b] reaches from [start] along [offsets], with the
    scanner's convention of [0] for a missing row. *)
Definition trackPath (sc : State) (batchIndexes : list (gmap Z nat))
    (b : nat) (start : Z) (offsets : list Z) : Z :=
  foldl (advance sc batchIndexes b) start offsets.

(** The same walk, defined only while every address on the way has a row in
    batch [b]. *)
Definition followPath (sc : State) (batchIndexes : list (gmap Z nat))
    (b : nat) (start : Z) (offsets : list Z) : option Z :=
  foldl (fun cur offset =>
           match cur with
           | None => None
           | Some addr => (fun v => v + offset) <$> batchValue sc batchIndexes b addr
           end)
        (Some start) offsets.

End ForwardScanner.

(* ===================================================================== *)
(** * Properties *)
(* ===================================================================== *)

(** ** System catalogue: range subdivision (P7) *)

Section ConfigFacts.
Import Config.

Lemma assoc_elem_of {A} (k : string) (l : list (string * A)) (v : A) :
  assoc k l = Some v → (k, v) ∈ l.
Proof.
  induction l as [|[k' v'] l IH]; simpl; [discriminate|].
  destruct (String.eqb_spec k k') as [->|Hne].
  - intros [= ->]. left.
  - intros H. right. auto.
Qed.

(** Every descriptor the catalogue returns is one of its ten entries. *)
Lemma getSystemConfig_cases (id : string) (cfg : SystemConfig) :
  getSystemConfig id = Some cfg → (id, cfg) ∈ systems.
Proof. apply assoc_elem_of. Qed.

(** [getRanges] returns nothing for the DS: its mode is spelled ["quater"],
    which no case of the switch matches. *)
Lemma getRanges_ds_empty : getRanges "ds" = [].
Proof. reflexivity. Qed.

(** For the N64 (memory from 0x80000000) [floorAlign] turns the midpoint
    into a negative number: Range 1 is empty and Range 2 starts below the
    memory space. *)
Lemma getRanges_n64 :
  getRanges "n64" =
    [ {| label := "Range 1"; rmin := 2147483648; rmax := -2143289348 |};
      {| label := "Range 2"; rmin := -2143289344; rmax := 2155872255 |} ].
Proof. reflexivity. Qed.

(** C6, as stated, fails: on the GBA the single range ends at 0x0203FFFF,
    which is 3 modulo 4; the DS has no ranges at all; the N64 ranges do not
    cover its memory. *)
Lemma getRanges_not_as_specified :
  (∃ cfg, getSystemConfig "gba" = Some cfg
          ∧ covers cfg (getRanges "gba") = true
          ∧ allBoundariesAligned (getRanges "gba") = false)
  ∧ (∃ cfg, getSystemConfig "ds" = Some cfg
            ∧ rangesAsSpecified cfg (getRanges "ds") = false)
  ∧ (∃ cfg, getSystemConfig "n64" = Some cfg
            ∧ rangesAsSpecified cfg (getRanges "n64") = false).
Proof.
  split; [|split]; eexists; (split; [reflexivity|]); repeat split; vm_compute; reflexivity.
Qed.

(** C6 (amended): for every catalogue system whose range mode [getRanges]
    knows and whose memory lies below 2^31, the range list is non-empty,
    starts at the memory minimum, ends at the memory maximum, consists of
    non-empty ranges each starting one word after the previous one ends, and
    every boundary is a multiple of 4 except the end of the last range,
    which is the last byte of the memory (3 modulo 4). *)
Theorem getRanges_cover_aligned (id : string) (cfg : SystemConfig) :
  getSystemConfig id = Some cfg →
  knownMode cfg = true →
  belowInt32 cfg = true →
  covers cfg (getRanges id) = true
  ∧ innerBoundariesAligned (getRanges id) = true
  ∧ lastMax (getRanges id) = Some (memMax cfg)
  ∧ memMax cfg mod 4 = 3.
Proof.
  intros Hcfg Hmode Hlow. unfold getRanges. rewrite Hcfg.
  apply getSystemConfig_cases in Hcfg. unfold systems in Hcfg.
  repeat (apply elem_of_cons in Hcfg as [[= -> ->]|Hcfg];
          [ first [ discriminate Hmode | discriminate Hlow
                  | vm_compute; repeat split; reflexivity ] | ]).
  by apply elem_of_nil in Hcfg.
Qed.

Lemma getRanges_cover_aligned_ps2 :
  ∃ cfg, getSystemConfig "ps2" = Some cfg
         ∧ covers cfg (getRanges "ps2") = true
         ∧ innerBoundariesAligned (getRanges "ps2") = true
         ∧ lastMax (getRanges "ps2") = Some (memMax cfg)
         ∧ memMax cfg mod 4 = 3.
Proof.
  eexists. split; [reflexivity|].
  apply (getRanges_cover_aligned "ps2"); reflexivity.
Defined.

End ConfigFacts.

(** ** Chain walker: termination *)

Section WalkerTermination.
Import ChainWalker.

Variables (pool : list Z) (offset : Z) (getVal : Z → option Z) (opts : Opts).

(** What every walk maintains: the nodes are distinct pool addresses and
    [visited] is exactly the set of nodes. *)
Definition walkInv (w : Walk) : Prop :=
  NoDup (w_nodes w)
  ∧ (∀ x, x ∈ w_nodes w → x ∈ pool)
  ∧ (∀ x, x ∈ w_visited w ↔ x ∈ w_nodes w).

Lemma walkInv_push (w : Walk) (ghosts' : list Z) (cur : Z) (hit : bool) (tg : Z) :
  walkInv w →
  w_current w ∉ w_visited w →
  w_current w ∈ pool →
  walkInv {| w_nodes := w_nodes w ++ [w_current w]; w_ghosts := ghosts';
             w_visited := w_visited w ∪ {[w_current w]}; w_current := cur;
             w_hitTarget := hit; w_totalGhosts := tg |}.
Proof.
  intros (Hnd & Hin & Hvis) Hnv Hp. unfold walkInv; simpl. split_and!.
  - apply NoDup_app. split_and!; [done| |apply NoDup_singleton].
    intros x Hx Hx'. apply list_elem_of_singleton in Hx' as ->.
    apply Hnv, Hvis, Hx.
  - intros x [Hx|Hx]%elem_of_app; [auto|].
    by apply list_elem_of_singleton in Hx as ->.
  - intros x. rewrite elem_of_union, elem_of_singleton, elem_of_app,
      list_elem_of_singleton, Hvis. done.
Qed.

Lemma chainStep_inv (w : Walk) :
  walkInv w →
  match chainStep pool offset getVal opts w with
  | Break w' => walkInv w'
  | Continue w' => walkInv w' ∧ length (w_nodes w') = S (length (w_nodes w))
  end.
Proof.
  intros Hw. unfold chainStep.
  destruct (bool_decide (w_current w ∈ w_visited w)) eqn:Hvis; [done|].
  apply bool_decide_eq_false in Hvis.
  destruct (match targetPool opts with
            | Some tp => bool_decide (w_current w ∈ tp) | None => false end);
    [by destruct Hw as (?&?&?)|].
  unfold has.
  destruct (bool_decide (w_current w ∈ pool)) eqn:Hp; simpl; [|done].
  apply bool_decide_eq_true in Hp.
  destruct (getVal (w_current w)) as [val|]; [|done].
  pose proof (fun g c h t => walkInv_push w g c h t Hw Hvis Hp) as Hpush.
  destruct (bool_decide (val + offset ∈ pool)).
  { split; [apply Hpush|]. simpl. rewrite length_app. simpl. lia. }
  destruct (maxGhostNodes opts =? 0); [apply Hpush|].
  destruct (bridgeLoop _ _ _ _ _) as [[tgt cnt]|]; [|apply Hpush].
  destruct (maxGhostNodes opts <? w_totalGhosts w + cnt); [apply Hpush|].
  split; [apply Hpush|]. simpl. rewrite length_app. simpl. lia.
Qed.

Lemma walkInv_length (w : Walk) : walkInv w → (length (w_nodes w) ≤ length pool)%nat.
Proof.
  intros (Hnd & Hin & _). apply submseteq_length, NoDup_submseteq; auto.
Qed.

(** Enough fuel: the loop breaks within [length pool - length nodes + 1]
    iterations. *)
Lemma chainLoop_enough (fuel : nat) (w : Walk) :
  walkInv w →
  (length pool - length (w_nodes w) < fuel)%nat →
  ∃ w', chainLoop pool offset getVal opts fuel w = Some w' ∧ walkInv w'.
Proof.
  revert w. induction fuel as [|fuel IH]; intros w Hw Hlt; [lia|].
  simpl. pose proof (chainStep_inv w Hw) as Hstep.
  destruct (chainStep pool offset getVal opts w) as [w'|w'].
  - destruct Hstep as [Hw' Hlen]. apply IH; [done|].
    pose proof (walkInv_length w' Hw'). lia.
  - eauto.
Qed.

Lemma chainLoop_more_fuel (fuel extra : nat) (w w' : Walk) :
  chainLoop pool offset getVal opts fuel w = Some w' →
  chainLoop pool offset getVal opts (fuel + extra) w = Some w'.
Proof.
  revert w. induction fuel as [|fuel IH]; intros w; simpl; [discriminate|].
  destruct (chainStep pool offset getVal opts w); auto.
Qed.

Definition startWalk (startAddr : Z) : Walk :=
  {| w_nodes := []; w_ghosts := []; w_visited := ∅; w_current := startAddr;
     w_hitTarget := false; w_totalGhosts := 0 |}.

Lemma walkInv_start (a : Z) : walkInv (startWalk a).
Proof.
  unfold walkInv, startWalk; simpl. split_and!; [constructor|by intros ? ?%elem_of_nil|].
  intros x. rewrite elem_of_empty. split; [done|by intros ?%elem_of_nil].
Qed.

Lemma chainLoop_start (extra : nat) (a : Z) :
  ∃ w, chainLoop pool offset getVal opts (S (length pool) + extra) (startWalk a) = Some w
       ∧ chainLoop pool offset getVal opts (S (length pool)) (startWalk a) = Some w
       ∧ walkInv w.
Proof.
  destruct (chainLoop_enough (S (length pool)) (startWalk a)) as (w & Hw & Hinv).
  - apply walkInv_start.
  - simpl. lia.
  - exists w. split_and!; [|done..]. by apply chainLoop_more_fuel.
Qed.

(** The nodes of every emitted chain and entry point are distinct pool
    addresses. *)
Definition outerInv (o : Outer) : Prop :=
  Forall (fun c => NoDup (nodes c) ∧ ∀ x, x ∈ nodes c → x ∈ pool) (o_chains o)
  ∧ Forall (fun e => NoDup (we_nodes e) ∧ ∀ x, x ∈ we_nodes e → x ∈ pool)
           (o_entryPoints o).

Lemma walkFrom_total (pointedTo : gset Z) (extra : nat) (o : Outer) (a : Z) :
  outerInv o →
  ∃ o', walkFrom pool offset getVal opts pointedTo (S (length pool) + extra) o a = Some o'
        ∧ walkFrom pool offset getVal opts pointedTo (S (length pool)) o a = Some o'
        ∧ outerInv o'.
Proof.
  intros Ho. unfold walkFrom.
  destruct (bool_decide (a ∈ o_processed o)); [eauto|].
  destruct (bool_decide (a ∈ pointedTo)); [eauto|].
  destruct (getVal a); [|eauto].
  fold (startWalk a).
  destruct (chainLoop_start extra a) as (w & -> & -> & Hnd & Hin & _).
  simpl.
  destruct Ho as [Hc He].
  destruct (w_hitTarget w && _).
  { eexists; split_and!; [reflexivity..|]. split; simpl; [done|].
    apply Forall_app; split; [done|]. by repeat constructor. }
  destruct (minChainLength opts <=? Z.of_nat (length (w_nodes w))).
  { eexists; split_and!; [reflexivity..|]. split; simpl; [|done].
    apply Forall_app; split; [done|]. by repeat constructor. }
  eexists; split_and!; [reflexivity..|]. by split.
Qed.

Lemma walkHeads_total (pointedTo : gset Z) (extra : nat) (heads : list Z) (o : Outer) :
  outerInv o →
  ∃ o', walkHeads pool offset getVal opts pointedTo (S (length pool) + extra) o heads = Some o'
        ∧ walkHeads pool offset getVal opts pointedTo (S (length pool)) o heads = Some o'
        ∧ outerInv o'.
Proof.
  revert o. induction heads as [|a heads IH]; intros o Ho; cbn [walkHeads]; [eauto|].
  destruct (walkFrom_total pointedTo extra o a Ho) as (o' & -> & -> & Ho').
  cbn [mbind option_bind]. by apply IH.
Qed.

(** C10: [walkChainsAtOffset] terminates on every input.  With the inner
    [while (true)] bounded by one more iteration than the pool has addresses
    (or by any larger bound) no walk runs into the bound and the result is
    the same, whatever the pool, the offset, the value function and the
    options, cyclic pointer values included; every walk visits a pool address
    at most once, and the bridging loop is a counted loop of [maxGhostNodes]
    iterations. *)
Theorem walkChainsAtOffset_total (extra : nat) :
  walkChainsAtOffsetFuel (S (length pool) + extra) pool offset getVal opts
    = Some (walkChainsAtOffset pool offset getVal opts)
  ∧ Forall (fun c => NoDup (nodes c) ∧ ∀ x, x ∈ nodes c → x ∈ pool)
           (chains (walkChainsAtOffset pool offset getVal opts))
  ∧ Forall (fun e => NoDup (we_nodes e) ∧ ∀ x, x ∈ we_nodes e → x ∈ pool)
           (entryPoints (walkChainsAtOffset pool offset getVal opts)).
Proof.
  unfold walkChainsAtOffset, walkChainsAtOffsetFuel.
  destruct (walkHeads_total (pointedToSet pool offset getVal) extra pool
              {| o_chains := []; o_entryPoints := []; o_processed := ∅ |})
    as (o & -> & -> & Hc & He).
  { split; constructor. }
  simpl. done.
Qed.

End WalkerTermination.

(** ** Chain conflict resolution (P5) *)

Section ConflictResolution.
Import ChainWalker.

(** Two chains share a node. *)
Definition sharesNode (a b : Chain) : Prop := ∃ x, x ∈ nodes a ∧ x ∈ nodes b.

(** Chains [i] and [j] of the list share a node. *)
Definition linked (chains : list Chain) (i j : nat) : Prop :=
  ∃ a b, chains !! i = Some a ∧ chains !! j = Some b ∧ sharesNode a b.

(** Connected groups: sharing taken transitively. *)
Definition sameGroup (chains : list Chain) : relation nat := rtc (linked chains).

(** Chain [j] is marked [isHead = true] in the output. *)
Definition isHeadIn (out : list (nat * Chain)) (j : nat) : Prop :=
  ∃ c, (j, c) ∈ out ∧ isHead c = true.

(** Exactly one head in the group (under [group]) of every chain. *)
Definition oneHeadPerGroup (group : relation nat) (chains : list Chain)
    (out : list (nat * Chain)) : Prop :=
  ∀ i, (i < length chains)%nat →
    ∃ j, group i j ∧ isHeadIn out j ∧ ∀ j', group i j' → isHeadIn out j' → j' = j.

(** The head precedes every chain [k] of its group in the order (node count
    descending, then root address ascending). *)
Definition headIsFirst (group : relation nat) (chains : list Chain)
    (out : list (nat * Chain)) : Prop :=
  ∀ j k cj ck, isHeadIn out j → group j k →
    chains !! j = Some cj → chains !! k = Some ck → compareChains cj ck ≤ 0.

(** A pool on which three walks meet pairwise but not all three: the walk
    from 10 ends at 40 with its ghost budget spent, the walk from 100 joins
    it at 40 and bridges on to 64, and the walk from 200 reaches 64. *)
Definition meetingValues : list (Z * Z) :=
  [(10, 16); (24, 36); (40, 56); (64, 999); (100, 36); (200, 300); (304, 404); (408, 60)].
Definition meetingPool : list Z := meetingValues.*1.
Definition meetingGetVal (a : Z) : option Z :=
  snd <$> List.find (fun p => p.1 =? a) meetingValues.
Definition meetingOpts : Opts :=
  {| minChainLength := 1; maxGhostNodes := 1; targetPool := None |}.
Definition meetingChains : list Chain :=
  chains (walkChainsAtOffset meetingPool 4 meetingGetVal meetingOpts).

Lemma meetingChains_eq :
  meetingChains =
    [ {| nodes := [10; 24; 40]; ghosts := [20]; isHead := true |};
      {| nodes := [100; 40; 64]; ghosts := [60]; isHead := true |};
      {| nodes := [200; 304; 408; 64]; ghosts := []; isHead := true |} ].
Proof. vm_compute. reflexivity. Qed.

Lemma meetingChains_resolved :
  resolveIndexed meetingChains =
    [ (0%nat, {| nodes := [10; 24; 40]; ghosts := [20]; isHead := true |});
      (1%nat, {| nodes := [100; 40; 64]; ghosts := [60]; isHead := false |});
      (2%nat, {| nodes := [200; 304; 408; 64]; ghosts := []; isHead := true |}) ].
Proof. vm_compute. reflexivity. Qed.

(** C3, as stated, fails: the three chains above form one connected group
    (the first two share 40, the last two share 64), and the resolver marks
    both the first and the third as head. *)
Lemma resolve_two_heads_in_connected_group :
  ¬ oneHeadPerGroup (sameGroup meetingChains) meetingChains
      (resolveIndexed meetingChains).
Proof.
  intros H. destruct (H 0%nat) as (j & _ & _ & Huniq).
  { rewrite meetingChains_eq. simpl. lia. }
  assert (Hl01 : linked meetingChains 0 1).
  { rewrite meetingChains_eq. do 2 eexists. split_and!; [reflexivity..|].
    exists 40. simpl. split; set_solver. }
  assert (Hl12 : linked meetingChains 1 2).
  { rewrite meetingChains_eq. do 2 eexists. split_and!; [reflexivity..|].
    exists 64. simpl. split; set_solver. }
  assert (H0 : 0%nat = j).
  { apply Huniq; [apply rtc_refl|]. rewrite meetingChains_resolved.
    eexists. split; [left|reflexivity]. }
  assert (H2 : 2%nat = j).
  { apply Huniq; [by eapply rtc_l, rtc_once|]. rewrite meetingChains_resolved.
    eexists. split; [right; right; left|reflexivity]. }
  congruence.
Qed.

(** *** The resolver when sharing is already transitive *)

Lemma nodeToChains_spec (chains : list Chain) (node : Z) (k : nat) :
  k ∈ nodeToChains chains node ↔ ∃ c, chains !! k = Some c ∧ node ∈ nodes c.
Proof.
  unfold nodeToChains. rewrite list_elem_of_join. split.
  - intros (l & Hk & Hl). apply elem_of_lookup_imap in Hl as (i & c & -> & Hc).
    apply list_elem_of_fmap in Hk as (x & -> & Hx).
    apply list_elem_of_filter in Hx as [-> Hx]. eauto.
  - intros (c & Hc & Hn). eexists. split; [|apply elem_of_lookup_imap; eauto].
    apply list_elem_of_fmap. exists node. split; [done|].
    apply list_elem_of_filter. done.
Qed.

Lemma setAdd_spec (s : list nat) (ci k : nat) :
  k ∈ setAdd s ci ↔ k ∈ s ∨ k = ci.
Proof.
  unfold setAdd. case_bool_decide.
  - split; [auto|]. intros [?| ->]; done.
  - rewrite elem_of_app, list_elem_of_singleton. done.
Qed.

Lemma setAdd_NoDup (s : list nat) (ci : nat) : NoDup s → NoDup (setAdd s ci).
Proof.
  intros Hs. unfold setAdd. case_bool_decide; [done|].
  apply NoDup_app. split_and!; [done| |apply NoDup_singleton].
  intros x Hx ->%list_elem_of_singleton. done.
Qed.

Lemma conflicts_inner_spec (i : nat) (cis s : list nat) (k : nat) :
  k ∈ foldl (fun s ci => if bool_decide (ci ≠ i) then setAdd s ci else s) s cis
  ↔ k ∈ s ∨ (k ≠ i ∧ k ∈ cis).
Proof.
  revert s. induction cis as [|ci cis IH]; intros s; simpl.
  - split; [auto|]. intros [?|[_ ?%elem_of_nil]]; done.
  - rewrite IH. case_bool_decide as Hci.
    + rewrite setAdd_spec, elem_of_cons. split.
      * intros [[?| ->]|[? ?]]; auto.
      * intros [?|[? [->|?]]]; auto.
    + rewrite elem_of_cons. split.
      * intros [?|[? ?]]; auto.
      * intros [?|[? [->|?]]]; auto. by destruct Hci.
Qed.

Lemma conflicts_inner_NoDup (i : nat) (cis s : list nat) :
  NoDup s →
  NoDup (foldl (fun s ci => if bool_decide (ci ≠ i) then setAdd s ci else s) s cis).
Proof.
  revert s. induction cis as [|ci cis IH]; intros s Hs; simpl; [done|].
  apply IH. case_bool_decide; [by apply setAdd_NoDup|done].
Qed.

Lemma conflictsOf_spec (chains : list Chain) (i : nat) (ns : list Z) (k : nat) :
  k ∈ conflictsOf chains i ns
  ↔ k ≠ i ∧ ∃ c node, chains !! k = Some c ∧ node ∈ nodes c ∧ node ∈ ns.
Proof.
  unfold conflictsOf.
  assert (∀ s, k ∈ foldl (fun s node =>
             foldl (fun s ci => if bool_decide (ci ≠ i) then setAdd s ci else s)
                   s (nodeToChains chains node)) s ns
          ↔ k ∈ s ∨ (k ≠ i ∧ ∃ c node, chains !! k = Some c ∧ node ∈ nodes c ∧ node ∈ ns))
    as Hgen.
  { induction ns as [|n ns IH]; intros s; simpl.
    - split; [auto|]. intros [?|(_ & ? & ? & _ & _ & ?%elem_of_nil)]; done.
    - rewrite IH, conflicts_inner_spec, nodeToChains_spec. split.
      + intros [[?|(? & c & ? & ?)]|(? & c & node & ? & ? & ?)]; auto.
        * right. split; [done|]. exists c, n. split_and!; [done..|left].
        * right. split; [done|]. exists c, node. split_and!; [done..|by right].
      + intros [?|(? & c & node & ? & ? & [->|?]%elem_of_cons)]; eauto 10. }
  rewrite Hgen. split; [|auto]. intros [?%elem_of_nil|?]; done.
Qed.

Lemma conflictsOf_NoDup (chains : list Chain) (i : nat) (ns : list Z) :
  NoDup (conflictsOf chains i ns).
Proof.
  unfold conflictsOf. generalize (NoDup_nil_2 (A:=nat)). generalize (@nil nat).
  induction ns as [|n ns IH]; intros s Hs; simpl; [done|].
  apply IH. by apply conflicts_inner_NoDup.
Qed.

(** The comparator is the lexicographic order on (node count descending,
    root ascending). *)
Definition rootKey (c : Chain) : Z := default 0 (head (nodes c)).

Lemma compareChains_le (a b : Chain) :
  compareChains a b ≤ 0
  ↔ (length (nodes b) < length (nodes a))%nat
    ∨ (length (nodes a) = length (nodes b) ∧ rootKey a ≤ rootKey b).
Proof.
  unfold compareChains, rootKey.
  destruct (Z.eqb_spec (Z.of_nat (length (nodes b)) - Z.of_nat (length (nodes a))) 0)
    as [Heq|Hne]; simpl; [|lia].
  assert (length (nodes a) = length (nodes b)) as Hlen by lia.
  destruct (nodes a) as [|x la], (nodes b) as [|y lb]; simpl in *; try lia.
Qed.

Lemma compareChains_lt (a b : Chain) :
  compareChains a b < 0
  ↔ (length (nodes b) < length (nodes a))%nat
    ∨ (length (nodes a) = length (nodes b) ∧ rootKey a < rootKey b).
Proof.
  unfold compareChains, rootKey.
  destruct (Z.eqb_spec (Z.of_nat (length (nodes b)) - Z.of_nat (length (nodes a))) 0)
    as [Heq|Hne]; simpl; [|lia].
  assert (length (nodes a) = length (nodes b)) as Hlen by lia.
  destruct (nodes a) as [|x la], (nodes b) as [|y lb]; simpl in *; try lia.
Qed.

Lemma insertSorted_perm (x : nat * Chain) (l : list (nat * Chain)) :
  insertSorted x l ≡ₚ x :: l.
Proof.
  induction l as [|y l IH]; simpl; [done|].
  destruct (compareChains x.2 y.2 <? 0); [done|].
  rewrite IH. apply Permutation_swap.
Qed.

Lemma sortGroup_perm (g : list (nat * Chain)) : sortGroup g ≡ₚ g.
Proof.
  unfold sortGroup.
  assert (∀ acc, foldl (fun acc x => insertSorted x acc) acc g ≡ₚ acc ++ g) as H.
  { induction g as [|x g IH]; intros acc; simpl; [by rewrite app_nil_r|].
    rewrite IH, insertSorted_perm. simpl. apply Permutation_middle. }
  apply H.
Qed.

(** The first element of a list precedes all its elements. *)
Definition firstIsLeast (l : list (nat * Chain)) : Prop :=
  match l with
  | [] => True
  | h :: _ => ∀ x, x ∈ l → compareChains h.2 x.2 ≤ 0
  end.

Lemma insertSorted_least (x : nat * Chain) (l : list (nat * Chain)) :
  firstIsLeast l → firstIsLeast (insertSorted x l).
Proof.
  destruct l as [|y l]; simpl.
  - intros _ z ->%list_elem_of_singleton. apply compareChains_le. lia.
  - intros Hy. destruct (Z.ltb_spec (compareChains x.2 y.2) 0) as [Hlt|Hge]; simpl.
    + intros z [->|Hz]%elem_of_cons.
      * apply compareChains_le. lia.
      * specialize (Hy z Hz). apply compareChains_lt in Hlt.
        apply compareChains_le in Hy. apply compareChains_le. lia.
    + intros z Hz.
      assert (z ∈ y :: x :: l) as Hz'.
      { apply elem_of_cons in Hz as [->|Hz]; [left|].
        rewrite insertSorted_perm in Hz. by right. }
      apply elem_of_cons in Hz' as [->|[->|Hz']%elem_of_cons].
      * apply compareChains_le. lia.
      * apply compareChains_le.
        assert (¬ compareChains x.2 y.2 < 0) as Hn by lia.
        rewrite compareChains_lt in Hn. lia.
      * apply Hy. by right.
Qed.

Lemma sortGroup_least (g : list (nat * Chain)) : firstIsLeast (sortGroup g).
Proof.
  unfold sortGroup.
  assert (∀ acc, firstIsLeast acc →
            firstIsLeast (foldl (fun acc x => insertSorted x acc) acc g)) as H.
  { induction g as [|x g IH]; intros acc Hacc; simpl; [done|].
    apply IH. by apply insertSorted_least. }
  by apply H.
Qed.

(** What [pushRanked] appends when no chain of the group was processed:
    the group in sorted order, the first marked head. *)
Fixpoint ranked (rank : nat) (l : list (nat * Chain)) : list (nat * Chain) :=
  match l with
  | [] => []
  | (idx, c) :: rest => (idx, withHead c (Nat.eqb rank 0)) :: ranked (S rank) rest
  end.

Lemma ranked_fst (rank : nat) (l : list (nat * Chain)) : (ranked rank l).*1 = l.*1.
Proof.
  revert rank. induction l as [|[idx c] l IH]; intros rank; simpl; [done|].
  by rewrite IH.
Qed.

Lemma ranked_later (rank : nat) (l : list (nat * Chain)) (j : nat) (c : Chain) :
  (j, c) ∈ ranked (S rank) l → isHead c = false.
Proof.
  revert rank. induction l as [|[idx c'] l IH]; intros rank; simpl.
  - by intros ?%elem_of_nil.
  - intros [[= -> ->]|H]%elem_of_cons; [done|]. by eapply IH.
Qed.

Lemma ranked_elem (rank : nat) (l : list (nat * Chain)) (j : nat) (c : Chain) :
  (j, c) ∈ ranked rank l → ∃ c0, (j, c0) ∈ l ∧ c = withHead c0 (isHead c).
Proof.
  revert rank. induction l as [|[idx c'] l IH]; intros rank; simpl.
  - by intros ?%elem_of_nil.
  - intros [[= -> ->]|H]%elem_of_cons.
    + exists c'. split; [left|done].
    + destruct (IH _ H) as (c0 & ? & ?). exists c0. split; [by right|done].
Qed.

Lemma pushRanked_fresh (l : list (nat * Chain)) (rank : nat) (r : Resolve) :
  NoDup l.*1 →
  (∀ j, j ∈ l.*1 → j ∉ r_processed r) →
  r_resolved (pushRanked rank l r) = r_resolved r ++ ranked rank l
  ∧ ∀ j, j ∈ r_processed (pushRanked rank l r) ↔ j ∈ r_processed r ∨ j ∈ l.*1.
Proof.
  revert rank r. induction l as [|[idx c] l IH]; intros rank r Hnd Hfresh; simpl.
  - rewrite app_nil_r. split; [done|]. intros j. split; [auto|].
    intros [?|?%elem_of_nil]; done.
  - simpl in Hnd. apply NoDup_cons in Hnd as [Hidx Hnd].
    rewrite bool_decide_eq_false_2 by (apply Hfresh; left).
    destruct (IH (S rank)
                {| r_resolved := r_resolved r ++ [(idx, withHead c (Nat.eqb rank 0))];
                   r_processed := r_processed r ∪ {[idx]} |} Hnd) as [Hres Hproc].
    { intros j Hj. simpl. rewrite elem_of_union, elem_of_singleton.
      intros [Hp| ->]; [|done]. eapply Hfresh; [right; exact Hj|done]. }
    rewrite Hres. simpl. rewrite <- app_assoc. split; [done|].
    intros j. rewrite Hproc. simpl.
    rewrite elem_of_union, elem_of_singleton, elem_of_cons. tauto.
Qed.

Lemma linked_sym (chains : list Chain) (i j : nat) :
  linked chains i j → linked chains j i.
Proof. intros (a & b & ? & ? & x & ? & ?). exists b, a. split_and!; [done..|by exists x]. Qed.

Lemma sameGroup_sym (chains : list Chain) (i j : nat) :
  sameGroup chains i j → sameGroup chains j i.
Proof.
  induction 1 as [|i k j Hik _ IH]; [apply rtc_refl|].
  eapply rtc_trans; [exact IH|]. apply rtc_once. by apply linked_sym.
Qed.

Section TransitiveSharing.
Variable chains : list Chain.
Hypothesis sharing_transitive :
  ∀ i j k, linked chains i j → linked chains j k → linked chains i k.

Lemma sameGroup_cases (i j : nat) :
  sameGroup chains i j → i = j ∨ linked chains i j.
Proof.
  induction 1 as [|i k j Hik _ IH]; [by left|].
  right. destruct IH as [->|Hkj]; [done|]. by eapply sharing_transitive.
Qed.

Lemma group_members (i : nat) (ci : Chain) (k : nat) :
  chains !! i = Some ci →
  k ∈ i :: conflictsOf chains i (nodes ci)
  ↔ is_Some (chains !! k) ∧ sameGroup chains i k.
Proof.
  intros Hi. rewrite elem_of_cons, conflictsOf_spec. split.
  - intros [->|(Hne & c & node & Hk & Hn & Hn')].
    + split; [by eexists|apply rtc_refl].
    + split; [by eexists|]. apply rtc_once. exists ci, c. split_and!; [done..|].
      by exists node.
  - intros [[c Hk] Hg]. destruct (decide (k = i)) as [->|Hne]; [by left|right].
    split; [done|]. apply sameGroup_cases in Hg as [->|Hl]; [done|].
    destruct Hl as (a & b & Ha & Hb & x & Hx & Hx'). simplify_eq. eauto.
Qed.

Definition groupOf (i : nat) (ci : Chain) : list (nat * Chain) :=
  omap (fun idx => (fun c => (idx, c)) <$> chains !! idx)
       (i :: conflictsOf chains i (nodes ci)).

Lemma omap_lookup_fst (l : list nat) :
  (∀ k, k ∈ l → is_Some (chains !! k)) →
  (omap (fun idx => (fun c => (idx, c)) <$> chains !! idx) l).*1 = l.
Proof.
  induction l as [|k l IH]; intros Hl; [done|]. simpl.
  destruct (Hl k) as [c Hc]; [left|]. rewrite Hc. simpl. f_equal.
  apply IH. intros k' Hk'. apply Hl. by right.
Qed.

Lemma groupOf_fst (i : nat) (ci : Chain) :
  chains !! i = Some ci →
  (groupOf i ci).*1 = i :: conflictsOf chains i (nodes ci).
Proof.
  intros Hi. apply omap_lookup_fst. intros k Hk.
  by apply (group_members i ci k Hi) in Hk as [? _].
Qed.

Lemma groupOf_elem (i : nat) (ci : Chain) (k : nat) (c : Chain) :
  chains !! i = Some ci →
  (k, c) ∈ groupOf i ci ↔ chains !! k = Some c ∧ sameGroup chains i k.
Proof.
  intros Hi. unfold groupOf. rewrite list_elem_of_omap. split.
  - intros (idx & Hidx & Hf). destruct (chains !! idx) as [c'|] eqn:Hc; [|done].
    simpl in Hf. simplify_eq. split; [done|].
    by apply (group_members i ci k Hi) in Hidx as [_ ?].
  - intros [Hk Hg]. exists k. split; [|by rewrite Hk].
    apply (group_members i ci k Hi). split; [by eexists|done].
Qed.

Lemma groupOf_NoDup (i : nat) (ci : Chain) :
  chains !! i = Some ci → NoDup (groupOf i ci).*1.
Proof.
  intros Hi. rewrite (groupOf_fst i ci Hi). apply NoDup_cons. split.
  - rewrite conflictsOf_spec. by intros [? _].
  - apply conflictsOf_NoDup.
Qed.

(** Invariant of the main loop of the resolver. *)
Record resolveInv (r : Resolve) : Prop := {
  inv_proc : ∀ j, j ∈ r_processed r ↔ j ∈ (r_resolved r).*1;
  inv_nodup : NoDup (r_resolved r).*1;
  inv_closed : ∀ j k, j ∈ r_processed r → sameGroup chains j k → k ∈ r_processed r;
  inv_head : ∀ j, j ∈ r_processed r →
             ∃ h, sameGroup chains j h ∧ isHeadIn (r_resolved r) h;
  inv_uniq : ∀ h h', isHeadIn (r_resolved r) h → isHeadIn (r_resolved r) h' →
             sameGroup chains h h' → h = h';
  inv_least : headIsFirst (sameGroup chains) chains (r_resolved r);
  inv_copy : ∀ j c, (j, c) ∈ r_resolved r →
             ∃ c0, chains !! j = Some c0 ∧ c = withHead c0 (isHead c)
}.

Lemma resolveInv_init : resolveInv {| r_resolved := []; r_processed := ∅ |}.
Proof.
  split; simpl.
  - intros j. rewrite elem_of_empty. split; [done|by intros ?%elem_of_nil].
  - constructor.
  - intros j k ?%elem_of_empty. done.
  - intros j ?%elem_of_empty. done.
  - intros h h' (c & ?%elem_of_nil & _). done.
  - intros j k cj ck (c & ?%elem_of_nil & _). done.
  - intros j c ?%elem_of_nil. done.
Qed.

Lemma isHeadIn_ranked (l : list (nat * Chain)) (h : nat) :
  NoDup l.*1 →
  isHeadIn (ranked 0 l) h ↔ ∃ c rest, l = (h, c) :: rest.
Proof.
  intros Hnd. destruct l as [|[idx c0] l]; simpl.
  - split; [intros (c & ?%elem_of_nil & _); done|intros (? & ? & ?); done].
  - split.
    + intros (c & [[= -> ->]|Hin]%elem_of_cons & Hhead); [eauto|].
      by rewrite (ranked_later _ _ _ _ Hin) in Hhead.
    + intros (c & rest & [= -> -> ->]). exists (withHead c true). split; [left|done].
Qed.

Lemma resolveStep_inv (r : Resolve) (i : nat) :
  resolveInv r → resolveInv (resolveStep chains r i)
  ∧ (is_Some (chains !! i) → i ∈ r_processed (resolveStep chains r i))
  ∧ (∀ j, j ∈ r_processed r → j ∈ r_processed (resolveStep chains r i)).
Proof.
  intros Hr. unfold resolveStep.
  case_bool_decide as Hproc; [done|].
  destruct (chains !! i) as [ci|] eqn:Hi; [|split; [done|split; [by intros [? ?]|done]]].
  fold (groupOf i ci).
  pose proof (sortGroup_perm (groupOf i ci)) as Hperm.
  pose proof (sortGroup_least (groupOf i ci)) as Hleast.
  set (sorted := sortGroup (groupOf i ci)) in *.
  assert (∀ k c, (k, c) ∈ sorted ↔ chains !! k = Some c ∧ sameGroup chains i k) as Hmem.
  { intros k c. rewrite Hperm. by apply groupOf_elem. }
  assert (∀ k, k ∈ sorted.*1 ↔ is_Some (chains !! k) ∧ sameGroup chains i k) as Hmem1.
  { intros k. rewrite list_elem_of_fmap. split.
    - intros ([k' c] & -> & Hin). apply Hmem in Hin as [? ?]. split; [by eexists|done].
    - intros [[c Hc] Hg]. exists (k, c). split; [done|]. by apply Hmem. }
  assert (NoDup sorted.*1) as Hnd.
  { rewrite Hperm. by apply groupOf_NoDup. }
  assert (∀ j, j ∈ sorted.*1 → j ∉ r_processed r) as Hfresh.
  { intros j [_ Hg]%Hmem1 Hj. apply Hproc.
    eapply (inv_closed r Hr j i); [done|]. by apply sameGroup_sym. }
  destruct (pushRanked_fresh sorted 0 r Hnd Hfresh) as [Hres Hp].
  assert (∀ h, isHeadIn (r_resolved (pushRanked 0 sorted r)) h
               ↔ isHeadIn (r_resolved r) h ∨ isHeadIn (ranked 0 sorted) h) as Hheads.
  { intros h. unfold isHeadIn. rewrite Hres. split.
    - intros (c & [Hin|Hin]%elem_of_app & Hc); [left|right]; eauto.
    - intros [(c & Hin & Hc)|(c & Hin & Hc)]; exists c; rewrite elem_of_app; auto. }
  assert (∀ h, isHeadIn (r_resolved r) h → h ∈ r_processed r) as Hold.
  { intros h (c & Hin & _). apply (inv_proc r Hr). apply list_elem_of_fmap.
    by exists (h, c). }
  assert (∀ h, isHeadIn (ranked 0 sorted) h → h ∈ sorted.*1) as Hnew.
  { intros h (c & Hin & _). rewrite <- (ranked_fst 0). apply list_elem_of_fmap.
    by exists (h, c). }
  split; [split|split].
  - intros j. rewrite Hp, Hres, fmap_app, elem_of_app, ranked_fst.
    by rewrite (inv_proc r Hr).
  - rewrite Hres, fmap_app, ranked_fst. apply NoDup_app. split_and!; [apply Hr| |done].
    intros j Hj Hj'. apply (Hfresh j Hj'). by apply (inv_proc r Hr).
  - intros j k [Hj|Hj]%Hp Hg; apply Hp.
    + left. by eapply (inv_closed r Hr).
    + right. apply Hmem1 in Hj as [Hsome Hij]. apply Hmem1.
      split; [|by eapply rtc_trans].
      apply sameGroup_cases in Hg as [->|(? & b & _ & Hb & _)]; [done|by eexists].
  - intros j [Hj|Hj]%Hp.
    + destruct (inv_head r Hr j Hj) as (h & Hg & Hh). exists h. split; [done|].
      apply Hheads. by left.
    + assert (∃ h c rest, sorted = (h, c) :: rest) as (h & c & rest & Hs).
      { destruct sorted as [|[h c] rest]; [by apply elem_of_nil in Hj|eauto]. }
      exists h. split.
      * apply Hmem1 in Hj as [_ Hij].
        eapply rtc_trans; [by apply sameGroup_sym|].
        apply (Hmem h c). rewrite Hs. left.
      * apply Hheads. right. apply isHeadIn_ranked; eauto.
  - intros h h' [Hh|Hh]%Hheads [Hh'|Hh']%Hheads Hg.
    + by eapply (inv_uniq r Hr).
    + exfalso. apply (Hfresh h' (Hnew _ Hh')).
      eapply (inv_closed r Hr h h'); [by apply Hold|done].
    + exfalso. apply (Hfresh h (Hnew _ Hh)).
      eapply (inv_closed r Hr h' h); [by apply Hold|by apply sameGroup_sym].
    + apply isHeadIn_ranked in Hh as (c & rest & Hc); [|done].
      apply isHeadIn_ranked in Hh' as (c' & rest' & Hc'); [|done].
      congruence.
  - intros j k cj ck [Hh|Hh]%Hheads Hg Hj Hk.
    + by eapply (inv_least r Hr).
    + apply isHeadIn_ranked in Hh as (c & rest & Hc); [|done].
      assert ((j, c) ∈ sorted) as Hjc by (rewrite Hc; left).
      apply Hmem in Hjc as [Hjc Hij]. rewrite Hj in Hjc. injection Hjc as <-.
      assert ((k, ck) ∈ sorted) as Hkc.
      { apply Hmem. split; [done|]. by eapply rtc_trans. }
      unfold firstIsLeast in Hleast. rewrite Hc in Hleast, Hkc.
      apply (Hleast (k, ck) Hkc).
  - intros j c. rewrite Hres, elem_of_app. intros [Hin|Hin].
    + by apply (inv_copy r Hr).
    + apply ranked_elem in Hin as (c0 & Hin & Hc). apply Hmem in Hin as [? _]. eauto.
  - intros _. apply Hp. right. apply Hmem1. split; [by eexists|apply rtc_refl].
  - intros j Hj. apply Hp. by left.
Qed.

Lemma resolveLoop_inv (m : nat) :
  (m ≤ length chains)%nat →
  let r := foldl (resolveStep chains) {| r_resolved := []; r_processed := ∅ |} (seq 0 m) in
  resolveInv r ∧ ∀ j, (j < m)%nat → j ∈ r_processed r.
Proof.
  induction m as [|m IH]; intros Hm r; subst r.
  - simpl. split; [apply resolveInv_init|lia].
  - rewrite seq_S, foldl_app. simpl.
    destruct IH as [Hinv Hlt]; [lia|].
    destruct (resolveStep_inv _ m Hinv) as (Hinv' & Hm' & Hmono).
    split; [done|]. intros j Hj. destruct (decide (j = m)) as [->|Hne].
    + apply Hm'. apply lookup_lt_is_Some. lia.
    + apply Hmono, Hlt. lia.
Qed.

End TransitiveSharing.

Lemma walkFrom_heads (pool : list Z) (offset : Z) (getVal : Z → option Z)
    (opts : Opts) (pointedTo : gset Z) (fuel : nat) (o o' : Outer) (a : Z) :
  walkFrom pool offset getVal opts pointedTo fuel o a = Some o' →
  Forall (fun c => isHead c = true) (o_chains o) →
  Forall (fun c => isHead c = true) (o_chains o').
Proof.
  unfold walkFrom. intros H Ho.
  destruct (bool_decide (a ∈ o_processed o)); [by simplify_eq|].
  destruct (bool_decide (a ∈ pointedTo)); [by simplify_eq|].
  destruct (getVal a); [|by simplify_eq].
  destruct (chainLoop _ _ _ _ _ _) as [w|]; [|done]. simpl in H.
  destruct (w_hitTarget w && _); [by simplify_eq|].
  destruct (minChainLength opts <=? _); simplify_eq; simpl; [|done].
  apply Forall_app. split; [done|]. by repeat constructor.
Qed.

Lemma walkHeads_heads (pool : list Z) (offset : Z) (getVal : Z → option Z)
    (opts : Opts) (pointedTo : gset Z) (fuel : nat) (heads : list Z) (o o' : Outer) :
  walkHeads pool offset getVal opts pointedTo fuel o heads = Some o' →
  Forall (fun c => isHead c = true) (o_chains o) →
  Forall (fun c => isHead c = true) (o_chains o').
Proof.
  revert o. induction heads as [|a heads IH]; intros o; simpl.
  - by intros [= ->].
  - destruct (walkFrom pool offset getVal opts pointedTo fuel o a) as [o1|] eqn:H1;
      [|done]. simpl. intros H Ho. eapply IH; [done|]. by eapply walkFrom_heads.
Qed.

(** Every chain the walker returns carries [isHead = true]. *)
Lemma walkChainsAtOffset_heads (pool : list Z) (offset : Z) (getVal : Z → option Z)
    (opts : Opts) :
  Forall (fun c => isHead c = true) (chains (walkChainsAtOffset pool offset getVal opts)).
Proof.
  unfold walkChainsAtOffset, walkChainsAtOffsetFuel.
  destruct (walkHeads _ _ _ _ _ _ _ _) as [o|] eqn:H; simpl; [|constructor].
  eapply walkHeads_heads; [done|constructor].
Qed.

Lemma resolveIndexed_transitive (chains : list Chain) :
  Forall (fun c => isHead c = true) chains →
  (∀ i j k, linked chains i j → linked chains j k → linked chains i k) →
  (resolveIndexed chains).*1 ≡ₚ seq 0 (length chains)
  ∧ (∀ j c, (j, c) ∈ resolveIndexed chains →
            ∃ c0, chains !! j = Some c0 ∧ c = withHead c0 (isHead c))
  ∧ oneHeadPerGroup (sameGroup chains) chains (resolveIndexed chains)
  ∧ headIsFirst (sameGroup chains) chains (resolveIndexed chains).
Proof.
  intros Hheads Htrans.
  destruct chains as [|c0 [|c1 rest]] eqn:Hcs.
  - simpl. split_and!; [done| | |].
    + by intros j c ?%elem_of_nil.
    + intros i Hi. simpl in Hi. lia.
    + intros j k cj ck _ _ Hj. done.
  - apply Forall_cons in Hheads as [Hc0 _]. simpl.
    assert (∀ j, sameGroup [c0] 0%nat j → j = 0%nat) as Hzero.
    { intros j Hg.
      apply (sameGroup_cases [c0] Htrans) in Hg as [<-|(a & b & _ & Hb & _)]; [done|].
      apply lookup_lt_Some in Hb. simpl in Hb. lia. }
    split_and!; [done| | |].
    + intros j c [= -> ->]%list_elem_of_singleton. exists c0. split; [done|].
      by destruct c0.
    + intros i Hi. simpl in Hi. assert (i = 0%nat) as -> by lia.
      exists 0%nat. split_and!; [apply rtc_refl|exists c0; split; [left|done]|].
      intros j' Hj' _. by apply Hzero.
    + intros j k cj ck (c & [= -> ->]%list_elem_of_singleton & _) Hg Hj Hk.
      apply Hzero in Hg as ->. simplify_eq. apply compareChains_le. lia.
  - rewrite <- Hcs in *.
    assert (resolveIndexed chains =
            r_resolved (foldl (resolveStep chains)
                          {| r_resolved := []; r_processed := ∅ |}
                          (seq 0 (length chains)))) as ->.
    { by rewrite Hcs. }
    destruct (resolveLoop_inv chains Htrans (length chains)) as [Hinv Hall]; [done|].
    set (r := foldl _ _ _) in *.
    split_and!.
    + apply NoDup_Permutation; [apply Hinv|apply NoDup_seq|].
      intros j. rewrite <- (inv_proc chains r Hinv), elem_of_seq. split.
      * intros Hj. apply (inv_proc chains r Hinv) in Hj.
        apply list_elem_of_fmap in Hj as ([j' c] & -> & Hin).
        apply (inv_copy chains r Hinv) in Hin as (c' & Hc' & _).
        apply lookup_lt_Some in Hc'. simpl. lia.
      * intros [_ Hj]. apply Hall. lia.
    + apply Hinv.
    + intros i Hi. destruct (inv_head chains r Hinv i (Hall i Hi)) as (h & Hg & Hh).
      exists h. split_and!; [done..|]. intros j' Hg' Hh'. symmetry.
      apply (inv_uniq chains r Hinv h j' Hh Hh').
      eapply rtc_trans; [by apply sameGroup_sym|done].
    + apply Hinv.
Qed.

(** C3 (amended): for the chains [walkChainsAtOffset] returns, when node
    sharing among them is transitive (chains that are connected through a
    third chain also share a node directly), [resolveChainConflicts] copies
    every chain exactly once and marks exactly one chain [isHead = true] in
    every group of chains that share nodes; that chain is the first of its
    group under the order (node count descending, root address ascending). *)
Theorem resolve_one_head_when_sharing_transitive
    (pool : list Z) (offset : Z) (getVal : Z → option Z) (opts : Opts) :
  let cs := chains (walkChainsAtOffset pool offset getVal opts) in
  (∀ i j k, linked cs i j → linked cs j k → linked cs i k) →
  (resolveIndexed cs).*1 ≡ₚ seq 0 (length cs)
  ∧ (∀ j c, (j, c) ∈ resolveIndexed cs →
            ∃ c0, cs !! j = Some c0 ∧ c = withHead c0 (isHead c))
  ∧ oneHeadPerGroup (sameGroup cs) cs (resolveIndexed cs)
  ∧ headIsFirst (sameGroup cs) cs (resolveIndexed cs).
Proof.
  intros cs Htrans. apply resolveIndexed_transitive; [|done].
  apply walkChainsAtOffset_heads.
Qed.

(** Two walks that merge: both heads 10 and 100 point to 40. *)
Definition mergingValues : list (Z * Z) := [(10, 40); (40, 999); (100, 40)].
Definition mergingGetVal (a : Z) : option Z :=
  snd <$> List.find (fun p => p.1 =? a) mergingValues.
Definition mergingOpts : Opts :=
  {| minChainLength := 2; maxGhostNodes := 0; targetPool := None |}.

Lemma mergingChains_eq :
  chains (walkChainsAtOffset mergingValues.*1 0 mergingGetVal mergingOpts) =
    [ {| nodes := [10; 40]; ghosts := []; isHead := true |};
      {| nodes := [100; 40]; ghosts := []; isHead := true |} ].
Proof. vm_compute. reflexivity. Defined.

Lemma resolve_one_head_merging :
  let cs := chains (walkChainsAtOffset mergingValues.*1 0 mergingGetVal mergingOpts) in
  (resolveIndexed cs).*1 ≡ₚ seq 0 (length cs)
  ∧ (∀ j c, (j, c) ∈ resolveIndexed cs →
            ∃ c0, cs !! j = Some c0 ∧ c = withHead c0 (isHead c))
  ∧ oneHeadPerGroup (sameGroup cs) cs (resolveIndexed cs)
  ∧ headIsFirst (sameGroup cs) cs (resolveIndexed cs).
Proof.
  apply (resolve_one_head_when_sharing_transitive mergingValues.*1 0
           mergingGetVal mergingOpts).
  rewrite mergingChains_eq.
  intros i j k (a & _ & Ha & _ & _) (_ & c & _ & Hc & _).
  exists a, c. split_and!; [done..|]. exists 40.
  destruct i as [|[|i]], k as [|[|k]]; simpl in Ha, Hc; simplify_eq;
    simpl; split; set_solver.
Defined.

End ConflictResolution.

(** ** List detection: structures and the target-node pools (P4) *)

Section DetectionTargets.
Import ChainWalker Scanner ListDetector.

(** The addresses and ghosts of a structure. *)
Definition structureNodes (s : Structure) : list Z :=
  s_addresses s ++ default [] (s_ghosts s).

(** P4 as the specification states it: the structure's addresses and ghosts
    are in the target pool of every batch. *)
Definition inEveryTargetPool (tn : list (gset Z)) (s : Structure) : Prop :=
  ∀ b pool, tn !! b = Some pool → ∀ a, a ∈ structureNodes s → a ∈ pool.

(** What detection establishes: a static list is in the pool of every batch,
    a dynamic list in the pool of the batch that produced it. *)
Definition targeted (B : nat) (tn : list (gset Z)) (s : Structure) : Prop :=
  match s_type s with
  | static_list =>
      ∀ b pool, (b < B)%nat → tn !! b = Some pool →
                ∀ a, a ∈ structureNodes s → a ∈ pool
  | dynamic_list =>
      ∃ b pool, s_batchIdx s = Some b ∧ (b < B)%nat ∧ tn !! b = Some pool
                ∧ ∀ a, a ∈ structureNodes s → a ∈ pool
  | entry_point => True
  end.

(** Every pool of [tn'] extends the pool of [tn] at the same index. *)
Definition poolsGrow (tn tn' : list (gset Z)) : Prop :=
  length tn' = length tn
  ∧ ∀ b pool pool', tn !! b = Some pool → tn' !! b = Some pool' → pool ⊆ pool'.

Lemma targeted_mono (B : nat) (tn tn' : list (gset Z)) (s : Structure) :
  poolsGrow tn tn' → targeted B tn s → targeted B tn' s.
Proof.
  intros [Hlen Hgrow]. unfold targeted. destruct (s_type s); [| |done].
  - intros H b pool' Hb Hp' a Ha.
    destruct (tn !! b) as [pool|] eqn:Hp.
    + eapply (Hgrow b pool pool'); [done..|]. by eapply H.
    + apply lookup_ge_None in Hp. apply lookup_lt_Some in Hp'. lia.
  - intros (b & pool & Hb & HB & Hp & H).
    destruct (tn' !! b) as [pool'|] eqn:Hp'.
    + exists b, pool'. split_and!; [done..|]. intros a Ha.
      eapply (Hgrow b pool pool'); [done..|]. by apply H.
    + apply lookup_ge_None in Hp'. apply lookup_lt_Some in Hp. lia.
Qed.

Lemma poolsGrow_addToAll (B : nat) (tn : list (gset Z)) (addrs : list Z) :
  poolsGrow tn (addToAllTargets B tn addrs).
Proof.
  unfold addToAllTargets. split; [apply length_imap|].
  intros b pool pool' Hp. rewrite list_lookup_imap, Hp. simpl.
  intros [= <-]. destruct (b <? B)%nat; set_solver.
Qed.

Lemma poolsGrow_alter (b : nat) (tn : list (gset Z)) (addrs : list Z) :
  poolsGrow tn (alter (fun pool => pool ∪ list_to_set addrs) b tn).
Proof.
  split; [apply length_alter|].
  intros b' pool pool' Hp. destruct (decide (b = b')) as [<-|Hne].
  - rewrite list_lookup_alter_eq, Hp. simpl. intros [= <-]. set_solver.
  - rewrite list_lookup_alter_ne, Hp by done. by intros [= <-].
Qed.

(** The state relates the batch count, the pools and the structures as
    detection leaves them. *)
Definition detected (B : nat) (sc : State) : Prop :=
  length (batches sc) = B
  ∧ length (targetNodes sc) = B
  ∧ Forall (targeted B (targetNodes sc)) (structures sc).

Lemma recordStatic_detected (B : nat) (offset : Z) (st : StaticSweep) (chain : Chain) :
  detected B (ss_sc st) → detected B (ss_sc (recordStatic offset st chain)).
Proof.
  intros (HB & Htn & Hs). unfold recordStatic.
  destruct (negb (isHead chain)); [done|].
  destruct (_ <? _); [done|]. unfold setDetection. simpl.
  pose proof (poolsGrow_addToAll (length (batches (ss_sc st))) (targetNodes (ss_sc st))
                (nodes chain ++ ghosts chain)) as Hgrow.
  unfold detected. simpl.
  split_and!; [done|unfold addToAllTargets; by rewrite length_imap|].
  apply Forall_app. split.
  - eapply Forall_impl; [exact Hs|]. intros s. by apply targeted_mono.
  - constructor; [|constructor]. unfold targeted, structureNodes. simpl.
    intros b pool Hb. unfold addToAllTargets. rewrite list_lookup_imap.
    destruct (targetNodes (ss_sc st) !! b) as [p|]; [|done]. simpl.
    rewrite HB. replace (b <? B)%nat with true by (symmetry; apply Nat.ltb_lt; lia).
    intros [= <-] a Ha. apply elem_of_union. right. by apply elem_of_list_to_set.
Qed.

Lemma staticOffsetStep_detected (B : nat) (st : StaticSweep) (offset : Z) :
  detected B (ss_sc st) → detected B (ss_sc (staticOffsetStep st offset)).
Proof.
  intros Hst. unfold staticOffsetStep.
  destruct (chains _) as [|c cs]; [done|].
  generalize (resolveChainConflicts (c :: cs)). intros resolved.
  revert st Hst. induction resolved as [|ch resolved IH]; intros st Hst; simpl; [done|].
  apply IH. by apply recordStatic_detected.
Qed.

Lemma staticSweep_detected (B : nat) (offs : list Z) (st : StaticSweep) :
  detected B (ss_sc st) → detected B (ss_sc (foldl staticOffsetStep st offs)).
Proof.
  revert st. induction offs as [|o offs IH]; intros st Hst; simpl; [done|].
  apply IH. by apply staticOffsetStep_detected.
Qed.

Lemma detectStaticLists_detected (B : nat) (sc : State) :
  detected B sc → detected B (detectStaticLists sc).
Proof.
  intros Hsc. unfold detectStaticLists.
  pose proof (staticSweep_detected B offsets
                {| ss_pool := merge_sort Z.le (staticStaticNodes sc).*1;
                   ss_sc := sc; ss_structId := 1 |} Hsc) as Hswept.
  revert Hswept. generalize (foldl staticOffsetStep
                {| ss_pool := merge_sort Z.le (staticStaticNodes sc).*1;
                   ss_sc := sc; ss_structId := 1 |} offsets).
  intros swept (HB & Htn & Hs).
  assert (detected B
            (if generator (ss_sc swept) then
               match List.filter isStaticList (structures (ss_sc swept)) with
               | [] => ss_sc swept
               | _ => setDetection (ss_sc swept) (staticStaticNodes (ss_sc swept))
                        (staticNodes (ss_sc swept)) (targetNodes (ss_sc swept))
                        (List.filter (fun s => negb (isStaticList s))
                                     (structures (ss_sc swept)))
                        (entryPoints (ss_sc swept))
               end
             else ss_sc swept)) as (HB2 & Htn2 & Hs2).
  { destruct (generator (ss_sc swept)); [|done].
    destruct (List.filter isStaticList _); [done|].
    unfold setDetection. split_and!; simpl; [done..|].
    apply Forall_forall. intros x Hin. apply list_elem_of_In, filter_In in Hin as [Hin _].
    rewrite Forall_forall in Hs. apply Hs. by apply list_elem_of_In. }
  unfold setDetection. destruct (skipStickyPointers _); split_and!; simpl; done.
Qed.

Lemma recordDynamic_detected (B : nat) (offset : Z) (b : nat)
    (st : list Z * State) (chain : Chain) :
  (b < B)%nat → detected B st.2 → detected B (recordDynamic offset b st chain).2.
Proof.
  intros Hb. destruct st as [working sc]. simpl. intros (HB & Htn & Hs).
  unfold recordDynamic.
  destruct (isHead chain && _); unfold setDetection; simpl.
  - pose proof (poolsGrow_alter b (targetNodes sc) (nodes chain)) as Hgrow.
    unfold detected. simpl.
    split_and!; [done|by rewrite length_alter|].
    apply Forall_app. split.
    + eapply Forall_impl; [exact Hs|]. intros s. by apply targeted_mono.
    + constructor; [|constructor]. unfold targeted, structureNodes. simpl.
      destruct (lookup_lt_is_Some_2 (targetNodes sc) b) as [p Hp]; [lia|].
      exists b, (p ∪ list_to_set (nodes chain)). split_and!; [done..| |].
      * by rewrite list_lookup_alter_eq, Hp.
      * intros a Ha. rewrite app_nil_r in Ha. apply elem_of_union. right.
        by apply elem_of_list_to_set.
  - destruct (negb (isHead chain)); simpl; done.
Qed.

Lemma recordEntryPoint_detected (B : nat) (offset : Z) (b : nat)
    (st : list Z * State) (ep : WalkedEntry) :
  detected B st.2 → detected B (recordEntryPoint offset b st ep).2.
Proof.
  destruct st as [working sc]. unfold recordEntryPoint, setDetection. simpl.
  by intros (HB & Htn & Hs).
Qed.

Lemma dynamicBatchStep_detected (B : nat) (offset : Z) (st : DynamicSweep) (b : nat) :
  (b < B)%nat → detected B (ds_sc st) → detected B (ds_sc (dynamicBatchStep offset st b)).
Proof.
  intros Hb Hst. unfold dynamicBatchStep.
  destruct (ds_batchNodes st !! b) as [[|w working]|]; [done| |done].
  set (res := walkChainsAtOffset _ _ _ _).
  assert (∀ l s, detected B s.2 →
                 detected B (foldl (recordDynamic offset b) s l).2) as Hdyn.
  { induction l as [|c l IH]; intros s Hs; simpl; [done|].
    apply IH. by apply recordDynamic_detected. }
  assert (∀ l s, detected B s.2 →
                 detected B (foldl (recordEntryPoint offset b) s l).2) as Hep.
  { induction l as [|c l IH]; intros s Hs; simpl; [done|].
    apply IH. by apply recordEntryPoint_detected. }
  specialize (Hep (ChainWalker.entryPoints res)
                  (foldl (recordDynamic offset b) (w :: working, ds_sc st)
                         (resolveChainConflicts (chains res)))
                  (Hdyn _ (w :: working, ds_sc st) Hst)).
  destruct (foldl (recordEntryPoint offset b) _ _) as [working2 sc2]. done.
Qed.

Lemma detectDynamicLists_detected (B : nat) (sc : State) :
  detected B sc → detected B (detectDynamicLists sc).
Proof.
  intros Hsc. unfold detectDynamicLists.
  destruct Hsc as (HB & Hrest). rewrite HB.
  generalize (map (fun b => List.filter
                    (fun addr => negb (bool_decide (addr ∈ default ∅ (targetNodes sc !! b))))
                    (staticNodes sc).*1) (seq 0 B)).
  intros batchNodes.
  assert (∀ offs st, detected B (ds_sc st) →
            detected B (ds_sc (foldl (fun st offset =>
                                        foldl (dynamicBatchStep offset) st (seq 0 B))
                                     st offs))) as H.
  { induction offs as [|o offs IH]; intros st Hst; simpl; [done|].
    apply IH.
    assert (∀ bs st, (∀ b, b ∈ bs → (b < B)%nat) → detected B (ds_sc st) →
                     detected B (ds_sc (foldl (dynamicBatchStep o) st bs))) as Hb.
    { induction bs as [|b bs IHb]; intros st' Hbs Hst'; simpl; [done|].
      apply IHb; [intros; apply Hbs; by right|].
      apply dynamicBatchStep_detected; [apply Hbs; left|done]. }
    apply Hb; [|done]. intros b Hb'%elem_of_seq. lia. }
  apply H. simpl. by split.
Qed.

(** A run in which batch 0 holds the chain 100 -> 200 -> 300 and batch 1 does
    not. *)
Definition twoBatchScanner : State :=
  {| minChainLength := 2; maxGhostNodes := 10; maxBreadth := 0xFFC; maxDepth := 12;
     earlyOutTarget := false; skipStickyPointers := true;
     batches := [ {| b_addresses := [100; 200; 300]; b_values := [200; 300; 8000] |};
                  {| b_addresses := [100; 200; 300]; b_values := [5000; 6000; 7000] |} ];
     staticStaticNodes := [];
     staticNodes := [(100, [200; 5000]); (200, [300; 6000]); (300, [8000; 7000])];
     targetNodes := [∅; ∅]; basePointers := []; injectedTargets := ∅;
     structures := []; entryPoints := []; generator := false |}.

Lemma twoBatchScanner_structures :
  structures (detectDynamicLists (detectStaticLists twoBatchScanner)) =
    [ {| s_id := 0; s_type := dynamic_list; s_root := Some 100; s_nodeCount := 3;
         s_stride := 0; s_addresses := [100; 200; 300]; s_ghosts := None;
         s_buildOffset := 0; s_batchIdx := Some 0%nat |} ].
Proof. vm_compute. reflexivity. Qed.

Lemma twoBatchScanner_pool1 :
  targetNodes (detectDynamicLists (detectStaticLists twoBatchScanner)) !! 1%nat = Some ∅.
Proof. vm_compute. reflexivity. Qed.

(** C5, as stated, fails: the dynamic list found in batch 0 is not in the
    target pool of batch 1. *)
Lemma dynamic_list_not_in_every_pool :
  let sc := detectDynamicLists (detectStaticLists twoBatchScanner) in
  ¬ Forall (inEveryTargetPool (targetNodes sc)) (structures sc).
Proof.
  intros sc H. unfold sc in H. rewrite twoBatchScanner_structures in H.
  apply Forall_cons in H as [H _].
  specialize (H 1%nat ∅ twoBatchScanner_pool1 100).
  apply (not_elem_of_empty (C:=gset Z) 100), H.
  unfold structureNodes. simpl. set_solver.
Qed.

(** C5 (amended): after static and dynamic list detection, the addresses and
    ghosts of every static list are in the target pool of every batch, and
    the addresses of every dynamic list are in the target pool of the batch
    that produced it. *)
Theorem detection_targets (sc : State) :
  structures sc = [] →
  length (targetNodes sc) = length (batches sc) →
  let sc' := detectDynamicLists (detectStaticLists sc) in
  Forall (targeted (length (batches sc)) (targetNodes sc')) (structures sc').
Proof.
  intros Hs Htn sc'.
  assert (detected (length (batches sc)) sc) as Hsc.
  { split_and!; [done..|]. rewrite Hs. constructor. }
  apply detectStaticLists_detected, detectDynamicLists_detected in Hsc.
  apply Hsc.
Qed.

Lemma detection_targets_twoBatch :
  let sc' := detectDynamicLists (detectStaticLists twoBatchScanner) in
  Forall (targeted (length (batches twoBatchScanner)) (targetNodes sc')) (structures sc').
Proof. apply (detection_targets twoBatchScanner); reflexivity. Defined.

End DetectionTargets.

(** ** Forward scanner *)

Section ForwardScan.
Import Scanner ForwardScanner.

Variables (sc : State) (base : Base) (batchIndexes : list (gmap Z nat))
          (lookups : Lookups) (bitmapCtx : BitmapCtx).

(** Case analysis of one DFS iteration: either it stops with the findings
    [r], or it advances by the chosen offset. *)
Inductive stepShape (chunk : Chunk) (state : DfsState) : DfsStep → Prop :=
| shape_target firstAddr rest :
    addresses state = firstAddr :: rest →
    Forall (fun addr => addr ∈ injectedTargets sc) (addresses state) →
    stepShape chunk state
      (Done {| hitStructures := []; hitEntryPoints := [];
               targetPaths := [ {| basePointer := address base;
                                   tp_path := path state;
                                   targetAddress := firstAddr |} ] |})
| shape_structure struct :
    stepShape chunk state
      (Done {| hitStructures := [ {| sh_struct := struct; sh_depth := depth state;
                                     sh_path := path state |} ];
               hitEntryPoints := []; targetPaths := [] |})
| shape_known ep :
    stepShape chunk state
      (Done {| hitStructures := [];
               hitEntryPoints := [ KnownEntryPoint ep (depth state) (path state)
                                     (ep_claimed ep) ];
               targetPaths := [] |})
| shape_none :
    stepShape chunk state (Done noFindings)
| shape_voted combined chosenOffset firstAddr winning :
    chooseOffset combined chunk = Some chosenOffset →
    stepShape chunk state
      (Done {| hitStructures := [];
               hitEntryPoints := [ VotedEntryPoint (address base) (depth state)
                                     [firstAddr] winning
                                     (path state ++ [chosenOffset]) false ];
               targetPaths := [] |})
| shape_next combined chosenOffset :
    chooseOffset combined chunk = Some chosenOffset →
    stepShape chunk state
      (Next {| addresses := nextAddrs sc batchIndexes (length (batches sc))
                              (addresses state) chosenOffset;
               depth := depth state + 1;
               path := path state ++ [chosenOffset] |}).

Lemma dfsStep_shape (chunk : Chunk) (state : DfsState) (s : DfsStep) :
  dfsStep sc base batchIndexes chunk lookups bitmapCtx state = Some s →
  stepShape chunk state s.
Proof.
  unfold dfsStep. destruct (addresses state) as [|firstAddr rest] eqn:Haddr; [done|].
  destruct (bool_decide (firstAddr ∈ injectedTargets sc) && forallb _ _) eqn:Hinj.
  { intros [= <-]. apply andb_true_iff in Hinj as [_ Hall].
    eapply shape_target; [done|]. rewrite Haddr.
    apply Forall_forall. intros a Ha. rewrite forallb_forall in Hall.
    apply list_elem_of_In in Ha. by apply Hall, bool_decide_eq_true in Ha. }
  match goal with
  | |- match ?h with _ => _ end = _ → _ => destruct h as [[id struct|id ep]|]
  end.
  - intros [= <-]. constructor.
  - intros [= <-]. constructor.
  - destruct (_ =? 0); [intros [= <-]; constructor|].
    destruct (chooseOffset _ chunk) as [chosenOffset|] eqn:Hch;
      [|intros [= <-]; constructor].
    destruct (vote _ _ _ _ _) as [targetCount freq].
    destruct (hasMajority _ _ && offsetsAgree _); intros [= <-]; rewrite <- ?Haddr.
    + by eapply shape_voted.
    + by eapply shape_next.
Qed.

(** The current address of batch [b] is where the scanner's walk along the
    path so far leads from the base pointer's value for that batch. *)
Definition tracks (state : DfsState) : Prop :=
  addresses state =
    map (fun b => trackPath sc batchIndexes b (default 0 (values base !! b)) (path state))
        (seq 0 (length (batches sc))).

Lemma tracks_initial :
  length (values base) = length (batches sc) →
  tracks {| addresses := values base; depth := 1; path := [] |}.
Proof.
  intros Hlen. unfold tracks, trackPath. simpl.
  apply list_eq. intros i. rewrite list_lookup_fmap.
  destruct (decide (i < length (batches sc))%nat) as [Hi|Hi].
  - rewrite lookup_seq_lt by done. simpl.
    destruct (lookup_lt_is_Some_2 (values base) i) as [v Hv]; [lia|]. by rewrite Hv.
  - rewrite lookup_seq_ge by lia. simpl. apply lookup_ge_None. lia.
Qed.

Lemma tracks_next (state : DfsState) (chosenOffset : Z) :
  tracks state →
  tracks {| addresses := nextAddrs sc batchIndexes (length (batches sc))
                           (addresses state) chosenOffset;
            depth := depth state + 1;
            path := path state ++ [chosenOffset] |}.
Proof.
  unfold tracks, nextAddrs. simpl. intros ->.
  apply map_ext_in. intros b Hb%in_seq.
  unfold trackPath. rewrite foldl_app. simpl. f_equal.
  rewrite list_lookup_fmap, lookup_seq_lt by lia. done.
Qed.

Lemma dfsLoop_targetPaths (chunk : Chunk) (remaining : nat) (state : DfsState)
    (r : DepthResult) (tp : TargetPath) :
  length (values base) = length (batches sc) →
  tracks state →
  dfsLoop sc base batchIndexes chunk lookups bitmapCtx remaining state = Some r →
  tp ∈ targetPaths r →
  basePointer tp = address base
  ∧ (∃ v0, values base !! 0%nat = Some v0
           ∧ trackPath sc batchIndexes 0 v0 (tp_path tp) = targetAddress tp)
  ∧ (∀ b v, values base !! b = Some v → (b < length (batches sc))%nat →
            trackPath sc batchIndexes b v (tp_path tp) ∈ injectedTargets sc).
Proof.
  intros Hlen. revert state. induction remaining as [|n IH]; intros state Htr; simpl.
  { intros [= <-] Hin. by apply elem_of_nil in Hin. }
  destruct (dfsStep _ _ _ _ _ _ state) as [s|] eqn:Hstep; [|done].
  apply dfsStep_shape in Hstep.
  destruct Hstep as [firstAddr rest Haddr Hall| | | | |];
    try (intros [= <-] Hin; simpl in Hin; by apply elem_of_nil in Hin).
  - intros [= <-] Hin. simpl in Hin. apply list_elem_of_singleton in Hin as ->. simpl.
    unfold tracks in Htr.
    split; [done|]. split.
    + destruct (length (batches sc)) as [|B] eqn:HB.
      { rewrite Htr in Haddr. done. }
      rewrite Htr in Haddr. simpl in Haddr. injection Haddr as Hf _.
      destruct (lookup_lt_is_Some_2 (values base) 0) as [v0 Hv0]; [lia|].
      exists v0. split; [done|]. by rewrite Hv0 in Hf.
    + intros b v Hv Hb. rewrite Forall_forall in Hall.
      apply Hall. rewrite Htr. apply list_elem_of_fmap. exists b.
      rewrite Hv. simpl. split; [done|]. apply elem_of_seq. lia.
  - apply IH. by apply tracks_next.
Qed.

(** The property C1 and its amended form are about one emitted record. *)
Definition endsOnInjected (tp : TargetPath) : Prop :=
  basePointer tp = address base
  ∧ (∃ v0, values base !! 0%nat = Some v0
           ∧ trackPath sc batchIndexes 0 v0 (tp_path tp) = targetAddress tp)
  ∧ (∀ b v, values base !! b = Some v →
            trackPath sc batchIndexes b v (tp_path tp) ∈ injectedTargets sc).

Lemma scanBasePointerDepth_targetPaths (chunk : Chunk) (r : DepthResult) :
  scanBasePointerDepth sc base batchIndexes chunk lookups bitmapCtx = Some r →
  Forall endsOnInjected (targetPaths r).
Proof.
  unfold scanBasePointerDepth.
  destruct (Nat.eqb_spec (length (values base)) (length (batches sc))) as [Hlen|];
    [|done]. simpl. intros Hloop. apply Forall_forall. intros tp Htp.
  destruct (dfsLoop_targetPaths chunk _ _ r tp Hlen (tracks_initial Hlen) Hloop Htp)
    as (Hb & Hv0 & Hall).
  split_and!; [done..|]. intros b v Hv. apply Hall; [done|].
  apply lookup_lt_Some in Hv. lia.
Qed.

Lemma chunkLoop_targetPaths (maxBreadth : Z) (fuel : nat) (start : Z)
    (all r : DepthResult) :
  Forall endsOnInjected (targetPaths all) →
  chunkLoop sc base batchIndexes lookups bitmapCtx maxBreadth fuel start all = Some r →
  Forall endsOnInjected (targetPaths r).
Proof.
  revert start all. induction fuel as [|fuel IH]; intros start all Hall; simpl.
  { by intros [= <-]. }
  destruct (start <=? maxBreadth); [|by intros [= <-]].
  destruct (scanBasePointerDepth _ _ _ _ _ _) as [res|] eqn:Hres; [|done].
  assert (Forall endsOnInjected (targetPaths (appendResult all res))) as Hall'.
  { simpl. apply Forall_app. split; [done|].
    by eapply scanBasePointerDepth_targetPaths. }
  destruct (maxBreadth <=? _); [by intros [= <-]|]. by apply IH.
Qed.

(** C1 (amended): for every target path the forward scanner emits, for one
    chunk or for a whole base pointer, following the path in batch 0 from the
    base pointer's value leads exactly to [targetAddress], and following it in
    any batch leads to an injected target (the addresses of different batches
    need not coincide).  The walk is the one the scanner performs: the next
    address is the batch's value at the current address plus the offset, and
    [0] where the batch has no row for the current address. *)
Theorem targetPath_ends_on_injected_target :
  (∀ chunk r, scanBasePointerDepth sc base batchIndexes chunk lookups bitmapCtx = Some r →
              Forall endsOnInjected (targetPaths r))
  ∧ (∀ r, scanSingleBasePointer sc base batchIndexes lookups bitmapCtx = Some r →
          Forall endsOnInjected (sr_targetPaths r)).
Proof.
  split; [apply scanBasePointerDepth_targetPaths|].
  intros r. unfold scanSingleBasePointer.
  destruct (chunkLoop _ _ _ _ _ _ _ _ _) as [all|] eqn:Hall; [|done].
  apply chunkLoop_targetPaths in Hall; [|constructor].
  destruct (hitStructures all), (hitEntryPoints all); intros [= <-]; simpl;
    first [done | constructor].
Qed.

(** *** [maxBreadth = 0] *)

Lemma chooseOffset_zero_chunk (combined chosenOffset : Z) :
  chooseOffset combined {| chunkStart := 0; chunkEnd := 0 |} = Some chosenOffset →
  chosenOffset = 0.
Proof.
  unfold chooseOffset. cbn [chunkStart chunkEnd].
  destruct (List.find (A:=Z) _ _) as [bit|] eqn:Hfind; [|done].
  cbn [fmap option_fmap option_map]. intros [= <-].
  apply find_some in Hfind as [Hin Hcond].
  apply andb_true_iff in Hcond as [_ Hle]. apply Z.leb_le in Hle.
  apply list_elem_of_In, elem_of_seqZ in Hin. lia.
Qed.

(** At most one finding, no target path next to another finding, and only
    zero offsets on the paths. *)
Definition zeroFindings (r : DepthResult) : Prop :=
  (length (hitStructures r) + length (hitEntryPoints r) + length (targetPaths r) ≤ 1)%nat
  ∧ Forall (fun h => Forall (fun o => o = 0) (sh_path h)) (hitStructures r)
  ∧ Forall (fun h => Forall (fun o => o = 0) (hitPath h)) (hitEntryPoints r).

Lemma dfsLoop_zero_chunk (remaining : nat) (state : DfsState) (r : DepthResult) :
  Forall (fun o => o = 0) (path state) →
  dfsLoop sc base batchIndexes {| chunkStart := 0; chunkEnd := 0 |} lookups bitmapCtx
    remaining state = Some r →
  zeroFindings r.
Proof.
  revert state. induction remaining as [|n IH]; intros state Hpath; simpl.
  { intros [= <-]. split_and!; simpl; [lia|constructor..]. }
  destruct (dfsStep _ _ _ _ _ _ state) as [s|] eqn:Hstep; [|done].
  apply dfsStep_shape in Hstep.
  destruct Hstep as [| | | |combined off firstAddr winning Hoff|combined off Hoff].
  - intros [= <-]. split_and!; simpl; [lia|constructor..].
  - intros [= <-]. split_and!; simpl; [lia|by repeat constructor|constructor].
  - intros [= <-]. split_and!; simpl; [lia|constructor|by repeat constructor].
  - intros [= <-]. split_and!; simpl; [lia|constructor..].
  - intros [= <-]. apply chooseOffset_zero_chunk in Hoff as ->.
    split_and!; simpl; [lia|constructor|].
    constructor; [|constructor]. simpl. apply Forall_app. by repeat constructor.
  - apply IH. simpl. apply chooseOffset_zero_chunk in Hoff as ->.
    apply Forall_app. by repeat constructor.
Qed.

(** C9 (amended): with [maxBreadth = 0] the forward scanner scans the single
    chunk that holds offset 0 only.  For a base pointer it returns no target
    path and at most one finding, a structure hit or an entry-point hit, and
    every offset on the path of that finding is 0. *)
Theorem maxBreadth_zero_findings (r : SingleResult) :
  maskedBreadth sc = 0 →
  scanSingleBasePointer sc base batchIndexes lookups bitmapCtx = Some r →
  sr_targetPaths r = []
  ∧ (length (sr_structures r) + length (sr_entryPoints r) ≤ 1)%nat
  ∧ Forall (fun h => Forall (fun o => o = 0) (sh_path h)) (sr_structures r)
  ∧ Forall (fun h => Forall (fun o => o = 0) (hitPath h)) (sr_entryPoints r).
Proof.
  intros Hzero. unfold scanSingleBasePointer. rewrite Hzero. simpl.
  unfold scanBasePointerDepth.
  destruct (negb _); [done|].
  destruct (dfsLoop _ _ _ _ _ _ _ _) as [res|] eqn:Hloop; [|done]. simpl.
  apply dfsLoop_zero_chunk in Hloop as (Hcount & Hs & He); [|constructor].
  destruct (hitStructures res) as [|sh shs] eqn:Hhs,
           (hitEntryPoints res) as [|eh ehs] eqn:Hhe; intros [= <-];
    cbn [sr_targetPaths sr_structures sr_entryPoints];
    rewrite ?length_fmap; cbn [length] in *.
  - split_and!; [done|lia|constructor..].
  - destruct (targetPaths res); cbn [length] in *; [|lia].
    pose proof (length_fmap claim ehs) as Hlen. unfold fmap in Hlen.
    split_and!; [done|lia|done|].
    change (Forall (fun h => Forall (fun o => o = 0) (hitPath h))
                   (claim <$> eh :: ehs)).
    apply Forall_fmap. eapply Forall_impl; [exact He|]. by intros [].
  - destruct (targetPaths res); cbn [length] in *; [|lia].
    split_and!; [done|lia|done|constructor].
  - pose proof (length_fmap claim ehs) as Hlen. unfold fmap in Hlen. lia.
Qed.

End ForwardScan.

(** *** Concrete scans *)

Section ScanExamples.
Import Scanner ForwardScanner.

(** A base pointer at 0x200000 whose value is 0x300000 in batch 0 and 0x400000
    in batch 1; each of the two nodes points on, to 0x500000 and 0x600000. *)
Definition forkBatches : list Batch :=
  [ {| b_addresses := [0x200000; 0x300000; 0x500000];
       b_values    := [0x300000; 0x500000; 0x900000] |};
    {| b_addresses := [0x200000; 0x400000; 0x600000];
       b_values    := [0x400000; 0x600000; 0x900000] |} ].

Definition forkBase : Base := {| address := 0x200000; values := [0x300000; 0x400000] |}.

Definition forkList : Structure :=
  {| s_id := 0; s_type := dynamic_list; s_root := Some 0x500000; s_nodeCount := 2;
     s_stride := 0; s_addresses := [0x500000; 0x600000]; s_ghosts := None;
     s_buildOffset := 0; s_batchIdx := Some 0%nat |}.

Definition forkScanner (breadth : Z) (injected : gset Z) (sts : list Structure) : State :=
  {| minChainLength := 15; maxGhostNodes := 10; maxBreadth := breadth; maxDepth := 12;
     earlyOutTarget := false; skipStickyPointers := true;
     batches := forkBatches;
     staticStaticNodes := []; staticNodes := [(0x200000, [0x300000; 0x400000])];
     targetNodes := [injected; injected];
     basePointers := [(0x200000, [0x300000; 0x400000])];
     injectedTargets := injected;
     structures := sts; entryPoints := []; generator := false |}.

Definition lookupsOf (sc : State) : Lookups :=
  {| structAddrMap := _buildStructAddrMap sc; epAddrMap := _buildEpAddrMap sc |}.

Definition noBitmaps : BitmapCtx := {| store := None; slots := 0; bytes := 0 |}.

Definition firstChunk : Chunk := {| chunkStart := 0; chunkEnd := 0x7C |}.

(** The structure made of the two nodes the base pointer points to. *)
Definition forkHeads : Structure :=
  {| s_id := 1; s_type := dynamic_list; s_root := Some 0x300000; s_nodeCount := 2;
     s_stride := 0; s_addresses := [0x300000; 0x400000]; s_ghosts := None;
     s_buildOffset := 0; s_batchIdx := Some 0%nat |}.

(** The scan with the two second-level nodes as injected targets and empty
    target pools, without precomputed bitmaps. *)
Definition hopScanner : State :=
  setDetection (forkScanner 0xFFC {[ 0x500000; 0x600000 ]} [])
    [] [(0x200000, [0x300000; 0x400000])] [∅; ∅] [] [].

Lemma hopScanner_result :
  scanBasePointerDepth hopScanner forkBase (buildBatchIndexes hopScanner) firstChunk
    (lookupsOf hopScanner) noBitmaps
  = Some {| hitStructures := []; hitEntryPoints := [];
            targetPaths := [ {| basePointer := 0x200000; tp_path := [0];
                                targetAddress := 0x500000 |} ] |}.
Proof. vm_compute. reflexivity. Defined.

Lemma targetPath_ends_on_injected_target_hop :
  Forall (endsOnInjected hopScanner forkBase (buildBatchIndexes hopScanner))
    [ {| basePointer := 0x200000; tp_path := [0]; targetAddress := 0x500000 |} ].
Proof.
  apply (proj1 (targetPath_ends_on_injected_target hopScanner forkBase
                  (buildBatchIndexes hopScanner) (lookupsOf hopScanner) noBitmaps)
               firstChunk _ hopScanner_result).
Defined.

(** C1 as stated: in every batch the walk ends exactly at [targetAddress]. *)
Definition endsOnTargetAddress (sc : State) (base : Base)
    (batchIndexes : list (gmap Z nat)) (tp : TargetPath) : Prop :=
  ∀ b v, values base !! b = Some v →
         trackPath sc batchIndexes b v (tp_path tp) = targetAddress tp.

(** The scan as the pipeline runs it, with the base pointer's two values as
    injected targets (and so in both target pools). *)
Definition directScanner : State := forkScanner 0xFFC {[ 0x300000; 0x400000 ]} [].

Lemma directScanner_result :
  scanBasePointerDepth directScanner forkBase (buildBatchIndexes directScanner) firstChunk
    (lookupsOf directScanner)
    (buildTraversalBitmaps directScanner (buildBatchIndexes directScanner))
  = Some {| hitStructures := []; hitEntryPoints := [];
            targetPaths := [ {| basePointer := 0x200000; tp_path := [];
                                targetAddress := 0x300000 |} ] |}.
Proof. vm_compute. reflexivity. Qed.

(** C1, as stated, fails: the emitted target path names the address batch 0
    reached, 0x300000, while batch 1 stands at the other injected target,
    0x400000. *)
Lemma targetPath_not_same_address_in_every_batch :
  ∃ r, scanBasePointerDepth directScanner forkBase (buildBatchIndexes directScanner)
         firstChunk (lookupsOf directScanner)
         (buildTraversalBitmaps directScanner (buildBatchIndexes directScanner)) = Some r
       ∧ ¬ Forall (endsOnTargetAddress directScanner forkBase
                     (buildBatchIndexes directScanner)) (targetPaths r).
Proof.
  eexists. split; [apply directScanner_result|]. simpl.
  intros [H _]%Forall_cons. specialize (H 1%nat 0x400000 eq_refl).
  vm_compute in H. discriminate H.
Qed.

(** The same failure one hop further, on a scan that follows offset 0 first:
    batch 0 ends at 0x500000, batch 1 at 0x600000. *)
Lemma targetPath_hop_differs :
  trackPath hopScanner (buildBatchIndexes hopScanner) 0 0x300000 [0] = 0x500000
  ∧ trackPath hopScanner (buildBatchIndexes hopScanner) 1 0x400000 [0] = 0x600000.
Proof. split; vm_compute; reflexivity. Qed.

(** *** [maxBreadth = 0] on a concrete scan *)

Definition zeroBreadthScanner : State := forkScanner 0 ∅ [forkHeads].

Lemma zeroBreadthScanner_result :
  scanSingleBasePointer zeroBreadthScanner forkBase (buildBatchIndexes zeroBreadthScanner)
    (lookupsOf zeroBreadthScanner)
    (buildTraversalBitmaps zeroBreadthScanner (buildBatchIndexes zeroBreadthScanner))
  = Some {| sr_structures := [ {| sh_struct := forkHeads; sh_depth := 1; sh_path := [] |} ];
            sr_entryPoints := []; sr_targetPaths := []; stopAllProcessing := false |}.
Proof. vm_compute. reflexivity. Defined.

(** C9, as stated, fails: with [maxBreadth = 0] the scan of a base pointer
    whose values lie in a known structure still reports that structure. *)
Lemma maxBreadth_zero_still_finds :
  ∃ r, scanSingleBasePointer zeroBreadthScanner forkBase
         (buildBatchIndexes zeroBreadthScanner) (lookupsOf zeroBreadthScanner)
         (buildTraversalBitmaps zeroBreadthScanner (buildBatchIndexes zeroBreadthScanner))
       = Some r
       ∧ ¬ (sr_structures r = [] ∧ sr_entryPoints r = [] ∧ sr_targetPaths r = []).
Proof.
  eexists. split; [apply zeroBreadthScanner_result|]. simpl. by intros [? _].
Qed.

Lemma maxBreadth_zero_findings_fork :
  let r := {| sr_structures := [ {| sh_struct := forkHeads; sh_depth := 1; sh_path := [] |} ];
              sr_entryPoints := []; sr_targetPaths := []; stopAllProcessing := false |} in
  sr_targetPaths r = []
  ∧ (length (sr_structures r) + length (sr_entryPoints r) ≤ 1)%nat
  ∧ Forall (fun h => Forall (fun o => o = 0) (sh_path h)) (sr_structures r)
  ∧ Forall (fun h => Forall (fun o => o = 0) (hitPath h)) (sr_entryPoints r).
Proof.
  apply (maxBreadth_zero_findings zeroBreadthScanner forkBase
           (buildBatchIndexes zeroBreadthScanner) (lookupsOf zeroBreadthScanner)
           (buildTraversalBitmaps zeroBreadthScanner (buildBatchIndexes zeroBreadthScanner))).
  - reflexivity.
  - apply zeroBreadthScanner_result.
Defined.

(** *** Precomputed bitmaps against the on-the-fly bitmaps *)

Definition forkListScanner : State := forkScanner 0xFFC ∅ [forkList].

(** C2 fails on the code.  At depth 1 of the scan of the base pointer at
    0x200000 the current addresses are 0x300000 (batch 0) and 0x400000
    (batch 1).  The on-the-fly bitmap has bit 0 set: 0x500000 exists in batch 0
    and 0x600000 in batch 1.  The fast path takes the stored words of the
    first batch's node 0x300000 for every batch; that node has no row in
    batch 1, its word there is 0, and the combined bitmap is 0.  With the
    precomputed bitmaps the scan of the chunk ends without a finding; computed
    on the fly it reaches the list at depth 2. *)
Theorem precomputed_bitmap_differs_from_on_the_fly :
  let sc := forkListScanner in
  let batchIndexes := buildBatchIndexes sc in
  let bitmapCtx := buildTraversalBitmaps sc batchIndexes in
  (∃ precomp, precompFor bitmapCtx 0x300000 0 = Some precomp
              ∧ combinedPrecomp 2 precomp (slots bitmapCtx) 0 = 0)
  ∧ combinedBitmapOf sc batchIndexes bitmapCtx 2 [0x300000; 0x400000] 0x300000 0 = 0
  ∧ combinedOnTheFly sc batchIndexes 2 [0x300000; 0x400000] 0 = 1
  ∧ scanBasePointerDepth sc forkBase batchIndexes firstChunk (lookupsOf sc) bitmapCtx
    = Some noFindings
  ∧ scanBasePointerDepth sc forkBase batchIndexes firstChunk (lookupsOf sc) noBitmaps
    = Some {| hitStructures := [ {| sh_struct := forkList; sh_depth := 2; sh_path := [0] |} ];
              hitEntryPoints := []; targetPaths := [] |}.
Proof.
  split_and!.
  - exists (1 :: replicate 63 0). split; vm_compute; reflexivity.
  - vm_compute. reflexivity.
  - vm_compute. reflexivity.
  - vm_compute. reflexivity.
  - vm_compute. reflexivity.
Qed.

(** When all batches stand at the same address the two paths agree on the
    bits of that node: the word stored for batch [b] is the word the fallback
    computes for batch [b]. *)
Lemma nodeBitmap_word (sc : State) (batchIndexes : list (gmap Z nat))
    (B : nat) (usedSlots : Z) (addr : Z) (b : nat) (s : Z) :
  (b < B)%nat → 0 ≤ s < usedSlots →
  default 0 (nodeBitmap sc batchIndexes B usedSlots addr
               !! Z.to_nat (Z.of_nat b * usedSlots + s))
  = match dataIdxOf batchIndexes b addr with
    | None => 0
    | Some dataIdx => bitmapWord batchIndexes b (valueAt sc b dataIdx) (s * 128)
    end.
Proof.
  intros Hb Hs. unfold nodeBitmap.
  set (row := fun b' : nat =>
         match dataIdxOf batchIndexes b' addr with
         | None => replicate (Z.to_nat usedSlots) 0
         | Some dataIdx =>
             map (fun s => bitmapWord batchIndexes b' (valueAt sc b' dataIdx) (s * 32 * 4))
                 (seqZ 0 usedSlots)
         end).
  assert (∀ b', length (row b') = Z.to_nat usedSlots) as Hrow.
  { intros b'. unfold row. destruct (dataIdxOf _ _ _).
    - rewrite length_map, length_seqZ. done.
    - apply length_replicate. }
  assert (∀ k n j, (k < n)%nat → (j < Z.to_nat usedSlots)%nat →
            ∀ start, mjoin (map row (seq start n)) !! (k * Z.to_nat usedSlots + j)%nat
                     = row (start + k)%nat !! j) as Hjoin.
  { intros k n. revert k. induction n as [|n IH]; intros k j Hk Hj start; [lia|].
    simpl. destruct k as [|k].
    - simpl. rewrite lookup_app_l by (rewrite Hrow; lia). by rewrite Nat.add_0_r.
    - rewrite lookup_app_r by (rewrite Hrow; simpl; lia). rewrite Hrow.
      replace (S k * Z.to_nat usedSlots + j - Z.to_nat usedSlots)%nat
        with (k * Z.to_nat usedSlots + j)%nat by (simpl; lia).
      rewrite IH by lia. f_equal. f_equal. lia. }
  replace (Z.to_nat (Z.of_nat b * usedSlots + s))
    with (b * Z.to_nat usedSlots + Z.to_nat s)%nat by nia.
  rewrite (Hjoin b B (Z.to_nat s)) by lia. simpl. unfold row.
  destruct (dataIdxOf batchIndexes b addr) as [dataIdx|].
  - rewrite list_lookup_fmap, lookup_seqZ_lt by lia. simpl.
    f_equal. lia.
  - rewrite lookup_replicate_2 by lia. done.
Qed.

Lemma foldl_and_ext (f g : nat → Z) (l : list nat) (init : Z) :
  (∀ b, b ∈ l → f b = g b) →
  foldl (fun combined b => JS.and combined (f b)) init l
  = foldl JS.and init (map g l).
Proof.
  revert init. induction l as [|b l IH]; intros init Hfg; simpl; [done|].
  rewrite (Hfg b) by left. apply IH. intros b' Hb'. apply Hfg. by right.
Qed.

(** The fast path and the on-the-fly path agree whenever every batch stands
    at the node whose bitmap the fast path reads. *)
Lemma fast_path_agrees_on_common_node (sc : State) (batchIndexes : list (gmap Z nat))
    (firstAddr chunkStart : Z) (precomp : list Z) :
  let bitmapCtx := buildTraversalBitmaps sc batchIndexes in
  let B := length (batches sc) in
  0 ≤ chunkStart → chunkStart mod 128 = 0 →
  precompFor bitmapCtx firstAddr chunkStart = Some precomp →
  combinedPrecomp B precomp (slots bitmapCtx) (chunkStart / 128)
  = combinedOnTheFly sc batchIndexes B (replicate B firstAddr) chunkStart.
Proof.
  intros bitmapCtx B Hpos Hmod. unfold bitmapCtx, buildTraversalBitmaps, precompFor.
  fold B. destruct (size _ =? 0)%nat; [done|]. cbn [store slots bytes].
  set (usedSlots := Z.min _ _).
  destruct (set_to_map _ _ !! firstAddr) as [pre|] eqn:Hlook; [|done].
  destruct ((chunkStart <? usedSlots * 128) && (chunkStart / 128 <? usedSlots)) eqn:Hin;
    [|done].
  intros [= <-].
  apply lookup_set_to_map in Hlook as (a & _ & [= -> <-]); [|by intros ? ? _ _ [= ->]].
  apply andb_true_iff in Hin as [_ Hslot%Z.ltb_lt].
  unfold combinedPrecomp, combinedOnTheFly, batchBitmapsOnTheFly.
  apply foldl_and_ext. intros b Hb%elem_of_seq.
  rewrite nodeBitmap_word;
    [|lia|split; [apply Z.div_pos; lia|done]].
  rewrite lookup_replicate_2 by lia. simpl.
  destruct (dataIdxOf batchIndexes b firstAddr); [|done].
  f_equal. pose proof (Z.div_mod chunkStart 128). lia.
Qed.

End ScanExamples.

(** ** Preprocessor *)

Section Int32Facts.

Lemma toInt32_range (x : Z) : -2^31 ≤ JS.toInt32 x < 2^31.
Proof. unfold JS.toInt32. pose proof (Z.mod_pos_bound (x + 2^31) (2^32)). lia. Qed.

Lemma toInt32_small (x : Z) : -2^31 ≤ x < 2^31 → JS.toInt32 x = x.
Proof. intros H. unfold JS.toInt32. rewrite Z.mod_small; lia. Qed.

Lemma toInt32_idem (x : Z) : JS.toInt32 (JS.toInt32 x) = JS.toInt32 x.
Proof. apply toInt32_small, toInt32_range. Qed.

Lemma toInt32_eq_mod (x : Z) : ∃ q, JS.toInt32 x = x + 2^32 * q.
Proof.
  unfold JS.toInt32. exists (- ((x + 2^31) / 2^32)).
  pose proof (Z.div_mod (x + 2^31) (2^32)). lia.
Qed.

Lemma toInt32_mod_pow2 (x k : Z) : 0 ≤ k ≤ 32 → JS.toInt32 x mod 2^k = x mod 2^k.
Proof.
  intros Hk. destruct (toInt32_eq_mod x) as [q ->].
  replace (2^32) with (2^k * 2^(32 - k)).
  - rewrite <- Z.mul_assoc, (Z.mul_comm (2^k)), Z.mod_add; [done|].
    apply Z.pow_nonzero; lia.
  - rewrite <- Z.pow_add_r by lia. f_equal. lia.
Qed.

(** For a value in [(0, 2^32)] the stored int32 is not the absence mark. *)
Lemma toInt32_nonzero (x : Z) : 0 < x < 2^32 → JS.toInt32 x ≠ 0.
Proof.
  intros Hx Hz. pose proof (toInt32_mod_pow2 x 32) as H. rewrite Hz in H.
  rewrite Z.mod_0_l, Z.mod_small in H by lia. lia.
Qed.

Lemma toInt32_inj (x y : Z) :
  0 < x < 2^32 → 0 < y < 2^32 → JS.toInt32 x = JS.toInt32 y → x = y.
Proof.
  intros Hx Hy Heq. pose proof (toInt32_mod_pow2 x 32) as H1.
  pose proof (toInt32_mod_pow2 y 32) as H2. rewrite Heq in H1.
  rewrite (Z.mod_small x) in H1 by lia. rewrite (Z.mod_small y) in H2 by lia. lia.
Qed.

(** A mask below 2^31 leaves a value in [[0, 2^31)]. *)
Lemma land_mask_range (x m : Z) : 0 ≤ m < 2^31 → 0 ≤ Z.land x m < 2^31.
Proof.
  intros Hm. assert (Z.land m (Z.ones 31) = m) as Hones.
  { rewrite Z.land_ones by lia. apply Z.mod_small. lia. }
  rewrite <- Hones, Z.land_assoc, Z.land_ones by lia.
  apply Z.mod_pos_bound. lia.
Qed.

(** A mask that keeps the low [k] bits keeps the value modulo 2^k. *)
Lemma land_mask_mod (x m k : Z) :
  0 ≤ k → Z.land m (Z.ones k) = Z.ones k → Z.land x m mod 2^k = x mod 2^k.
Proof.
  intros Hk Hm. rewrite <- !Z.land_ones by done.
  by rewrite <- Z.land_assoc, Hm.
Qed.

(** [(v & mask) >>> 0] stored in an [Int32Array], for an int32 [v]. *)
Lemma masked_store (x m : Z) :
  0 ≤ m < 2^31 →
  JS.toInt32 (JS.toUint32 (JS.and (JS.toInt32 x) m)) = Z.land (JS.toInt32 x) m.
Proof.
  intros Hm. unfold JS.and, JS.toUint32.
  rewrite toInt32_idem, (toInt32_small m) by lia.
  pose proof (land_mask_range (JS.toInt32 x) m Hm).
  rewrite Z.mod_small by lia. apply toInt32_small. lia.
Qed.

End Int32Facts.

Section ValidValues.
Import Config CoreUtils.

Lemma block_mod (v base k : Z) :
  0 ≤ k → base mod 2^k = 0 → base ≤ v < base + 2^k → v mod 2^k = v - base.
Proof.
  intros Hk Hbase Hv. assert (2^k ≠ 0) as Hnz by (apply Z.pow_nonzero; lia).
  apply Z.mod_divide in Hbase as [q Hq]; [|done].
  replace v with (v - base + q * 2^k) at 1 by lia.
  rewrite Z.mod_add by done. apply Z.mod_small. lia.
Qed.

(** Booleans of the range checks, as inequalities. *)
Ltac range_facts :=
  repeat match goal with
  | H : _ && _ = true |- _ => apply andb_true_iff in H as [? ?]
  | H : negb _ = true |- _ => apply negb_true_iff in H
  | H : _ || _ = false |- _ => apply orb_false_iff in H as [? ?]
  | H : (_ <? _) = false |- _ => apply Z.ltb_ge in H
  | H : (_ =? _) = false |- _ => apply Z.eqb_neq in H
  | H : (_ =? _) = true |- _ => apply Z.eqb_eq in H
  end.

(** The catalogue entry behind a valid system id. *)
Lemma isValidSystem_cases (id : string) :
  isValidSystem id = true → ∃ cfg, getSystemConfig id = Some cfg ∧ (id, cfg) ∈ systems.
Proof.
  unfold isValidSystem. destruct (getSystemConfig id) as [cfg|] eqn:Hcfg; [|done].
  intros _. exists cfg. split; [done|]. by apply getSystemConfig_cases.
Qed.

(** Every value the parser accepts for a catalogue system lies in (0, 2^32),
    so its int32 image is not 0. *)
Lemma validValue_range (id : string) (v : Z) :
  isValidSystem id = true → validValue id v = true → 0 < v < 2^32.
Proof.
  intros (cfg & Hcfg & Hin)%isValidSystem_cases. unfold validValue. rewrite Hcfg.
  intros [_ Hr]%andb_true_iff. unfold systems in Hin.
  repeat (apply elem_of_cons in Hin as [[= -> ->]|Hin];
          [ unfold inMemoryRange in Hr;
            cbn [memoryRange dualRange mk single mm_min mm_max] in Hr;
            try (apply andb_true_iff in Hr as [_ Hr]; cbv zeta in Hr;
                 destruct (JS.and v 268435456 =? 0);
                 cbn [mm_min mm_max] in Hr);
            range_facts; lia | ]).
  by apply elem_of_nil in Hin.
Qed.

(** What [collapse] needs of a system's mask: masking (followed by the store
    into the [Int32Array]) is [Z.land] on stored values, never turns the
    stored image of a parser-validated value into 0, and never identifies the
    images of two different validated values. *)
Definition maskFaithful (id : string) (m : Z) : Prop :=
  0 ≤ m < 2^31
  ∧ (∀ v, validValue id v = true → Z.land (JS.toInt32 v) m ≠ 0)
  ∧ (∀ v1 v2, validValue id v1 = true → validValue id v2 = true →
              Z.land (JS.toInt32 v1) m = Z.land (JS.toInt32 v2) m → v1 = v2).

(** A mask that keeps the low [k] bits is faithful on one aligned block of
    2^k addresses. *)
Lemma maskFaithful_block (id : string) (m base k : Z) :
  0 ≤ m < 2^31 → 0 ≤ k ≤ 32 →
  Z.land m (Z.ones k) = Z.ones k →
  base mod 2^k = 0 →
  (∀ v, validValue id v = true → base < v < base + 2^k) →
  maskFaithful id m.
Proof.
  intros Hm Hk Hones Hbase Hblock.
  assert (∀ v, validValue id v = true → Z.land (JS.toInt32 v) m mod 2^k = v - base) as Hmod.
  { intros v Hv. rewrite land_mask_mod, toInt32_mod_pow2 by (done || lia).
    apply block_mod; [lia|done|]. specialize (Hblock v Hv). lia. }
  split; [done|split].
  - intros v Hv Hz. specialize (Hmod v Hv). rewrite Hz, Z.mod_0_l in Hmod.
    + specialize (Hblock v Hv). lia.
    + apply Z.pow_nonzero; lia.
  - intros v1 v2 Hv1 Hv2 Heq. pose proof (Hmod v1 Hv1) as H1.
    rewrite Heq, (Hmod v2 Hv2) in H1. lia.
Qed.

Lemma validValue_single (id : string) (cfg : SystemConfig) (r : MinMax) (v : Z) :
  getSystemConfig id = Some cfg → memoryRange cfg = Single r →
  validValue id v = true → mm_min r < v ≤ mm_max r.
Proof.
  intros Hcfg Hr. unfold validValue, inMemoryRange. rewrite Hcfg, Hr.
  intros H. range_facts. lia.
Qed.

Lemma maskFaithful_ps1 : maskFaithful "ps1" 0x001FFFFF.
Proof.
  apply (maskFaithful_block _ _ 0x80000000 21); [lia|lia|reflexivity|reflexivity|].
  intros v Hv. eapply validValue_single in Hv; [|reflexivity..]. simpl in Hv. lia.
Qed.

Lemma maskFaithful_psp : maskFaithful "psp" 0x01FFFFFF.
Proof.
  apply (maskFaithful_block _ _ 0x08000000 25); [lia|lia|reflexivity|reflexivity|].
  intros v Hv. eapply validValue_single in Hv; [|reflexivity..]. simpl in Hv. lia.
Qed.

Lemma maskFaithful_gamecube : maskFaithful "gamecube" 0x17FFFFFF.
Proof.
  apply (maskFaithful_block _ _ 0x80000000 27); [lia|lia|reflexivity|reflexivity|].
  intros v Hv. eapply validValue_single in Hv; [|reflexivity..]. simpl in Hv. lia.
Qed.

(** The Wii has two regions; bit 28, which the mask keeps, tells them apart. *)
Lemma validValue_wii (v : Z) :
  validValue "wii" v = true →
  (Z.land (JS.toInt32 v) 0x10000000 = 0 ∧ 0x80000000 < v ≤ 0x817FFFFF)
  ∨ (Z.land (JS.toInt32 v) 0x10000000 ≠ 0 ∧ 0x90000000 < v ≤ 0x93FFFFFF).
Proof.
  unfold validValue, inMemoryRange.
  cbn [getSystemConfig assoc systems String.eqb Ascii.eqb Bool.eqb
       memoryRange dualRange mk single mm_min mm_max].
  intros [_ [_ H]%andb_true_iff]%andb_true_iff. cbv zeta in H.
  change (JS.and v 268435456) with (Z.land (JS.toInt32 v) 268435456) in H.
  destruct (Z.eqb_spec (Z.land (JS.toInt32 v) 268435456) 0) as [Hz|Hnz];
    cbn [mm_min mm_max] in H; range_facts; [left|right]; (split; [done|lia]).
Qed.

Lemma maskFaithful_wii : maskFaithful "wii" 0x13FFFFFF.
Proof.
  assert (∀ x, Z.land (Z.land x 0x13FFFFFF) 0x10000000 = Z.land x 0x10000000) as Hbit.
  { intros x. by rewrite <- Z.land_assoc. }
  assert (∀ v, validValue "wii" v = true →
            ∃ base, base mod 2^26 = 0 ∧ base < v < base + 2^26
                    ∧ base = (if Z.land (JS.toInt32 v) 0x10000000 =? 0
                              then 0x80000000 else 0x90000000)) as Hblock.
  { intros v [[Hz Hv]|[Hnz Hv]]%validValue_wii.
    - exists 0x80000000. rewrite Hz. split_and!; [reflexivity|lia..|reflexivity].
    - exists 0x90000000. apply Z.eqb_neq in Hnz. rewrite Hnz.
      split_and!; [reflexivity|lia..|reflexivity]. }
  assert (∀ v, validValue "wii" v = true →
            ∃ base, Z.land (JS.toInt32 v) 0x13FFFFFF mod 2^26 = v - base
                    ∧ base < v < base + 2^26
                    ∧ base = (if Z.land (JS.toInt32 v) 0x10000000 =? 0
                              then 0x80000000 else 0x90000000)) as Hmod.
  { intros v Hv. destruct (Hblock v Hv) as (base & Hb & Hr & Hsel).
    exists base. split; [|by split].
    rewrite land_mask_mod, toInt32_mod_pow2 by (done || lia).
    apply block_mod; [lia|done|lia]. }
  split; [lia|split].
  - intros v Hv Hz. destruct (Hmod v Hv) as (base & H & Hr & _).
    rewrite Hz in H. change (0 mod 2^26) with 0 in H. lia.
  - intros v1 v2 Hv1 Hv2 Heq.
    destruct (Hmod v1 Hv1) as (b1 & H1 & _ & Hs1).
    destruct (Hmod v2 Hv2) as (b2 & H2 & _ & Hs2).
    rewrite <- (Hbit (JS.toInt32 v1)), Heq, Hbit in Hs1.
    rewrite Heq in H1. lia.
Qed.

(** The masks of the catalogue are faithful. *)
Lemma getSystemMask_faithful (id : string) (m : Z) :
  getSystemMask id = Some m → maskFaithful id m.
Proof.
  unfold getSystemMask. destruct (getSystemConfig id) as [cfg|] eqn:Hcfg; [|done].
  apply getSystemConfig_cases in Hcfg. unfold systems in Hcfg.
  repeat (apply elem_of_cons in Hcfg as [[= -> ->]|Hcfg];
          [ simpl; first [ discriminate | intros [= <-] ];
            first [ apply maskFaithful_ps1 | apply maskFaithful_psp
                  | apply maskFaithful_gamecube | apply maskFaithful_wii ] | ]).
  by apply elem_of_nil in Hcfg.
Qed.

End ValidValues.

Section Classification.
Import Preprocessor.

Lemma classifyLoop_dynamic (vs : list Z) (fv : Z) (b : bool) :
  0 ∈ vs → classifyLoop vs fv b = dynamicNode.
Proof.
  revert fv b. induction vs as [|v vs IH]; intros fv b Hin; [by apply elem_of_nil in Hin|].
  simpl. destruct (Z.eqb_spec v 0) as [->|Hv]; [done|].
  apply elem_of_cons in Hin as [Hin|Hin]; [congruence|].
  destruct (fv =? 0); [by apply IH|]. destruct (negb (v =? fv)); by apply IH.
Qed.

Lemma classifyLoop_nonzero (vs : list Z) (fv : Z) (b : bool) :
  0 ∉ vs → fv ≠ 0 →
  classifyLoop vs fv b
  = if b && forallb (fun v => v =? fv) vs then staticStatic else staticNode.
Proof.
  revert b. induction vs as [|v vs IH]; intros b Hnz Hfv; simpl.
  { by rewrite andb_true_r. }
  apply not_elem_of_cons in Hnz as [Hv Hnz].
  destruct (Z.eqb_spec v 0) as [->|_]; [done|].
  destruct (Z.eqb_spec fv 0) as [->|_]; [done|].
  destruct (Z.eqb_spec v fv) as [->|Hne]; simpl.
  - by apply IH.
  - rewrite IH by done. simpl. by rewrite andb_false_r.
Qed.

(** All values of a list are equal. *)
Definition allEqual (vs : list Z) : Prop := ∀ x y, x ∈ vs → y ∈ vs → x = y.

Lemma classify_dynamic_iff (vs : list Z) :
  classifyLoop vs 0 true = dynamicNode ↔ 0 ∈ vs.
Proof.
  split; [|apply classifyLoop_dynamic].
  destruct (decide (0 ∈ vs)) as [|Hnz]; [done|]. intros H. exfalso.
  destruct vs as [|v vs]; [done|]. simpl in H.
  apply not_elem_of_cons in Hnz as [Hv Hnz].
  destruct (Z.eqb_spec v 0) as [->|_]; [done|].
  rewrite classifyLoop_nonzero in H by done. by destruct (_ && _).
Qed.

Lemma classify_static_iff (vs : list Z) :
  classifyLoop vs 0 true = staticStatic ↔ (0 ∉ vs) ∧ allEqual vs.
Proof.
  destruct (decide (0 ∈ vs)) as [Hz|Hnz].
  { rewrite classifyLoop_dynamic by done. split; [done|]. by intros [? _]. }
  destruct vs as [|v vs].
  { simpl. split; [|done]. intros _. split; [done|]. by intros x y ?%elem_of_nil. }
  simpl. pose proof Hnz as Hnz'. apply not_elem_of_cons in Hnz' as [Hv Hnz'].
  destruct (Z.eqb_spec v 0) as [->|_]; [done|].
  rewrite classifyLoop_nonzero by done. simpl.
  destruct (forallb (fun x => x =? v) vs) eqn:Hall.
  - split; [|done]. intros _. split; [done|].
    rewrite forallb_forall in Hall.
    assert (∀ x, x ∈ v :: vs → x = v) as Hv'.
    { intros x [->|Hx]%elem_of_cons; [done|].
      apply list_elem_of_In, Hall in Hx. by apply Z.eqb_eq in Hx. }
    intros x y Hx Hy. by rewrite (Hv' x Hx), (Hv' y Hy).
  - split; [done|]. intros [_ Heq]. exfalso.
    assert (forallb (fun x => x =? v) vs = true) as Hall'; [|congruence].
    apply forallb_forall. intros x Hx%list_elem_of_In. apply Z.eqb_eq.
    apply Heq; [by right|left].
Qed.

(** The class depends on the slots only through "some slot is 0" and "all
    slots are equal". *)
Lemma classify_same (vs vs' : list Z) :
  (0 ∈ vs ↔ 0 ∈ vs') → (allEqual vs ↔ allEqual vs') →
  classifyLoop vs 0 true = classifyLoop vs' 0 true.
Proof.
  intros Hz Heq.
  pose proof (classify_dynamic_iff vs) as Hd. pose proof (classify_dynamic_iff vs') as Hd'.
  pose proof (classify_static_iff vs) as Hs. pose proof (classify_static_iff vs') as Hs'.
  destruct (classifyLoop vs 0 true), (classifyLoop vs' 0 true); try done; exfalso.
  - assert (staticStatic = staticStatic) as H by done. apply Hs in H as [H1 H2].
    assert (staticNode = staticStatic) as H; [|done]. apply Hs'. tauto.
  - assert (staticStatic = staticStatic) as H by done. apply Hs in H as [H1 H2].
    assert (0 ∈ vs') as H by (by apply Hd'). tauto.
  - assert (staticStatic = staticStatic) as H by done. apply Hs' in H as [H1 H2].
    assert (staticNode = staticStatic) as H; [|done]. apply Hs. tauto.
  - assert (0 ∈ vs') as H by (by apply Hd'). apply Hz, Hd in H. done.
  - assert (0 ∈ vs) as H by (by apply Hd). apply Hz, Hd' in H. done.
  - assert (0 ∈ vs) as H by (by apply Hd). apply Hz, Hd' in H. done.
Qed.

Lemma classify_perm (vs vs' : list Z) :
  vs ≡ₚ vs' → classifyLoop vs 0 true = classifyLoop vs' 0 true.
Proof.
  intros Hp. apply classify_same.
  - by rewrite Hp.
  - unfold allEqual. by setoid_rewrite Hp.
Qed.

(** Applying to every slot a map that fixes 0, sends nothing else to 0 and is
    injective on the slots does not change the class. *)
Lemma classify_fmap (f : Z → Z) (vs : list Z) :
  f 0 = 0 →
  (∀ x, x ∈ vs → f x = 0 → x = 0) →
  (∀ x y, x ∈ vs → y ∈ vs → f x = f y → x = y) →
  classifyLoop (f <$> vs) 0 true = classifyLoop vs 0 true.
Proof.
  intros Hf0 Hnz Hinj. apply classify_same.
  - rewrite list_elem_of_fmap. split.
    + intros (x & Hx & Hin). symmetry in Hx. apply Hnz in Hx as ->; done.
    + intros H. by exists 0.
  - unfold allEqual. split.
    + intros H x y Hx Hy. apply Hinj; [done..|].
      apply H; apply list_elem_of_fmap; eauto.
    + intros H x y (x' & -> & Hx)%list_elem_of_fmap (y' & -> & Hy)%list_elem_of_fmap.
      f_equal. by apply H.
Qed.

End Classification.

Section PoolRepresentation.
Import Config CoreUtils Preprocessor.

Variable id : string.
Hypothesis id_valid : isValidSystem id = true.

(** The value a batch leaves in its slot for address [a]: the stored image of
    the last row for [a] that passes the filters, [0] if there is none. *)
Definition keptValue (values : list Z) (a : Z) (acc : Z) (row : Z * Z) : Z :=
  if keepRow (getSystemMask id) values row.1 row.2 && (row.1 =? a)
  then JS.toInt32 row.2 else acc.

Definition slotValue (b : ParsedBatch) (a : Z) : Z := foldl (keptValue b.*2 a) 0 b.

(** The slot array of address [a] after the batches [bs]. *)
Definition slotsFor (bs : list ParsedBatch) (a : Z) : list Z :=
  ((fun b => slotValue b a) <$> bs) ++ replicate (maxFiles - length bs) 0.

Definition allZero (s : list Z) : bool := forallb (fun v => v =? 0) s.

(** The node map holds exactly the addresses with a non-zero slot, each with
    its slot array. *)
Definition represents (bs : list ParsedBatch) (m : gmap Z (list Z)) : Prop :=
  ∀ a, m !! a = if allZero (slotsFor bs a) then None else Some (slotsFor bs a).

Lemma length_slotsFor (bs : list ParsedBatch) (a : Z) :
  (length bs ≤ maxFiles)%nat → length (slotsFor bs a) = maxFiles.
Proof.
  intros H. unfold slotsFor. rewrite length_app, length_fmap, length_replicate. lia.
Qed.

Lemma allZero_replicate (s : list Z) : allZero s = true → s = replicate (length s) 0.
Proof.
  induction s as [|v s IH]; simpl; [done|].
  intros [->%Z.eqb_eq Hs]%andb_true_iff. f_equal. by apply IH.
Qed.

Lemma allZero_false (s : list Z) (v : Z) : v ∈ s → v ≠ 0 → allZero s = false.
Proof.
  intros Hin Hv. destruct (allZero s) eqn:Hs; [|done]. exfalso.
  unfold allZero in Hs. rewrite forallb_forall in Hs.
  apply list_elem_of_In, Hs, Z.eqb_eq in Hin. done.
Qed.

Lemma allZero_perm (s s' : list Z) : s ≡ₚ s' → allZero s = allZero s'.
Proof.
  intros Hp. unfold allZero. apply eq_true_iff_eq. rewrite !forallb_forall.
  split; intros H x Hx; apply H; apply list_elem_of_In;
    apply list_elem_of_In in Hx; by rewrite ?Hp in *.
Qed.

Lemma slotsFor_snoc (bs : list ParsedBatch) (b : ParsedBatch) (a : Z) :
  (length bs < maxFiles)%nat →
  <[length bs := slotValue b a]> (slotsFor bs a) = slotsFor (bs ++ [b]) a.
Proof.
  intros Hlt. unfold slotsFor.
  rewrite fmap_app, length_app. simpl.
  replace (maxFiles - length bs)%nat with (S (maxFiles - (length bs + 1))) by lia.
  rewrite insert_app_r_alt by (rewrite length_fmap; lia).
  rewrite length_fmap, Nat.sub_diag. simpl. by rewrite <- app_assoc.
Qed.

Lemma slotsFor_next_zero (bs : list ParsedBatch) (a : Z) :
  (length bs < maxFiles)%nat → slotsFor bs a !! length bs = Some 0.
Proof.
  intros Hlt. unfold slotsFor.
  rewrite lookup_app_r by (rewrite length_fmap; lia).
  rewrite length_fmap, Nat.sub_diag. apply lookup_replicate_2. lia.
Qed.

(** The node map while a batch is being stored: slot [length bs] holds the
    value [x a] of the rows seen so far. *)
Definition pending (bs : list ParsedBatch) (x : Z → Z) (m : gmap Z (list Z)) : Prop :=
  ∀ a, m !! a = if allZero (<[length bs := x a]> (slotsFor bs a)) then None
                else Some (<[length bs := x a]> (slotsFor bs a)).

Lemma storeRow_pending (bs : list ParsedBatch) (values : list Z) (x : Z → Z)
    (m : gmap Z (list Z)) (row : Z * Z) :
  (length bs < maxFiles)%nat →
  JS.toInt32 row.2 ≠ 0 →
  pending bs x m →
  pending bs (fun a => keptValue values a (x a) row)
    (storeRow maxFiles (length bs) (getSystemMask id) values m row).
Proof.
  intros Hlt Hnz Hm a. destruct row as [addr val]. unfold storeRow, keptValue.
  cbn [fst snd] in *.
  destruct (keepRow _ _ _ _); cbn [andb]; [|apply Hm].
  destruct (Z.eqb_spec addr a) as [->|Hne].
  - assert (allZero (<[length bs := JS.toInt32 val]> (slotsFor bs a)) = false) as Hfalse.
    { apply (allZero_false _ (JS.toInt32 val)); [|done].
      apply list_elem_of_lookup. exists (length bs).
      apply list_lookup_insert_eq. rewrite length_slotsFor; lia. }
    rewrite Hfalse. pose proof (Hm a) as Ha.
    destruct (m !! a) as [s|] eqn:Hs; rewrite lookup_insert_eq; f_equal.
    + destruct (allZero (<[length bs:=x a]> (slotsFor bs a))); [done|].
      injection Ha as ->. apply list_insert_insert_eq.
    + destruct (allZero (<[length bs:=x a]> (slotsFor bs a))) eqn:Hz; [|done].
      apply allZero_replicate in Hz. rewrite length_insert, length_slotsFor in Hz by lia.
      rewrite <- Hz. apply list_insert_insert_eq.
  - destruct (m !! addr); rewrite lookup_insert_ne by done; apply Hm.
Qed.

Lemma storeRows_pending (bs : list ParsedBatch) (values : list Z) (rows : list (Z * Z))
    (x : Z → Z) (m : gmap Z (list Z)) :
  (length bs < maxFiles)%nat →
  Forall (fun row => JS.toInt32 row.2 ≠ 0) rows →
  pending bs x m →
  pending bs (fun a => foldl (keptValue values a) (x a) rows)
    (foldl (storeRow maxFiles (length bs) (getSystemMask id) values) m rows).
Proof.
  intros Hlt. revert x m. induction rows as [|row rows IH]; intros x m Hrows Hm; [done|].
  apply Forall_cons in Hrows as [Hrow Hrows]. simpl.
  apply (IH (fun a => keptValue values a (x a) row)); [done|].
  by apply storeRow_pending.
Qed.

Lemma validBatch_nonzero (b : ParsedBatch) :
  validBatch id b = true → Forall (fun row => JS.toInt32 row.2 ≠ 0) b.
Proof.
  unfold validBatch. rewrite forallb_forall. intros H. apply Forall_forall.
  intros row Hrow%list_elem_of_In. apply toInt32_nonzero.
  by apply (validValue_range id), H.
Qed.

(** [addBatch] appends the batch to the represented list. *)
Lemma addBatch_represents (bs : list ParsedBatch) (b : ParsedBatch) (m : gmap Z (list Z)) :
  (length bs < maxFiles)%nat →
  validBatch id b = true →
  represents bs m →
  represents (bs ++ [b])
    (foldl (storeRow maxFiles (length bs) (getSystemMask id) b.*2) m b).
Proof.
  intros Hlt Hb Hm.
  assert (pending bs (fun _ => 0) m) as Hp.
  { intros a. rewrite list_insert_id by (by apply slotsFor_next_zero). apply Hm. }
  apply (storeRows_pending bs b.*2 b) in Hp; [|done|by apply validBatch_nonzero].
  intros a. specialize (Hp a). cbv beta in Hp.
  change (foldl (keptValue b.*2 a) 0 b) with (slotValue b a) in Hp.
  by rewrite slotsFor_snoc in Hp.
Qed.

(** The shift loop of [removeBatch] deletes slot [i] and appends a 0. *)
Lemma shiftSlots_delete (i : nat) (s : list Z) :
  length s = maxFiles → (i < maxFiles)%nat →
  shiftSlots maxFiles i s = delete i s ++ [0].
Proof.
  intros Hlen Hi. unfold maxFiles in *.
  do 10 (destruct s as [|? s]; [done|]).
  destruct s; [|done].
  do 10 (destruct i as [|i]; [reflexivity|]). lia.
Qed.

Lemma slotsFor_delete (bs : list ParsedBatch) (i : nat) (a : Z) :
  (i < length bs)%nat → (length bs ≤ maxFiles)%nat →
  delete i (slotsFor bs a) ++ [0] = slotsFor (delete i bs) a.
Proof.
  intros Hi Hle. unfold slotsFor.
  rewrite list_fmap_delete, length_delete by (by apply lookup_lt_is_Some_2).
  rewrite !delete_take_drop, take_app_le, drop_app_le by (rewrite length_fmap; lia).
  rewrite <- !app_assoc. do 2 f_equal.
  replace (maxFiles - (length bs - 1))%nat with (S (maxFiles - length bs)) by lia.
  by rewrite replicate_S_end.
Qed.

Lemma anyNonZero_slotsFor (bs : list ParsedBatch) (a : Z) :
  (length bs ≤ maxFiles)%nat →
  anyNonZero (length bs) (slotsFor bs a) = negb (allZero (slotsFor bs a)).
Proof.
  intros Hle. unfold anyNonZero, allZero, slotsFor.
  rewrite take_app_length' by (by rewrite length_fmap).
  rewrite forallb_app.
  assert (forallb (fun v => v =? 0) (replicate (maxFiles - length bs) 0) = true) as ->.
  { apply forallb_forall. intros x Hx%list_elem_of_In%elem_of_replicate.
    apply Z.eqb_eq. tauto. }
  rewrite andb_true_r.
  induction ((fun b => slotValue b a) <$> bs) as [|v l IH]; simpl; [done|].
  rewrite IH. by destruct (v =? 0).
Qed.

(** [removeBatch] deletes the batch from the represented list. *)
Lemma removeBatch_represents (bs : list ParsedBatch) (i : nat) (m : gmap Z (list Z)) :
  (i < length bs)%nat → (length bs ≤ maxFiles)%nat →
  represents bs m →
  represents (delete i bs)
    (filter (fun kv => anyNonZero (length bs - 1) kv.2 = true)
            (shiftSlots maxFiles i <$> m)).
Proof.
  intros Hi Hle Hm a.
  assert (length (delete i bs) = (length bs - 1)%nat) as Hlen.
  { apply length_delete. by apply lookup_lt_is_Some_2. }
  assert (shiftSlots maxFiles i (slotsFor bs a) = slotsFor (delete i bs) a) as Hshift.
  { rewrite shiftSlots_delete by (rewrite ?length_slotsFor; lia).
    by apply slotsFor_delete. }
  pose proof (anyNonZero_slotsFor (delete i bs) a) as Hany. rewrite Hlen in Hany.
  specialize (Hm a).
  destruct (allZero (slotsFor (delete i bs) a)) eqn:Hz.
  - apply map_lookup_filter_None. right. intros s Hs. simpl.
    rewrite lookup_fmap in Hs. destruct (m !! a) as [s0|]; [|done].
    destruct (allZero (slotsFor bs a)); [done|]. simplify_eq/=.
    rewrite Hshift, Hany by lia. done.
  - assert (allZero (slotsFor bs a) = false) as Hz0.
    { destruct (allZero (slotsFor bs a)) eqn:Hz0; [|done]. exfalso.
      apply allZero_replicate in Hz0. rewrite length_slotsFor in Hz0 by done.
      rewrite <- Hshift, Hz0 in Hz.
      rewrite shiftSlots_delete in Hz by (rewrite ?length_replicate; done || lia).
      revert Hz. clear. unfold maxFiles.
      do 10 (destruct i as [|i]; [done|]). done. }
    rewrite Hz0 in Hm. apply map_lookup_filter_Some. split.
    + by rewrite lookup_fmap, Hm, <- Hshift.
    + cbn [snd]. by rewrite Hany by lia.
Qed.

End PoolRepresentation.

Section PreprocessorStates.
Import Config CoreUtils Preprocessor.

(** The cached summary, when there is one, is the summary of the state. *)
Definition cacheOk (st : State) : Prop :=
  ∀ c, _countsCache st = Some c → c = computeCounts st.

(** The state of a preprocessor for system [id] that holds the batches [bs]. *)
Record poolInv (id : string) (st : State) (bs : list ParsedBatch) : Prop := {
  pi_system : systemId st = Some id;
  pi_max : maxBatches st = maxFiles;
  pi_count : batchCount st = length bs;
  pi_le : (length bs ≤ maxFiles)%nat;
  pi_valid : Forall (fun b => validBatch id b = true) bs;
  pi_map : represents id bs (nodeMap st);
  pi_cache : cacheOk st
}.

(** The batches held after one more call. *)
Definition batchesAfter (bs : list ParsedBatch) (c : Call) : list ParsedBatch :=
  match c with
  | CallAddBatch b => if (length bs <? maxFiles)%nat then bs ++ [b] else bs
  | CallRemoveBatch i =>
      if (0 <=? i) && (i <? Z.of_nat (length bs)) then delete (Z.to_nat i) bs else bs
  | CallGetCounts => bs
  end.

Lemma computeCounts_cache (sysId : option string) (n maxB : nat)
    (m : gmap Z (list Z)) (c1 c2 : option Counts) :
  computeCounts {| systemId := sysId; batchCount := n; maxBatches := maxB;
                   nodeMap := m; _countsCache := c1 |}
  = computeCounts {| systemId := sysId; batchCount := n; maxBatches := maxB;
                     nodeMap := m; _countsCache := c2 |}.
Proof. done. Qed.

Lemma getCounts_inv (id : string) (st : State) (bs : list ParsedBatch) :
  poolInv id st bs →
  (getCounts st).1 = computeCounts st ∧ poolInv id (getCounts st).2 bs.
Proof.
  intros Hinv. unfold getCounts.
  destruct (_countsCache st) as [c|] eqn:Hc; simpl.
  - split; [|done]. by apply (pi_cache id st bs Hinv).
  - split; [done|]. destruct Hinv. split; simpl; try done.
    intros c [= <-]. by destruct st.
Qed.

(** [getCounts] on a state without cache. *)
Lemma getCounts_fresh (sysId : option string) (n maxB : nat) (m : gmap Z (list Z)) :
  let st := {| systemId := sysId; batchCount := n; maxBatches := maxB;
               nodeMap := m; _countsCache := None |} in
  getCounts st = (computeCounts st,
                  {| systemId := sysId; batchCount := n; maxBatches := maxB;
                     nodeMap := m; _countsCache := Some (computeCounts st) |}).
Proof. done. Qed.

Lemma addBatch_inv (id : string) (st : State) (bs : list ParsedBatch) (b : ParsedBatch) :
  isValidSystem id = true → validBatch id b = true → (length bs < maxFiles)%nat →
  poolInv id st bs →
  ∃ st', addBatch st b = Some (computeCounts st', st')
         ∧ poolInv id st' (bs ++ [b])
         ∧ nodeMap st' = foldl (storeRow maxFiles (length bs) (getSystemMask id) b.*2)
                               (nodeMap st) b.
Proof.
  intros Hid Hb Hlt [Hsys Hmax Hcount Hle Hvalid Hmap Hcache].
  unfold addBatch. rewrite Hsys, Hmax, Hcount.
  replace (maxFiles <=? length bs)%nat with false by (symmetry; apply Nat.leb_gt; lia).
  rewrite getCounts_fresh.
  match goal with |- ∃ st', Some (_, ?s) = _ ∧ _ => exists s end.
  split; [done|]. split; [|done].
  split; simpl; try done.
  - rewrite length_app. simpl. lia.
  - rewrite length_app. simpl. lia.
  - apply Forall_app. split; [done|by constructor].
  - by apply addBatch_represents.
  - by intros c [= <-].
Qed.

Lemma removeBatch_inv (id : string) (st : State) (bs : list ParsedBatch) (i : nat) :
  isValidSystem id = true → (i < length bs)%nat →
  poolInv id st bs →
  ∃ st', removeBatch st (Z.of_nat i) = Some (computeCounts st', st')
         ∧ poolInv id st' (delete i bs).
Proof.
  intros Hid Hi [Hsys Hmax Hcount Hle Hvalid Hmap Hcache].
  unfold removeBatch. rewrite Hmax, Hcount, Nat2Z.id.
  replace ((Z.of_nat i <? 0) || (Z.of_nat (length bs) <=? Z.of_nat i)) with false
    by (symmetry; apply orb_false_iff; split; [apply Z.ltb_ge|apply Z.leb_gt]; lia).
  rewrite getCounts_fresh.
  match goal with |- ∃ st', Some (_, ?s) = _ ∧ _ => exists s end.
  split; [done|].
  assert (length (delete i bs) = (length bs - 1)%nat) as Hlen.
  { apply length_delete. by apply lookup_lt_is_Some_2. }
  split; simpl; try done.
  - lia.
  - apply Forall_forall. intros b Hb. rewrite Forall_forall in Hvalid. apply Hvalid.
    by eapply list_elem_of_delete_inv.
  - by apply removeBatch_represents.
  - by intros c [= <-].
Qed.

Lemma call_inv (id : string) (st : State) (bs : list ParsedBatch) (c : Call) :
  isValidSystem id = true → validCall id c = true →
  poolInv id st bs → poolInv id (call st c) (batchesAfter bs c).
Proof.
  intros Hid Hc Hinv. destruct c as [b|i|]; simpl.
  - destruct (Nat.ltb_spec (length bs) maxFiles) as [Hlt|Hge].
    + destruct (addBatch_inv id st bs b Hid Hc Hlt Hinv) as (st' & -> & Hinv' & _). done.
    + unfold addBatch. rewrite (pi_system id st bs Hinv), (pi_max id st bs Hinv),
        (pi_count id st bs Hinv).
      by replace (maxFiles <=? length bs)%nat with true by (symmetry; apply Nat.leb_le; lia).
  - destruct ((0 <=? i) && (i <? Z.of_nat (length bs))) eqn:Hi.
    + apply andb_true_iff in Hi as [Hi1%Z.leb_le Hi2%Z.ltb_lt].
      destruct (removeBatch_inv id st bs (Z.to_nat i) Hid) as (st' & Hrem & Hinv');
        [lia|done|]. rewrite Z2Nat.id in Hrem by lia. by rewrite Hrem.
    + unfold removeBatch. rewrite (pi_count id st bs Hinv).
      replace ((i <? 0) || (Z.of_nat (length bs) <=? i)) with true; [done|].
      symmetry. apply andb_false_iff in Hi as [Hi%Z.leb_gt|Hi%Z.ltb_ge];
        apply orb_true_iff; [left; apply Z.ltb_lt|right; apply Z.leb_le]; lia.
  - by apply getCounts_inv.
Qed.

Lemma setSystem_fresh (id : string) (st0 : State) :
  setSystem constructor id = Some st0 →
  isValidSystem id = true ∧ poolInv id st0 [].
Proof.
  unfold setSystem. destruct (isValidSystem id); [|done]. simpl.
  intros [= <-]. split; [done|]. split; simpl; try done.
  unfold maxFiles. lia.
Qed.

Lemma calls_inv (id : string) (calls : list Call) (st : State) (bs : list ParsedBatch) :
  isValidSystem id = true → forallb (validCall id) calls = true →
  poolInv id st bs →
  poolInv id (foldl call st calls) (foldl batchesAfter bs calls).
Proof.
  intros Hid. revert st bs. induction calls as [|c calls IH]; intros st bs Hcalls Hinv;
    simpl; [done|].
  simpl in Hcalls. apply andb_true_iff in Hcalls as [Hc Hcalls].
  apply IH; [done|]. by apply call_inv.
Qed.

(** Every reachable state holds some list of validated batches. *)
Lemma reachable_inv (id : string) (st : State) :
  reachable id st → isValidSystem id = true ∧ ∃ bs, poolInv id st bs.
Proof.
  intros (st0 & calls & Hset & Hcalls & ->).
  apply setSystem_fresh in Hset as [Hid Hinv]. split; [done|].
  eexists. by apply calls_inv.
Qed.

(** *** The recommendation *)

(** A fresh preprocessor for the GBA. *)
Definition gbaState : State :=
  {| systemId := Some "gba"; batchCount := 0; maxBatches := maxFiles;
     nodeMap := ∅; _countsCache := None |}.

Lemma gbaState_reachable : reachable "gba" gbaState.
Proof. exists gbaState, []. done. Qed.

(** C8, as stated, fails: for the GBA, whose range mode is [full],
    [getCounts] recommends [skipSticky = false]. *)
Lemma skipSticky_false_for_gba :
  reachable "gba" gbaState
  ∧ skipSticky (recommendation (getCounts gbaState).1) = false.
Proof. split; [apply gbaState_reachable|reflexivity]. Qed.

(** C8 (amended): for every reachable preprocessor state of a catalogue
    system, the recommendation of [getCounts] has [skipSticky = true] unless
    the system's range mode is [full] (the GBA), where it is [false]. *)
Theorem skipSticky_unless_full_range (id : string) (st : State) :
  reachable id st →
  ∃ cfg, getSystemConfig id = Some cfg
         ∧ skipSticky (recommendation (getCounts st).1)
           = negb (String.eqb (rangeMode cfg) "full").
Proof.
  intros [Hid [bs Hinv]]%reachable_inv.
  destruct (getCounts_inv id st bs Hinv) as [-> _].
  apply isValidSystem_cases in Hid as (cfg & Hcfg & _). exists cfg. split; [done|].
  unfold computeCounts. cbn [recommendation]. unfold _buildRecommendation.
  rewrite (pi_system id st bs Hinv). cbn [mbind option_bind]. rewrite Hcfg.
  by destruct (String.eqb (rangeMode cfg) "full").
Qed.

Lemma skipSticky_unless_full_range_gba :
  ∃ cfg, getSystemConfig "gba" = Some cfg
         ∧ skipSticky (recommendation (getCounts gbaState).1)
           = negb (String.eqb (rangeMode cfg) "full").
Proof.
  apply (skipSticky_unless_full_range "gba" gbaState).
  exists gbaState, []. split; [reflexivity|split; reflexivity].
Defined.

End PreprocessorStates.

Section CollapseTallies.
Import Config CoreUtils Preprocessor.

(** What a slot of the pool can hold: nothing, or the int32 image of a
    validated value. *)
Definition storedValue (id : string) (x : Z) : Prop :=
  x = 0 ∨ ∃ v, validValue id v = true ∧ x = JS.toInt32 v.

Lemma slotValue_stored (id : string) (b : ParsedBatch) (a : Z) :
  validBatch id b = true → storedValue id (slotValue id b a).
Proof.
  unfold validBatch, slotValue. generalize (b.*2). intros values Hb.
  assert (storedValue id 0) as H0 by (by left). revert H0. generalize 0.
  induction b as [|row b IH]; intros acc Hacc; simpl; [done|].
  simpl in Hb. apply andb_true_iff in Hb as [Hrow Hb]. apply IH; [done|].
  unfold keptValue. destruct (_ && _); [|done]. right. by exists row.2.
Qed.

Lemma slotsFor_stored (id : string) (bs : list ParsedBatch) (a : Z) :
  Forall (fun b => validBatch id b = true) bs →
  Forall (storedValue id) (slotsFor id bs a).
Proof.
  intros Hbs. unfold slotsFor. apply Forall_app. split.
  - apply Forall_fmap. eapply Forall_impl; [exact Hbs|].
    intros b Hb. by apply slotValue_stored.
  - apply Forall_replicate. by left.
Qed.

Lemma storedValue_nonzero (id : string) (m x : Z) :
  isValidSystem id = true → maskFaithful id m → storedValue id x → x ≠ 0 →
  ∃ v, validValue id v = true ∧ x = JS.toInt32 v
       ∧ JS.toInt32 (JS.toUint32 (JS.and x m)) = Z.land (JS.toInt32 v) m
       ∧ Z.land (JS.toInt32 v) m ≠ 0.
Proof.
  intros Hid (Hm & Hnz & _) [->|(v & Hv & ->)] Hx; [done|].
  exists v. split_and!; [done|done|by apply masked_store|by apply Hnz].
Qed.

(** Masking the stored values of one address does not change its class. *)
Lemma maskSlots_classify (id : string) (n : nat) (s : list Z) :
  isValidSystem id = true → Forall (storedValue id) s →
  _classify n (maskSlots (getSystemMask id) n s) = _classify n s.
Proof.
  intros Hid Hs. destruct (getSystemMask id) as [m|] eqn:Hmask; [|done].
  pose proof (getSystemMask_faithful id m Hmask) as Hf.
  unfold _classify, maskSlots.
  set (f := fun v => if v =? 0 then v else JS.toInt32 (JS.toUint32 (JS.and v m))).
  replace (map f (take n s)) with (f <$> take n s) by done.
  rewrite take_app, length_fmap, length_take.
  replace (take (n - n `min` length s) (drop n s)) with (@nil Z); last first.
  { destruct (decide (n ≤ length s)%nat).
    - by replace (n - n `min` length s)%nat with 0%nat by lia.
    - by rewrite drop_ge, take_nil by lia. }
  rewrite app_nil_r, take_ge by (rewrite length_fmap, length_take; lia).
  assert (Forall (storedValue id) (take n s)) as Ht by by apply Forall_take.
  rewrite Forall_forall in Ht.
  assert (∀ x, x ∈ take n s → x ≠ 0 → f x ≠ 0 ∧
            ∃ v, validValue id v = true ∧ f x = Z.land (JS.toInt32 v) m
                 ∧ x = JS.toInt32 v) as Hfx.
  { intros x Hx Hnz.
    destruct (storedValue_nonzero id m x Hid Hf (Ht x Hx) Hnz)
      as (v & Hv & Hxv & Hland & Hne).
    unfold f. destruct (Z.eqb_spec x 0) as [|_]; [done|].
    rewrite Hland. split; [done|]. by exists v. }
  apply classify_fmap.
  - done.
  - intros x Hx Hz. destruct (decide (x = 0)) as [|Hnz]; [done|].
    by destruct (Hfx x Hx Hnz) as [Hne _].
  - intros x y Hx Hy Hxy.
    destruct (decide (x = 0)) as [->|Hxz], (decide (y = 0)) as [->|Hyz]; [done|..].
    + destruct (Hfx y Hy Hyz) as [Hne _]. by rewrite <- Hxy in Hne.
    + destruct (Hfx x Hx Hxz) as [Hne _]. by rewrite Hxy in Hne.
    + destruct (Hfx x Hx Hxz) as (_ & v1 & Hv1 & Hf1 & ->).
      destruct (Hfx y Hy Hyz) as (_ & v2 & Hv2 & Hf2 & ->).
      destruct Hf as (_ & _ & Hinj). f_equal. apply Hinj; [done|done|].
      by rewrite <- Hf1, <- Hf2.
Qed.

(** The running indexes and the two growing arrays of [collapse] against
    the tallies of [getCounts]. *)
Definition tallied (o : CollapseOutput) (t : Tally) : Prop :=
  ssIdx o = totalStaticStatics t ∧ snIdx o = totalStaticNodes t
  ∧ dynIdx o = totalDynamic t
  ∧ length (snVals o) = totalStaticNodes t ∧ length (dynVals o) = totalDynamic t.

(** The lengths of the four pre-sized typed arrays. *)
Definition sized (o : CollapseOutput) (ss sn dyn : nat) : Prop :=
  length (ssAddrs o) = ss ∧ length (ssVals o) = ss
  ∧ length (snAddrs o) = sn ∧ length (dynAddrs o) = dyn.

Lemma collapseEntry_tallied (mask : option Z) (n : nat) (rs : list Range)
    (a : Z) (s : list Z) (o : CollapseOutput) (t : Tally) :
  _classify n (maskSlots mask n s) = _classify n s →
  tallied o t → tallied (collapseEntry mask n a s o) (countEntry n rs a s t).
Proof.
  intros Hcls (H1 & H2 & H3 & H4 & H5). unfold collapseEntry, countEntry.
  rewrite Hcls. unfold tallied.
  destruct (_classify n s); simpl; rewrite ?length_app; simpl; lia.
Qed.

Lemma collapseEntry_sized (mask : option Z) (n : nat) (a : Z) (s : list Z)
    (o : CollapseOutput) (ss sn dyn : nat) :
  sized o ss sn dyn → sized (collapseEntry mask n a s o) ss sn dyn.
Proof.
  intros (H1 & H2 & H3 & H4). unfold collapseEntry, sized.
  destruct (_classify n _); simpl; rewrite ?length_insert; try done.
  destruct (firstNonZero n _); rewrite ?length_insert; done.
Qed.

Lemma collapse_fold (mask : option Z) (n : nat) (rs : list Range)
    (l : list (Z * list Z)) (o0 : CollapseOutput) (t0 : Tally) (ss sn dyn : nat) :
  (∀ a s, (a, s) ∈ l → _classify n (maskSlots mask n s) = _classify n s) →
  tallied o0 t0 → sized o0 ss sn dyn →
  tallied (foldr (uncurry (collapseEntry mask n)) o0 l)
          (foldr (uncurry (countEntry n rs)) t0 l)
  ∧ sized (foldr (uncurry (collapseEntry mask n)) o0 l) ss sn dyn.
Proof.
  intros Hl Ht Hs. induction l as [|[a s] l IH]; simpl; [done|].
  destruct IH as [IHt IHs].
  { intros a' s' Hin. apply (Hl a'). by apply list_elem_of_further. }
  split.
  - apply collapseEntry_tallied; [|done]. apply (Hl a). apply list_elem_of_here.
  - by apply collapseEntry_sized.
Qed.

Lemma getCounts_state (st : State) :
  systemId (getCounts st).2 = systemId st
  ∧ batchCount (getCounts st).2 = batchCount st
  ∧ nodeMap (getCounts st).2 = nodeMap st.
Proof. unfold getCounts. by destruct (_countsCache st). Qed.

Lemma represents_stored (id : string) (st : State) (bs : list ParsedBatch)
    (a : Z) (s : list Z) :
  poolInv id st bs → nodeMap st !! a = Some s → Forall (storedValue id) s.
Proof.
  intros Hinv Ha. pose proof (pi_map id st bs Hinv a) as Hrep.
  rewrite Ha in Hrep. destruct (allZero _); [done|]. injection Hrep as ->.
  apply slotsFor_stored, (pi_valid id st bs Hinv).
Qed.

(** C4: on every state reachable from [setSystem] by calls of [addBatch],
    [removeBatch] and [getCounts] with parser-validated batches, the three
    partitions that [collapse] produces (its running indexes, the lengths of
    its pre-sized typed arrays and of its value arrays) have the sizes that
    [getCounts] reports as staticStatics, staticNodes and dynamicNodes, even
    though [collapse] masks the values before it classifies them again. *)
Theorem collapse_tallies_equal_counts (id : string) (st : State) :
  reachable id st →
  let c := (getCounts st).1 in
  let o := (collapse st).1 in
  (ssIdx o = staticStatics c ∧ snIdx o = staticNodes c ∧ dynIdx o = dynamicNodes c)
  ∧ (length (ssAddrs o) = staticStatics c ∧ length (ssVals o) = staticStatics c)
  ∧ (length (snAddrs o) = staticNodes c ∧ length (snVals o) = staticNodes c)
  ∧ (length (dynAddrs o) = dynamicNodes c ∧ length (dynVals o) = dynamicNodes c).
Proof.
  intros [Hid [bs Hinv]]%reachable_inv c o.
  destruct (getCounts_inv id st bs Hinv) as [Hc Hinv1].
  destruct (getCounts_state st) as (Hsys & Hn & Hmap).
  subst c o. unfold collapse.
  destruct (getCounts st) as [c st1] eqn:Hg. simpl in *. subst c.
  rewrite Hsys, Hn, Hmap, (pi_system id st bs Hinv).
  unfold computeCounts. cbn [staticStatics staticNodes dynamicNodes].
  rewrite (pi_system id st bs Hinv), !map_fold_foldr.
  match goal with
  | |- context [foldr (uncurry (collapseEntry ?mask ?n)) ?o0 ?l] =>
      match goal with
      | |- context [foldr (uncurry (countEntry n ?rs)) ?t0 l] =>
          destruct (collapse_fold mask n rs l o0 t0
                      (totalStaticStatics (foldr (uncurry (countEntry n rs)) t0 l))
                      (totalStaticNodes (foldr (uncurry (countEntry n rs)) t0 l))
                      (totalDynamic (foldr (uncurry (countEntry n rs)) t0 l)))
            as [(H1 & H2 & H3 & H4 & H5) (H6 & H7 & H8 & H9)]
      end
  end.
  - intros a s Has%elem_of_map_to_list. apply maskSlots_classify; [done|].
    exact (represents_stored id st bs a s Hinv Has).
  - done.
  - unfold sized. simpl. by rewrite !length_replicate.
  - done.
Qed.

End CollapseTallies.

Section BatchOrder.
Import Config CoreUtils Preprocessor.

(** The slots of one address after batch [i] of [n] has been removed and
    added again as the last one. *)
Definition moveLast (i n : nat) (s : list Z) : list Z :=
  delete i (take n s) ++ (s !!! i) :: drop n s.

Lemma take_slotsFor (id : string) (bs : list ParsedBatch) (a : Z) :
  take (length bs) (slotsFor id bs a) = (fun b => slotValue id b a) <$> bs.
Proof. unfold slotsFor. by rewrite take_app_length' by by rewrite length_fmap. Qed.

Lemma drop_slotsFor (id : string) (bs : list ParsedBatch) (a : Z) :
  drop (length bs) (slotsFor id bs a) = replicate (maxFiles - length bs) 0.
Proof. unfold slotsFor. by rewrite drop_app_length' by by rewrite length_fmap. Qed.

Lemma moveLast_slotsFor (id : string) (bs : list ParsedBatch) (i : nat)
    (b : ParsedBatch) (a : Z) :
  bs !! i = Some b →
  moveLast i (length bs) (slotsFor id bs a) = slotsFor id (delete i bs ++ [b]) a.
Proof.
  intros Hb. assert (i < length bs)%nat as Hi by by eapply lookup_lt_Some.
  unfold moveLast. rewrite take_slotsFor, drop_slotsFor.
  assert (slotsFor id bs a !!! i = slotValue id b a) as ->.
  { apply list_lookup_total_correct. unfold slotsFor.
    rewrite lookup_app_l by (rewrite length_fmap; lia).
    by rewrite list_lookup_fmap, Hb. }
  unfold slotsFor. rewrite fmap_app, list_fmap_delete, length_app, length_delete
    by by apply lookup_lt_is_Some_2.
  simpl. rewrite <- app_assoc. simpl.
  by replace (length bs - 1 + 1)%nat with (length bs) by lia.
Qed.

Lemma moveLast_perm (id : string) (bs : list ParsedBatch) (i : nat)
    (b : ParsedBatch) (a : Z) :
  bs !! i = Some b →
  take (length bs) (slotsFor id (delete i bs ++ [b]) a)
  ≡ₚ take (length bs) (slotsFor id bs a).
Proof.
  intros Hb. assert (i < length bs)%nat as Hi by by eapply lookup_lt_Some.
  assert (length (delete i bs ++ [b]) = length bs) as Hlen.
  { rewrite length_app, length_delete by by apply lookup_lt_is_Some_2. simpl. lia. }
  rewrite <- Hlen at 1. rewrite !take_slotsFor, fmap_app. simpl.
  rewrite <- Permutation_cons_append, list_fmap_delete.
  symmetry. apply delete_Permutation. by rewrite list_lookup_fmap, Hb.
Qed.

Lemma moveLast_allZero (id : string) (bs : list ParsedBatch) (i : nat)
    (b : ParsedBatch) (a : Z) :
  bs !! i = Some b → (length bs ≤ maxFiles)%nat →
  allZero (slotsFor id (delete i bs ++ [b]) a) = allZero (slotsFor id bs a).
Proof.
  intros Hb Hle. assert (i < length bs)%nat as Hi by by eapply lookup_lt_Some.
  assert (length (delete i bs ++ [b]) = length bs) as Hlen.
  { rewrite length_app, length_delete by by apply lookup_lt_is_Some_2. simpl. lia. }
  apply allZero_perm.
  rewrite <- (take_drop (length bs) (slotsFor id (delete i bs ++ [b]) a)).
  rewrite <- (take_drop (length bs) (slotsFor id bs a)).
  assert (drop (length bs) (slotsFor id (delete i bs ++ [b]) a)
          = replicate (maxFiles - length bs) 0) as ->.
  { rewrite <- Hlen at 1. by rewrite drop_slotsFor, Hlen. }
  by rewrite (moveLast_perm id bs i b a Hb), drop_slotsFor.
Qed.

Lemma map_fold_ext_in {A B} (f g : Z → A → B → B) (b : B) (m : gmap Z A) :
  (∀ k x acc, m !! k = Some x → f k x acc = g k x acc) →
  map_fold f b m = map_fold g b m.
Proof.
  intros Hfg. rewrite !map_fold_foldr.
  assert (∀ k x, (k, x) ∈ map_to_list m → ∀ acc, f k x acc = g k x acc) as Hl.
  { intros k x Hin%elem_of_map_to_list acc. by apply Hfg. }
  clear Hfg. induction (map_to_list m) as [|[k x] l IH]; simpl; [done|].
  rewrite IH.
  - apply Hl, list_elem_of_here.
  - intros k' x' Hin. apply Hl. by apply list_elem_of_further.
Qed.

Lemma countEntry_classify (n : nat) (rs : list Range) (a : Z) (s s' : list Z) (t : Tally) :
  _classify n s' = _classify n s → countEntry n rs a s' t = countEntry n rs a s t.
Proof. intros Hcls. unfold countEntry. by rewrite Hcls. Qed.

(** The summary only depends on the set of batches held, not on where batch
    [i] sits. *)
Lemma computeCounts_moved (id : string) (st st' : State) (bs : list ParsedBatch)
    (i : nat) (b : ParsedBatch) :
  poolInv id st bs → poolInv id st' (delete i bs ++ [b]) → bs !! i = Some b →
  computeCounts st' = computeCounts st.
Proof.
  intros Hinv Hinv' Hb.
  assert (i < length bs)%nat as Hi by by eapply lookup_lt_Some.
  assert (length (delete i bs ++ [b]) = length bs) as Hlen.
  { rewrite length_app, length_delete by by apply lookup_lt_is_Some_2. simpl. lia. }
  pose proof (pi_le id st bs Hinv) as Hle.
  assert (nodeMap st' = moveLast i (length bs) <$> nodeMap st) as Hmap.
  { apply map_eq. intros a. rewrite lookup_fmap.
    rewrite (pi_map id st' _ Hinv' a), (pi_map id st bs Hinv a).
    rewrite (moveLast_allZero id bs i b a Hb Hle).
    destruct (allZero (slotsFor id bs a)); [done|]. simpl.
    by rewrite (moveLast_slotsFor id bs i b a Hb). }
  unfold computeCounts.
  rewrite (pi_system id st' _ Hinv'), (pi_system id st bs Hinv).
  rewrite (pi_count id st' _ Hinv'), (pi_count id st bs Hinv), Hlen, Hmap.
  rewrite map_size_fmap, map_fold_fmap.
  match goal with
  | |- context [map_fold ?f ?t0 (nodeMap st)] =>
      match goal with
      | |- context [map_fold ?g t0 (nodeMap st)] =>
          lazymatch f with g => fail | _ => idtac end;
          assert (map_fold f t0 (nodeMap st) = map_fold g t0 (nodeMap st)) as ->; [|done]
      end
  end.
  apply map_fold_ext_in. intros a s acc Ha. simpl.
  apply countEntry_classify.
  pose proof (pi_map id st bs Hinv a) as Hrep. rewrite Ha in Hrep.
  destruct (allZero _); [done|]. injection Hrep as ->.
  rewrite (moveLast_slotsFor id bs i b a Hb). unfold _classify.
  apply classify_perm, (moveLast_perm id bs i b a Hb).
Qed.

Lemma remove_readd_inv (id : string) (st : State) (bs : list ParsedBatch)
    (i : nat) (b : ParsedBatch) :
  isValidSystem id = true → poolInv id st bs → bs !! i = Some b →
  ∃ c1 st1 c2 st2,
    removeBatch st (Z.of_nat i) = Some (c1, st1)
    ∧ addBatch st1 b = Some (c2, st2)
    ∧ c2 = (getCounts st).1.
Proof.
  intros Hid Hinv Hb.
  assert (i < length bs)%nat as Hi by by eapply lookup_lt_Some.
  pose proof (pi_le id st bs Hinv) as Hle.
  destruct (removeBatch_inv id st bs i Hid Hi Hinv) as (st1 & Hrem & Hinv1).
  assert (validBatch id b = true) as Hvb.
  { pose proof (pi_valid id st bs Hinv) as Hv. rewrite Forall_forall in Hv.
    apply Hv. by eapply list_elem_of_lookup_2. }
  assert (length (delete i bs) < maxFiles)%nat as Hlt.
  { rewrite length_delete by by apply lookup_lt_is_Some_2. lia. }
  destruct (addBatch_inv id st1 (delete i bs) b Hid Hvb Hlt Hinv1)
    as (st2 & Hadd & Hinv2 & _).
  exists (computeCounts st1), st1, (computeCounts st2), st2.
  split; [done|]. split; [done|].
  destruct (getCounts_inv id st bs Hinv) as [-> _].
  by apply (computeCounts_moved id st st2 bs i b).
Qed.

(** Adding up to [maxFiles] batches to a preprocessor holds exactly them;
    further ones are refused. *)
Lemma batchesAfter_adds (bs pre : list ParsedBatch) :
  (length pre ≤ maxFiles)%nat →
  foldl batchesAfter pre (CallAddBatch <$> bs) = take maxFiles (pre ++ bs).
Proof.
  revert pre. induction bs as [|b bs IH]; intros pre Hpre; simpl.
  - by rewrite app_nil_r, take_ge.
  - destruct (Nat.ltb_spec (length pre) maxFiles) as [Hlt|Hge].
    + rewrite IH by (rewrite length_app; simpl; lia). by rewrite <- app_assoc.
    + rewrite IH by done. by rewrite !take_app_le, !take_ge by lia.
Qed.

(** C7: after [setSystem] and the addition of any parser-validated batches
    [bs], for every index [i] of a batch that was accepted,
    [removeBatch(i)] followed by [addBatch] of the original batch [i]
    succeeds and returns the same summary, hence the same staticStatics,
    staticNodes and dynamicNodes counts, as [getCounts] on the state from
    which nothing was removed. *)
Theorem remove_then_readd_same_counts (id : string) (st0 : State)
    (bs : list ParsedBatch) (i : nat) (b : ParsedBatch) :
  setSystem constructor id = Some st0 →
  forallb (validBatch id) bs = true →
  (i < maxFiles)%nat → bs !! i = Some b →
  let st := foldl call st0 (CallAddBatch <$> bs) in
  ∃ c1 st1 c2 st2,
    removeBatch st (Z.of_nat i) = Some (c1, st1)
    ∧ addBatch st1 b = Some (c2, st2)
    ∧ c2 = (getCounts st).1
    ∧ staticStatics c2 = staticStatics (getCounts st).1
    ∧ staticNodes c2 = staticNodes (getCounts st).1
    ∧ dynamicNodes c2 = dynamicNodes (getCounts st).1.
Proof.
  intros [Hid Hinv0]%setSystem_fresh Hbs Hi Hb st.
  assert (poolInv id st (take maxFiles bs)) as Hinv.
  { replace (take maxFiles bs) with (foldl batchesAfter [] (CallAddBatch <$> bs))
      by (by rewrite batchesAfter_adds by (simpl; lia)).
    apply calls_inv; [done| |done].
    clear -Hbs. induction bs as [|b' bs IH]; simpl in *; [done|].
    apply andb_true_iff in Hbs as [-> Hbs]. by apply IH. }
  destruct (remove_readd_inv id st (take maxFiles bs) i b Hid Hinv)
    as (c1 & st1 & c2 & st2 & Hrem & Hadd & ->).
  { by rewrite lookup_take_lt. }
  by exists c1, st1, (getCounts st).1, st2.
Qed.

End BatchOrder.

Section PreprocessorExamples.
Import Config CoreUtils Preprocessor.

(** Two PS1 dumps: one address keeps its value, one changes it, one is
    missing from the second dump. *)
Definition ps1Batch0 : ParsedBatch :=
  [ (0x80010000, 0x80100000); (0x80010004, 0x80100010); (0x80010008, 0x80100020) ].
Definition ps1Batch1 : ParsedBatch :=
  [ (0x80010000, 0x80100000); (0x80010004, 0x80100014) ].

Definition ps1Fresh : State :=
  {| systemId := Some "ps1"; batchCount := 0; maxBatches := maxFiles;
     nodeMap := ∅; _countsCache := None |}.

Definition ps1State : State :=
  foldl call ps1Fresh (CallAddBatch <$> [ps1Batch0; ps1Batch1]).

(** The summary of the two dumps: one node of each class. *)
Lemma ps1State_counts :
  let c := (getCounts ps1State).1 in
  (staticStatics c, staticNodes c, dynamicNodes c, totalNodes c)
  = (1, 1, 1, 3)%nat.
Proof. vm_compute. reflexivity. Qed.

(** What [collapse] hands to the scanner for the two dumps: addresses as
    int32, values masked to the PS1's 21 address bits. *)
Lemma ps1State_collapse :
  let o := (collapse ps1State).1 in
  (ssAddrs o, ssVals o) = ([-2147418112], [0x100000])
  ∧ (snAddrs o, snVals o) = ([-2147418108], [[0x100010; 0x100014]])
  ∧ (dynAddrs o, dynVals o) = ([-2147418104], [[0x100020; 0]]).
Proof. vm_compute. done. Qed.

Lemma collapse_tallies_equal_counts_ps1 :
  let c := (getCounts ps1State).1 in
  let o := (collapse ps1State).1 in
  (ssIdx o = staticStatics c ∧ snIdx o = staticNodes c ∧ dynIdx o = dynamicNodes c)
  ∧ (length (ssAddrs o) = staticStatics c ∧ length (ssVals o) = staticStatics c)
  ∧ (length (snAddrs o) = staticNodes c ∧ length (snVals o) = staticNodes c)
  ∧ (length (dynAddrs o) = dynamicNodes c ∧ length (dynVals o) = dynamicNodes c).
Proof.
  apply (collapse_tallies_equal_counts "ps1" ps1State).
  exists ps1Fresh, (CallAddBatch <$> [ps1Batch0; ps1Batch1]).
  split; [reflexivity|split; reflexivity].
Defined.

Lemma remove_then_readd_same_counts_ps1 :
  ∃ c1 st1 c2 st2,
    removeBatch ps1State 0 = Some (c1, st1)
    ∧ addBatch st1 ps1Batch0 = Some (c2, st2)
    ∧ c2 = (getCounts ps1State).1
    ∧ staticStatics c2 = staticStatics (getCounts ps1State).1
    ∧ staticNodes c2 = staticNodes (getCounts ps1State).1
    ∧ dynamicNodes c2 = dynamicNodes (getCounts ps1State).1.
Proof.
  apply (remove_then_readd_same_counts "ps1" ps1Fresh [ps1Batch0; ps1Batch1]
           0 ps1Batch0);
    [reflexivity | reflexivity | unfold maxFiles; lia | reflexivity].
Defined.

End PreprocessorExamples.


(* ===================================================================== *)
(** * Further properties of the modelled code *)
(* ===================================================================== *)

Section CsvValidation.
Import Config CoreUtils.

(** One region of memory as the parser reads it: the minimum itself is
    rejected ([value < min + 1]), the maximum is accepted. *)
Definition inRegion (r : MinMax) (v : Z) : Prop := mm_min r < v ≤ mm_max r.

Definition acceptedRegion (cfg : SystemConfig) (v : Z) : Prop :=
  match memoryRange cfg with
  | Single r => inRegion r v
  | Dual mem1 mem2 => inRegion mem1 v ∨ inRegion mem2 v
  end.

Lemma and_alignment (v : Z) : JS.and v alignmentMask = v mod 4.
Proof.
  unfold JS.and, alignmentMask. rewrite (toInt32_small 3) by lia.
  change 3 with (Z.ones 2). rewrite Z.land_ones by lia.
  apply (toInt32_mod_pow2 v 2). lia.
Qed.

Lemma land_pow2_zero (x k : Z) :
  0 ≤ k → Z.land x (2^k) = 0 ↔ Z.testbit x k = false.
Proof.
  intros Hk. split.
  - intros Hz. pose proof (Z.land_spec x (2^k) k) as H.
    rewrite Hz, Z.bits_0, Z.pow2_bits_true in H by done.
    by rewrite andb_true_r in H.
  - intros Hb. apply Z.bits_inj'. intros n Hn.
    rewrite Z.land_spec, Z.bits_0, Z.pow2_bits_eqb by done.
    destruct (Z.eqb_spec k n) as [->|]; [by rewrite Hb|by rewrite andb_false_r].
Qed.

Lemma testbit_toInt32 (v k : Z) :
  0 ≤ k < 32 → Z.testbit (JS.toInt32 v) k = Z.testbit v k.
Proof.
  intros Hk.
  rewrite <- (Z.mod_pow2_bits_low (JS.toInt32 v) 32 k) by lia.
  rewrite <- (Z.mod_pow2_bits_low v 32 k) by lia.
  by rewrite (toInt32_mod_pow2 v 32) by lia.
Qed.

(** Bit 28 of a value between two multiples of 2^28. *)
Lemma and_bit28 (v q : Z) :
  q * 2^28 ≤ v < (q + 1) * 2^28 →
  (JS.and v 0x10000000 =? 0) = Z.even q.
Proof.
  intros Hv. unfold JS.and. rewrite (toInt32_small 0x10000000) by lia.
  assert (v / 2^28 = q) as Hq by (symmetry; apply Z.div_unique with (v - q * 2^28); lia).
  assert (Z.testbit (JS.toInt32 v) 28 = Z.odd q) as Hb.
  { rewrite testbit_toInt32 by lia. rewrite Z.testbit_odd, Z.shiftr_div_pow2 by lia.
    by rewrite Hq. }
  change 0x10000000 with (2^28). rewrite <- Z.negb_odd, <- Hb.
  destruct (Z.testbit (JS.toInt32 v) 28) eqn:Hbit; simpl.
  - apply Z.eqb_neq. intros Hz%land_pow2_zero; [congruence|lia].
  - apply Z.eqb_eq, land_pow2_zero; [lia|done].
Qed.

Lemma and_bit31 (v : Z) : 2^31 ≤ v < 2^32 → JS.and v 0x80000000 ≠ 0.
Proof.
  intros Hv. unfold JS.and.
  assert (JS.toInt32 v < 0) as H1.
  { unfold JS.toInt32. replace (v + 2^31) with (v - 2^31 + 1 * 2^32) by lia.
    rewrite Z.mod_add, Z.mod_small by lia. lia. }
  assert (JS.toInt32 0x80000000 < 0) as H2 by (vm_compute; reflexivity).
  assert (Z.land (JS.toInt32 v) (JS.toInt32 0x80000000) < 0) by (apply Z.land_neg; lia).
  lia.
Qed.

(** X1: [validateCsvRow] accepts a parsed value for a catalogue system
    exactly when the value is a multiple of 4 and lies in a memory region of
    the system, above the region's minimum and up to its maximum: the
    minimum address itself is rejected.  For the Wii either of the two
    regions will do. *)
Theorem validateCsvRow_accepts_iff (id : string) (cfg : SystemConfig) (v : Z) :
  getSystemConfig id = Some cfg →
  validValue id v = true ↔ v mod 4 = 0 ∧ acceptedRegion cfg v.
Proof.
  intros Hcfg. unfold validValue. rewrite Hcfg, and_alignment.
  apply getSystemConfig_cases in Hcfg. unfold systems in Hcfg.
  assert (∀ lo hi, negb ((v <? lo + 1) || (hi <? v)) = true ↔ lo < v ≤ hi) as Hrange.
  { intros lo hi. rewrite negb_true_iff, orb_false_iff, Z.ltb_ge, Z.ltb_ge. lia. }
  repeat (apply elem_of_cons in Hcfg as [[= -> ->]|Hcfg];
          [ unfold acceptedRegion, inMemoryRange, inRegion;
            cbn [memoryRange dualRange mk single mm_min mm_max];
            rewrite andb_true_iff, Z.eqb_eq;
            try (rewrite Hrange; tauto) | ]).
  - (* the Wii *)
    split.
    + intros [Ha [H31 H]%andb_true_iff]. split; [done|]. cbv zeta in H.
      destruct (JS.and v 268435456 =? 0); cbn [mm_min mm_max] in H;
        apply Hrange in H; [left|right]; done.
    + intros [Ha [Hv|Hv]]; (split; [done|]); apply andb_true_iff; split.
      * apply negb_true_iff, Z.eqb_neq, and_bit31. lia.
      * cbv zeta. rewrite (and_bit28 v 8) by lia. cbn [Z.even mm_min mm_max].
        by apply Hrange.
      * apply negb_true_iff, Z.eqb_neq, and_bit31. lia.
      * cbv zeta. rewrite (and_bit28 v 9) by lia. cbn [Z.even mm_min mm_max].
        by apply Hrange.
  - by apply elem_of_nil in Hcfg.
Qed.

Lemma validateCsvRow_accepts_iff_ps1 :
  validValue "ps1" 0x80100000 = true
  ↔ 0x80100000 mod 4 = 0
    ∧ acceptedRegion (mk "PlayStation 1" (Some 0x001FFFFF)
                         (single 0x80000000 0x801FFFFF) false false "half")
                     0x80100000.
Proof. apply (validateCsvRow_accepts_iff "ps1"). reflexivity. Defined.

End CsvValidation.

Section RangeIndex.
Import Config.

Definition inRange (r : Range) (a : Z) : Prop := rmin r ≤ a ≤ rmax r.

Lemma rangeIndexFrom_spec (rs : list Range) (a : Z) (k : nat) :
  match rangeIndexFrom k rs a with
  | Some i => ∃ j r, i = (k + j)%nat ∧ rs !! j = Some r ∧ inRange r a
                     ∧ ∀ j' r', (j' < j)%nat → rs !! j' = Some r' → ¬ inRange r' a
  | None => ∀ r, r ∈ rs → ¬ inRange r a
  end.
Proof.
  revert k. induction rs as [|r rs IH]; intros k; simpl.
  - intros r Hr. by apply elem_of_nil in Hr.
  - destruct ((rmin r <=? a) && (a <=? rmax r)) eqn:Hin.
    + apply andb_true_iff in Hin as [H1%Z.leb_le H2%Z.leb_le].
      exists 0%nat, r. split_and!; [lia|done|done|]. intros j' r' Hj. lia.
    + assert (¬ inRange r a) as Hout.
      { intros [H1 H2]. apply andb_false_iff in Hin as [Hin|Hin];
          [apply Z.leb_gt in Hin|apply Z.leb_gt in Hin]; lia. }
      specialize (IH (S k)). destruct (rangeIndexFrom (S k) rs a) as [i|].
      * destruct IH as (j & r0 & -> & Hj & Hr0 & Hfirst).
        exists (S j), r0. split_and!; [lia|done|done|].
        intros [|j'] r' Hlt; simpl; [by intros [= <-]|].
        intros Hj'. apply (Hfirst j' r'); [lia|done].
      * intros r' [->|Hr']%elem_of_cons; [done|by apply IH].
Qed.

(** X2: [getAddressRangeIndex] (and the preprocessor's [_getRangeIndex],
    which is the same loop) returns the index of the first range of the list
    that contains the address, and -1 (here [None]) exactly when no range of
    the list contains it. *)
Theorem getAddressRangeIndex_first_match (id : string) (a : Z) :
  match getAddressRangeIndex id a with
  | Some i => ∃ r, getRanges id !! i = Some r ∧ inRange r a
                   ∧ ∀ j r', (j < i)%nat → getRanges id !! j = Some r' → ¬ inRange r' a
  | None => ∀ r, r ∈ getRanges id → ¬ inRange r a
  end.
Proof.
  unfold getAddressRangeIndex.
  pose proof (rangeIndexFrom_spec (getRanges id) a 0) as H.
  destruct (rangeIndexFrom 0 (getRanges id) a) as [i|]; [|done].
  destruct H as (j & r & -> & Hj & Hr & Hfirst). exists r. by split_and!.
Qed.

(** In a list of non-empty ranges that abut, every later range lies above
    the first one. *)
Lemma contiguous_above (r : Range) (rs : list Range) :
  contiguous (r :: rs) = true → nonEmptyRanges (r :: rs) = true →
  ∀ j r', rs !! j = Some r' → rmax r < rmin r'.
Proof.
  revert r. induction rs as [|r2 rs IH]; intros r Hc Hn j r' Hj; [done|].
  simpl in Hc, Hn.
  apply andb_true_iff in Hc as [Hstart%Z.eqb_eq Hc].
  apply andb_true_iff in Hn as [H1%Z.leb_le Hn].
  pose proof Hn as Hn'. simpl in Hn'. apply andb_true_iff in Hn' as [H2%Z.leb_le _].
  destruct j as [|j]; simpl in Hj.
  - injection Hj as <-. lia.
  - specialize (IH r2 Hc Hn j r' Hj). lia.
Qed.

Lemma contiguous_index (rs : list Range) (a lo hi : Z) (k : nat) :
  contiguous rs = true → nonEmptyRanges rs = true →
  innerBoundariesAligned rs = true →
  firstMin rs = Some lo → lastMax rs = Some hi →
  a mod 4 = 0 → lo ≤ a ≤ hi →
  ∃ i r, rangeIndexFrom k rs a = Some (k + i)%nat ∧ rs !! i = Some r ∧ inRange r a
         ∧ ∀ j r', rs !! j = Some r' → inRange r' a → j = i.
Proof.
  revert lo k. induction rs as [|r rs IH]; intros lo k Hc Hn Hal Hlo Hhi Ha Hr; [done|].
  injection Hlo as <-.
  pose proof (contiguous_above r rs Hc Hn) as Habove.
  cbn [rangeIndexFrom].
  destruct (Z.leb_spec a (rmax r)) as [Hle|Hgt].
  - replace (rmin r <=? a) with true by (symmetry; apply Z.leb_le; lia).
    exists 0%nat, r. split_and!; [f_equal; lia|done|by split; lia|].
    intros [|j] r' Hj [H1 H2]; [done|]. simpl in Hj.
    specialize (Habove j r' Hj). lia.
  - rewrite andb_false_r.
    destruct rs as [|r2 rs].
    { unfold lastMax in Hhi. simpl in Hhi. injection Hhi as <-. lia. }
    simpl in Hc. apply andb_true_iff in Hc as [Hstart%Z.eqb_eq Hc].
    pose proof Hn as Hn'. simpl in Hn'. apply andb_true_iff in Hn' as [_ Hn'].
    cbn [innerBoundariesAligned] in Hal.
    apply andb_true_iff in Hal as [[_ Hmax%Z.eqb_eq]%andb_true_iff Hal].
    assert (lastMax (r2 :: rs) = Some hi) as Hhi' by (by rewrite <- Hhi).
    assert (rmin r2 ≤ a ≤ hi) as Hr'.
    { pose proof (Z.div_mod a 4). pose proof (Z.div_mod (rmax r) 4). lia. }
    destruct (IH (rmin r2) (S k) Hc Hn' Hal eq_refl Hhi' Ha Hr')
      as (i & r0 & Hidx & Hi & Hin & Huniq).
    exists (S i), r0. split_and!; [rewrite Hidx; f_equal; lia|done|done|].
    intros [|j] r' Hj Hin'; simpl in Hj.
    + injection Hj as <-. destruct Hin'. lia.
    + f_equal. by apply (Huniq j r').
Qed.

(** X3: for the catalogue systems whose range mode [getRanges] handles and
    whose memory lies below 2^31 (GBA, PS2, PSP, DSi), every 4-byte-aligned
    address of the memory space falls into exactly one range, and
    [getAddressRangeIndex] returns the index of that range. *)
Theorem getAddressRangeIndex_covers_aligned (id : string) (cfg : SystemConfig) (a : Z) :
  getSystemConfig id = Some cfg →
  knownMode cfg = true → belowInt32 cfg = true →
  a mod 4 = 0 → memMin cfg ≤ a ≤ memMax cfg →
  ∃ i r, getAddressRangeIndex id a = Some i
         ∧ getRanges id !! i = Some r ∧ inRange r a
         ∧ ∀ j r', getRanges id !! j = Some r' → inRange r' a → j = i.
Proof.
  intros Hcfg Hmode Hlow Ha Hmem. unfold getAddressRangeIndex.
  assert (covers cfg (getRanges id) = true
          ∧ innerBoundariesAligned (getRanges id) = true) as [Hcov Hal].
  { unfold getRanges. rewrite Hcfg.
    apply getSystemConfig_cases in Hcfg. unfold systems in Hcfg.
    repeat (apply elem_of_cons in Hcfg as [[= -> ->]|Hcfg];
            [ first [ discriminate Hmode | discriminate Hlow
                    | vm_compute; split; reflexivity ] | ]).
    by apply elem_of_nil in Hcfg. }
  unfold covers in Hcov.
  apply andb_true_iff in Hcov as [[[[_ Hfirst]%andb_true_iff Hlast]%andb_true_iff
                                    Hne]%andb_true_iff Hcont].
  apply bool_decide_eq_true in Hfirst, Hlast.
  destruct (contiguous_index (getRanges id) a (memMin cfg) (memMax cfg) 0)
    as (i & r & Hidx & Hi & Hin & Huniq); try done.
  by exists i, r.
Qed.

Lemma getAddressRangeIndex_covers_aligned_psp :
  ∃ i r, getAddressRangeIndex "psp" 0x08800000 = Some i
         ∧ getRanges "psp" !! i = Some r ∧ inRange r 0x08800000
         ∧ ∀ j r', getRanges "psp" !! j = Some r' → inRange r' 0x08800000 → j = i.
Proof.
  apply (getAddressRangeIndex_covers_aligned "psp"
           (mk "PlayStation Portable" (Some 0x01FFFFFF) (single 0x08000000 0x09FFFFFF)
               false false "quarter"));
    [reflexivity | reflexivity | reflexivity | reflexivity
    | split; apply Z.leb_le; reflexivity].
Defined.

(** [floorAlign] of an address in the upper half of the uint32 range is
    negative: the bit operator reads the address as an int32. *)
Lemma floorAlign_negative (x : Z) : 2^31 ≤ x < 2^32 → floorAlign x < 0.
Proof.
  intros Hx. unfold floorAlign, JS.and.
  apply Z.land_neg. split.
  - unfold JS.toInt32. replace (x + 2^31) with (x - 2^31 + 1 * 2^32) by lia.
    rewrite Z.mod_add, Z.mod_small by lia. lia.
  - vm_compute. reflexivity.
Qed.

(** X4: for a system in [half] mode whose memory lies at or above
    0x80000000 (N64, PS1, Dreamcast) the midpoint computed by [getRanges] is
    negative, so Range 1 is empty: no address is ever attributed to range 0,
    and every address of the memory space is attributed to range 1. *)
Theorem getAddressRangeIndex_half_high (id : string) (cfg : SystemConfig)
    (r : MinMax) (a : Z) :
  getSystemConfig id = Some cfg →
  memoryRange cfg = Single r → rangeMode cfg = "half" →
  2^31 ≤ mm_min r → mm_min r ≤ mm_max r → mm_max r < 2^32 →
  getAddressRangeIndex id a ≠ Some 0%nat
  ∧ (mm_min r ≤ a ≤ mm_max r → getAddressRangeIndex id a = Some 1%nat).
Proof.
  intros Hcfg Hr Hmode Hlo Hle Hhi.
  unfold getAddressRangeIndex, getRanges. rewrite Hcfg. unfold rangesOf.
  rewrite Hr, Hmode. cbn [String.eqb Ascii.eqb Bool.eqb rangeIndexFrom rmin rmax].
  set (mid := floorAlign (mm_min r + (mm_max r - mm_min r + 1) / 2)).
  assert (mid < 0) as Hmid.
  { apply floorAlign_negative.
    pose proof (Z.div_mod (mm_max r - mm_min r + 1) 2).
    pose proof (Z.mod_pos_bound (mm_max r - mm_min r + 1) 2).
    lia. }
  destruct (Z.leb_spec (mm_min r) a) as [H1|H1]; simpl.
  - replace (a <=? mid - 4) with false by (symmetry; apply Z.leb_gt; lia).
    replace (mid <=? a) with true by (symmetry; apply Z.leb_le; lia).
    simpl. split; [by destruct (a <=? mm_max r)|].
    intros [_ H2]. by replace (a <=? mm_max r) with true by (symmetry; apply Z.leb_le; lia).
  - split; [|lia]. by destruct ((mid <=? a) && (a <=? mm_max r)).
Qed.

Lemma getAddressRangeIndex_half_high_n64 :
  getAddressRangeIndex "n64" 0x80001000 ≠ Some 0%nat
  ∧ (0x80000000 ≤ 0x80001000 ≤ 0x807FFFFF →
     getAddressRangeIndex "n64" 0x80001000 = Some 1%nat).
Proof.
  apply (getAddressRangeIndex_half_high "n64"
           (mk "Nintendo 64" None (single 0x80000000 0x807FFFFF) true false "half")
           {| mm_min := 0x80000000; mm_max := 0x807FFFFF |});
    [reflexivity | reflexivity | reflexivity | simpl; lia | simpl; lia | simpl; lia].
Defined.

End RangeIndex.

Section PreprocessorFacts.
Import Config CoreUtils Preprocessor.

Lemma countEntry_total (n : nat) (rs : list Range) (a : Z) (s : list Z) (t : Tally) :
  (totalStaticStatics (countEntry n rs a s t) + totalStaticNodes (countEntry n rs a s t)
   + totalDynamic (countEntry n rs a s t)
   = S (totalStaticStatics t + totalStaticNodes t + totalDynamic t))%nat.
Proof. unfold countEntry. destruct (_classify n s); simpl; lia. Qed.

Definition tallyTotal (t : Tally) : nat :=
  (totalStaticStatics t + totalStaticNodes t + totalDynamic t)%nat.

Lemma countEntries_total (n : nat) (rs : list Range) (l : list (Z * list Z)) (t0 : Tally) :
  tallyTotal (foldr (uncurry (countEntry n rs)) t0 l) = (tallyTotal t0 + length l)%nat.
Proof.
  induction l as [|[a s] l IH]; simpl; [unfold tallyTotal; lia|].
  unfold tallyTotal in *. rewrite countEntry_total. lia.
Qed.

Lemma computeCounts_total (st : State) :
  (staticStatics (computeCounts st) + staticNodes (computeCounts st)
   + dynamicNodes (computeCounts st) = size (nodeMap st))%nat.
Proof.
  unfold computeCounts. cbn [staticStatics staticNodes dynamicNodes].
  rewrite map_fold_foldr, <- length_map_to_list.
  match goal with
  | |- context [foldr ?f ?t0 ?l] => pose proof (countEntries_total (batchCount st)
      (getRanges match systemId st with Some s => s | None => "n64" end) l t0) as H
  end.
  unfold tallyTotal in H. simpl in H. exact H.
Qed.

(** X5: on every reachable state, the three counts [getCounts] reports add
    up to the number of addresses in the pool: every address is counted in
    exactly one class.  The summary also carries the current batch count. *)
Theorem getCounts_partitions_pool (id : string) (st : State) :
  reachable id st →
  let c := (getCounts st).1 in
  (staticStatics c + staticNodes c + dynamicNodes c = totalNodes c)%nat
  ∧ totalNodes c = size (nodeMap st)
  ∧ cnt_batchCount c = batchCount st.
Proof.
  intros [Hid [bs Hinv]]%reachable_inv c. subst c.
  destruct (getCounts_inv id st bs Hinv) as [-> _].
  split; [|done]. apply computeCounts_total.
Qed.

Lemma getCounts_partitions_pool_ps1 :
  let c := (getCounts ps1State).1 in
  (staticStatics c + staticNodes c + dynamicNodes c = totalNodes c)%nat
  ∧ totalNodes c = size (nodeMap ps1State)
  ∧ cnt_batchCount c = batchCount ps1State.
Proof.
  apply (getCounts_partitions_pool "ps1" ps1State).
  exists ps1Fresh, (CallAddBatch <$> [ps1Batch0; ps1Batch1]).
  split; [reflexivity|split; reflexivity].
Defined.

(** X6: a reachable preprocessor never holds more than [maxFiles] (ten)
    batches, and [addBatch] throws on it exactly when it holds ten; a
    successful [addBatch] raises the batch count by one and leaves the
    system unchanged. *)
Theorem addBatch_limit (id : string) (st : State) (b : ParsedBatch) :
  reachable id st →
  (batchCount st ≤ maxFiles)%nat
  ∧ (addBatch st b = None ↔ batchCount st = maxFiles)
  ∧ (∀ c st', addBatch st b = Some (c, st') →
              batchCount st' = S (batchCount st) ∧ systemId st' = Some id).
Proof.
  intros [Hid [bs Hinv]]%reachable_inv.
  pose proof (pi_le id st bs Hinv) as Hle.
  pose proof (pi_count id st bs Hinv) as Hn.
  pose proof (pi_max id st bs Hinv) as Hmax.
  pose proof (pi_system id st bs Hinv) as Hsys.
  split; [lia|]. unfold addBatch. rewrite Hsys, Hmax.
  destruct (Nat.leb_spec maxFiles (batchCount st)) as [Hfull|Hroom].
  - split; [split; [lia|done]|]. intros c st' [=].
  - split; [split; [done|lia]|]. intros c st' Heq.
    assert (st' = (c, st').2) as -> by done. by injection Heq as <- <-.
Qed.

Lemma addBatch_limit_ps1 :
  (batchCount ps1State ≤ maxFiles)%nat
  ∧ (addBatch ps1State ps1Batch0 = None ↔ batchCount ps1State = maxFiles)
  ∧ (∀ c st', addBatch ps1State ps1Batch0 = Some (c, st') →
              batchCount st' = S (batchCount ps1State) ∧ systemId st' = Some "ps1").
Proof.
  apply (addBatch_limit "ps1" ps1State ps1Batch0).
  exists ps1Fresh, (CallAddBatch <$> [ps1Batch0; ps1Batch1]).
  split; [reflexivity|split; reflexivity].
Defined.

(** The pool is determined by the batches it holds. *)
Lemma represents_unique (id : string) (bs : list ParsedBatch) (m m' : gmap Z (list Z)) :
  represents id bs m → represents id bs m' → m = m'.
Proof. intros H H'. apply map_eq. intros a. by rewrite (H a), (H' a). Qed.

Lemma computeCounts_fields (st st' : State) :
  systemId st' = systemId st → batchCount st' = batchCount st →
  nodeMap st' = nodeMap st → computeCounts st' = computeCounts st.
Proof. intros H1 H2 H3. unfold computeCounts. by rewrite H1, H2, H3. Qed.

Lemma delete_last_snoc {A} (l : list A) (x : A) : delete (length l) (l ++ [x]) = l.
Proof. induction l as [|y l IH]; simpl; [done|]. by rewrite IH. Qed.

(** X7: adding a validated batch to a reachable preprocessor that has room
    and removing it again (it sits at index [batchCount]) restores the pool
    exactly: the node map and the batch count are those before the two
    calls, and [removeBatch] returns the summary [getCounts] gave before. *)
Theorem add_then_remove_restores (id : string) (st : State) (b : ParsedBatch) :
  reachable id st → validBatch id b = true → (batchCount st < maxFiles)%nat →
  ∃ c1 st1 c2 st2,
    addBatch st b = Some (c1, st1)
    ∧ removeBatch st1 (Z.of_nat (batchCount st)) = Some (c2, st2)
    ∧ nodeMap st2 = nodeMap st
    ∧ batchCount st2 = batchCount st
    ∧ c2 = (getCounts st).1.
Proof.
  intros [Hid [bs Hinv]]%reachable_inv Hb Hroom.
  pose proof (pi_count id st bs Hinv) as Hn. rewrite Hn in *.
  destruct (addBatch_inv id st bs b Hid Hb Hroom Hinv) as (st1 & Hadd & Hinv1 & _).
  destruct (removeBatch_inv id st1 (bs ++ [b]) (length bs) Hid) as (st2 & Hrem & Hinv2);
    [rewrite length_app; simpl; lia|done|].
  rewrite delete_last_snoc in Hinv2.
  exists (computeCounts st1), st1, (computeCounts st2), st2.
  assert (nodeMap st2 = nodeMap st) as Hmap.
  { apply (represents_unique id bs); [apply Hinv2|apply Hinv]. }
  assert (batchCount st2 = length bs) as Hn2 by apply Hinv2.
  split_and!; [done|done|done|done|].
  destruct (getCounts_inv id st bs Hinv) as [-> _].
  apply computeCounts_fields; [|congruence|done].
  by rewrite (pi_system id st2 bs Hinv2), (pi_system id st bs Hinv).
Qed.

Lemma add_then_remove_restores_ps1 :
  ∃ c1 st1 c2 st2,
    addBatch ps1State ps1Batch1 = Some (c1, st1)
    ∧ removeBatch st1 (Z.of_nat (batchCount ps1State)) = Some (c2, st2)
    ∧ nodeMap st2 = nodeMap ps1State
    ∧ batchCount st2 = batchCount ps1State
    ∧ c2 = (getCounts ps1State).1.
Proof.
  apply (add_then_remove_restores "ps1" ps1State ps1Batch1).
  - exists ps1Fresh, (CallAddBatch <$> [ps1Batch0; ps1Batch1]).
    split; [reflexivity|split; reflexivity].
  - reflexivity.
  - vm_compute. lia.
Defined.

(** The values of the rows of batch [b] at address [a] that pass both
    filters of [addBatch] (not a VTable anchor of the batch, not in close
    proximity), in row order. *)
Definition keptAt (id : string) (b : ParsedBatch) (a : Z) : list Z :=
  (List.filter (fun row => keepRow (getSystemMask id) b.*2 row.1 row.2 && (row.1 =? a)) b).*2.

(** What slot [k] of address [a] holds for the batches [bs]. *)
Definition slotOf (id : string) (bs : list ParsedBatch) (a : Z) (k : nat) : Z :=
  match bs !! k with
  | Some b => match last (keptAt id b a) with Some v => JS.toInt32 v | None => 0 end
  | None => 0
  end.

Lemma slotValue_last (id : string) (b : ParsedBatch) (a : Z) :
  slotValue id b a
  = match last (keptAt id b a) with Some v => JS.toInt32 v | None => 0 end.
Proof.
  unfold slotValue, keptAt. generalize (b.*2). intros values.
  induction b as [|row b IH] using rev_ind; [done|].
  rewrite foldl_app, List.filter_app, fmap_app. simpl.
  unfold keptValue at 1.
  destruct (keepRow (getSystemMask id) values row.1 row.2 && (row.1 =? a)); simpl.
  - by rewrite last_snoc.
  - by rewrite app_nil_r.
Qed.

Lemma keptAt_valid (id : string) (b : ParsedBatch) (a v : Z) :
  validBatch id b = true → v ∈ keptAt id b a → validValue id v = true.
Proof.
  unfold validBatch, keptAt. intros Hb Hv.
  apply list_elem_of_fmap in Hv as (row & -> & Hrow).
  apply list_elem_of_In, filter_In in Hrow as [Hrow _].
  rewrite forallb_forall in Hb. by apply Hb.
Qed.

Lemma slotValue_zero_iff (id : string) (b : ParsedBatch) (a : Z) :
  isValidSystem id = true → validBatch id b = true →
  slotValue id b a = 0 ↔ keptAt id b a = [].
Proof.
  intros Hid Hb. rewrite slotValue_last.
  destruct (last (keptAt id b a)) as [v|] eqn:Hlast.
  - split.
    + intros Hz. exfalso. revert Hz. apply toInt32_nonzero, (validValue_range id); [done|].
      eapply keptAt_valid; [done|]. by apply last_Some_elem_of.
    + intros Hnil. by rewrite Hnil in Hlast.
  - by apply last_None in Hlast.
Qed.

(** The state reached by adding the batches [bs] holds them. *)
Lemma adds_inv (id : string) (st0 : State) (bs : list ParsedBatch) :
  setSystem constructor id = Some st0 →
  forallb (validBatch id) bs = true → (length bs ≤ maxFiles)%nat →
  isValidSystem id = true ∧ poolInv id (foldl call st0 (CallAddBatch <$> bs)) bs.
Proof.
  intros [Hid Hinv0]%setSystem_fresh Hbs Hlen. split; [done|].
  rewrite <- (take_ge bs maxFiles) at 2 by done.
  replace (take maxFiles bs) with (foldl batchesAfter [] (CallAddBatch <$> bs))
    by (by rewrite batchesAfter_adds by (simpl; lia)).
  apply calls_inv; [done| |done].
  clear -Hbs. induction bs as [|b' bs IH]; simpl in *; [done|].
  apply andb_true_iff in Hbs as [-> Hbs]. by apply IH.
Qed.

Lemma lookup_slotsFor (id : string) (bs : list ParsedBatch) (a : Z) (k : nat) :
  (length bs ≤ maxFiles)%nat → (k < maxFiles)%nat →
  slotsFor id bs a !! k = Some (slotOf id bs a k).
Proof.
  intros Hlen Hk. unfold slotsFor, slotOf.
  destruct (bs !! k) as [b|] eqn:Hb.
  - rewrite lookup_app_l by (rewrite length_fmap; by eapply lookup_lt_Some).
    by rewrite list_lookup_fmap, Hb, <- slotValue_last.
  - apply lookup_ge_None in Hb.
    rewrite lookup_app_r by (by rewrite length_fmap).
    rewrite length_fmap. apply lookup_replicate_2. lia.
Qed.

Lemma allZero_slotsFor (id : string) (bs : list ParsedBatch) (a : Z) :
  isValidSystem id = true → Forall (fun b => validBatch id b = true) bs →
  allZero (slotsFor id bs a) = true ↔ ∀ b, b ∈ bs → keptAt id b a = [].
Proof.
  intros Hid Hbs. unfold allZero, slotsFor. rewrite forallb_app, andb_true_iff.
  rewrite Forall_forall in Hbs. split.
  - intros [H _] b Hb. rewrite forallb_forall in H.
    apply (slotValue_zero_iff id b a Hid (Hbs b Hb)), Z.eqb_eq, H, list_elem_of_In.
    apply list_elem_of_fmap. by exists b.
  - intros H. split.
    + apply forallb_forall. intros x Hx%list_elem_of_In.
      apply list_elem_of_fmap in Hx as (b & -> & Hb).
      apply Z.eqb_eq, (slotValue_zero_iff id b a Hid (Hbs b Hb)), H, Hb.
    + apply forallb_forall. intros x Hx%list_elem_of_In.
      apply elem_of_replicate in Hx as [-> _]. done.
Qed.

(** X8: after [setSystem] and the addition of validated batches, the pool
    has an entry for an address exactly when some batch has a row at that
    address that passes both filters of [addBatch]; slot [k] of the entry
    holds the int32 image of the value of the last such row of batch [k],
    and 0 when batch [k] has none or does not exist. *)
Theorem pool_content (id : string) (st0 : State) (bs : list ParsedBatch) (a : Z) :
  setSystem constructor id = Some st0 →
  forallb (validBatch id) bs = true → (length bs ≤ maxFiles)%nat →
  match nodeMap (foldl call st0 (CallAddBatch <$> bs)) !! a with
  | None => ∀ b, b ∈ bs → keptAt id b a = []
  | Some slots =>
      (∃ b, b ∈ bs ∧ keptAt id b a ≠ [])
      ∧ length slots = maxFiles
      ∧ ∀ k, (k < maxFiles)%nat → slots !! k = Some (slotOf id bs a k)
  end.
Proof.
  intros Hset Hbs Hlen.
  destruct (adds_inv id st0 bs Hset Hbs Hlen) as [Hid Hinv].
  rewrite (pi_map id _ bs Hinv a).
  pose proof (allZero_slotsFor id bs a Hid (pi_valid id _ bs Hinv)) as Hz.
  destruct (allZero (slotsFor id bs a)) eqn:Hall.
  - by apply Hz.
  - split_and!.
    + assert (¬ ∀ b, b ∈ bs → keptAt id b a = []) as Hsome.
      { intros H. by apply Hz in H. }
      destruct (decide (Exists (fun b => keptAt id b a ≠ []) bs)) as [Hex|Hno].
      * apply Exists_exists in Hex as (b & Hb & Hne). by exists b.
      * exfalso. apply Hsome. intros b Hb.
        destruct (decide (keptAt id b a = [])) as [|Hne]; [done|].
        exfalso. apply Hno, Exists_exists. by exists b.
    + by apply length_slotsFor.
    + intros k Hk. by apply lookup_slotsFor.
Qed.

Lemma pool_content_ps1 :
  match nodeMap (foldl call ps1Fresh (CallAddBatch <$> [ps1Batch0; ps1Batch1]))
          !! 0x80010008 with
  | None => ∀ b, b ∈ [ps1Batch0; ps1Batch1] → keptAt "ps1" b 0x80010008 = []
  | Some slots =>
      (∃ b, b ∈ [ps1Batch0; ps1Batch1] ∧ keptAt "ps1" b 0x80010008 ≠ [])
      ∧ length slots = maxFiles
      ∧ ∀ k, (k < maxFiles)%nat →
             slots !! k = Some (slotOf "ps1" [ps1Batch0; ps1Batch1] 0x80010008 k)
  end.
Proof.
  apply (pool_content "ps1" ps1Fresh [ps1Batch0; ps1Batch1] 0x80010008);
    [reflexivity | reflexivity | vm_compute; lia].
Defined.

(** X9: after [setSystem] and the addition of validated batches, an address
    of the pool is classified [dynamicNode] exactly when some batch has no
    row at it that passes the filters, and [staticStatic] exactly when every
    batch has such a row and the last one carries the same value in every
    batch; in the remaining case it is a [staticNode]. *)
Theorem classification_by_batches (id : string) (st0 : State)
    (bs : list ParsedBatch) (a : Z) (slots : list Z) :
  setSystem constructor id = Some st0 →
  forallb (validBatch id) bs = true → (length bs ≤ maxFiles)%nat →
  let st := foldl call st0 (CallAddBatch <$> bs) in
  nodeMap st !! a = Some slots →
  (_classify (batchCount st) slots = dynamicNode
   ↔ ∃ b, b ∈ bs ∧ keptAt id b a = [])
  ∧ (_classify (batchCount st) slots = staticStatic
     ↔ ∃ v, ∀ b, b ∈ bs → last (keptAt id b a) = Some v).
Proof.
  intros Hset Hbs Hlen st Hslots.
  destruct (adds_inv id st0 bs Hset Hbs Hlen) as [Hid Hinv]. fold st in Hinv.
  pose proof (pi_valid id st bs Hinv) as Hvalid. rewrite Forall_forall in Hvalid.
  pose proof (pi_map id st bs Hinv a) as Hrep. rewrite Hslots in Hrep.
  destruct (allZero (slotsFor id bs a)) eqn:Hall; simpl in Hrep; [done|].
  injection Hrep as ->.
  unfold _classify. rewrite (pi_count id st bs Hinv), take_slotsFor.
  assert (∀ b, b ∈ bs → slotValue id b a ≠ 0 →
               ∃ v, last (keptAt id b a) = Some v ∧ slotValue id b a = JS.toInt32 v
                    ∧ 0 < v < 2^32) as Hnz.
  { intros b Hb Hne. rewrite slotValue_last in *.
    destruct (last (keptAt id b a)) as [v|] eqn:Hlast; [|done].
    exists v. split; [done|split; [done|]]. apply (validValue_range id); [done|].
    eapply keptAt_valid; [by apply Hvalid|]. by apply last_Some_elem_of. }
  split.
  - rewrite classify_dynamic_iff, list_elem_of_fmap. split.
    + intros (b & Hb0 & Hb). exists b. split; [done|].
      by apply (slotValue_zero_iff id b a Hid (Hvalid b Hb)).
    + intros (b & Hb & Hnil). exists b. split; [|done]. symmetry.
      by apply (slotValue_zero_iff id b a Hid (Hvalid b Hb)).
  - rewrite classify_static_iff. split.
    + intros [Hno Heq].
      assert (∀ b, b ∈ bs → slotValue id b a ≠ 0) as Hall'.
      { intros b Hb Hz. apply Hno, list_elem_of_fmap. by exists b. }
      destruct bs as [|b0 bs'].
      { exfalso. by vm_compute in Hall. }
      destruct (Hnz b0) as (v0 & Hl0 & Hs0 & Hr0); [left|apply Hall'; left|].
      exists v0. intros b Hb.
      destruct (Hnz b Hb (Hall' b Hb)) as (v & Hl & Hs & Hr).
      rewrite Hl. f_equal. apply toInt32_inj; [done|done|].
      rewrite <- Hs, <- Hs0. apply Heq; apply list_elem_of_fmap.
      * by exists b.
      * exists b0. split; [done|left].
    + intros [v Hv].
      assert (∀ x, x ∈ (fun b => slotValue id b a) <$> bs → x = JS.toInt32 v ∧ x ≠ 0) as Hx.
      { intros x (b & -> & Hb)%list_elem_of_fmap. rewrite slotValue_last, (Hv b Hb).
        split; [done|]. apply toInt32_nonzero, (validValue_range id); [done|].
        eapply keptAt_valid; [by apply Hvalid|]. apply last_Some_elem_of, Hv, Hb. }
      split.
      * intros H0. by destruct (Hx 0 H0).
      * intros x y Hx' Hy'. destruct (Hx x Hx') as [-> _]. by destruct (Hx y Hy') as [-> _].
Qed.

Lemma classification_by_batches_ps1 :
  let st := foldl call ps1Fresh (CallAddBatch <$> [ps1Batch0; ps1Batch1]) in
  (_classify (batchCount st) (JS.toInt32 0x80100020 :: replicate 9 0) = dynamicNode
   ↔ ∃ b, b ∈ [ps1Batch0; ps1Batch1] ∧ keptAt "ps1" b 0x80010008 = [])
  ∧ (_classify (batchCount st) (JS.toInt32 0x80100020 :: replicate 9 0) = staticStatic
     ↔ ∃ v, ∀ b, b ∈ [ps1Batch0; ps1Batch1] → last (keptAt "ps1" b 0x80010008) = Some v).
Proof.
  apply (classification_by_batches "ps1" ps1Fresh [ps1Batch0; ps1Batch1]);
    [reflexivity | reflexivity | vm_compute; lia | vm_compute; reflexivity].
Defined.

Lemma land_le_mask (x m : Z) : 0 ≤ m → 0 ≤ Z.land x m ≤ m.
Proof.
  intros Hm. split; [apply Z.land_nonneg; by right|].
  assert (Z.lor (Z.land x m) (Z.ldiff m x) = m) as Hlor.
  { apply Z.bits_inj'. intros k Hk.
    rewrite Z.lor_spec, Z.land_spec, Z.ldiff_spec.
    destruct (Z.testbit x k), (Z.testbit m k); done. }
  assert (Z.land (Z.land x m) (Z.ldiff m x) = 0) as Hland.
  { apply Z.bits_inj'. intros k Hk.
    rewrite !Z.land_spec, Z.ldiff_spec, Z.bits_0.
    destruct (Z.testbit x k), (Z.testbit m k); done. }
  pose proof (Z.add_lor_land (Z.land x m) (Z.ldiff m x)) as Hadd.
  rewrite Hlor, Hland in Hadd.
  assert (0 ≤ Z.ldiff m x) by (apply Z.ldiff_nonneg; by left). lia.
Qed.

Lemma length_maskSlots (mask : option Z) (n : nat) (s : list Z) :
  length (maskSlots mask n s) = length s.
Proof.
  destruct mask as [m|]; simpl; [|done].
  by rewrite length_app, length_map, length_take, length_drop by lia; lia.
Qed.

(** The masked prefix of a slot array. *)
Definition maskedSlot (m v : Z) : Z :=
  if v =? 0 then v else JS.toInt32 (JS.toUint32 (JS.and v m)).

Lemma take_maskSlots (m : Z) (n : nat) (s : list Z) :
  take n (maskSlots (Some m) n s) = maskedSlot m <$> take n s.
Proof.
  unfold maskSlots. change (map ?f (take n s)) with (maskedSlot m <$> take n s).
  rewrite take_app, length_fmap, length_take.
  replace (take (n - n `min` length s) (drop n s)) with (@nil Z); last first.
  { destruct (decide (n ≤ length s)%nat).
    - by replace (n - n `min` length s)%nat with 0%nat by lia.
    - by rewrite drop_ge, take_nil by lia. }
  by rewrite app_nil_r, take_ge by (rewrite length_fmap, length_take; lia).
Qed.

Lemma maskedSlot_range (m v : Z) :
  0 ≤ m < 2^31 → v = 0 ∨ 0 ≤ maskedSlot m v ≤ m.
Proof.
  intros Hm. unfold maskedSlot. destruct (Z.eqb_spec v 0) as [|_]; [by left|right].
  unfold JS.and, JS.toUint32. rewrite (toInt32_small m) by lia.
  pose proof (land_le_mask (JS.toInt32 v) m). 
  rewrite Z.mod_small, toInt32_small by lia. lia.
Qed.

(** The rows [collapse] pushes for static and for dynamic nodes. *)
Definition staticRow (n : nat) (row : list Z) : Prop :=
  length row = n ∧ (0 ∉ row) ∧ ¬ allEqual row.
Definition dynamicRow (n : nat) (row : list Z) : Prop :=
  length row = n ∧ 0 ∈ row.
Definition maskedRow (mask : option Z) (row : list Z) : Prop :=
  ∀ m, mask = Some m → Forall (fun x => 0 ≤ x ≤ m) row.

Lemma collapseEntry_rows (mask : option Z) (n : nat) (a : Z) (s : list Z)
    (o : CollapseOutput) :
  (n ≤ length s)%nat → (∀ m, mask = Some m → 0 ≤ m < 2^31) →
  Forall (staticRow n) (snVals o) → Forall (dynamicRow n) (dynVals o) →
  Forall (maskedRow mask) (snVals o ++ dynVals o) →
  Forall (staticRow n) (snVals (collapseEntry mask n a s o))
  ∧ Forall (dynamicRow n) (dynVals (collapseEntry mask n a s o))
  ∧ Forall (maskedRow mask)
      (snVals (collapseEntry mask n a s o) ++ dynVals (collapseEntry mask n a s o)).
Proof.
  intros Hlen Hmask Hsn Hdyn Hm. unfold collapseEntry.
  set (slots := maskSlots mask n s).
  assert (length (take n slots) = n) as Htake.
  { rewrite length_take. unfold slots. rewrite length_maskSlots. lia. }
  assert (maskedRow mask (take n slots)) as Hrow.
  { intros m ->. unfold slots. rewrite take_maskSlots. apply Forall_fmap, Forall_forall.
    intros x _. simpl. destruct (maskedSlot_range m x (Hmask m eq_refl)) as [->|]; [|done].
    specialize (Hmask m eq_refl). unfold maskedSlot. simpl. lia. }
  apply Forall_app in Hm as [Hm1 Hm2].
  destruct (_classify n slots) eqn:Hcls; cbn [snVals dynVals].
  - split_and!; [done|done|by apply Forall_app].
  - split_and!; [|done|].
    + apply Forall_app. split; [done|]. constructor; [|done].
      unfold _classify in Hcls. split; [done|split].
      * intros H0%classify_dynamic_iff. congruence.
      * intros Heq.
        assert (classifyLoop (take n slots) 0 true = staticStatic) as Hss.
        { apply classify_static_iff. split; [|done].
          intros H0%classify_dynamic_iff. congruence. }
        congruence.
    + rewrite <- app_assoc. apply Forall_app. split; [done|].
      apply Forall_app. split; [by constructor|done]. 
  - split_and!; [done| |].
    + apply Forall_app. split; [done|]. constructor; [|done].
      split; [done|]. by apply classify_dynamic_iff.
    + rewrite app_assoc. apply Forall_app. split; [by apply Forall_app|by constructor].
Qed.

(** X10: for every reachable state, each row [collapse] returns for a
    StaticNode has one entry per batch, no zero and at least two different
    values; each row it returns for a DynamicNode has one entry per batch and
    at least one zero; and for a system with a mask every entry of these rows
    lies between 0 and the mask. *)
Theorem collapse_rows (id : string) (st : State) :
  reachable id st →
  let o := (collapse st).1 in
  Forall (staticRow (batchCount st)) (snVals o)
  ∧ Forall (dynamicRow (batchCount st)) (dynVals o)
  ∧ Forall (maskedRow (getSystemMask id)) (snVals o ++ dynVals o).
Proof.
  intros [Hid [bs Hinv]]%reachable_inv o. subst o. unfold collapse.
  destruct (getCounts_state st) as (Hsys & Hn & Hmap).
  destruct (getCounts st) as [c st1] eqn:Hg. simpl in *.
  rewrite Hsys, Hn, Hmap, (pi_system id st bs Hinv), map_fold_foldr.
  assert (∀ a s, (a, s) ∈ map_to_list (nodeMap st) → (batchCount st ≤ length s)%nat) as Hl.
  { intros a s Has%elem_of_map_to_list.
    pose proof (pi_map id st bs Hinv a) as Hrep. rewrite Has in Hrep.
    destruct (allZero _); [done|]. injection Hrep as ->.
    rewrite length_slotsFor, (pi_count id st bs Hinv) by apply Hinv. apply Hinv. }
  assert (∀ m, getSystemMask id = Some m → 0 ≤ m < 2^31) as Hmask.
  { intros m Hm. by destruct (getSystemMask_faithful id m Hm). }
  match goal with |- context [foldr _ ?o0 _] => set (start := o0) end.
  assert (Forall (staticRow (batchCount st)) (snVals start)
          ∧ Forall (dynamicRow (batchCount st)) (dynVals start)
          ∧ Forall (maskedRow (getSystemMask id)) (snVals start ++ dynVals start))
    as Hstart by (by split_and!; constructor).
  clearbody start. revert Hl.
  induction (map_to_list (nodeMap st)) as [|[a s] l IH]; intros Hl; simpl; [done|].
  destruct IH as (H1 & H2 & H3).
  { intros a' s' Hin. apply (Hl a'). by apply list_elem_of_further. }
  apply collapseEntry_rows; try done. apply (Hl a), list_elem_of_here.
Qed.

Lemma collapse_rows_ps1 :
  let o := (collapse ps1State).1 in
  Forall (staticRow (batchCount ps1State)) (snVals o)
  ∧ Forall (dynamicRow (batchCount ps1State)) (dynVals o)
  ∧ Forall (maskedRow (getSystemMask "ps1")) (snVals o ++ dynVals o).
Proof.
  apply (collapse_rows "ps1" ps1State).
  exists ps1Fresh, (CallAddBatch <$> [ps1Batch0; ps1Batch1]).
  split; [reflexivity|split; reflexivity].
Defined.

End PreprocessorFacts.

(** ** Chain walker: the shape of the chains *)

Section WalkerShape.
Import ChainWalker.

Variables (pool : list Z) (offset : Z) (getVal : Z → option Z) (opts : Opts).

(** The ghost budget; a negative [maxGhostNodes] allows no ghost. *)
Definition ghostCap : Z := Z.max 0 (maxGhostNodes opts).

(** [y] is where the pointer at [x] leads, [k] missing nodes further on. *)
Definition link (x y : Z) : Prop :=
  ∃ v k, getVal x = Some v ∧ 0 ≤ k ≤ ghostCap ∧ y = v + offset + k * offset.

Definition links (ns : list Z) : Prop :=
  ∀ i x y, ns !! i = Some x → ns !! S i = Some y → link x y.

Lemma links_snoc (ns : list Z) (c : Z) :
  links ns → (∀ x, last ns = Some x → link x c) → links (ns ++ [c]).
Proof.
  intros Hl Hlast i x y Hx Hy.
  destruct (decide (S i < length ns)%nat) as [Hlt|Hge].
  - rewrite lookup_app_l in Hx, Hy by lia. by apply (Hl i).
  - assert (S i = length ns) as Hi.
    { apply lookup_lt_Some in Hy. rewrite length_app in Hy. simpl in Hy. lia. }
    rewrite lookup_app_l in Hx by lia.
    rewrite Hi, lookup_app_r, Nat.sub_diag in Hy by lia. injection Hy as <-.
    apply Hlast. rewrite last_lookup. by replace (Init.Nat.pred (length ns)) with i by lia.
Qed.

Lemma bridgeLoop_spec (remaining : nat) (g addr tgt cnt : Z) :
  bridgeLoop pool offset remaining g addr = Some (tgt, cnt) →
  ∃ j, 0 ≤ j < Z.of_nat remaining ∧ cnt = g + j + 1
       ∧ tgt = addr + (j + 1) * offset ∧ tgt ∈ pool
       ∧ ∀ i, 1 ≤ i ≤ j → addr + i * offset ∉ pool.
Proof.
  revert g addr. induction remaining as [|r IH]; intros g addr; simpl; [done|].
  unfold has. destruct (bool_decide (addr + offset ∈ pool)) eqn:Hp.
  - intros [= <- <-]. apply bool_decide_eq_true in Hp.
    exists 0. split_and!; [lia|lia|lia|f_equal; lia|by replace ((0 + 1) * offset) with offset by lia|lia].
  - intros H. apply bool_decide_eq_false in Hp.
    destruct (IH _ _ H) as (j & Hj & -> & -> & Hin & Hout).
    exists (j + 1). split_and!; [lia|lia|lia|lia|by replace (addr + (j + 1 + 1) * offset) with (addr + offset + (j + 1) * offset) by lia|].
    intros i Hi. destruct (decide (i = 1)) as [->|].
    + by replace (addr + 1 * offset) with (addr + offset) by lia.
    + replace (addr + i * offset) with (addr + offset + (i - 1) * offset) by lia.
      apply Hout. lia.
Qed.

(** What a walk from [a] maintains while it runs. *)
Record running (a : Z) (w : Walk) : Prop := {
  run_links : links (w_nodes w);
  run_next : ∀ x, last (w_nodes w) = Some x → link x (w_current w);
  run_first : w_nodes w = [] → w_current w = a;
  run_head : w_nodes w ≠ [] → head (w_nodes w) = Some a;
  run_count : Z.of_nat (length (w_ghosts w)) = w_totalGhosts w;
  run_cap : 0 ≤ w_totalGhosts w ≤ ghostCap;
  run_ghosts : ∀ g, g ∈ w_ghosts w → g ∉ pool;
  run_hit : w_hitTarget w = false
}.

(** What holds of a walk from [a] when its loop has ended. *)
Record ended (a : Z) (w : Walk) : Prop := {
  end_links : links (w_nodes w);
  end_head : w_nodes w ≠ [] → head (w_nodes w) = Some a;
  end_cap : Z.of_nat (length (w_ghosts w)) ≤ ghostCap;
  end_ghosts : ∀ g, g ∈ w_ghosts w → g ∉ pool;
  end_hit : w_hitTarget w = true →
            ∃ tp, targetPool opts = Some tp ∧ w_current w ∈ tp
                  ∧ (∀ x, last (w_nodes w) = Some x → link x (w_current w))
}.

Lemma running_ended (a : Z) (w : Walk) : running a w → ended a w.
Proof.
  intros [H1 H2 H3 H4 H5 H6 H7 H8]. split; try done.
  - lia.
  - by rewrite H8.
Qed.

Lemma chainStep_shape (a : Z) (w : Walk) :
  running a w →
  match chainStep pool offset getVal opts w with
  | Continue w' => running a w'
  | Break w' => ended a w'
  end.
Proof.
  intros Hw. pose proof Hw as [H1 H2 H3 H4 H5 H6 H7 H8]. unfold chainStep.
  destruct (bool_decide (w_current w ∈ w_visited w)); [by apply running_ended|].
  destruct (match targetPool opts with
            | Some tp => bool_decide (w_current w ∈ tp) | None => false end) eqn:Hhit.
  { revert Hhit. destruct (targetPool opts) as [tp|] eqn:Htp; [|done].
    intros Hhit. apply bool_decide_eq_true in Hhit.
    split; simpl; [done|done|lia|done|].
    intros _. by exists tp. }
  clear Hhit. unfold has.
  destruct (bool_decide (w_current w ∈ pool)) eqn:Hp; simpl; [|by apply running_ended].
  destruct (getVal (w_current w)) as [val|] eqn:Hval; [|by apply running_ended].
  assert (links (w_nodes w ++ [w_current w])) as Hlinks by by apply links_snoc.
  assert (w_nodes w ++ [w_current w] ≠ [] →
          head (w_nodes w ++ [w_current w]) = Some a) as Hhead.
  { intros _. destruct (w_nodes w) as [|x ns] eqn:Hns; simpl.
    - by rewrite H3.
    - by apply H4. }
  assert (ended a {| w_nodes := w_nodes w ++ [w_current w]; w_ghosts := w_ghosts w;
                     w_visited := w_visited w ∪ {[w_current w]};
                     w_current := w_current w; w_hitTarget := w_hitTarget w;
                     w_totalGhosts := w_totalGhosts w |}) as Hstay.
  { split; simpl; [done|done|lia|done|by rewrite H8]. }
  destruct (bool_decide (val + offset ∈ pool)) eqn:Hexp.
  { split; simpl; [done| |by intros [_ [=]]%app_eq_nil|done..].
    intros x. rewrite last_snoc. intros [= <-]. exists val, 0.
    split; [done|]. unfold ghostCap. lia. }
  apply bool_decide_eq_false in Hexp.
  destruct (maxGhostNodes opts =? 0); [done|].
  destruct (bridgeLoop _ _ _ _ _) as [[tgt cnt]|] eqn:Hbridge; [|done].
  destruct (Z.ltb_spec (maxGhostNodes opts) (w_totalGhosts w + cnt)) as [|Hfit];
    [done|].
  apply bridgeLoop_spec in Hbridge as (j & Hj & -> & -> & Hin & Hout).
  split; simpl; [done| |by intros [_ [=]]%app_eq_nil|done| | | |done].
  - intros x. rewrite last_snoc. intros [= <-]. exists val, (j + 1).
    split; [done|]. unfold ghostCap. lia.
  - rewrite length_app, length_map, length_seqZ. lia.
  - unfold ghostCap. lia.
  - intros g [Hg|Hg]%elem_of_app; [by apply H7|].
    apply list_elem_of_In, in_map_iff in Hg as (k & <- & Hk%list_elem_of_In).
    apply elem_of_seqZ in Hk. destruct (decide (k = 0)) as [->|].
    + by replace (val + offset + 0 * offset) with (val + offset) by lia.
    + apply Hout. lia.
Qed.

Lemma chainLoop_shape (a : Z) (fuel : nat) (w w' : Walk) :
  running a w → chainLoop pool offset getVal opts fuel w = Some w' → ended a w'.
Proof.
  revert w. induction fuel as [|fuel IH]; intros w Hw; simpl; [done|].
  pose proof (chainStep_shape a w Hw) as Hstep.
  destruct (chainStep pool offset getVal opts w) as [w1|w1].
  - by apply IH.
  - by intros [= <-].
Qed.

Lemma running_start (a : Z) : running a (startWalk a).
Proof.
  split; simpl; try done.
  all: try (unfold ghostCap; lia).
  all: try (intros g Hg; by apply elem_of_nil in Hg).
  all: try (intros i x y Hx; by rewrite lookup_nil in Hx).
Qed.

(** Some pool node points to [a] at this offset. *)
Definition pointedTo (a : Z) : Prop :=
  ∃ x v, x ∈ pool ∧ getVal x = Some v ∧ v + offset = a.

Lemma pointedToSet_spec (a : Z) :
  a ∈ pointedToSet pool offset getVal ↔ a ∈ pool ∧ pointedTo a.
Proof.
  unfold pointedToSet, pointedTo.
  assert (∀ (l : list Z) (acc : gset Z),
            a ∈ foldl (fun acc addr =>
                         match getVal addr with
                         | None => acc
                         | Some val =>
                             if has pool (val + offset) then acc ∪ {[val + offset]} else acc
                         end) acc l
            ↔ a ∈ acc ∨ (a ∈ pool ∧ ∃ x v, x ∈ l ∧ getVal x = Some v ∧ v + offset = a))
    as Hfold.
  { induction l as [|y l IH]; intros acc; simpl.
    - split; [by left|]. intros [|(_ & x & v & Hx & _)]; [done|].
      by apply elem_of_nil in Hx.
    - rewrite IH. clear IH. unfold has.
      destruct (getVal y) as [val|] eqn:Hy.
      + destruct (bool_decide (val + offset ∈ pool)) eqn:Hp.
        * apply bool_decide_eq_true in Hp. rewrite elem_of_union, elem_of_singleton.
          split.
          -- intros [[Ha| ->]|(Hin & x & v & Hx & Hv & Hv')].
             ++ by left.
             ++ right. split; [done|]. exists y, val. split; [left|done].
             ++ right. split; [done|]. exists x, v. split; [by right|done].
          -- intros [Ha|(Hin & x & v & [->|Hx]%elem_of_cons & Hv & Hv')].
             ++ by left; left.
             ++ left; right. rewrite Hy in Hv. injection Hv as <-. done.
             ++ right. split; [done|]. by exists x, v.
        * apply bool_decide_eq_false in Hp. split.
          -- intros [Ha|(Hin & x & v & Hx & Hv & Hv')]; [by left|].
             right. split; [done|]. exists x, v. split; [by right|done].
          -- intros [Ha|(Hin & x & v & [->|Hx]%elem_of_cons & Hv & Hv')]; [by left| |].
             ++ rewrite Hy in Hv. injection Hv as <-. by subst a.
             ++ right. split; [done|]. by exists x, v.
      + split.
        * intros [Ha|(Hin & x & v & Hx & Hv & Hv')]; [by left|].
          right. split; [done|]. exists x, v. split; [by right|done].
        * intros [Ha|(Hin & x & v & [->|Hx]%elem_of_cons & Hv & Hv')]; [by left| |].
          -- congruence.
          -- right. split; [done|]. by exists x, v. }
  rewrite Hfold, elem_of_empty. split; [intros [[]|H]|intros H; right]; done.
Qed.

(** What holds of every chain the walker returns. *)
Definition chainShape (c : Chain) : Prop :=
  isHead c = true
  ∧ minChainLength opts ≤ Z.of_nat (length (nodes c))
  ∧ Z.of_nat (length (ghosts c)) ≤ ghostCap
  ∧ (∀ g, g ∈ ghosts c → g ∉ pool)
  ∧ links (nodes c)
  ∧ (∀ a, head (nodes c) = Some a → a ∈ pool ∧ ¬ pointedTo a).

(** What holds of every entry point the walker returns. *)
Definition entryShape (e : WalkedEntry) : Prop :=
  Z.of_nat (length (we_ghosts e)) ≤ ghostCap
  ∧ (∀ g, g ∈ we_ghosts e → g ∉ pool)
  ∧ links (we_nodes e)
  ∧ (∃ a, head (we_nodes e) = Some a ∧ a ∈ pool ∧ ¬ pointedTo a)
  ∧ (∃ tp t x, targetPool opts = Some tp ∧ t ∈ tp
               ∧ last (we_nodes e) = Some x ∧ link x t).

Definition outerShape (o : Outer) : Prop :=
  Forall chainShape (o_chains o) ∧ Forall entryShape (o_entryPoints o).

Lemma walkFrom_shape (fuel : nat) (o o' : Outer) (a : Z) :
  a ∈ pool → outerShape o →
  walkFrom pool offset getVal opts (pointedToSet pool offset getVal) fuel o a = Some o' →
  outerShape o'.
Proof.
  intros Ha [Hc He]. unfold walkFrom.
  destruct (bool_decide (a ∈ o_processed o)); [by intros [= <-]|].
  destruct (bool_decide (a ∈ pointedToSet pool offset getVal)) eqn:Hpt;
    [by intros [= <-]|].
  apply bool_decide_eq_false in Hpt. rewrite pointedToSet_spec in Hpt.
  assert (¬ pointedTo a) as Hhead by tauto.
  destruct (getVal a) as [v0|]; [|by intros [= <-]].
  fold (startWalk a).
  destruct (chainLoop pool offset getVal opts fuel (startWalk a)) as [w|] eqn:Hloop;
    [|done].
  pose proof (chainLoop_shape a fuel _ w (running_start a) Hloop) as [E1 E2 E3 E4 E5].
  cbn [mbind option_bind].
  assert (∀ x, head (w_nodes w) = Some x → x ∈ pool ∧ ¬ pointedTo x) as Hfirst.
  { intros x Hx. assert (w_nodes w ≠ []) as Hne by (by intros Hn; rewrite Hn in Hx).
    rewrite (E2 Hne) in Hx. by injection Hx as <-. }
  destruct (w_hitTarget w) eqn:Hhit; cbn [andb].
  - destruct (Nat.leb_spec 1 (length (w_nodes w))) as [Hlen|Hlen].
    + intros [= <-]. split; simpl; [done|]. apply Forall_app. split; [done|].
      constructor; [|done]. simpl. split_and!; [done|done|done| |].
      * destruct (w_nodes w) as [|x ns] eqn:Hns; [simpl in Hlen; lia|].
        exists x. split; [done|]. by apply Hfirst.
      * destruct (E5 eq_refl) as (tp & Htp & Hin & Hlast).
        destruct (last (w_nodes w)) as [x|] eqn:Hl.
        -- exists tp, (w_current w), x. by split_and!; [..|apply Hlast].
        -- apply last_None in Hl. rewrite Hl in Hlen. simpl in Hlen. lia.
    + destruct (Z.leb_spec (minChainLength opts) (Z.of_nat (length (w_nodes w))));
        intros [= <-]; split; simpl; try done.
      apply Forall_app. split; [done|]. constructor; [|done]. by split_and!.
  - destruct (Z.leb_spec (minChainLength opts) (Z.of_nat (length (w_nodes w))));
      intros [= <-]; split; simpl; try done.
    apply Forall_app. split; [done|]. constructor; [|done]. by split_and!.
Qed.

Lemma walkHeads_shape (fuel : nat) (heads : list Z) (o o' : Outer) :
  (∀ a, a ∈ heads → a ∈ pool) → outerShape o →
  walkHeads pool offset getVal opts (pointedToSet pool offset getVal) fuel o heads = Some o' →
  outerShape o'.
Proof.
  revert o. induction heads as [|a heads IH]; intros o Hsub Ho; simpl.
  - by intros [= <-].
  - destruct (walkFrom _ _ _ _ _ _ o a) as [o1|] eqn:Hfrom; [|done]. simpl.
    apply IH.
    + intros x Hx. apply Hsub. by right.
    + eapply walkFrom_shape; [|done|done]. apply Hsub. by left.
Qed.

Lemma walkChainsAtOffset_shape :
  outerShape {| o_chains := chains (walkChainsAtOffset pool offset getVal opts);
                o_entryPoints := entryPoints (walkChainsAtOffset pool offset getVal opts);
                o_processed := ∅ |}.
Proof.
  unfold walkChainsAtOffset, walkChainsAtOffsetFuel.
  destruct (walkHeads _ _ _ _ _ _ _ pool) as [o|] eqn:Hwalk; simpl.
  - apply walkHeads_shape in Hwalk as [Hc He]; [done|done|]. by split.
  - by split.
Qed.

(** X11: every chain [walkChainsAtOffset] returns is flagged [isHead], has
    at least [minChainLength] nodes and at most [maxGhostNodes] ghosts (none
    when that option is 0 or negative); no ghost is a pool address; each
    node's pointer leads to the next node, directly or over at most
    [maxGhostNodes] missing nodes spaced by the offset; and the first node is
    a pool address that no pool node points to at this offset. *)
Theorem walkChainsAtOffset_chain_shape :
  Forall chainShape (chains (walkChainsAtOffset pool offset getVal opts)).
Proof. apply walkChainsAtOffset_shape. Qed.

(** X12: every entry point [walkChainsAtOffset] returns is a non-empty walk
    from an unpointed pool address whose nodes are linked like those of a
    chain and whose last node's pointer leads (directly or over ghosts) to an
    address of the target pool; without a target pool the walker returns no
    entry point. *)
Theorem walkChainsAtOffset_entry_shape :
  Forall entryShape (entryPoints (walkChainsAtOffset pool offset getVal opts))
  ∧ (targetPool opts = None →
     entryPoints (walkChainsAtOffset pool offset getVal opts) = []).
Proof.
  pose proof walkChainsAtOffset_shape as [_ He]. simpl in He. split; [done|].
  intros Hnone.
  destruct (entryPoints (walkChainsAtOffset pool offset getVal opts)) as [|e es]; [done|].
  apply Forall_cons in He as [(_ & _ & _ & _ & tp & t & x & Htp & _) _]. congruence.
Qed.

End WalkerShape.

(** ** Conflict resolution: what holds of every input *)

Section ResolveAlways.
Import ChainWalker.

Variable chains : list Chain.

(** The result so far copies input chains, each at most once, and
    [processed] is the set of the chains copied. *)
Record copies (r : Resolve) : Prop := {
  cp_nodup : NoDup (r_resolved r).*1;
  cp_proc : ∀ j, j ∈ r_processed r ↔ j ∈ (r_resolved r).*1;
  cp_copy : ∀ j c, (j, c) ∈ r_resolved r →
                   ∃ c0, chains !! j = Some c0 ∧ c = withHead c0 (isHead c)
}.

Lemma pushRanked_copies (group : list (nat * Chain)) (rank : nat) (r : Resolve) :
  (∀ idx c, (idx, c) ∈ group → chains !! idx = Some c) →
  copies r →
  copies (pushRanked rank group r)
  ∧ (∀ j, j ∈ r_processed (pushRanked rank group r) ↔ j ∈ r_processed r ∨ j ∈ group.*1)
  ∧ (∃ more, r_resolved (pushRanked rank group r) = r_resolved r ++ more).
Proof.
  revert rank r. induction group as [|[idx c] group IH]; intros rank r Hg Hr; simpl.
  - split_and!; [done| |by exists []; rewrite app_nil_r].
    intros j. split; [auto|]. intros [?|?%elem_of_nil]; done.
  - assert (∀ idx' c', (idx', c') ∈ group → chains !! idx' = Some c') as Hg'.
    { intros idx' c' H. apply Hg. by right. }
    destruct (bool_decide (idx ∈ r_processed r)) eqn:Hp.
    + apply bool_decide_eq_true in Hp.
      destruct (IH (S rank) r Hg' Hr) as (H1 & H2 & H3). split_and!; [done| |done].
      intros j. rewrite H2, elem_of_cons. split; [tauto|].
      intros [?|[->|?]]; tauto.
    + apply bool_decide_eq_false in Hp.
      destruct (IH (S rank)
                  {| r_resolved := r_resolved r ++ [(idx, withHead c (Nat.eqb rank 0))];
                     r_processed := r_processed r ∪ {[idx]} |} Hg')
        as (H1 & H2 & more & H3).
      { destruct Hr as [Hnd Hproc Hcopy]. split; simpl.
        - rewrite fmap_app. simpl. apply NoDup_app. split_and!; [done| |apply NoDup_singleton].
          intros j Hj Hj'. apply list_elem_of_singleton in Hj' as ->. by apply Hp, Hproc.
        - intros j. rewrite fmap_app, elem_of_union, elem_of_singleton, elem_of_app, Hproc.
          simpl. by rewrite list_elem_of_singleton.
        - intros j c' [H|H]%elem_of_app; [by apply Hcopy|].
          apply list_elem_of_singleton in H. injection H as -> ->.
          exists c. split; [apply Hg; left|done]. }
      split_and!; [done| |].
      * intros j. rewrite H2. simpl. rewrite elem_of_union, elem_of_singleton, elem_of_cons.
        tauto.
      * exists ((idx, withHead c (Nat.eqb rank 0)) :: more). rewrite H3. simpl.
        by rewrite <- app_assoc.
Qed.

(** The group built for chain [i]: [i] and its conflicts, each with its
    chain. *)
Definition groupFor (i : nat) (ci : Chain) : list (nat * Chain) :=
  omap (fun idx => (fun c => (idx, c)) <$> chains !! idx)
       (i :: conflictsOf chains i (nodes ci)).

Lemma groupFor_elem (i : nat) (ci : Chain) (idx : nat) (c : Chain) :
  (idx, c) ∈ groupFor i ci → chains !! idx = Some c ∧ (idx = i ∨ idx ∈ conflictsOf chains i (nodes ci)).
Proof.
  unfold groupFor. intros (k & Hk & Hin)%list_elem_of_omap.
  destruct (chains !! k) as [c'|] eqn:Hc; [|done]. simpl in Hin. injection Hin as <- <-.
  split; [done|]. apply elem_of_cons in Hk as [->|Hk]; auto.
Qed.

Lemma groupFor_self (i : nat) (ci : Chain) :
  chains !! i = Some ci → (i, ci) ∈ groupFor i ci.
Proof.
  intros Hi. unfold groupFor. apply list_elem_of_omap. exists i. split; [left|].
  by rewrite Hi.
Qed.

Lemma resolveStep_copies (r : Resolve) (i : nat) :
  copies r →
  copies (resolveStep chains r i)
  ∧ (∀ j, j ∈ r_processed r → j ∈ r_processed (resolveStep chains r i))
  ∧ ((i < length chains)%nat → i ∈ r_processed (resolveStep chains r i))
  ∧ (∃ more, r_resolved (resolveStep chains r i) = r_resolved r ++ more).
Proof.
  intros Hr. unfold resolveStep.
  destruct (bool_decide (i ∈ r_processed r)) eqn:Hp.
  { apply bool_decide_eq_true in Hp. split_and!; [done..|]. exists []. by rewrite app_nil_r. }
  destruct (chains !! i) as [ci|] eqn:Hi.
  - fold (groupFor i ci).
    destruct (pushRanked_copies (sortGroup (groupFor i ci)) 0 r) as (H1 & H2 & H3); [|done|].
    { intros idx c Hin. rewrite sortGroup_perm in Hin. by apply groupFor_elem in Hin as [? _]. }
    split_and!; [done| | |done].
    + intros j Hj. apply H2. by left.
    + intros _. apply H2. right. apply list_elem_of_fmap. exists (i, ci). split; [done|].
      rewrite sortGroup_perm. by apply groupFor_self.
  - split_and!; [done|done| |by exists []; rewrite app_nil_r].
    intros Hlt. apply lookup_ge_None in Hi. lia.
Qed.

Lemma resolveLoop_copies (l : list nat) (r : Resolve) :
  copies r →
  copies (foldl (resolveStep chains) r l)
  ∧ (∀ j, j ∈ r_processed r → j ∈ r_processed (foldl (resolveStep chains) r l))
  ∧ (∀ i, i ∈ l → (i < length chains)%nat →
          i ∈ r_processed (foldl (resolveStep chains) r l))
  ∧ (∃ more, r_resolved (foldl (resolveStep chains) r l) = r_resolved r ++ more).
Proof.
  revert r. induction l as [|i l IH]; intros r Hr; simpl.
  - split_and!; [done|done| |by exists []; rewrite app_nil_r].
    intros i Hi. by apply elem_of_nil in Hi.
  - destruct (resolveStep_copies r i Hr) as (H1 & H2 & H3 & more1 & H4).
    destruct (IH _ H1) as (I1 & I2 & I3 & more2 & I4).
    split_and!; [done|auto| |].
    + intros k [->|Hk]%elem_of_cons Hlt; [apply I2, H3, Hlt|by apply I3].
    + exists (more1 ++ more2). by rewrite I4, H4, app_assoc.
Qed.

Lemma copies_init : copies {| r_resolved := []; r_processed := ∅ |}.
Proof.
  split; simpl.
  - constructor.
  - intros j. rewrite elem_of_empty. split; [done|]. by intros ?%elem_of_nil.
  - intros j c H. by apply elem_of_nil in H.
Qed.

(** X13: whatever the input, [resolveChainConflicts] returns every input
    chain exactly once, with its nodes and ghosts unchanged and only the
    [isHead] flag decided; in particular the result has as many chains as the
    input, and an input of no or one chain is returned as it is. *)
Theorem resolveChainConflicts_keeps_every_chain :
  (resolveIndexed chains).*1 ≡ₚ seq 0 (length chains)
  ∧ (∀ j c, (j, c) ∈ resolveIndexed chains →
            ∃ c0, chains !! j = Some c0 ∧ c = withHead c0 (isHead c))
  ∧ length (resolveChainConflicts chains) = length chains
  ∧ ((length chains ≤ 1)%nat → resolveChainConflicts chains = chains).
Proof.
  assert ((resolveIndexed chains).*1 ≡ₚ seq 0 (length chains)
          ∧ (∀ j c, (j, c) ∈ resolveIndexed chains →
                    ∃ c0, chains !! j = Some c0 ∧ c = withHead c0 (isHead c))) as [Hperm Hcopy].
  { unfold resolveIndexed. destruct chains as [|c1 [|c2 rest]] eqn:Hch.
    - split; [done|]. intros j c H. by apply elem_of_nil in H.
    - split; [done|]. intros j c H. apply list_elem_of_singleton in H. injection H as -> ->.
      exists c1. split; [done|]. by destruct c1.
    - rewrite <- Hch.
      destruct (resolveLoop_copies (seq 0 (length chains))
                  {| r_resolved := []; r_processed := ∅ |} copies_init)
        as ([Hnd Hproc Hcp] & _ & Hall & _).
      split; [|done]. apply NoDup_Permutation; [done|apply NoDup_seq|].
      intros j. rewrite elem_of_seq. split.
      + intros (x & -> & Hx)%list_elem_of_fmap. destruct x as [j c].
        destruct (Hcp j c Hx) as (c0 & Hj%lookup_lt_Some & _). simpl. lia.
      + intros [_ Hj]. apply Hproc, Hall; [|lia]. apply elem_of_seq. lia. }
  split_and!; [done|done| |].
  - unfold resolveChainConflicts.
    rewrite length_fmap, <- (length_fmap fst), Hperm. apply length_seq.
  - unfold resolveChainConflicts, resolveIndexed.
    destruct chains as [|c1 [|c2 rest]]; simpl; [done|done|lia].
Qed.

End ResolveAlways.

Section ResolveSomeHead.
Import ChainWalker.

Variable chains : list Chain.

Lemma pushRanked_prefix (group : list (nat * Chain)) (rank : nat) (r : Resolve) :
  ∃ more, r_resolved (pushRanked rank group r) = r_resolved r ++ more.
Proof.
  revert rank r. induction group as [|[idx c] group IH]; intros rank r; simpl.
  - exists []. by rewrite app_nil_r.
  - destruct (bool_decide (idx ∈ r_processed r)); [apply IH|].
    destruct (IH (S rank)
                {| r_resolved := r_resolved r ++ [(idx, withHead c (Nat.eqb rank 0))];
                   r_processed := r_processed r ∪ {[idx]} |}) as [more ->].
    simpl. exists ((idx, withHead c (Nat.eqb rank 0)) :: more). by rewrite <- app_assoc.
Qed.

(** Every processed chain was processed as a member of the group of an
    earlier chain. *)
Definition origin (bound : nat) (r : Resolve) : Prop :=
  ∀ j, j ∈ r_processed r → ∃ k, (k < bound)%nat ∧ (k = j ∨ linked chains k j).

Lemma groupFor_linked (i : nat) (ci : Chain) (idx : nat) (c : Chain) :
  chains !! i = Some ci → (idx, c) ∈ groupFor chains i ci →
  idx = i ∨ linked chains i idx.
Proof.
  intros Hi [Hc [->|Hin]]%groupFor_elem; [by left|right].
  apply conflictsOf_spec in Hin as (_ & c' & node & Hc' & Hn & Hn').
  exists ci, c'. split_and!; [done..|]. by exists node.
Qed.

Lemma resolveStep_origin (r : Resolve) (i : nat) :
  copies chains r → origin i r → origin (S i) (resolveStep chains r i).
Proof.
  intros Hr Ho j. unfold resolveStep.
  destruct (bool_decide (i ∈ r_processed r)).
  { intros Hj. destruct (Ho j Hj) as (k & Hk & H). exists k. split; [lia|done]. }
  destruct (chains !! i) as [ci|] eqn:Hi.
  - fold (groupFor chains i ci).
    destruct (pushRanked_copies chains (sortGroup (groupFor chains i ci)) 0 r)
      as (_ & H2 & _); [|done|].
    { intros idx c Hin. rewrite sortGroup_perm in Hin. by apply groupFor_elem in Hin as [? _]. }
    rewrite H2. intros [Hj|Hj].
    + destruct (Ho j Hj) as (k & Hk & H). exists k. split; [lia|done].
    + apply list_elem_of_fmap in Hj as ([j' c] & -> & Hin). simpl.
      rewrite sortGroup_perm in Hin. exists i. split; [lia|].
      destruct (groupFor_linked i ci j' c Hi Hin) as [->|]; auto.
  - intros Hj. destruct (Ho j Hj) as (k & Hk & H). exists k. split; [lia|done].
Qed.

Lemma resolvePrefix_origin (i : nat) :
  copies chains
    (foldl (resolveStep chains) {| r_resolved := []; r_processed := ∅ |} (seq 0 i))
  ∧ origin i
      (foldl (resolveStep chains) {| r_resolved := []; r_processed := ∅ |} (seq 0 i)).
Proof.
  induction i as [|i [IH1 IH2]].
  - simpl. split; [apply copies_init|]. intros j Hj. by apply elem_of_empty in Hj.
  - rewrite seq_S, foldl_app. simpl. split.
    + by apply resolveStep_copies.
    + by apply resolveStep_origin.
Qed.

(** X14: when the input chains are flagged as heads (as the walker returns
    them), every chain has, in its connected group of chains that share
    nodes, at least one chain that [resolveChainConflicts] marks
    [isHead = true]: no group is left without a head. *)
Theorem resolveChainConflicts_some_head (i : nat) :
  Forall (fun c => isHead c = true) chains →
  (i < length chains)%nat →
  ∃ j, sameGroup chains i j ∧ isHeadIn (resolveIndexed chains) j.
Proof.
  intros Hheads. unfold resolveIndexed.
  destruct chains as [|c1 [|c2 rest]] eqn:Hch.
  { simpl. lia. }
  { simpl. intros Hi. assert (i = 0)%nat as -> by lia. exists 0%nat.
    split; [apply rtc_refl|]. exists c1. split; [left|].
    by apply Forall_cons in Hheads as [? _]. }
  rewrite <- Hch. clear Hheads. clear c1 c2 rest Hch.
  set (n := length chains).
  set (r0 := {| r_resolved := []; r_processed := ∅ |}).
  induction i as [i IH] using lt_wf_ind. intros Hi.
  assert (seq 0 n = seq 0 i ++ i :: seq (S i) (n - S i)) as Hsplit.
  { replace n with (i + S (n - S i))%nat at 1 by lia. by rewrite seq_app. }
  rewrite Hsplit, foldl_app. simpl.
  destruct (resolvePrefix_origin i) as [Hcopies Horigin]. fold r0 in Hcopies, Horigin.
  set (ri := foldl (resolveStep chains) r0 (seq 0 i)) in *.
  assert (∀ k, (k < i)%nat → sameGroup chains i k →
               ∃ j, sameGroup chains i j
                    ∧ isHeadIn (r_resolved (foldl (resolveStep chains) r0 (seq 0 n))) j)
    as Hearlier.
  { intros k Hk Hik. destruct (IH k Hk) as (j & Hkj & Hj); [lia|].
    exists j. split; [|done]. by eapply rtc_trans. }
  rewrite Hsplit, foldl_app in Hearlier. simpl in Hearlier.
  destruct (decide (i ∈ r_processed ri)) as [Hp|Hp].
  { destruct (Horigin i Hp) as (k & Hk & [->|Hlink]); [lia|].
    apply (Hearlier k Hk). apply rtc_once. by apply linked_sym. }
  destruct (chains !! i) as [ci|] eqn:Hci; [|apply lookup_ge_None in Hci; lia].
  pose proof (groupFor_self chains i ci Hci) as Hself.
  destruct (sortGroup (groupFor chains i ci)) as [|[h ch] rest] eqn:Hsort.
  { rewrite <- sortGroup_perm, Hsort in Hself. by apply elem_of_nil in Hself. }
  assert ((h, ch) ∈ groupFor chains i ci) as Hh.
  { rewrite <- sortGroup_perm, Hsort. left. }
  assert (sameGroup chains i h) as Hih.
  { destruct (groupFor_linked i ci h ch Hci Hh) as [->|Hl]; [apply rtc_refl|by apply rtc_once]. }
  destruct (decide (h ∈ r_processed ri)) as [Hhp|Hhp].
  { destruct (Horigin h Hhp) as (k & Hk & [->|Hlink]); [by apply (Hearlier h)|].
    apply (Hearlier k Hk). eapply rtc_trans; [exact Hih|].
    apply rtc_once. by apply linked_sym. }
  exists h. split; [done|]. exists (withHead ch true). split; [|done].
  destruct (resolveLoop_copies chains (seq (S i) (n - S i)) (resolveStep chains ri i))
    as (_ & _ & _ & more & ->); [by apply resolveStep_copies|].
  apply elem_of_app. left. unfold resolveStep.
  rewrite bool_decide_eq_false_2, Hci by done. fold (groupFor chains i ci).
  rewrite Hsort. simpl. rewrite bool_decide_eq_false_2 by done.
  destruct (pushRanked_prefix rest 1
              {| r_resolved := r_resolved ri ++ [(h, withHead ch true)];
                 r_processed := r_processed ri ∪ {[h]} |}) as [more' ->].
  simpl. apply elem_of_app. left. apply elem_of_app. right. left.
Qed.

End ResolveSomeHead.

Lemma resolveChainConflicts_some_head_meeting :
  ∃ j, sameGroup meetingChains 1%nat j
       ∧ isHeadIn (ChainWalker.resolveIndexed meetingChains) j.
Proof.
  apply (resolveChainConflicts_some_head meetingChains 1).
  - rewrite meetingChains_eq. by repeat constructor.
  - rewrite meetingChains_eq. simpl. lia.
Defined.

(** ** [_dominantStride] *)

Section DominantStride.
Import Scanner ListDetector.

Lemma mapGet_mapSet_keys {V} (m : list (Z * V)) (k : Z) (v : V) :
  ∀ x, x ∈ (mapSet m k v).*1 ↔ x ∈ m.*1 ∨ x = k.
Proof.
  induction m as [|[k' v'] m IH]; intros x; simpl.
  - rewrite list_elem_of_singleton, elem_of_nil. tauto.
  - destruct (Z.eqb_spec k' k) as [->|Hne]; simpl; rewrite !elem_of_cons.
    + tauto.
    + rewrite IH. tauto.
Qed.

(** Occurrences of a gap. *)
Definition gapCount (gs : list Z) (g : Z) : nat :=
  length (List.filter (fun x => x =? g) gs).

Lemma mapGet_mapSet {V} (m : list (Z * V)) (k x : Z) (v : V) :
  mapGet (mapSet m k v) x = if x =? k then Some v else mapGet m x.
Proof.
  unfold mapGet. induction m as [|[k' v'] m IH]; simpl.
  - rewrite (Z.eqb_sym k x). by destruct (x =? k).
  - destruct (Z.eqb_spec k' k) as [->|Hne]; simpl.
    + rewrite (Z.eqb_sym k x). by destruct (x =? k).
    + destruct (Z.eqb_spec k' x) as [->|Hne']; simpl.
      * by rewrite (proj2 (Z.eqb_neq x k)) by done.
      * apply IH.
Qed.

Lemma mapSet_NoDup {V} (m : list (Z * V)) (k : Z) (v : V) :
  NoDup m.*1 → NoDup (mapSet m k v).*1.
Proof.
  induction m as [|[k' v'] m IH]; simpl; intros Hnd.
  - apply NoDup_singleton.
  - apply NoDup_cons in Hnd as [Hk' Hnd].
    destruct (Z.eqb_spec k' k) as [->|Hne]; simpl; apply NoDup_cons.
    + done.
    + split; [|by apply IH]. rewrite mapGet_mapSet_keys. intros [?|?]; done.
Qed.

Lemma mapGet_elem {V} (m : list (Z * V)) (k : Z) (v : V) :
  NoDup m.*1 → (k, v) ∈ m → mapGet m k = Some v.
Proof.
  unfold mapGet. induction m as [|[k' v'] m IH]; simpl; intros Hnd Hin.
  - by apply elem_of_nil in Hin.
  - apply NoDup_cons in Hnd as [Hk' Hnd].
    apply elem_of_cons in Hin as [[= <- <-]|Hin].
    + by rewrite Z.eqb_refl.
    + destruct (Z.eqb_spec k' k) as [->|Hne]; [|by apply IH].
      exfalso. apply Hk', list_elem_of_fmap. by exists (k, v).
Qed.

Lemma gapFreq_counts (gs : list Z) (freq : list (Z * nat)) :
  NoDup freq.*1 →
  NoDup (foldl bumpFreq freq gs).*1
  ∧ ∀ x, default 0%nat (mapGet (foldl bumpFreq freq gs) x)
         = (default 0%nat (mapGet freq x) + gapCount gs x)%nat.
Proof.
  revert freq. induction gs as [|g gs IH]; intros freq Hnd; simpl.
  - split; [done|]. intros x. unfold gapCount. simpl. lia.
  - destruct (IH (bumpFreq freq g)) as [H1 H2]; [by apply mapSet_NoDup|].
    split; [done|]. intros x. rewrite H2. unfold bumpFreq, gapCount. simpl.
    rewrite mapGet_mapSet, (Z.eqb_sym x g).
    destruct (Z.eqb_spec g x) as [->|Hne]; simpl; lia.
Qed.

Lemma bestGap_max (freq : list (Z * nat)) (best : Z) (bestCount : nat) :
  let r := foldl (fun '(best, bestCount) '(d, n) =>
                    if (bestCount <? n)%nat then (d, n) else (best, bestCount))
                 (best, bestCount) freq in
  (bestCount ≤ r.2)%nat ∧ (∀ d n, (d, n) ∈ freq → n ≤ r.2)%nat
  ∧ (r ∈ freq ∨ r = (best, bestCount)).
Proof.
  revert best bestCount. induction freq as [|[d n] freq IH]; intros best bestCount; simpl.
  - split_and!; [done| |by right]. intros d n H. by apply elem_of_nil in H.
  - destruct (Nat.ltb_spec bestCount n) as [Hlt|Hge].
    + destruct (IH d n) as (H1 & H2 & H3). simpl in *. split_and!; [lia| |].
      * intros d' n' [[= -> ->]|H]%elem_of_cons; [done|by apply (H2 d')].
      * destruct H3 as [H3|H3]; [left; by right|left; rewrite H3; left].
    + destruct (IH best bestCount) as (H1 & H2 & H3). simpl in *. split_and!; [done| |].
      * intros d' n' [[= -> ->]|H]%elem_of_cons; [lia|by apply (H2 d')].
      * destruct H3 as [H3|H3]; [left; by right|by right].
Qed.

Lemma gapCount_pos (gs : list Z) (g : Z) : (1 ≤ gapCount gs g)%nat ↔ g ∈ gs.
Proof.
  unfold gapCount. induction gs as [|x gs IH]; simpl.
  - rewrite elem_of_nil. split; [lia|done].
  - rewrite elem_of_cons. destruct (Z.eqb_spec x g) as [->|Hne]; simpl.
    + split; [by left|lia].
    + rewrite IH. split; [by right|]. intros [->|]; done.
Qed.

(** X15: [_dominantStride] returns 4 for a chain of fewer than two nodes;
    for a longer chain it returns a gap between consecutive nodes that occurs
    at least as often as any other gap, so the common spacing when the nodes
    are evenly spaced. *)
Theorem _dominantStride_most_frequent (ns : list Z) :
  ((length ns < 2)%nat → _dominantStride ns = 4)
  ∧ ((2 ≤ length ns)%nat →
     _dominantStride ns ∈ gaps ns
     ∧ (∀ g, gapCount (gaps ns) g ≤ gapCount (gaps ns) (_dominantStride ns))%nat
     ∧ ∀ d, (∀ g, g ∈ gaps ns → g = d) → _dominantStride ns = d).
Proof.
  unfold _dominantStride. split.
  - intros Hlen. by rewrite (proj2 (Nat.ltb_lt _ _)) by done.
  - intros Hlen. rewrite (proj2 (Nat.ltb_ge _ _)) by done.
    assert (gaps ns ≠ []) as Hne.
    { destruct ns as [|a [|b ns]]; simpl in *; [lia|lia|done]. }
    destruct (gapFreq_counts (gaps ns) []) as [Hnd Hcount]; [constructor|].
    set (freq := foldl bumpFreq [] (gaps ns)) in *.
    pose proof (bestGap_max freq 4 0) as (_ & Hmax & Hin). simpl in Hmax, Hin.
    set (r := foldl _ (4, 0%nat) freq) in *.
    assert (∀ d n, (d, n) ∈ freq → n = gapCount (gaps ns) d) as Hentry.
    { intros d n Hdn. pose proof (Hcount d) as H.
      by rewrite (mapGet_elem freq d n Hnd Hdn) in H. }
    assert (∀ g, g ∈ gaps ns → ∃ n, (g, n) ∈ freq ∧ (1 ≤ n)%nat) as Hkey.
    { intros g Hg%gapCount_pos. pose proof (Hcount g) as H. simpl in H.
      unfold mapGet in H. destruct (List.find _ freq) as [[k n]|] eqn:Hfind; simpl in H; [|lia].
      apply find_some in Hfind as [Hin' Hk%Z.eqb_eq]. simpl in Hk. subst k.
      exists n. split; [by apply list_elem_of_In|lia]. }
    assert (r ∈ freq) as Hr.
    { destruct Hin as [|Hr]; [done|]. exfalso.
      destruct (gaps ns) as [|g gs] eqn:Hg; [done|].
      destruct (Hkey g) as (n & Hgn & Hn); [left|].
      specialize (Hmax g n Hgn). rewrite Hr in Hmax. simpl in Hmax. lia. }
    destruct r as [d0 n0] eqn:Hreq. simpl.
    assert (d0 ∈ gaps ns) as Hd0.
    { apply gapCount_pos. rewrite <- (Hentry d0 n0 Hr).
      destruct (gaps ns) as [|g gs] eqn:Hg; [done|].
      destruct (Hkey g) as (n & Hgn & Hn); [left|].
      specialize (Hmax g n Hgn). simpl in Hmax. lia. }
    split_and!; [done| |by intros d Hall; apply Hall].
    intros g. destruct (decide (g ∈ gaps ns)) as [Hg|Hg].
    + destruct (Hkey g Hg) as (n & Hgn & _).
      rewrite <- (Hentry g n Hgn), <- (Hentry d0 n0 Hr). apply (Hmax g n Hgn).
    + rewrite <- gapCount_pos in Hg. lia.
Qed.

End DominantStride.

(** ** Forward scanner: indexes and bitmaps *)

Section ScannerIndexes.
Import Scanner ForwardScanner.

(** The index [buildBatchIndexes] builds for one address array. *)
Definition indexOf (addrs : list Z) : gmap Z nat :=
  foldl (fun idx ia => <[ia.2 := ia.1]> idx) (∅ : gmap Z nat) (imap pair addrs).

Lemma indexOf_snoc (addrs : list Z) (x : Z) :
  indexOf (addrs ++ [x]) = <[x := length addrs]> (indexOf addrs).
Proof.
  unfold indexOf. rewrite imap_app, foldl_app. simpl. by rewrite Nat.add_0_r.
Qed.

Lemma indexOf_lookup (addrs : list Z) (addr : Z) :
  match indexOf addrs !! addr with
  | Some i => addrs !! i = Some addr ∧ ∀ j, (i < j)%nat → addrs !! j ≠ Some addr
  | None => addr ∉ addrs
  end.
Proof.
  induction addrs as [|x addrs IH] using rev_ind.
  - unfold indexOf. simpl. rewrite lookup_empty. apply not_elem_of_nil.
  - rewrite indexOf_snoc. destruct (decide (addr = x)) as [->|Hne].
    + rewrite lookup_insert_eq. split.
      * by rewrite lookup_app_r, Nat.sub_diag by lia.
      * intros j Hj. rewrite lookup_ge_None_2; [done|]. rewrite length_app. simpl. lia.
    + rewrite lookup_insert_ne by done.
      destruct (indexOf addrs !! addr) as [i|].
      * destruct IH as [Hi Hlast]. split.
        -- by rewrite lookup_app_l by (by eapply lookup_lt_Some).
        -- intros j Hj. destruct (decide (j < length addrs)%nat).
           ++ rewrite lookup_app_l by done. by apply Hlast.
           ++ destruct (decide (j = length addrs)) as [->|].
              ** rewrite lookup_app_r, Nat.sub_diag by lia. simpl. congruence.
              ** rewrite lookup_ge_None_2; [done|]. rewrite length_app. simpl. lia.
      * rewrite elem_of_app, list_elem_of_singleton. tauto.
Qed.

(** X16: the index [buildBatchIndexes] builds for a batch maps an address to
    the position of the last row with that address, and has no entry for an
    address without a row; there is no index for a batch number out of
    range.  [batchValue] therefore reads the value of the last row. *)
Theorem buildBatchIndexes_lookup (sc : State) (b : nat) (addr : Z) :
  match batches sc !! b with
  | Some batch =>
      match dataIdxOf (buildBatchIndexes sc) b addr with
      | Some i => b_addresses batch !! i = Some addr
                  ∧ (∀ j, (i < j)%nat → b_addresses batch !! j ≠ Some addr)
                  ∧ batchValue sc (buildBatchIndexes sc) b addr
                    = Some (default 0 (b_values batch !! i))
      | None => (addr ∉ b_addresses batch)
                ∧ batchValue sc (buildBatchIndexes sc) b addr = None
      end
  | None => dataIdxOf (buildBatchIndexes sc) b addr = None
  end.
Proof.
  unfold batchValue, dataIdxOf, buildBatchIndexes, valueAt.
  change (map ?f (batches sc)) with (f <$> batches sc).
  rewrite list_lookup_fmap.
  destruct (batches sc !! b) as [batch|] eqn:Hb; simpl; [|done].
  fold (indexOf (b_addresses batch)).
  pose proof (indexOf_lookup (b_addresses batch) addr) as H.
  destruct (indexOf (b_addresses batch) !! addr) as [i|]; simpl.
  - destruct H. by split_and!.
  - done.
Qed.

(** *** Bits of the words *)

Lemma shl1_bits (bit k : Z) :
  0 ≤ bit < 32 → 0 ≤ k < 32 → Z.testbit (JS.shl1 bit) k = (bit =? k).
Proof.
  intros Hbit Hk. unfold JS.shl1.
  rewrite testbit_toInt32, Z.shiftl_1_l by lia. apply Z.pow2_bits_eqb. lia.
Qed.

Lemma or_bits (a b k : Z) :
  0 ≤ k < 32 → Z.testbit (JS.or a b) k = Z.testbit a k || Z.testbit b k.
Proof. intros Hk. unfold JS.or. by rewrite Z.lor_spec, !testbit_toInt32. Qed.

Lemma and_bits (a b k : Z) :
  0 ≤ k < 32 → Z.testbit (JS.and a b) k = Z.testbit a k && Z.testbit b k.
Proof. intros Hk. unfold JS.and. by rewrite Z.land_spec, !testbit_toInt32. Qed.

Lemma bitmapWord_prefix (batchIndexes : list (gmap Z nat)) (b : nat)
    (value base : Z) (n : nat) (k : Z) :
  (n ≤ 32)%nat → 0 ≤ k < 32 →
  Z.testbit (foldl (fun word bit =>
                      if indexHas batchIndexes b (value + base + bit * 4)
                      then JS.or word (JS.shl1 bit) else word)
                   0 (seqZ 0 (Z.of_nat n))) k
  = (k <? Z.of_nat n) && indexHas batchIndexes b (value + base + k * 4).
Proof.
  intros Hn Hk. induction n as [|n IH].
  - change (Z.of_nat 0) with 0. destruct (Z.ltb_spec k 0); [lia|]. apply Z.bits_0.
  - rewrite seqZ_S, foldl_app. cbn [foldl]. rewrite Z.add_0_l.
    destruct (indexHas batchIndexes b (value + base + Z.of_nat n * 4)) eqn:Hhas.
    + rewrite or_bits, IH, shl1_bits by lia.
      destruct (Z.eqb_spec (Z.of_nat n) k) as [<-|Hne].
      * rewrite Hhas, orb_true_r. symmetry. rewrite andb_true_r. apply Z.ltb_lt. lia.
      * rewrite orb_false_r. f_equal.
        destruct (Z.ltb_spec k (Z.of_nat n)), (Z.ltb_spec k (Z.of_nat (S n))); lia || done.
    + rewrite IH by lia.
      destruct (Z.eqb_spec (Z.of_nat n) k) as [<-|Hne].
      * rewrite Hhas, !andb_false_r. done.
      * f_equal.
        destruct (Z.ltb_spec k (Z.of_nat n)), (Z.ltb_spec k (Z.of_nat (S n))); lia || done.
Qed.

Lemma bitmapWord_testbit (batchIndexes : list (gmap Z nat)) (b : nat)
    (value base k : Z) :
  0 ≤ k < 32 →
  Z.testbit (bitmapWord batchIndexes b value base) k
  = indexHas batchIndexes b (value + base + k * 4).
Proof.
  intros Hk. unfold bitmapWord. change 32 with (Z.of_nat 32) at 1.
  rewrite (bitmapWord_prefix batchIndexes b value base 32 k) by lia.
  by replace (k <? Z.of_nat 32) with true by (symmetry; apply Z.ltb_lt; lia).
Qed.

(** X17: bit [k] (0 to 31) of a bitmap word is set exactly when the address
    [value + base + 4k] has a row in the batch; this is the word both the
    precomputation and the on-the-fly path build. *)
Theorem bitmapWord_bits (batchIndexes : list (gmap Z nat)) (b : nat)
    (value base k : Z) :
  0 ≤ k < 32 →
  Z.testbit (bitmapWord batchIndexes b value base) k
  = indexHas batchIndexes b (value + base + k * 4).
Proof. apply bitmapWord_testbit. Qed.

Lemma bitmapWord_bits_example :
  Z.testbit (bitmapWord [ {[ 0x500000 := 0%nat; 0x50000C := 1%nat ]} ] 0 0x500000 0) 3
  = indexHas [ {[ 0x500000 := 0%nat; 0x50000C := 1%nat ]} ] 0 (0x500000 + 0 + 3 * 4).
Proof. apply bitmapWord_bits. lia. Defined.

Lemma foldl_and_bits (words : list Z) (init k : Z) :
  0 ≤ k < 32 →
  Z.testbit (foldl JS.and init words) k
  = Z.testbit init k && forallb (fun w => Z.testbit w k) words.
Proof.
  intros Hk. revert init. induction words as [|w words IH]; intros init; simpl.
  - by rewrite andb_true_r.
  - by rewrite IH, and_bits, andb_assoc.
Qed.

Lemma forallb_map_ext {A B} (f : B → bool) (g : A → B) (h : A → bool) (l : list A) :
  (∀ x, f (g x) = h x) → forallb f (map g l) = forallb h l.
Proof. intros Hfg. induction l as [|x l IH]; simpl; [done|]. by rewrite Hfg, IH. Qed.

(** Batch [b], standing at [addr], can follow [offset]: it has a row for
    [addr], and the address its value leads to at that offset has a row. *)
Definition canFollow (sc : State) (batchIndexes : list (gmap Z nat))
    (b : nat) (addr offset : Z) : bool :=
  match batchValue sc batchIndexes b addr with
  | Some value => indexHas batchIndexes b (value + offset)
  | None => false
  end.

(** X18: bit [k] of the bitmap the on-the-fly path combines is set exactly
    when every batch can follow the offset [chunkStart + 4k] from its own
    current address. *)
Theorem combinedOnTheFly_bits (sc : State) (batchIndexes : list (gmap Z nat))
    (batchCount : nat) (addrs : list Z) (chunkStart k : Z) :
  0 ≤ k < 32 →
  Z.testbit (combinedOnTheFly sc batchIndexes batchCount addrs chunkStart) k
  = forallb (fun b => canFollow sc batchIndexes b (default 0 (addrs !! b))
                        (chunkStart + k * 4))
            (seq 0 batchCount).
Proof.
  intros Hk. unfold combinedOnTheFly, batchBitmapsOnTheFly.
  rewrite foldl_and_bits by done.
  replace (Z.testbit 4294967295 k) with true; last first.
  { change 4294967295 with (Z.ones 32). symmetry. apply Z.ones_spec_low. lia. }
  simpl. apply forallb_map_ext. intros b.
  unfold canFollow, batchValue.
  destruct (dataIdxOf batchIndexes b (default 0 (addrs !! b))) as [i|]; simpl.
  - rewrite bitmapWord_testbit by done. f_equal. lia.
  - apply Z.bits_0.
Qed.

Lemma combinedOnTheFly_bits_example :
  Z.testbit (combinedOnTheFly forkListScanner (buildBatchIndexes forkListScanner) 2
               [0x300000; 0x400000] 0) 0
  = forallb (fun b => canFollow forkListScanner (buildBatchIndexes forkListScanner) b
                        (default 0 ([0x300000; 0x400000] !! b)) (0 + 0 * 4))
            (seq 0 2).
Proof. apply combinedOnTheFly_bits. lia. Defined.

(** X19: when every batch stands at the same address, that address has
    precomputed words and the chunk (a multiple of 0x80) is covered by them,
    the bitmap of the fast path is the bitmap of the on-the-fly path. *)
Theorem fast_path_sound_on_common_node (sc : State) (firstAddr chunkStart : Z) :
  let batchIndexes := buildBatchIndexes sc in
  let bitmapCtx := buildTraversalBitmaps sc batchIndexes in
  let B := length (batches sc) in
  0 ≤ chunkStart → chunkStart mod 128 = 0 →
  combinedBitmapOf sc batchIndexes bitmapCtx B (replicate B firstAddr) firstAddr chunkStart
  = combinedOnTheFly sc batchIndexes B (replicate B firstAddr) chunkStart.
Proof.
  intros batchIndexes bitmapCtx B Hpos Hmod. unfold combinedBitmapOf.
  destruct (precompFor bitmapCtx firstAddr chunkStart) as [precomp|] eqn:Hpre; [|done].
  by apply fast_path_agrees_on_common_node.
Qed.

Lemma fast_path_sound_on_common_node_fork :
  let sc := forkListScanner in
  let batchIndexes := buildBatchIndexes sc in
  let bitmapCtx := buildTraversalBitmaps sc batchIndexes in
  combinedBitmapOf sc batchIndexes bitmapCtx 2 (replicate 2 0x500000) 0x500000 0x80
  = combinedOnTheFly sc batchIndexes 2 (replicate 2 0x500000) 0x80.
Proof.
  apply (fast_path_sound_on_common_node forkListScanner 0x500000 0x80); [lia|reflexivity].
Defined.

End ScannerIndexes.

(** ** Forward scanner: the chosen offset and the findings of a scan *)

Section OffsetChoice.
Import Scanner ForwardScanner.

Lemma find_first {A} (f : A → bool) (l : list A) (x : A) :
  List.find f l = Some x →
  ∃ i : nat, l !! i = Some x ∧ f x = true
             ∧ ∀ (j : nat) y, l !! j = Some y → (j < i)%nat → f y = false.
Proof.
  induction l as [|a l IH]; simpl; [done|].
  destruct (f a) eqn:Hfa.
  - intros [= <-]. exists 0%nat. split_and!; [done..|]. intros j y _ Hj. lia.
  - intros (i & Hi & Hx & Hfirst)%IH. exists (S i). split_and!; [done..|].
    intros [|j] y Hy Hj; simpl in Hy.
    + by injection Hy as <-.
    + apply (Hfirst j); [done|lia].
Qed.

Lemma int32_sign (x : Z) : -2^31 ≤ x < 2^31 → Z.testbit x 31 = (x <? 0).
Proof.
  intros Hx. rewrite Z.testbit_eqb by lia.
  destruct (Z.ltb_spec x 0).
  - replace (x / 2^31) with (-1); [done|].
    apply Z.div_unique with (x + 2^31); lia.
  - rewrite Z.div_small by lia. done.
Qed.

(** [(combinedBitmap & (1 << bit)) !== 0] tests bit [bit], the sign bit
    included. *)
Lemma and_shl1_test (c bit : Z) :
  0 ≤ bit < 32 → negb (JS.and c (JS.shl1 bit) =? 0) = Z.testbit c bit.
Proof.
  intros Hbit. unfold JS.and, JS.shl1. rewrite toInt32_idem.
  rewrite <- (testbit_toInt32 c bit) by done.
  pose proof (toInt32_range c) as Hc. set (x := JS.toInt32 c) in *.
  destruct (decide (bit = 31)) as [->|Hne].
  - change (JS.toInt32 (Z.shiftl 1 31)) with (-2^31).
    rewrite int32_sign by done.
    destruct (Z.ltb_spec x 0) as [Hneg|Hpos].
    + assert (Z.land x (-2^31) < 0) by (apply Z.land_neg; lia).
      destruct (Z.eqb_spec (Z.land x (-2^31)) 0); [lia|done].
    + replace (Z.land x (-2^31)) with 0; [done|].
      symmetry. apply Z.bits_inj'. intros n Hn.
      rewrite Z.land_spec, Z.bits_0.
      destruct (decide (n < 31)) as [Hlt|Hge].
      * replace (Z.testbit (-2^31) n) with false; [by rewrite andb_false_r|].
        symmetry. rewrite Z.testbit_eqb by done.
        replace (-2^31) with (- (2^(31 - n)) * 2^n).
        -- rewrite Z.div_mul by lia.
           replace (- 2^(31 - n)) with ((- 2^(31 - n - 1)) * 2).
           ++ by rewrite Z.mod_mul.
           ++ replace (31 - n) with (Z.succ (31 - n - 1)) at 2 by lia.
              rewrite Z.pow_succ_r by lia. lia.
        -- rewrite Z.mul_opp_l, <- Z.pow_add_r by lia. by replace (31 - n + n) with 31 by lia.
      * replace (Z.testbit x n) with false; [done|].
        symmetry. apply Z.bits_above_log2; [done|].
        destruct (decide (x = 0)) as [->|]; [simpl; lia|].
        apply Z.log2_lt_pow2; [lia|].
        assert (2^31 ≤ 2^n) by (apply Z.pow_le_mono_r; lia). lia.
  - rewrite Z.shiftl_1_l.
    assert (2^bit < 2^31) by (apply Z.pow_lt_mono_r; lia).
    assert (0 < 2^bit) by (apply Z.pow_pos_nonneg; lia).
    rewrite (toInt32_small (2^bit)) by lia.
    destruct (Z.testbit x bit) eqn:Hb.
    + destruct (Z.eqb_spec (Z.land x (2^bit)) 0) as [Hz|]; [|done].
      apply land_pow2_zero in Hz; [congruence|lia].
    + apply land_pow2_zero in Hb; [|lia]. by rewrite Hb.
Qed.

(** X20: the offset chosen for a chunk is the offset of the lowest set bit
    of the combined bitmap (bit [k] stands for [chunkStart + 4k]), provided
    it does not exceed the chunk's end; no offset is chosen exactly when
    every set bit stands for an offset beyond the chunk's end. *)
Theorem chooseOffset_lowest_bit (combined : Z) (chunk : Chunk) :
  match chooseOffset combined chunk with
  | Some chosenOffset =>
      ∃ bit, 0 ≤ bit < 32
             ∧ chosenOffset = chunkStart chunk + bit * 4
             ∧ chosenOffset ≤ chunkEnd chunk
             ∧ Z.testbit combined bit = true
             ∧ ∀ k, 0 ≤ k < bit → Z.testbit combined k = false
  | None =>
      ∀ k, 0 ≤ k < 32 → Z.testbit combined k = true →
           chunkEnd chunk < chunkStart chunk + k * 4
  end.
Proof.
  unfold chooseOffset.
  destruct (List.find (A:=Z) _ _) as [bit|] eqn:Hfind;
    cbn [fmap option_fmap option_map].
  - apply find_first in Hfind as (i & Hi & Hcond & Hfirst).
    apply lookup_seqZ in Hi as [-> Hi].
    apply andb_true_iff in Hcond as [Hset Hle]. apply Z.leb_le in Hle.
    rewrite and_shl1_test in Hset by lia.
    exists (0 + Z.of_nat i). split_and!; [lia|lia|done|done|done|].
    intros k Hk.
    specialize (Hfirst (Z.to_nat k) k).
    rewrite and_shl1_test in Hfirst by lia.
    destruct (Z.testbit combined k); [|done].
    assert (true && (chunkStart chunk + k * 4 <=? chunkEnd chunk) = false) as Habs.
    { apply Hfirst; [|lia].
      replace k with (0 + Z.of_nat (Z.to_nat k)) at 2 by lia. apply lookup_seqZ_lt. lia. }
    simpl in Habs. apply Z.leb_gt in Habs. lia.
  - intros k Hk Hset.
    pose proof (find_none _ _ Hfind k) as Hnone. cbv beta in Hnone.
    rewrite and_shl1_test, Hset in Hnone by done. cbn [andb] in Hnone.
    apply Z.leb_gt, Hnone, list_elem_of_In, elem_of_seqZ. lia.
Qed.

End OffsetChoice.

Section ScanBounds.
Import Scanner ForwardScanner.

Variables (sc : State) (base : Base) (batchIndexes : list (gmap Z nat))
          (lookups : Lookups) (bitmapCtx : BitmapCtx).

(** Offset [o] is one of the (at most 32) offsets of the chunk. *)
Definition inChunk (chunk : Chunk) (o : Z) : Prop :=
  ∃ bit, 0 ≤ bit < 32 ∧ o = chunkStart chunk + bit * 4 ∧ o ≤ chunkEnd chunk.

Lemma chooseOffset_inChunk (combined : Z) (chunk : Chunk) (o : Z) :
  chooseOffset combined chunk = Some o → inChunk chunk o.
Proof.
  unfold chooseOffset.
  destruct (List.find (A:=Z) _ _) as [bit|] eqn:Hfind; [|done].
  cbn [fmap option_fmap option_map]. intros [= <-].
  apply find_some in Hfind as [Hin Hcond].
  apply andb_true_iff in Hcond as [_ Hle]. apply Z.leb_le in Hle.
  apply list_elem_of_In, elem_of_seqZ in Hin. exists bit. split_and!; [lia|lia|done|done].
Qed.

(** What a scan of one chunk may return: the depth of a finding is a depth
    the loop reaches, its path has one offset per step taken, and every
    offset is an offset of the chunk. *)
Definition pathIn (chunk : Chunk) (steps : Z) (p : list Z) : Prop :=
  Z.of_nat (length p) = steps ∧ Forall (inChunk chunk) p.

Definition structureHitIn (chunk : Chunk) (h : StructureHit) : Prop :=
  1 ≤ sh_depth h ≤ maxDepth sc ∧ pathIn chunk (sh_depth h - 1) (sh_path h).

Definition entryPointHitIn (chunk : Chunk) (h : EntryPointHit) : Prop :=
  match h with
  | KnownEntryPoint ep d p claimed =>
      1 ≤ d ≤ maxDepth sc ∧ pathIn chunk (d - 1) p ∧ claimed = ep_claimed ep
  | VotedEntryPoint root nodeCount addrs buildOffset p claimed =>
      root = address base ∧ 1 ≤ nodeCount ≤ maxDepth sc
      ∧ pathIn chunk nodeCount p ∧ length addrs = 1%nat ∧ claimed = false
  end.

Definition targetPathIn (chunk : Chunk) (tp : TargetPath) : Prop :=
  basePointer tp = address base
  ∧ ∃ d, 1 ≤ d ≤ maxDepth sc ∧ pathIn chunk (d - 1) (tp_path tp).

Definition chunkFindings (chunk : Chunk) (r : DepthResult) : Prop :=
  (length (hitStructures r) + length (hitEntryPoints r) + length (targetPaths r) ≤ 1)%nat
  ∧ Forall (structureHitIn chunk) (hitStructures r)
  ∧ Forall (entryPointHitIn chunk) (hitEntryPoints r)
  ∧ Forall (targetPathIn chunk) (targetPaths r).

Lemma pathIn_snoc (chunk : Chunk) (steps steps' : Z) (p : list Z) (o : Z) :
  pathIn chunk steps p → inChunk chunk o → steps' = steps + 1 →
  pathIn chunk steps' (p ++ [o]).
Proof.
  intros [Hlen Hall] Ho ->. split.
  - rewrite length_app. simpl. lia.
  - apply Forall_app. by repeat constructor.
Qed.

Lemma dfsLoop_findings (chunk : Chunk) (remaining : nat) (state : DfsState)
    (r : DepthResult) :
  1 ≤ depth state →
  depth state + Z.of_nat remaining ≤ maxDepth sc + 1 →
  pathIn chunk (depth state - 1) (path state) →
  dfsLoop sc base batchIndexes chunk lookups bitmapCtx remaining state = Some r →
  chunkFindings chunk r.
Proof.
  revert state. induction remaining as [|n IH]; intros state Hd Hrem Hpath; simpl.
  { intros [= <-]. split_and!; simpl; [lia|constructor..]. }
  destruct (dfsStep _ _ _ _ _ _ state) as [s|] eqn:Hstep; [|done].
  apply dfsStep_shape in Hstep.
  destruct Hstep as [firstAddr rest Haddr Hall| | | |combined off firstAddr winning Hoff
                    |combined off Hoff].
  - intros [= <-]. split_and!; simpl; [lia|constructor|constructor|].
    repeat constructor. simpl. exists (depth state). split; [lia|done].
  - intros [= <-]. split_and!; simpl; [lia| |constructor..].
    repeat constructor; simpl; [done|lia| |]; apply Hpath.
  - intros [= <-]. split_and!; simpl; [lia|constructor| |constructor].
    repeat constructor; simpl; [done|lia| |]; apply Hpath.
  - intros [= <-]. split_and!; simpl; [lia|constructor..].
  - intros [= <-]. apply chooseOffset_inChunk in Hoff.
    split_and!; simpl; [lia|constructor| |constructor].
    constructor; [|constructor]. simpl. split_and!; [done|done|lia| |done|done].
    eapply pathIn_snoc; [done|done|lia].
  - apply IH; simpl; [lia|lia|].
    eapply pathIn_snoc; [done| |lia]. by eapply chooseOffset_inChunk.
Qed.

Lemma scanBasePointerDepth_findings (chunk : Chunk) (r : DepthResult) :
  scanBasePointerDepth sc base batchIndexes chunk lookups bitmapCtx = Some r →
  chunkFindings chunk r.
Proof.
  unfold scanBasePointerDepth. destruct (negb _); [done|].
  destruct (Z.to_nat (maxDepth sc)) as [|n] eqn:Hn.
  { simpl. intros [= <-]. split_and!; simpl; [lia|constructor..]. }
  rewrite <- Hn. apply dfsLoop_findings; simpl; [lia|lia|]. split; [done|constructor].
Qed.

(** X21: the scan of one chunk returns at most one finding: a structure
    hit, an entry-point hit or a target path.  Its depth lies between 1 and
    [maxDepth], its path has one offset per step taken before the finding
    (one more for an entry point found by the vote), every offset on the path
    is one of the offsets [chunkStart + 4k], [0 <= k < 32], not beyond the
    chunk's end, and with [maxDepth] below 1 there is no finding at all. *)
Theorem scanBasePointerDepth_at_most_one_finding (chunk : Chunk) (r : DepthResult) :
  scanBasePointerDepth sc base batchIndexes chunk lookups bitmapCtx = Some r →
  chunkFindings chunk r ∧ (maxDepth sc < 1 → r = noFindings).
Proof.
  intros Hscan. split; [by apply scanBasePointerDepth_findings|].
  intros Hmax. revert Hscan. unfold scanBasePointerDepth. destruct (negb _); [done|].
  replace (Z.to_nat (maxDepth sc)) with 0%nat by lia. simpl. by intros [= <-].
Qed.

(** *** The chunks of one base pointer *)

(** An offset the breadth limit allows. *)
Definition withinBreadth (o : Z) : Prop := 0 ≤ o ≤ maskedBreadth sc ∧ o mod 4 = 0.

(** The chunk scanned from [start]. *)
Definition chunkAt (start : Z) : Chunk :=
  {| chunkStart := start; chunkEnd := Z.min (start + 0x7C) (maskedBreadth sc) |}.

Lemma inChunk_withinBreadth (j o : Z) :
  0 ≤ j → inChunk (chunkAt (j * 0x80)) o → withinBreadth o.
Proof.
  intros Hj (bit & Hbit & -> & Hle). simpl in *. split; [lia|].
  replace (j * 128 + bit * 4) with ((j * 32 + bit) * 4) by lia. apply Z.mod_mul. lia.
Qed.

(** What the chunk loop has collected after some chunks. *)
Record collected (n : nat) (all : DepthResult) : Prop := {
  col_count : (length (hitStructures all) + length (hitEntryPoints all)
               + length (targetPaths all) ≤ n)%nat;
  col_structures :
    Forall (fun h => ∃ j, 0 ≤ j ∧ structureHitIn (chunkAt (j * 0x80)) h) (hitStructures all);
  col_entryPoints :
    Forall (fun h => ∃ j, 0 ≤ j ∧ entryPointHitIn (chunkAt (j * 0x80)) h) (hitEntryPoints all);
  col_targetPaths :
    Forall (fun tp => ∃ j, 0 ≤ j ∧ targetPathIn (chunkAt (j * 0x80)) tp) (targetPaths all)
}.

Lemma collected_append (n : nat) (all res : DepthResult) (j : Z) :
  0 ≤ j → collected n all → chunkFindings (chunkAt (j * 0x80)) res →
  collected (S n) (appendResult all res).
Proof.
  intros Hj [Hc Hs He Ht] (Hc' & Hs' & He' & Ht').
  split; simpl; rewrite ?length_app.
  - lia.
  - apply Forall_app. split; [done|]. eapply Forall_impl; [exact Hs'|]. intros h Hh. by exists j.
  - apply Forall_app. split; [done|]. eapply Forall_impl; [exact He'|]. intros h Hh. by exists j.
  - apply Forall_app. split; [done|]. eapply Forall_impl; [exact Ht'|]. intros h Hh. by exists j.
Qed.

Lemma collected_mono (n m : nat) (all : DepthResult) :
  (n ≤ m)%nat → collected n all → collected m all.
Proof. intros Hnm [Hc Hs He Ht]. split; [lia|done..]. Qed.

Lemma chunkLoop_collected (fuel : nat) (j : Z) (n : nat) (all r : DepthResult) :
  0 ≤ j → collected n all →
  chunkLoop sc base batchIndexes lookups bitmapCtx (maskedBreadth sc) fuel (j * 0x80) all
  = Some r →
  collected (n + fuel) r.
Proof.
  revert j n all. induction fuel as [|fuel IH]; intros j n all Hj Hall; simpl.
  { intros [= <-]. eapply collected_mono; [|done]. lia. }
  destruct (j * 128 <=? maskedBreadth sc);
    [|intros [= <-]; eapply collected_mono; [|done]; lia].
  destruct (scanBasePointerDepth _ _ _ _ _ _) as [res|] eqn:Hres; [|done].
  apply scanBasePointerDepth_findings in Hres.
  pose proof (collected_append n all res j Hj Hall Hres) as Hall'.
  destruct (maskedBreadth sc <=? _).
  - intros [= <-]. eapply collected_mono; [|done]. lia.
  - replace (j * 128 + 128) with ((j + 1) * 128) by lia.
    intros Hloop. apply (IH _ (S n)) in Hloop; [|lia|done].
    eapply collected_mono; [|done]. lia.
Qed.

(** The masked breadth is a multiple of 4 between 0 and 0xFFFFFC. *)
Lemma maskedBreadth_range :
  0 ≤ maskedBreadth sc ≤ 0xFFFFFC ∧ maskedBreadth sc mod 4 = 0.
Proof.
  unfold maskedBreadth, JS.and. rewrite (toInt32_small 0xFFFFFC) by lia.
  split; [by apply land_le_mask|].
  change 4 with (2^2). rewrite <- Z.land_ones by lia.
  rewrite <- Z.land_assoc. apply Z.land_0_r.
Qed.

(** The single chunk of a breadth below 0x80 cannot report a target path
    next to a hit. *)
Lemma chunkLoop_single_chunk (fuel : nat) (r : DepthResult) :
  maskedBreadth sc ≤ 0x7C →
  chunkLoop sc base batchIndexes lookups bitmapCtx (maskedBreadth sc) fuel 0 noFindings
  = Some r →
  (length (hitStructures r) + length (hitEntryPoints r) + length (targetPaths r) ≤ 1)%nat.
Proof.
  intros Hmb. destruct fuel as [|fuel]; simpl; [intros [= <-]; simpl; lia|].
  destruct (0 <=? maskedBreadth sc); [|intros [= <-]; simpl; lia].
  destruct (scanBasePointerDepth _ _ _ _ _ _) as [res|] eqn:Hres; [|done].
  apply scanBasePointerDepth_findings in Hres as [Hc _].
  replace (maskedBreadth sc <=? Z.min (0 + 124) (maskedBreadth sc)) with true
    by (symmetry; apply Z.leb_le; lia).
  intros [= <-]. simpl. lia.
Qed.

(** X22: what the scan of one base pointer returns.  There are at most
    [maxBreadth / 0x80 + 1] findings, one per chunk.  Every structure hit and
    entry-point hit has a depth between 1 and [maxDepth] and a path of
    offsets that are multiples of 4 between 0 and the masked [maxBreadth];
    every returned entry-point hit is marked claimed; every target path
    starts at this base pointer and stays within the same bounds. *)
Theorem scanSingleBasePointer_bounds (r : SingleResult) :
  scanSingleBasePointer sc base batchIndexes lookups bitmapCtx = Some r →
  (length (sr_structures r) + length (sr_entryPoints r) + length (sr_targetPaths r)
   ≤ Z.to_nat (maskedBreadth sc / 0x80 + 1))%nat
  ∧ Forall (fun h => 1 ≤ sh_depth h ≤ maxDepth sc
                     ∧ Z.of_nat (length (sh_path h)) = sh_depth h - 1
                     ∧ Forall withinBreadth (sh_path h)) (sr_structures r)
  ∧ Forall (fun h => Z.of_nat (length (hitPath h)) ≤ maxDepth sc
                     ∧ Forall withinBreadth (hitPath h)
                     ∧ claim h = h) (sr_entryPoints r)
  ∧ Forall (fun tp => basePointer tp = address base
                      ∧ Z.of_nat (length (tp_path tp)) < maxDepth sc
                      ∧ Forall withinBreadth (tp_path tp)) (sr_targetPaths r).
Proof.
  unfold scanSingleBasePointer.
  destruct (chunkLoop _ _ _ _ _ _ _ _ _) as [all|] eqn:Hall; [|done].
  apply (chunkLoop_collected _ 0 0 noFindings) in Hall;
    [|lia|by split; simpl; [lia|constructor..]].
  destruct Hall as [Hc Hs He Ht]. simpl in Hc.
  assert (Forall (fun h => 1 ≤ sh_depth h ≤ maxDepth sc
                     ∧ Z.of_nat (length (sh_path h)) = sh_depth h - 1
                     ∧ Forall withinBreadth (sh_path h)) (hitStructures all)) as Hs'.
  { eapply Forall_impl; [exact Hs|]. intros h (j & Hj & Hd & Hlen & Hp).
    split_and!; [lia|lia|done|]. eapply Forall_impl; [exact Hp|].
    intros o. by apply inChunk_withinBreadth. }
  assert (Forall (fun h => Z.of_nat (length (hitPath h)) ≤ maxDepth sc
                     ∧ Forall withinBreadth (hitPath h)
                     ∧ claim h = h) (claim <$> hitEntryPoints all)) as He'.
  { apply Forall_fmap. eapply Forall_impl; [exact He|].
    intros [ep d p cl|root n a o p cl] (j & Hj & Hh); simpl in *.
    - destruct Hh as (Hd & [Hlen Hp] & _). split_and!; [lia| |done].
      eapply Forall_impl; [exact Hp|]. intros ?. by apply inChunk_withinBreadth.
    - destruct Hh as (_ & Hd & [Hlen Hp] & _). split_and!; [lia| |done].
      eapply Forall_impl; [exact Hp|]. intros ?. by apply inChunk_withinBreadth. }
  assert (Forall (fun tp => basePointer tp = address base
                      ∧ Z.of_nat (length (tp_path tp)) < maxDepth sc
                      ∧ Forall withinBreadth (tp_path tp)) (targetPaths all)) as Ht'.
  { eapply Forall_impl; [exact Ht|]. intros tp (j & Hj & Hb & d & Hd & Hlen & Hp).
    split_and!; [done|lia|]. eapply Forall_impl; [exact Hp|].
    intros ?. by apply inChunk_withinBreadth. }
  destruct (hitStructures all) as [|sh shs] eqn:Hhs,
           (hitEntryPoints all) as [|eh ehs] eqn:Hhe; intros [= <-];
    cbn [sr_targetPaths sr_structures sr_entryPoints].
  - split_and!; [simpl; lia|constructor..].
  - split_and!; [|done..].
    pose proof (length_fmap claim ehs) as Hlen. unfold fmap in Hlen.
    cbn [length] in *. lia.
  - split_and!; [|done..]. cbn [length] in *. lia.
  - split_and!; [|done..].
    pose proof (length_fmap claim ehs) as Hlen. unfold fmap in Hlen.
    cbn [length] in *. lia.
Qed.

(** X23: a target path is returned for a base pointer only together with a
    structure hit or an entry-point hit, which then comes from another chunk
    of that base pointer: with a masked [maxBreadth] below 0x80 (a single
    chunk) no target path is ever returned, and the early-out signal is
    never raised. *)
Theorem scanSingleBasePointer_targetPaths_need_hit (r : SingleResult) :
  scanSingleBasePointer sc base batchIndexes lookups bitmapCtx = Some r →
  (sr_targetPaths r ≠ [] ∨ stopAllProcessing r = true →
   0x80 ≤ maskedBreadth sc ∧ (sr_structures r ≠ [] ∨ sr_entryPoints r ≠ []))
  ∧ (stopAllProcessing r = true → earlyOutTarget sc = true ∧ sr_targetPaths r ≠ []).
Proof.
  unfold scanSingleBasePointer.
  destruct (chunkLoop _ _ _ _ _ _ _ _ _) as [all|] eqn:Hall; [|done].
  assert (maskedBreadth sc ≤ 0x7C →
          (length (hitStructures all) + length (hitEntryPoints all)
           + length (targetPaths all) ≤ 1)%nat) as Hone.
  { intros Hmb. by eapply chunkLoop_single_chunk. }
  assert (¬ 0x80 ≤ maskedBreadth sc → maskedBreadth sc ≤ 0x7C) as Hsmall.
  { intros Hn. destruct maskedBreadth_range as [_ Hmod].
    pose proof (Z.div_mod (maskedBreadth sc) 4 ltac:(lia)). lia. }
  destruct (hitStructures all) as [|sh shs] eqn:Hhs,
           (hitEntryPoints all) as [|eh ehs] eqn:Hhe; intros [= <-];
    cbn [sr_targetPaths sr_structures sr_entryPoints stopAllProcessing].
  - split; [intros [|]; done|done].
  - split.
    + intros Hor. split; [|by right].
      destruct (decide (0x80 ≤ maskedBreadth sc)) as [|Hn]; [done|].
      specialize (Hone (Hsmall Hn)). simpl in Hone.
      destruct (targetPaths all); [|simpl in Hone; lia].
      destruct Hor as [|Hstop]; [done|]. by rewrite andb_false_r in Hstop.
    + intros [He Hlen]%andb_true_iff. split; [done|]. by destruct (targetPaths all).
  - split.
    + intros Hor. split; [|by left].
      destruct (decide (0x80 ≤ maskedBreadth sc)) as [|Hn]; [done|].
      specialize (Hone (Hsmall Hn)). simpl in Hone.
      destruct (targetPaths all); [|simpl in Hone; lia].
      destruct Hor as [|Hstop]; [done|]. by rewrite andb_false_r in Hstop.
    + intros [He Hlen]%andb_true_iff. split; [done|]. by destruct (targetPaths all).
  - split.
    + intros Hor. split; [|by left].
      destruct (decide (0x80 ≤ maskedBreadth sc)) as [|Hn]; [done|].
      specialize (Hone (Hsmall Hn)). simpl in Hone. lia.
    + intros [He Hlen]%andb_true_iff. split; [done|]. by destruct (targetPaths all).
Qed.

(** *** The chunk loop ends *)

Lemma chunkLoop_fuel (fuel extra : nat) (j : Z) (all : DepthResult) :
  0 ≤ j → maskedBreadth sc / 0x80 + 1 ≤ j + Z.of_nat fuel →
  chunkLoop sc base batchIndexes lookups bitmapCtx (maskedBreadth sc)
    (fuel + extra) (j * 0x80) all
  = chunkLoop sc base batchIndexes lookups bitmapCtx (maskedBreadth sc)
      fuel (j * 0x80) all.
Proof.
  revert j all. induction fuel as [|fuel IH]; intros j all Hj Hfuel.
  - assert (maskedBreadth sc < j * 128) as Hgt.
    { pose proof (Z.div_mod (maskedBreadth sc) 128 ltac:(lia)).
      pose proof (Z.mod_pos_bound (maskedBreadth sc) 128 ltac:(lia)). lia. }
    destruct extra as [|extra]; simpl; [done|].
    by replace (j * 128 <=? maskedBreadth sc) with false by (symmetry; apply Z.leb_gt; lia).
  - simpl. destruct (j * 128 <=? maskedBreadth sc); [|done].
    destruct (scanBasePointerDepth _ _ _ _ _ _) as [res|]; [|done].
    destruct (maskedBreadth sc <=? _); [done|].
    replace (j * 128 + 128) with ((j + 1) * 128) by lia. apply IH; lia.
Qed.

(** X24: the chunk loop of [scanSingleBasePointer] ends after at most
    [maxBreadth / 0x80 + 1] chunk scans (with the masked [maxBreadth]):
    allowing it more iterations does not change what it returns. *)
Theorem chunkLoop_chunk_count (fuel : nat) (all : DepthResult) :
  (Z.to_nat (maskedBreadth sc / 0x80 + 1) ≤ fuel)%nat →
  chunkLoop sc base batchIndexes lookups bitmapCtx (maskedBreadth sc) fuel 0 all
  = chunkLoop sc base batchIndexes lookups bitmapCtx (maskedBreadth sc)
      (Z.to_nat (maskedBreadth sc / 0x80 + 1)) 0 all.
Proof.
  intros Hfuel.
  replace fuel with (Z.to_nat (maskedBreadth sc / 0x80 + 1)
                     + (fuel - Z.to_nat (maskedBreadth sc / 0x80 + 1)))%nat by lia.
  apply (chunkLoop_fuel _ _ 0); lia.
Qed.

End ScanBounds.

Section ScanBoundExamples.
Import Scanner ForwardScanner.

(** Two identical batches: the base pointer at 0x200000 points to 0x300000,
    whose value 0x500000 is the node of a known list; 0x80 bytes further,
    at 0x500080, lies an injected target. *)
Definition twoChunkBatch : Batch :=
  {| b_addresses := [0x200000; 0x300000; 0x500000; 0x500080];
     b_values    := [0x300000; 0x500000; 0; 0] |}.

Definition twoChunkList : Structure :=
  {| s_id := 0; s_type := static_list; s_root := Some 0x500000; s_nodeCount := 1;
     s_stride := 4; s_addresses := [0x500000]; s_ghosts := Some [];
     s_buildOffset := 0; s_batchIdx := None |}.

Definition twoChunkScanner : State :=
  {| minChainLength := 15; maxGhostNodes := 10; maxBreadth := 0xFFC; maxDepth := 12;
     earlyOutTarget := true; skipStickyPointers := true;
     batches := [twoChunkBatch; twoChunkBatch];
     staticStaticNodes := []; staticNodes := [(0x200000, [0x300000; 0x300000])];
     targetNodes := [∅; ∅];
     basePointers := [(0x200000, [0x300000; 0x300000])];
     injectedTargets := {[ 0x500080 ]};
     structures := [twoChunkList]; entryPoints := []; generator := false |}.

Definition twoChunkBase : Base := {| address := 0x200000; values := [0x300000; 0x300000] |}.

Definition twoChunkBitmaps : BitmapCtx :=
  buildTraversalBitmaps twoChunkScanner (buildBatchIndexes twoChunkScanner).

Definition secondChunk : Chunk := {| chunkStart := 0x80; chunkEnd := 0xFC |}.

Definition secondChunkResult : DepthResult :=
  {| hitStructures := []; hitEntryPoints := [];
     targetPaths := [ {| basePointer := 0x200000; tp_path := [0x80];
                         targetAddress := 0x500080 |} ] |}.

Definition twoChunkResult : SingleResult :=
  {| sr_structures := [ {| sh_struct := twoChunkList; sh_depth := 2; sh_path := [0] |} ];
     sr_entryPoints := [];
     sr_targetPaths := [ {| basePointer := 0x200000; tp_path := [0x80];
                            targetAddress := 0x500080 |} ];
     stopAllProcessing := true |}.

Lemma secondChunk_scan :
  scanBasePointerDepth twoChunkScanner twoChunkBase (buildBatchIndexes twoChunkScanner)
    secondChunk (lookupsOf twoChunkScanner) twoChunkBitmaps
  = Some secondChunkResult.
Proof. vm_compute. reflexivity. Defined.

Lemma twoChunk_scan :
  scanSingleBasePointer twoChunkScanner twoChunkBase (buildBatchIndexes twoChunkScanner)
    (lookupsOf twoChunkScanner) twoChunkBitmaps
  = Some twoChunkResult.
Proof. vm_compute. reflexivity. Defined.

Lemma scanBasePointerDepth_at_most_one_finding_secondChunk :
  chunkFindings twoChunkScanner twoChunkBase secondChunk secondChunkResult
  ∧ (maxDepth twoChunkScanner < 1 → secondChunkResult = noFindings).
Proof.
  apply (scanBasePointerDepth_at_most_one_finding twoChunkScanner twoChunkBase
           (buildBatchIndexes twoChunkScanner) (lookupsOf twoChunkScanner)
           twoChunkBitmaps secondChunk secondChunkResult secondChunk_scan).
Defined.

Lemma scanSingleBasePointer_bounds_twoChunk :
  let sc := twoChunkScanner in
  let r := twoChunkResult in
  (length (sr_structures r) + length (sr_entryPoints r) + length (sr_targetPaths r)
   ≤ Z.to_nat (maskedBreadth sc / 0x80 + 1))%nat
  ∧ Forall (fun h => 1 ≤ sh_depth h ≤ maxDepth sc
                     ∧ Z.of_nat (length (sh_path h)) = sh_depth h - 1
                     ∧ Forall (withinBreadth sc) (sh_path h)) (sr_structures r)
  ∧ Forall (fun h => Z.of_nat (length (hitPath h)) ≤ maxDepth sc
                     ∧ Forall (withinBreadth sc) (hitPath h)
                     ∧ claim h = h) (sr_entryPoints r)
  ∧ Forall (fun tp => basePointer tp = address twoChunkBase
                      ∧ Z.of_nat (length (tp_path tp)) < maxDepth sc
                      ∧ Forall (withinBreadth sc) (tp_path tp)) (sr_targetPaths r).
Proof.
  apply (scanSingleBasePointer_bounds twoChunkScanner twoChunkBase
           (buildBatchIndexes twoChunkScanner) (lookupsOf twoChunkScanner)
           twoChunkBitmaps twoChunkResult twoChunk_scan).
Defined.

Lemma scanSingleBasePointer_targetPaths_need_hit_twoChunk :
  let sc := twoChunkScanner in
  let r := twoChunkResult in
  (sr_targetPaths r ≠ [] ∨ stopAllProcessing r = true →
   0x80 ≤ maskedBreadth sc ∧ (sr_structures r ≠ [] ∨ sr_entryPoints r ≠ []))
  ∧ (stopAllProcessing r = true → earlyOutTarget sc = true ∧ sr_targetPaths r ≠ []).
Proof.
  apply (scanSingleBasePointer_targetPaths_need_hit twoChunkScanner twoChunkBase
           (buildBatchIndexes twoChunkScanner) (lookupsOf twoChunkScanner)
           twoChunkBitmaps twoChunkResult twoChunk_scan).
Defined.

Lemma chunkLoop_chunk_count_twoChunk :
  let sc := twoChunkScanner in
  chunkLoop sc twoChunkBase (buildBatchIndexes sc) (lookupsOf sc) twoChunkBitmaps
    (maskedBreadth sc) 40 0 noFindings
  = chunkLoop sc twoChunkBase (buildBatchIndexes sc) (lookupsOf sc) twoChunkBitmaps
      (maskedBreadth sc) (Z.to_nat (maskedBreadth sc / 0x80 + 1)) 0 noFindings.
Proof.
  apply (chunkLoop_chunk_count twoChunkScanner twoChunkBase
           (buildBatchIndexes twoChunkScanner) (lookupsOf twoChunkScanner)
           twoChunkBitmaps 40 noFindings).
  vm_compute. lia.
Defined.

End ScanBoundExamples.

(** ** [buildBasePointerSet] *)

Section BasePointerSet.
Import Scanner ForwardScanner.

Variables (sc : State) (batchIndexes : list (gmap Z nat)).

(** The values [buildBasePointerSet] stores for a static node: the value of
    every batch at that address. *)
Definition valuesAcrossBatches (addr : Z) (values : list Z) : Prop :=
  length values = length (batches sc)
  ∧ ∀ b, (b < length (batches sc))%nat →
         batchValue sc batchIndexes b addr = values !! b.

(** The node is one [buildBasePointerSet] promotes. *)
Definition promotable (addr : Z) : Prop :=
  addr ∈ (staticNodes sc).*1
  ∧ (∀ pool, pool ∈ targetNodes sc → addr ∉ pool)
  ∧ ∀ b, (b < length (batches sc))%nat → is_Some (batchValue sc batchIndexes b addr).

Definition promote (addr : Z) : option (list Z) :=
  if existsb (fun pool : gset Z => bool_decide (addr ∈ pool)) (targetNodes sc)
  then None
  else mapM (fun b => batchValue sc batchIndexes b addr) (seq 0 (length (batches sc))).

Lemma promote_Some (addr : Z) (values : list Z) :
  promote addr = Some values ↔
  (∀ pool, pool ∈ targetNodes sc → addr ∉ pool) ∧ valuesAcrossBatches addr values.
Proof.
  unfold promote, valuesAcrossBatches.
  destruct (existsb _ _) eqn:Hex.
  - split; [done|]. intros [Hno _]. exfalso.
    apply existsb_exists in Hex as (pool & Hin & Hp).
    apply bool_decide_eq_true in Hp. apply list_elem_of_In in Hin. by apply (Hno pool).
  - rewrite mapM_Some. split.
    + intros HF. split_and!.
      * intros pool Hin Hp.
        assert (existsb (fun pool : gset Z => bool_decide (addr ∈ pool)) (targetNodes sc)
                = true) as Habs; [|congruence].
        apply existsb_exists. exists pool. split; [by apply list_elem_of_In|].
        by apply bool_decide_eq_true.
      * apply Forall2_length in HF. by rewrite length_seq in HF.
      * intros b Hb.
        destruct (Forall2_lookup_l _ _ _ b b HF) as (y & Hy & Hv);
          [by apply lookup_seq_lt|]. by rewrite Hy.
    + intros (_ & Hlen & Hvals). apply Forall2_same_length_lookup_2.
      * by rewrite length_seq.
      * intros i b y [-> Hi]%lookup_seq Hy. simpl. by rewrite Hvals, Hy.
Qed.

Lemma promote_is_Some (addr : Z) :
  is_Some (promote addr) ↔
  (∀ pool, pool ∈ targetNodes sc → addr ∉ pool)
  ∧ ∀ b, (b < length (batches sc))%nat → is_Some (batchValue sc batchIndexes b addr).
Proof.
  split.
  - intros [values (Hno & Hlen & Hvals)%promote_Some]. split; [done|].
    intros b Hb. rewrite Hvals by done. apply lookup_lt_is_Some. lia.
  - intros [Hno Hall]. unfold promote.
    destruct (existsb _ _) eqn:Hex.
    + exfalso. apply existsb_exists in Hex as (pool & Hin & Hp).
      apply bool_decide_eq_true in Hp. apply list_elem_of_In in Hin. by apply (Hno pool).
    + apply mapM_is_Some, Forall_forall. intros b Hb%elem_of_seq. apply Hall. lia.
Qed.

Lemma promoteAll_lookup (addrs : list Z) (bps : list (Z * list Z)) (addr : Z) :
  mapGet (foldl (fun bps addr =>
                   if existsb (fun pool : gset Z => bool_decide (addr ∈ pool))
                              (targetNodes sc)
                   then bps
                   else
                     match mapM (fun b => batchValue sc batchIndexes b addr)
                                (seq 0 (length (batches sc))) with
                     | Some values => mapSet bps addr values
                     | None => bps
                     end) bps addrs) addr
  = match (if bool_decide (addr ∈ addrs) then promote addr else None) with
    | Some values => Some values
    | None => mapGet bps addr
    end.
Proof.
  revert bps. induction addrs as [|a addrs IH]; intros bps; [done|].
  cbn [foldl]. rewrite IH. clear IH.
  fold (promote a).
  assert ((if existsb (fun pool : gset Z => bool_decide (a ∈ pool)) (targetNodes sc)
           then bps
           else match mapM (fun b => batchValue sc batchIndexes b a)
                           (seq 0 (length (batches sc))) with
                | Some values => mapSet bps a values
                | None => bps
                end)
          = match promote a with Some values => mapSet bps a values | None => bps end)
    as ->.
  { unfold promote. by destruct (existsb _ _). }
  destruct (decide (addr = a)) as [->|Hne].
  - rewrite (bool_decide_eq_true_2 (a ∈ a :: addrs)) by apply list_elem_of_here.
    destruct (promote a) as [values|] eqn:Hp.
    + by destruct (bool_decide (a ∈ addrs)); rewrite ?mapGet_mapSet, ?Z.eqb_refl.
    + by destruct (bool_decide (a ∈ addrs)).
  - assert (bool_decide (addr ∈ a :: addrs) = bool_decide (addr ∈ addrs)) as ->.
    { apply bool_decide_ext. rewrite elem_of_cons. tauto. }
    destruct (if bool_decide (addr ∈ addrs) then promote addr else None); [done|].
    destruct (promote a); [|done].
    rewrite mapGet_mapSet. by rewrite (proj2 (Z.eqb_neq addr a)).
Qed.

(** X25: after [buildBasePointerSet] the base-pointer map holds, for every
    static node that is in no batch's target pool and has a row in every
    batch, the list of its values across the batches (one per batch, in batch
    order); every other address keeps the entry it had before. *)
Theorem buildBasePointerSet_lookup (addr : Z) :
  (promotable addr →
   ∃ values, mapGet (buildBasePointerSet sc batchIndexes) addr = Some values
             ∧ valuesAcrossBatches addr values)
  ∧ (¬ promotable addr →
     mapGet (buildBasePointerSet sc batchIndexes) addr = mapGet (basePointers sc) addr).
Proof.
  unfold buildBasePointerSet. rewrite promoteAll_lookup. split.
  - intros (Hin & Hno & Hall).
    rewrite bool_decide_eq_true_2 by done.
    destruct (proj2 (promote_is_Some addr) (conj Hno Hall)) as [values Hp].
    rewrite Hp. exists values. split; [done|]. by apply promote_Some in Hp as [_ ?].
  - intros Hnot. destruct (bool_decide (addr ∈ (staticNodes sc).*1)) eqn:Hin; [|done].
    apply bool_decide_eq_true in Hin.
    destruct (promote addr) as [values|] eqn:Hp; [|done].
    exfalso. apply Hnot. split; [done|]. apply promote_is_Some. by rewrite Hp.
Qed.

End BasePointerSet.

(* ===================================================================== *)
(** * The coordinator: ingest, classification and the range gate *)
(* ===================================================================== *)

Module Coordinator.
Import Config Scanner.

(** ** [_ingestPreprocessorOutput] *)

(** The shape [Preprocessor.collapse] gives its output: address and value
    arrays of the same length, and rows with one entry per batch. *)
Definition wellShaped (o : Preprocessor.CollapseOutput) : bool :=
  (length (Preprocessor.ssAddrs o) =? length (Preprocessor.ssVals o))%nat
  && (length (Preprocessor.snAddrs o) =? length (Preprocessor.snVals o))%nat
  && (length (Preprocessor.dynAddrs o) =? length (Preprocessor.dynVals o))%nat
  && forallb (fun row => (length row =? Preprocessor.co_batchCount o)%nat)
             (Preprocessor.snVals o ++ Preprocessor.dynVals o).

(** The rows the loops over StaticNodes and DynamicNodes push on batch [b]:
    [if (snV[i][b] !== 0) { push(snA[i]); push(snV[i][b]) }]. *)
Definition sparseRows (addrs : list Z) (vals : list (list Z)) (b : nat) : list (Z * Z) :=
  omap (fun '(addr, row) =>
          let v := default 0 (row !! b) in
          if v =? 0 then None else Some (addr, v))
       (zip addrs vals).

(** Batch [b] after the three loops; every loop runs over the entries in
    order and, for each, over the batches. *)
Definition ingestBatch (o : Preprocessor.CollapseOutput) (b : nat) : Batch :=
  let rows := zip (Preprocessor.ssAddrs o) (Preprocessor.ssVals o)
              ++ sparseRows (Preprocessor.snAddrs o) (Preprocessor.snVals o) b
              ++ sparseRows (Preprocessor.dynAddrs o) (Preprocessor.dynVals o) b in
  {| b_addresses := rows.*1; b_values := rows.*2 |}.

(** [this.batches] after [_ingestPreprocessorOutput(output)].  Outputs of
    another shape than [collapse] builds are outside the model ([None]). *)
Definition _ingestPreprocessorOutput (o : Preprocessor.CollapseOutput)
    : option (list Batch) :=
  if wellShaped o
  then Some (map (ingestBatch o) (seq 0 (Preprocessor.co_batchCount o)))
  else None.

(** ** [classifyNodes] *)

(** An element of [new Array(n)]: [None] is a hole, never assigned. *)
Definition Slots := list (option Z).

(** The rows of a batch: [(addresses[i], values[i])].  A missing value
    ([undefined]) is read as 0: either fails the first test of the
    classification, and an entry that fails it is not looked at again. *)
Definition rows (batch : Batch) : list (Z * Z) :=
  imap (fun i addr => (addr, default 0 (b_values batch !! i))) (b_addresses batch).

(** [if (!allNodes.has(addr)) allNodes.set(addr, new Array(B));
     allNodes.get(addr)[b] = values[i]] *)
Definition noteRow (B b : nat) (allNodes : list (Z * Slots)) (row : Z * Z)
    : list (Z * Slots) :=
  let cur := default (replicate B None) (mapGet allNodes row.1) in
  mapSet allNodes row.1 (<[b := Some row.2]> cur).

(** First pass: the union of the addresses of all batches. *)
Definition allNodesOf (batches : list Batch) : list (Z * Slots) :=
  foldl (fun allNodes bb => foldl (noteRow (length batches) bb.1) allNodes (rows bb.2))
        [] (imap pair batches).

(** [vals.every(p)]: [every] does not visit holes. *)
Definition every (p : Z → bool) (vals : Slots) : bool :=
  forallb (fun s => match s with Some v => p v | None => true end) vals.

(** [v === first], where [first] is [undefined] if [vals[0]] is a hole. *)
Definition sameAs (first : option Z) (v : Z) : bool :=
  match first with Some f => v =? f | None => false end.

Record Pools := {
  p_staticStaticNodes : list (Z * option Z);
  p_staticNodes : list (Z * Slots);
  p_targetNodes : list (gset Z)
}.

(** Second pass, one entry of [allNodes]. *)
Definition classifyEntry (acc : list (Z * option Z) * list (Z * Slots))
    (entry : Z * Slots) : list (Z * option Z) * list (Z * Slots) :=
  let '(addr, vals) := entry in
  if negb (every (fun v => negb (v =? 0)) vals) then acc
  else
    let first := mjoin (vals !! 0%nat) in
    if every (sameAs first) vals
    then (mapSet acc.1 addr first, acc.2)
    else (acc.1, mapSet acc.2 addr vals).

Definition classifyNodes (batches : list Batch) (injectedTargets : gset Z) : Pools :=
  let pools := foldl classifyEntry ([], []) (allNodesOf batches) in
  {| p_staticStaticNodes := pools.1;
     p_staticNodes := pools.2;
     p_targetNodes := replicate (length batches) injectedTargets |}.

(** ** The range gate *)

(** [isInScanRange]; [enabledRanges] is the array of range indexes the UI
    controller assigns ([[0]] by default). *)
Definition isInScanRange (systemId : string) (enabledRanges : list Z) (value : Z) : bool :=
  match getRanges systemId, enabledRanges with
  | [], _ => true
  | _, [] => true
  | allRanges, enabled =>
      existsb (fun ir : nat * Range =>
                 bool_decide (Z.of_nat ir.1 ∈ enabled)
                 && (rmin ir.2 <=? value) && (value <=? rmax ir.2))
              (imap pair allRanges)
  end.

End Coordinator.

(** ** [classifyNodes] *)

Section ClassifyNodes.
Import Scanner Coordinator.

(** The value of the last row of a batch for an address, if there is one:
    a later row of the same batch overwrites an earlier one. *)
Definition lastVal (rs : list (Z * Z)) (addr : Z) : option Z :=
  snd <$> last (filter (fun r => r.1 = addr) rs).

(** The value a batch holds for an address. *)
Definition valueIn (batch : Batch) (addr : Z) : option Z := lastVal (rows batch) addr.

(** One slot per batch: the value, or a hole where the batch has no row. *)
Definition slotsOfAddr (batches : list Batch) (addr : Z) : Slots :=
  map (fun batch => valueIn batch addr) batches.

Lemma lastVal_snoc (l : list (Z * Z)) (a v addr : Z) :
  lastVal (l ++ [(a, v)]) addr = if decide (a = addr) then Some v else lastVal l addr.
Proof.
  unfold lastVal. rewrite filter_app.
  destruct (decide (a = addr)) as [->|Hne].
  - rewrite (filter_cons_True _ (addr, v)) by done. rewrite filter_nil. by rewrite last_snoc.
  - rewrite (filter_cons_False _ (a, v)) by done. rewrite filter_nil. by rewrite app_nil_r.
Qed.

Lemma mapGet_cons {V} (a : Z) (x : V) (m : list (Z * V)) (k : Z) :
  mapGet ((a, x) :: m) k = if a =? k then Some x else mapGet m k.
Proof. unfold mapGet. simpl. by destruct (a =? k). Qed.

Lemma mapGet_None {V} (m : list (Z * V)) (k : Z) :
  mapGet m k = None ↔ k ∉ m.*1.
Proof.
  induction m as [|[a x] m IH]; simpl.
  - split; [intros _; apply not_elem_of_nil|done].
  - rewrite mapGet_cons, not_elem_of_cons.
    destruct (Z.eqb_spec a k) as [->|Hne]; [split; [done|tauto]|].
    rewrite IH. split; [intros ?; split; [congruence|done]|tauto].
Qed.

Section Pass.
Variables (B : nat).

Lemma noteRows_lookup (b : nat) (l : list (Z * Z)) (m : list (Z * Slots)) (addr : Z) :
  mapGet (foldl (noteRow B b) m l) addr
  = match lastVal l addr with
    | Some v => Some (<[b := Some v]> (default (replicate B None) (mapGet m addr)))
    | None => mapGet m addr
    end.
Proof.
  revert addr. induction l as [|[a v] l IH] using rev_ind; intros addr; [done|].
  rewrite foldl_app, lastVal_snoc. cbn [foldl]. unfold noteRow at 1. cbn [fst snd].
  rewrite mapGet_mapSet.
  destruct (decide (a = addr)) as [->|Hne].
  - rewrite Z.eqb_refl. f_equal. rewrite IH.
    destruct (lastVal l addr); [|done]. simpl. apply list_insert_insert_eq.
  - rewrite (proj2 (Z.eqb_neq addr a)) by done. apply IH.
Qed.

Lemma noteRows_NoDup (b : nat) (l : list (Z * Z)) (m : list (Z * Slots)) :
  NoDup m.*1 → NoDup (foldl (noteRow B b) m l).*1.
Proof.
  revert m. induction l as [|row l IH]; intros m Hm; [done|].
  simpl. apply IH. by apply mapSet_NoDup.
Qed.

(** The map after the first batches. *)
Definition notedAfter (bs : list Batch) : list (Z * Slots) :=
  foldl (fun allNodes bb => foldl (noteRow B bb.1) allNodes (rows bb.2))
        [] (imap pair bs).

Lemma notedAfter_snoc (bs : list Batch) (x : Batch) :
  notedAfter (bs ++ [x]) = foldl (noteRow B (length bs)) (notedAfter bs) (rows x).
Proof.
  unfold notedAfter. rewrite imap_app, foldl_app. simpl. by rewrite Nat.add_0_r.
Qed.

Lemma notedAfter_NoDup (bs : list Batch) : NoDup (notedAfter bs).*1.
Proof.
  induction bs as [|x bs IH] using rev_ind; [apply NoDup_nil_2|].
  rewrite notedAfter_snoc. by apply noteRows_NoDup.
Qed.

Lemma notedAfter_lookup (bs : list Batch) (addr : Z) :
  (length bs ≤ B)%nat →
  default (replicate B None) (mapGet (notedAfter bs) addr)
  = slotsOfAddr bs addr ++ replicate (B - length bs) None
  ∧ (is_Some (mapGet (notedAfter bs) addr) ↔ ∃ w, Some w ∈ slotsOfAddr bs addr).
Proof.
  induction bs as [|x bs IH] using rev_ind; intros Hlen.
  - simpl. rewrite Nat.sub_0_r. split; [done|]. split.
    + by intros [? ?].
    + intros [w Hw]. by apply elem_of_nil in Hw.
  - rewrite length_app in *. simpl in Hlen.
    destruct IH as [IHa IHb]; [lia|].
    rewrite notedAfter_snoc, noteRows_lookup.
    change (lastVal (rows x) addr) with (valueIn x addr).
    unfold slotsOfAddr in *. rewrite map_app. cbn [map].
    replace (B - length bs)%nat with (S (B - (length bs + 1))) in IHa by lia.
    destruct (valueIn x addr) as [v|] eqn:Hv; cbn [default].
    + split.
      * rewrite IHa. rewrite insert_app_r_alt by (rewrite length_map; lia).
        rewrite length_map, Nat.sub_diag. simpl. by rewrite <- app_assoc.
      * split; [intros _|done]. exists v. apply elem_of_app. right.
        apply list_elem_of_here.
    + split.
      * rewrite IHa. simpl. by rewrite <- app_assoc.
      * rewrite IHb. split.
        -- intros [w Hw]. exists w. apply elem_of_app. by left.
        -- intros [w [Hw|Hw]%elem_of_app]; [by exists w|].
           apply list_elem_of_singleton in Hw. done.
Qed.

End Pass.

(** Some batch has a row for the address. *)
Definition present (vals : Slots) : bool :=
  existsb (fun s => match s with Some _ => true | None => false end) vals.

Lemma present_spec (vals : Slots) : present vals = true ↔ ∃ w, Some w ∈ vals.
Proof.
  unfold present. rewrite existsb_exists. split.
  - intros ([w|] & Hin & Hs); [|done]. exists w. by apply list_elem_of_In.
  - intros [w Hw]. exists (Some w). split; [by apply list_elem_of_In|done].
Qed.

Lemma allNodesOf_lookup (batches : list Batch) (addr : Z) :
  mapGet (allNodesOf batches) addr
  = if present (slotsOfAddr batches addr)
    then Some (slotsOfAddr batches addr) else None.
Proof.
  change (allNodesOf batches) with (notedAfter (length batches) batches).
  destruct (notedAfter_lookup (length batches) batches addr) as [Ha Hb]; [done|].
  rewrite Nat.sub_diag, app_nil_r in Ha. rewrite <- present_spec in Hb.
  destruct (mapGet (notedAfter (length batches) batches) addr) as [vals|] eqn:Hget.
  - simpl in Ha. subst vals. by rewrite (proj1 Hb).
  - destruct (present _); [|done]. by destruct (proj2 Hb).
Qed.

Lemma classifyFold_lookup (l : list (Z * Slots))
    (acc : list (Z * option Z) * list (Z * Slots)) (addr : Z) :
  NoDup l.*1 →
  let verdict :=
    match mapGet l addr with
    | Some vals =>
        if every (fun v => negb (v =? 0)) vals
        then Some (every (sameAs (mjoin (vals !! 0%nat))) vals, vals)
        else None
    | None => None
    end in
  mapGet (foldl classifyEntry acc l).1 addr
  = match verdict with
    | Some (true, vals) => Some (mjoin (vals !! 0%nat))
    | _ => mapGet acc.1 addr
    end
  ∧ mapGet (foldl classifyEntry acc l).2 addr
    = match verdict with
      | Some (false, vals) => Some vals
      | _ => mapGet acc.2 addr
      end.
Proof.
  revert acc. induction l as [|[a vals] l IH]; intros acc Hnd; [done|].
  simpl in Hnd. apply NoDup_cons in Hnd as [Ha Hnd].
  cbn [foldl]. rewrite mapGet_cons.
  destruct (IH (classifyEntry acc (a, vals)) Hnd) as [IH1 IH2]. clear IH.
  cbv zeta in *. rewrite IH1, IH2. clear IH1 IH2.
  destruct (Z.eqb_spec a addr) as [->|Hne].
  - rewrite (proj2 (mapGet_None l addr) Ha). unfold classifyEntry.
    destruct (every (fun v => negb (v =? 0)) vals); simpl; [|done].
    destruct (every (sameAs _) vals); simpl; by rewrite mapGet_mapSet, Z.eqb_refl.
  - assert (mapGet (classifyEntry acc (a, vals)).1 addr = mapGet acc.1 addr
            ∧ mapGet (classifyEntry acc (a, vals)).2 addr = mapGet acc.2 addr) as [-> ->].
    { unfold classifyEntry.
      destruct (every (fun v => negb (v =? 0)) vals); simpl; [|done].
      destruct (every (sameAs _) vals); simpl;
        by rewrite mapGet_mapSet, (proj2 (Z.eqb_neq addr a)) by done. }
    done.
Qed.

Lemma every_spec (p : Z → bool) (vals : Slots) :
  every p vals = true ↔ ∀ w, Some w ∈ vals → p w = true.
Proof.
  unfold every. rewrite forallb_forall. split.
  - intros H w Hw. by apply (H (Some w)), list_elem_of_In.
  - intros H [w|] Hin; [|done]. by apply H, list_elem_of_In.
Qed.

(** The node qualifies as StaticStatic with value [v]. *)
Definition sameEverywhere (batches : list Batch) (addr v : Z) : Prop :=
  v ≠ 0
  ∧ (∃ batch, batches !! 0%nat = Some batch ∧ valueIn batch addr = Some v)
  ∧ ∀ batch w, batch ∈ batches → valueIn batch addr = Some w → w = v.

Lemma classifyNodes_lookup (batches : list Batch) (injectedTargets : gset Z) (addr : Z) :
  let pools := classifyNodes batches injectedTargets in
  (∀ first, mapGet (p_staticStaticNodes pools) addr = Some first ↔
            ∃ v, first = Some v ∧ sameEverywhere batches addr v)
  ∧ (∀ vals, mapGet (p_staticNodes pools) addr = Some vals ↔
             vals = slotsOfAddr batches addr
             ∧ (∃ batch w, batch ∈ batches ∧ valueIn batch addr = Some w)
             ∧ (∀ batch, batch ∈ batches → valueIn batch addr ≠ Some 0)
             ∧ ¬ ∃ v, sameEverywhere batches addr v)
  ∧ p_targetNodes pools = replicate (length batches) injectedTargets.
Proof.
  cbv zeta. unfold classifyNodes. cbn [p_staticStaticNodes p_staticNodes p_targetNodes].
  destruct (classifyFold_lookup (allNodesOf batches) ([], []) addr) as [H1 H2].
  { apply (notedAfter_NoDup (length batches) batches). }
  cbv zeta in H1, H2. rewrite H1, H2. clear H1 H2.
  rewrite allNodesOf_lookup.
  set (vals := slotsOfAddr batches addr).
  assert (∀ w, Some w ∈ vals ↔ ∃ batch, batch ∈ batches ∧ valueIn batch addr = Some w)
    as Hvals.
  { intros w. unfold vals, slotsOfAddr.
    change (map ?f batches) with (f <$> batches). rewrite list_elem_of_fmap.
    split; intros (batch & ? & ?); exists batch; done. }
  assert (mjoin (vals !! 0%nat) = (batches !! 0%nat) ≫= (fun batch => valueIn batch addr))
    as Hfirst.
  { unfold vals, slotsOfAddr, Slots. change (map ?f batches) with (f <$> batches).
    rewrite list_lookup_fmap. by destruct (batches !! 0%nat). }
  assert (∀ v, sameEverywhere batches addr v ↔
               every (fun v => negb (v =? 0)) vals = true
               ∧ mjoin (vals !! 0%nat) = Some v
               ∧ every (sameAs (Some v)) vals = true) as Hsame.
  { intros v. rewrite !every_spec, Hfirst. unfold sameEverywhere. split.
    - intros (Hv & (b0 & Hb0 & Hv0) & Hall). split_and!.
      + intros w (batch & Hin & Hw)%Hvals.
        rewrite (Hall batch w Hin Hw). by apply negb_true_iff, Z.eqb_neq.
      + by rewrite Hb0.
      + intros w (batch & Hin & Hw)%Hvals. simpl. apply Z.eqb_eq. by eapply Hall.
    - intros (Hnz & Hf & Hall).
      destruct (batches !! 0%nat) as [b0|] eqn:Hb0; [|done]. simpl in Hf.
      assert (Some v ∈ vals) as Hv.
      { apply Hvals. exists b0. split; [by eapply list_elem_of_lookup_2|done]. }
      split_and!.
      + apply Hnz in Hv. by apply negb_true_iff, Z.eqb_neq in Hv.
      + by exists b0.
      + intros batch w Hin Hw. apply Z.eqb_eq. apply (Hall w), Hvals. by exists batch. }
  split_and!; [| |done].
  - intros first. destruct (present vals) eqn:Hpres.
    + apply present_spec in Hpres as [w0 Hw0].
      destruct (every (fun v => negb (v =? 0)) vals) eqn:Hnz.
      * destruct (every (sameAs (mjoin (vals !! 0%nat))) vals) eqn:Heq.
        -- split.
           ++ intros [= <-].
              destruct (mjoin (vals !! 0%nat)) as [v|] eqn:Hf.
              ** exists v. split; [done|]. by apply Hsame.
              ** exfalso. rewrite every_spec in Heq. by specialize (Heq w0 Hw0).
           ++ intros (v & -> & (_ & Hf & _)%Hsame). by rewrite Hf.
        -- split; [done|]. intros (v & -> & (_ & Hf & Hall)%Hsame).
           rewrite Hf in Heq. congruence.
      * split; [done|]. intros (v & -> & (? & _)%Hsame). congruence.
    + split; [done|]. intros (v & -> & (_ & Hf & _)%Hsame).
      assert (present vals = true) as Habs; [|congruence]. apply present_spec.
      exists v. rewrite Hfirst in Hf.
      destruct (batches !! 0%nat) as [b0|] eqn:Hb0; [|done]. simpl in Hf.
      apply Hvals. exists b0. split; [by eapply list_elem_of_lookup_2|done].
  - intros slots. destruct (present vals) eqn:Hpres.
    + apply present_spec in Hpres as [w0 Hw0].
      destruct (every (fun v => negb (v =? 0)) vals) eqn:Hnz.
      * destruct (every (sameAs (mjoin (vals !! 0%nat))) vals) eqn:Heq.
        -- split; [done|]. intros (_ & _ & _ & Hno). exfalso. apply Hno.
           destruct (mjoin (vals !! 0%nat)) as [v|] eqn:Hf.
           ++ exists v. by apply Hsame.
           ++ rewrite every_spec in Heq. by specialize (Heq w0 Hw0).
        -- split.
           ++ intros [= <-]. split_and!; [done| | |].
              ** apply Hvals in Hw0 as (batch & ? & ?). by exists batch, w0.
              ** intros batch Hin H0. rewrite every_spec in Hnz.
                 assert (Some 0 ∈ vals) as Hz by (apply Hvals; by exists batch).
                 by apply Hnz in Hz.
              ** intros (v & (_ & Hf & Hall)%Hsame). rewrite Hf in Heq. congruence.
           ++ by intros (-> & _).
      * split; [done|]. intros (_ & _ & Hz & _). exfalso.
        assert (every (fun v => negb (v =? 0)) vals = true) as Habs; [|congruence].
        apply every_spec. intros w (batch & Hin & Hw)%Hvals.
        apply negb_true_iff, Z.eqb_neq. intros ->. by apply (Hz batch).
    + split; [done|]. intros (_ & (batch & w & Hin & Hw) & _).
      assert (present vals = true) as Habs; [|congruence]. apply present_spec.
      exists w. apply Hvals. by exists batch.
Qed.

(** X26: how [classifyNodes] classifies an address.  It is a StaticStatic
    node with value [v] exactly when batch 0 holds the non-zero value [v] for
    it and every batch that has a row for it holds [v]; it is a StaticNode
    exactly when some batch has a row for it, no batch holds 0 for it, and it
    is not StaticStatic, and the array stored for it then has the value of
    every batch that has a row and a hole for every batch that has none.  So
    an address need not be present in every batch to be classified.  Every
    batch gets the injected targets as its target pool. *)
Theorem classifyNodes_pools (batches : list Batch) (injectedTargets : gset Z) (addr : Z) :
  let pools := classifyNodes batches injectedTargets in
  (∀ first, mapGet (p_staticStaticNodes pools) addr = Some first ↔
            ∃ v, first = Some v ∧ sameEverywhere batches addr v)
  ∧ (∀ vals, mapGet (p_staticNodes pools) addr = Some vals ↔
             vals = slotsOfAddr batches addr
             ∧ (∃ batch w, batch ∈ batches ∧ valueIn batch addr = Some w)
             ∧ (∀ batch, batch ∈ batches → valueIn batch addr ≠ Some 0)
             ∧ ¬ ∃ v, sameEverywhere batches addr v)
  ∧ p_targetNodes pools = replicate (length batches) injectedTargets.
Proof. apply classifyNodes_lookup. Qed.

End ClassifyNodes.

(** ** [_ingestPreprocessorOutput], and the classification of what it builds *)

Section IngestFacts.
Import Scanner Coordinator.

(** [if (v !== 0) push]: a zero entry of a row leaves no row in the batch. *)
Definition nonzero (v : Z) : option Z := if v =? 0 then None else Some v.

Lemma rows_of_pairs (rs : list (Z * Z)) :
  rows {| b_addresses := rs.*1; b_values := rs.*2 |} = rs.
Proof.
  unfold rows. cbn [b_addresses b_values]. apply list_eq. intros i.
  rewrite list_lookup_imap, !list_lookup_fmap.
  by destruct (rs !! i) as [[a v]|].
Qed.

Lemma lastVal_notin (l : list (Z * Z)) (a : Z) : a ∉ l.*1 → lastVal l a = None.
Proof.
  induction l as [|[a' v'] l IH] using rev_ind; [done|].
  rewrite fmap_app, not_elem_of_app, lastVal_snoc. simpl.
  rewrite list_elem_of_singleton. intros [Hl Ha].
  destruct (decide (a' = a)); [congruence|by apply IH].
Qed.

Lemma lastVal_elem (l : list (Z * Z)) (a v : Z) :
  NoDup l.*1 → (a, v) ∈ l → lastVal l a = Some v.
Proof.
  induction l as [|[a' v'] l IH] using rev_ind; [by intros _ ?%elem_of_nil|].
  rewrite fmap_app, lastVal_snoc. simpl.
  intros (Hnd & Hdis & _)%NoDup_app [Hin|Hin%list_elem_of_singleton]%elem_of_app.
  - destruct (decide (a' = a)) as [->|_]; [|by apply IH].
    exfalso. apply (Hdis a); [|apply list_elem_of_here].
    apply list_elem_of_fmap. by exists (a, v).
  - injection Hin as <- <-. by rewrite decide_True.
Qed.

Lemma elem_of_zip {A B} (l : list A) (k : list B) (x : A) (y : B) :
  (x, y) ∈ zip l k ↔ ∃ i, l !! i = Some x ∧ k !! i = Some y.
Proof.
  rewrite list_elem_of_lookup. unfold zip. split.
  - intros [i (x' & y' & [= -> ->] & ? & ?)%lookup_zip_with_Some]. by exists i.
  - intros (i & ? & ?). exists i. apply lookup_zip_with_Some. by exists x, y.
Qed.

Lemma elem_of_sparseRows (addrs : list Z) (vals : list (list Z)) (b : nat) (a v : Z) :
  (a, v) ∈ sparseRows addrs vals b ↔
  ∃ i row, addrs !! i = Some a ∧ vals !! i = Some row
           ∧ nonzero (default 0 (row !! b)) = Some v.
Proof.
  unfold sparseRows, nonzero. rewrite list_elem_of_omap. split.
  - intros ([a' row] & (i & ? & ?)%elem_of_zip & Hf). exists i, row.
    destruct (default 0 (row !! b) =? 0); [done|]. injection Hf as -> <-. done.
  - intros (i & row & ? & ? & Hf). exists (a, row). split; [apply elem_of_zip; by exists i|].
    destruct (default 0 (row !! b) =? 0); [done|]. by injection Hf as ->.
Qed.

Lemma sparseRows_keys (addrs : list Z) (vals : list (list Z)) (b : nat) :
  (sparseRows addrs vals b).*1 `sublist_of` addrs.
Proof.
  unfold sparseRows. revert vals. induction addrs as [|a addrs IH]; intros vals.
  - apply sublist_nil_l.
  - destruct vals as [|row vals]; [apply sublist_nil_l|]. simpl.
    destruct (default 0 (row !! b) =? 0); simpl.
    + apply sublist_cons, IH.
    + apply sublist_skip, IH.
Qed.

Section Output.
Variable o : Preprocessor.CollapseOutput.
Hypothesis Hshape : wellShaped o = true.
Hypothesis Hnd :
  NoDup (Preprocessor.ssAddrs o ++ Preprocessor.snAddrs o ++ Preprocessor.dynAddrs o).

Local Abbreviation n := (Preprocessor.co_batchCount o).

Lemma wellShaped_lengths :
  length (Preprocessor.ssAddrs o) = length (Preprocessor.ssVals o)
  ∧ length (Preprocessor.snAddrs o) = length (Preprocessor.snVals o)
  ∧ length (Preprocessor.dynAddrs o) = length (Preprocessor.dynVals o)
  ∧ ∀ row, row ∈ Preprocessor.snVals o ++ Preprocessor.dynVals o → length row = n.
Proof.
  unfold wellShaped in Hshape.
  apply andb_true_iff in Hshape as [[[H1 H2]%andb_true_iff H3]%andb_true_iff H4].
  apply Nat.eqb_eq in H1, H2, H3. split_and!; [done..|].
  intros row Hrow. rewrite forallb_forall in H4.
  by apply Nat.eqb_eq, H4, list_elem_of_In.
Qed.

(** The rows of batch [b] after the ingest. *)
Definition ingestedRows (b : nat) : list (Z * Z) :=
  zip (Preprocessor.ssAddrs o) (Preprocessor.ssVals o)
  ++ sparseRows (Preprocessor.snAddrs o) (Preprocessor.snVals o) b
  ++ sparseRows (Preprocessor.dynAddrs o) (Preprocessor.dynVals o) b.

Lemma ingestedRows_NoDup (b : nat) : NoDup (ingestedRows b).*1.
Proof.
  destruct wellShaped_lengths as (H1 & _).
  unfold ingestedRows. rewrite !fmap_app, fst_zip by lia.
  eapply sublist_NoDup; [exact Hnd|].
  apply sublist_app; [done|]. apply sublist_app; apply sparseRows_keys.
Qed.

Lemma valueIn_ingestBatch (b : nat) (a : Z) :
  valueIn (ingestBatch o b) a = lastVal (ingestedRows b) a.
Proof. unfold valueIn, ingestBatch. by rewrite rows_of_pairs. Qed.

Lemma ingested_keys (b : nat) (a : Z) :
  a ∈ (ingestedRows b).*1 →
  a ∈ Preprocessor.ssAddrs o ++ Preprocessor.snAddrs o ++ Preprocessor.dynAddrs o.
Proof.
  destruct wellShaped_lengths as (H1 & _).
  unfold ingestedRows. rewrite !fmap_app, fst_zip by lia. rewrite !elem_of_app.
  intros [?|[Hin|Hin]]; [by left|right; left|right; right];
    (eapply elem_of_sublist; [exact Hin|apply sparseRows_keys]).
Qed.

Lemma ingest_staticStatic (b : nat) (i : nat) (a v : Z) :
  Preprocessor.ssAddrs o !! i = Some a → Preprocessor.ssVals o !! i = Some v →
  valueIn (ingestBatch o b) a = Some v.
Proof.
  intros Ha Hv. rewrite valueIn_ingestBatch.
  apply lastVal_elem; [apply ingestedRows_NoDup|].
  unfold ingestedRows. apply elem_of_app. left. apply elem_of_zip. by exists i.
Qed.

(** An entry of the StaticNodes or of the DynamicNodes section. *)
Definition sparseEntry (i : nat) (a : Z) (row : list Z) : Prop :=
  (Preprocessor.snAddrs o !! i = Some a ∧ Preprocessor.snVals o !! i = Some row)
  ∨ (Preprocessor.dynAddrs o !! i = Some a ∧ Preprocessor.dynVals o !! i = Some row).

Lemma sparseEntry_length (i : nat) (a : Z) (row : list Z) :
  sparseEntry i a row → length row = n.
Proof.
  destruct wellShaped_lengths as (_ & _ & _ & Hrows).
  intros [[_ Hrow]|[_ Hrow]]; apply Hrows, elem_of_app;
    [left|right]; by eapply list_elem_of_lookup_2.
Qed.

Lemma ingest_sparse (b : nat) (i : nat) (a : Z) (row : list Z) :
  sparseEntry i a row →
  valueIn (ingestBatch o b) a = nonzero (default 0 (row !! b)).
Proof.
  intros Hentry. rewrite valueIn_ingestBatch.
  pose proof Hnd as Hnd'.
  apply NoDup_app in Hnd' as (Hss & Hdis1 & Hrest).
  apply NoDup_app in Hrest as (Hsn & Hdis2 & Hdyn).
  destruct (nonzero (default 0 (row !! b))) as [v|] eqn:Hv.
  - apply lastVal_elem; [apply ingestedRows_NoDup|].
    unfold ingestedRows. rewrite !elem_of_app. right.
    destruct Hentry as [[Ha Hrow]|[Ha Hrow]]; [left|right];
      apply elem_of_sparseRows; by exists i, row.
  - apply lastVal_notin. intros Hin.
    apply list_elem_of_fmap in Hin as ([a' v] & Heq & Hin). simpl in Heq. subst a'.
    unfold ingestedRows in Hin. rewrite !elem_of_app in Hin.
    destruct Hin as [(j & Hj & _)%elem_of_zip
                    |[(j & row' & Hj & Hrow' & Hv')%elem_of_sparseRows
                     |(j & row' & Hj & Hrow' & Hv')%elem_of_sparseRows]].
    + apply list_elem_of_lookup_2 in Hj. apply (Hdis1 a Hj).
      apply elem_of_app.
      destruct Hentry as [[Ha _]|[Ha _]]; [left|right];
        exact (list_elem_of_lookup_2 _ _ _ Ha).
    + destruct Hentry as [[Ha Hrow]|[Ha Hrow]].
      * assert (j = i) as -> by exact (NoDup_lookup _ _ _ _ Hsn Hj Ha). congruence.
      * apply list_elem_of_lookup_2 in Hj, Ha. by apply (Hdis2 a).
    + destruct Hentry as [[Ha Hrow]|[Ha Hrow]].
      * apply list_elem_of_lookup_2 in Hj, Ha. by apply (Hdis2 a).
      * assert (j = i) as -> by exact (NoDup_lookup _ _ _ _ Hdyn Hj Ha). congruence.
Qed.

Lemma ingest_absent (b : nat) (a : Z) :
  a ∉ Preprocessor.ssAddrs o ++ Preprocessor.snAddrs o ++ Preprocessor.dynAddrs o →
  valueIn (ingestBatch o b) a = None.
Proof.
  intros Ha. rewrite valueIn_ingestBatch. apply lastVal_notin.
  intros Hin. by apply Ha, (ingested_keys b).
Qed.

Lemma ingest_Some :
  _ingestPreprocessorOutput o = Some (map (ingestBatch o) (seq 0 n)).
Proof. unfold _ingestPreprocessorOutput. by rewrite Hshape. Qed.

(** X27: what [_ingestPreprocessorOutput] builds from an output of the shape
    [collapse] produces, with pairwise different addresses.  There is one
    batch per dump, with as many values as addresses.  In every batch a
    StaticStatic address holds its value; an address of the StaticNodes or
    DynamicNodes section holds the entry of its row for that batch when the
    entry is not 0, and has no row in the batch when it is 0; no other
    address has a row. *)
Theorem ingest_batches :
  ∃ bs, _ingestPreprocessorOutput o = Some bs
        ∧ length bs = n
        ∧ ∀ b batch, bs !! b = Some batch →
            length (b_addresses batch) = length (b_values batch)
            ∧ (∀ i a v, Preprocessor.ssAddrs o !! i = Some a →
                        Preprocessor.ssVals o !! i = Some v →
                        valueIn batch a = Some v)
            ∧ (∀ i a row v, sparseEntry i a row → row !! b = Some v →
                            valueIn batch a = nonzero v)
            ∧ (∀ a, a ∉ Preprocessor.ssAddrs o ++ Preprocessor.snAddrs o
                          ++ Preprocessor.dynAddrs o →
                    valueIn batch a = None).
Proof.
  exists (map (ingestBatch o) (seq 0 n)). split; [apply ingest_Some|].
  split; [by rewrite length_map, length_seq|].
  intros b batch Hb. change (map ?f ?l) with (f <$> l) in Hb.
  rewrite list_lookup_fmap in Hb.
  destruct (seq 0 n !! b) as [b'|] eqn:Hseq; [|done].
  apply lookup_seq in Hseq as [-> _]. simpl in Hb. injection Hb as <-.
  split_and!.
  - unfold ingestBatch. cbn [b_addresses b_values]. by rewrite !length_fmap.
  - intros i a v. apply ingest_staticStatic.
  - intros i a row v Hentry Hv. rewrite (ingest_sparse b i a row Hentry). by rewrite Hv.
  - apply ingest_absent.
Qed.

(** The row leads to a StaticStatic node with value [v]: its first entry is
    [v], not 0, and every other entry is [v] or 0. *)
Definition sameWherePresent (row : list Z) (v : Z) : Prop :=
  head row = Some v ∧ v ≠ 0 ∧ ∀ w, w ∈ row → w = 0 ∨ w = v.

Lemma ingest_slots (i : nat) (a : Z) (row : list Z) :
  sparseEntry i a row →
  slotsOfAddr (map (ingestBatch o) (seq 0 n)) a = nonzero <$> row.
Proof.
  intros Hentry. pose proof (sparseEntry_length i a row Hentry) as Hlen.
  unfold slotsOfAddr. rewrite map_map.
  apply list_eq. intros b. change (map ?f ?l) with (f <$> l).
  rewrite !list_lookup_fmap.
  destruct (decide (b < n)%nat) as [Hb|Hb].
  - rewrite lookup_seq_lt by done. simpl. rewrite (ingest_sparse b i a row Hentry).
    destruct (lookup_lt_is_Some_2 row b) as [v Hv]; [lia|]. by rewrite Hv.
  - rewrite lookup_seq_ge by lia. by rewrite lookup_ge_None_2 by lia.
Qed.

Lemma ingest_sameEverywhere (i : nat) (a : Z) (row : list Z) (v : Z) :
  sparseEntry i a row →
  sameEverywhere (map (ingestBatch o) (seq 0 n)) a v ↔ sameWherePresent row v.
Proof.
  intros Hentry. pose proof (sparseEntry_length i a row Hentry) as Hlen.
  unfold sameEverywhere, sameWherePresent. split.
  - intros (Hv & (batch & Hb0 & Hv0) & Hall).
    change (map ?f ?l) with (f <$> l) in Hb0. rewrite list_lookup_fmap in Hb0.
    destruct (seq 0 n !! 0%nat) as [b'|] eqn:Hseq; [|done].
    apply lookup_seq in Hseq as [-> Hn]. simpl in Hb0. injection Hb0 as <-.
    rewrite (ingest_sparse 0 i a row Hentry) in Hv0.
    split_and!; [|done|].
    + destruct row as [|r0 row]; [simpl in Hlen; lia|]. simpl in *.
      unfold nonzero in Hv0. destruct (r0 =? 0); [done|]. by injection Hv0 as ->.
    + intros w [b Hw]%list_elem_of_lookup.
      destruct (decide (w = 0)) as [|Hw0]; [by left|right].
      apply (Hall (ingestBatch o b) w).
      * apply list_elem_of_fmap. exists b. split; [done|].
        apply elem_of_seq. apply lookup_lt_Some in Hw. lia.
      * rewrite (ingest_sparse b i a row Hentry), Hw. simpl.
        unfold nonzero. by rewrite (proj2 (Z.eqb_neq w 0)).
  - intros (Hhead & Hv & Hall). split_and!; [done| |].
    + exists (ingestBatch o 0). split.
      * change (map ?f ?l) with (f <$> l). rewrite list_lookup_fmap.
        rewrite lookup_seq_lt; [done|]. destruct row; [done|]. simpl in Hlen. lia.
      * rewrite (ingest_sparse 0 i a row Hentry).
        destruct row as [|r0 row]; [done|]. simpl in *. injection Hhead as ->.
        unfold nonzero. by rewrite (proj2 (Z.eqb_neq v 0)).
    + intros batch w (b & -> & Hb%elem_of_seq)%list_elem_of_fmap.
      rewrite (ingest_sparse b i a row Hentry).
      destruct (lookup_lt_is_Some_2 row b) as [x Hx]; [lia|]. rewrite Hx. simpl.
      unfold nonzero. destruct (Z.eqb_spec x 0); [done|]. intros [= <-].
      destruct (Hall x); [by eapply list_elem_of_lookup_2|done..].
Qed.

(** X28: how [classifyNodes] classifies the batches built by the ingest.
    An address of the StaticStatics section with a non-zero value is a
    StaticStatic node again (if there is a batch at all).  An address of the
    StaticNodes or DynamicNodes section whose row has a non-zero entry is
    never left out: it becomes a StaticStatic node with value [v] when the
    first entry of its row is [v] and every other entry is [v] or 0, and a
    StaticNode otherwise, stored with a hole for every zero entry.  So a
    DynamicNode, absent from some batch, ends up in one of the two static
    pools. *)
Theorem classify_ingested (injectedTargets : gset Z) :
  ∃ bs, _ingestPreprocessorOutput o = Some bs ∧
    let pools := classifyNodes bs injectedTargets in
    (∀ i a v, Preprocessor.ssAddrs o !! i = Some a →
              Preprocessor.ssVals o !! i = Some v → v ≠ 0 → (0 < n)%nat →
              mapGet (p_staticStaticNodes pools) a = Some (Some v))
    ∧ (∀ i a row, sparseEntry i a row → (∃ w, w ∈ row ∧ w ≠ 0) →
         (∀ v, sameWherePresent row v →
               mapGet (p_staticStaticNodes pools) a = Some (Some v))
         ∧ ((¬ ∃ v, sameWherePresent row v) →
            mapGet (p_staticNodes pools) a = Some (nonzero <$> row))).
Proof.
  exists (map (ingestBatch o) (seq 0 n)). split; [apply ingest_Some|].
  cbv zeta. split.
  - intros i a v Ha Hv Hnz Hn.
    apply (classifyNodes_lookup _ injectedTargets a). exists v. split; [done|].
    split_and!; [done| |].
    + exists (ingestBatch o 0). split; [|by eapply ingest_staticStatic].
      change (map ?f ?l) with (f <$> l). rewrite list_lookup_fmap.
      by rewrite lookup_seq_lt.
    + intros batch w (b & -> & _)%list_elem_of_fmap.
      rewrite (ingest_staticStatic b i a v Ha Hv). congruence.
  - intros i a row Hentry (w & Hw & Hwz). split.
    + intros v Hsame. apply (classifyNodes_lookup _ injectedTargets a).
      exists v. split; [done|]. by apply (ingest_sameEverywhere i a row v Hentry).
    + intros Hno. apply (classifyNodes_lookup _ injectedTargets a).
      pose proof (sparseEntry_length i a row Hentry) as Hlen.
      split_and!.
      * symmetry. by apply (ingest_slots i).
      * apply list_elem_of_lookup in Hw as [b Hb].
        exists (ingestBatch o b), w. split.
        -- apply list_elem_of_fmap. exists b. split; [done|].
           apply elem_of_seq. apply lookup_lt_Some in Hb. lia.
        -- rewrite (ingest_sparse b i a row Hentry), Hb. simpl.
           unfold nonzero. by rewrite (proj2 (Z.eqb_neq w 0)).
      * intros batch (b & -> & Hb%elem_of_seq)%list_elem_of_fmap.
        rewrite (ingest_sparse b i a row Hentry).
        unfold nonzero. destruct (Z.eqb_spec (default 0 (row !! b)) 0); congruence.
      * intros [v Hv]. apply Hno. exists v.
        by apply (ingest_sameEverywhere i a row v Hentry).
Qed.

End Output.
End IngestFacts.

Section IngestExamples.
Import Scanner Coordinator.

(** The output of [collapse] for the two PlayStation dumps: one node of each
    class; the DynamicNode 0x80010008 has a row in the first dump only. *)
Definition ps1Output : Preprocessor.CollapseOutput := (Preprocessor.collapse ps1State).1.

Lemma ingest_batches_ps1 :
  let o := ps1Output in
  ∃ bs, _ingestPreprocessorOutput o = Some bs
        ∧ length bs = Preprocessor.co_batchCount o
        ∧ ∀ b batch, bs !! b = Some batch →
            length (b_addresses batch) = length (b_values batch)
            ∧ (∀ i a v, Preprocessor.ssAddrs o !! i = Some a →
                        Preprocessor.ssVals o !! i = Some v →
                        valueIn batch a = Some v)
            ∧ (∀ i a row v, sparseEntry o i a row → row !! b = Some v →
                            valueIn batch a = nonzero v)
            ∧ (∀ a, a ∉ Preprocessor.ssAddrs o ++ Preprocessor.snAddrs o
                          ++ Preprocessor.dynAddrs o →
                    valueIn batch a = None).
Proof.
  apply (ingest_batches ps1Output).
  - vm_compute. reflexivity.
  - apply (bool_decide_eq_true_1 (NoDup _)). vm_compute. reflexivity.
Defined.

Lemma classify_ingested_ps1 :
  let o := ps1Output in
  ∃ bs, _ingestPreprocessorOutput o = Some bs ∧
    let pools := classifyNodes bs ∅ in
    (∀ i a v, Preprocessor.ssAddrs o !! i = Some a →
              Preprocessor.ssVals o !! i = Some v → v ≠ 0 →
              (0 < Preprocessor.co_batchCount o)%nat →
              mapGet (p_staticStaticNodes pools) a = Some (Some v))
    ∧ (∀ i a row, sparseEntry o i a row → (∃ w, w ∈ row ∧ w ≠ 0) →
         (∀ v, sameWherePresent row v →
               mapGet (p_staticStaticNodes pools) a = Some (Some v))
         ∧ ((¬ ∃ v, sameWherePresent row v) →
            mapGet (p_staticNodes pools) a = Some (nonzero <$> row))).
Proof.
  apply (classify_ingested ps1Output).
  - vm_compute. reflexivity.
  - apply (bool_decide_eq_true_1 (NoDup _)). vm_compute. reflexivity.
Defined.

(** The DynamicNode of the two dumps comes out of [classifyNodes] as a
    StaticStatic node. *)
Lemma dynamic_node_classified_static :
  ∃ bs, _ingestPreprocessorOutput ps1Output = Some bs
        ∧ Preprocessor.dynAddrs ps1Output = [JS.toInt32 0x80010008]
        ∧ mapGet (p_staticStaticNodes (classifyNodes bs ∅)) (JS.toInt32 0x80010008)
          = Some (Some 0x100020).
Proof. eexists. split_and!; vm_compute; reflexivity. Qed.

End IngestExamples.

(** ** The range gate of the forward scan *)

Section RangeGate.
Import Config Coordinator.

Lemma isInScanRange_spec (id : string) (enabled : list Z) (v : Z) :
  isInScanRange id enabled v = true ↔
  getRanges id = [] ∨ enabled = []
  ∨ ∃ (i : nat) r, getRanges id !! i = Some r ∧ Z.of_nat i ∈ enabled
                   ∧ rmin r ≤ v ≤ rmax r.
Proof.
  unfold isInScanRange.
  destruct (getRanges id) as [|r0 rs] eqn:Hrs; [by split; [left|]|].
  destruct enabled as [|e0 es]; [by split; [right; left|]|].
  rewrite existsb_exists. split.
  - intros ([i r] & Hin & Hc). right. right. exists i, r.
    apply list_elem_of_In, list_elem_of_lookup in Hin as [j Hj].
    rewrite list_lookup_imap in Hj.
    destruct ((r0 :: rs) !! j) as [r'|] eqn:Hr'; [|done]. injection Hj as <- <-.
    apply andb_true_iff in Hc as [[H1 H2]%andb_true_iff H3]. simpl in *.
    apply bool_decide_eq_true in H1. apply Z.leb_le in H2, H3. done.
  - intros [?|[?|(i & r & Hr & Hi & Hv)]]; [done..|].
    exists (i, r). split.
    + apply list_elem_of_In, list_elem_of_lookup. exists i.
      by rewrite list_lookup_imap, Hr.
    + simpl. rewrite bool_decide_eq_true_2 by done.
      apply andb_true_iff. split; apply Z.leb_le; lia.
Qed.

(** X29: the range gate for a system in [half] mode whose memory lies at or
    above 0x80000000 (N64, PS1, Dreamcast), where Range 1 is empty and
    Range 2 starts at a negative number.  With a non-empty selection of
    ranges that leaves out Range 2, such as the scanner's default [[0]], the
    gate rejects every address; with Range 2 selected it lets every address
    from 0 to the memory maximum pass, also those below the memory
    minimum. *)
Theorem isInScanRange_half_high (id : string) (cfg : SystemConfig) (r : MinMax)
    (enabled : list Z) (v : Z) :
  getSystemConfig id = Some cfg →
  memoryRange cfg = Single r → rangeMode cfg = "half" →
  2^31 ≤ mm_min r → mm_min r ≤ mm_max r → mm_max r < 2^32 →
  (enabled ≠ [] → 1 ∉ enabled → isInScanRange id enabled v = false)
  ∧ (1 ∈ enabled → 0 ≤ v ≤ mm_max r → isInScanRange id enabled v = true).
Proof.
  intros Hcfg Hr Hmode Hlo Hle Hhi.
  assert (getRanges id =
          [ {| label := "Range 1"; rmin := mm_min r;
               rmax := floorAlign (mm_min r + (mm_max r - mm_min r + 1) / 2) - 4 |};
            {| label := "Range 2";
               rmin := floorAlign (mm_min r + (mm_max r - mm_min r + 1) / 2);
               rmax := mm_max r |} ]) as Hranges.
  { unfold getRanges. rewrite Hcfg. unfold rangesOf. by rewrite Hr, Hmode. }
  set (mid := floorAlign (mm_min r + (mm_max r - mm_min r + 1) / 2)) in *.
  assert (mid < 0) as Hmid.
  { apply floorAlign_negative.
    pose proof (Z.div_mod (mm_max r - mm_min r + 1) 2).
    pose proof (Z.mod_pos_bound (mm_max r - mm_min r + 1) 2).
    lia. }
  split.
  - intros Hne Hno. apply not_true_is_false. rewrite isInScanRange_spec, Hranges.
    intros [?|[?|(i & r' & Hr' & Hi & Hv)]]; [done..|].
    destruct i as [|[|i]]; simpl in Hr'; [| |done].
    + injection Hr' as <-. simpl in Hv. lia.
    + by apply Hno.
  - intros Hin Hv. apply isInScanRange_spec. right. right.
    exists 1%nat, {| label := "Range 2"; rmin := mid; rmax := mm_max r |}.
    rewrite Hranges. split_and!; [done|done|simpl; lia|simpl; lia].
Qed.

Lemma isInScanRange_half_high_n64 :
  ([0] ≠ [] → 1 ∉ [0] → isInScanRange "n64" [0] 0x80001000 = false)
  ∧ (1 ∈ [0] → 0 ≤ 0x80001000 ≤ 0x807FFFFF → isInScanRange "n64" [0] 0x80001000 = true).
Proof.
  apply (isInScanRange_half_high "n64"
           (mk "Nintendo 64" None (single 0x80000000 0x807FFFFF) true false "half")
           {| mm_min := 0x80000000; mm_max := 0x807FFFFF |});
    [reflexivity | reflexivity | reflexivity | simpl; lia | simpl; lia | simpl; lia].
Defined.

End RangeGate.

(* ===================================================================== *)
(** * core.js: [formatHex] and [parseHex] *)
(* ===================================================================== *)

Module CoreHex.
Import (notations) Stdlib.Strings.Ascii.













End CoreHex.

Section HexRoundTrip.
Import (notations) Stdlib.Strings.Ascii.
Import CoreHex.












End HexRoundTrip.

Section FurtherExamples.
Import Scanner ForwardScanner CoreHex.

(** The base pointer of the two-chunk scan is a static node outside the
    (empty) target pools with a row in both batches. *)
Lemma buildBasePointerSet_lookup_twoChunk :
  ∃ values,
    mapGet (buildBasePointerSet twoChunkScanner (buildBatchIndexes twoChunkScanner)) 0x200000
    = Some values
    ∧ valuesAcrossBatches twoChunkScanner (buildBatchIndexes twoChunkScanner)
        0x200000 values.
Proof.
  apply (proj1 (buildBasePointerSet_lookup twoChunkScanner
                  (buildBatchIndexes twoChunkScanner) 0x200000)).
  split_and!.
  - apply list_elem_of_here.
  - intros pool Hin.
    repeat (apply elem_of_cons in Hin as [->|Hin]; [apply not_elem_of_empty|]).
    by apply elem_of_nil in Hin.
  - intros b Hb. destruct b as [|[|b]]; [by eexists..|simpl in Hb; lia].
Defined.


End FurtherExamples.
